(** * Red-black trees of the RBTree visualizer: model and verification

    The tree engines of analyze.py ([RBTree]) and build.py
    ([RBTreeAnimated]), the sequence executor, the permutation search and
    the colouring sampler, as Rocq definitions, and the properties of the
    specification proved or refuted about them.

    The engines work on a store of node objects; the model keeps that store
    ([gmap] from object identities to nodes) and runs the methods in a state
    and error monad.  The proofs relate the store to an abstract tree whose
    nodes carry their identities. *)

From stdpp Require Import base option list gmap sorting.
From Stdlib Require Import ZArith Lia Permutation Sorted QArith.
Local Open Scope Z_scope.
Local Open Scope nat_scope.

(** * Red-black tree engines of the RBTree visualizer

    A shallow embedding of the two tree engines ([RBTree] of analyze.py and
    [RBTreeAnimated] of build.py), of the permutation search and of the
    colouring sampler, together with the properties stated about them.

    Nodes are Python objects with identity and mutable fields; they are
    modelled as cells of a store indexed by object identity, and every
    method is a computation in a state-and-error monad over that store. *)



(** ** Colours, nodes and the object store *)

(** [RED, BLACK = True, False] *)
Definition RED : bool := true.
Definition BLACK : bool := false.

(** Object identity of a node. *)
Abbreviation ptr := nat (only parsing).

(** [class RBNode]: the key is [None] for the sentinel, the parent is [None]
    for the root.  [left] and [right] always hold a node once the constructor
    of the tree or [insert] has run, so they are plain references. *)
Record RBNode := mkRBNode {
  key : option Z;
  color : bool;
  left : ptr;
  right : ptr;
  parent : option ptr
}.

(** The sentinel is the first object a tree allocates; [self.NIL] is never
    reassigned. *)
Definition NIL : ptr := 0.

(** A tree object: the store of its nodes, [self.root], and the identity the
    next allocated node receives. *)
Record RBTree := mkRBTree {
  heap : gmap ptr RBNode;
  root : ptr;
  next : ptr
}.

(** ** The monad of methods: state passing, [None] is a raised exception
    (attribute access on [None]) or an exhausted loop budget. *)
Definition M (A : Type) : Type := RBTree -> option (A * RBTree).

Definition ret {A} (a : A) : M A := fun st => Some (a, st).
Definition bind {A B} (m : M A) (f : A -> M B) : M B :=
  fun st => match m st with
            | Some (a, st') => f a st'
            | None => None
            end.
Definition raise {A} : M A := fun _ => None.

Notation "'let*' x ':=' m 'in' k" := (bind m (fun x => k))
  (at level 10, x name, m at level 100, k at level 200).
Notation "m ';;' k" := (bind m (fun _ => k))
  (at level 100, k at level 200, right associativity).

(** Field reads and writes. *)
Definition load (a : ptr) : M RBNode :=
  fun st => match heap st !! a with
            | Some n => Some (n, st)
            | None => None
            end.
Definition store (a : ptr) (n : RBNode) : M unit :=
  fun st => Some (tt, mkRBTree (<[a := n]> (heap st)) (root st) (next st)).

Definition get_key (a : ptr) : M Z :=
  let* n := load a in
  match key n with Some k => ret k | None => raise end.
Definition get_color (a : ptr) : M bool := let* n := load a in ret (color n).
Definition get_left (a : ptr) : M ptr := let* n := load a in ret (left n).
Definition get_right (a : ptr) : M ptr := let* n := load a in ret (right n).
Definition get_parent (a : ptr) : M (option ptr) :=
  let* n := load a in ret (parent n).

Definition set_color (a : ptr) (c : bool) : M unit :=
  let* n := load a in
  store a (mkRBNode (key n) c (left n) (right n) (parent n)).
Definition set_left (a : ptr) (l : ptr) : M unit :=
  let* n := load a in
  store a (mkRBNode (key n) (color n) l (right n) (parent n)).
Definition set_right (a : ptr) (r : ptr) : M unit :=
  let* n := load a in
  store a (mkRBNode (key n) (color n) (left n) r (parent n)).
Definition set_parent (a : ptr) (p : option ptr) : M unit :=
  let* n := load a in
  store a (mkRBNode (key n) (color n) (left n) (right n) p).

Definition get_root : M ptr := fun st => Some (root st, st).
Definition set_root (r : ptr) : M unit :=
  fun st => Some (tt, mkRBTree (heap st) r (next st)).

(** Attribute access through a reference that may be [None]. *)
Definition deref (o : option ptr) : M ptr :=
  match o with Some a => ret a | None => raise end.

(** [RBNode(key, color)] followed by [z.left = z.right = self.NIL]. *)
Definition new_node (k : Z) (c : bool) : M ptr :=
  fun st =>
    Some (next st,
          mkRBTree (<[next st := mkRBNode (Some k) c NIL NIL None]> (heap st))
                   (root st) (S (next st))).

(** [while cond: body] on the loop variables [s]. *)
Fixpoint while {S : Type} (fuel : nat) (cond : S -> M bool) (body : S -> M S)
    (s : S) : M S :=
  match fuel with
  | O => raise
  | Datatypes.S f =>
      let* b := cond s in
      if b then let* s' := body s in while f cond body s' else ret s
  end.

(** The loops of the engines walk one root-to-leaf path; the number of
    allocated objects bounds its length. *)
Definition budget : M nat := fun st => Some (next st, st).

(** [RBTree.__init__] *)
Definition RBTree_init : RBTree :=
  mkRBTree {[ NIL := mkRBNode None BLACK NIL NIL None ]} NIL 1.

(** ** analyze.py: class RBTree *)
Module Analyze.

Definition _left_rotate (x : ptr) : M unit :=
  let* y := get_right x in
  let* yl := get_left y in
  set_right x yl;;
  let* yl := get_left y in
  (if negb (yl =? NIL) then set_parent yl (Some x) else ret tt);;
  let* xp := get_parent x in
  set_parent y xp;;
  let* xp := get_parent x in
  match xp with
  | None => set_root y
  | Some p =>
      let* pl := get_left p in
      if x =? pl then set_left p y else set_right p y
  end;;
  set_left y x;;
  set_parent x (Some y).

Definition _right_rotate (y : ptr) : M unit :=
  let* x := get_left y in
  let* xr := get_right x in
  set_left y xr;;
  let* xr := get_right x in
  (if negb (xr =? NIL) then set_parent xr (Some y) else ret tt);;
  let* yp := get_parent y in
  set_parent x yp;;
  let* yp := get_parent y in
  match yp with
  | None => set_root x
  | Some p =>
      let* pl := get_left p in
      if y =? pl then set_left p x else set_right p x
  end;;
  set_right x y;;
  set_parent y (Some x).

(** One pass of the loop of [_insert_fix]. *)
Definition _insert_fix_cond (z : ptr) : M bool :=
  let* zp := get_parent z in
  match zp with
  | None => ret false
  | Some p => let* c := get_color p in ret (eqb c RED)
  end.

Definition _insert_fix_body (z : ptr) : M ptr :=
  let* p := let* zp := get_parent z in deref zp in
  let* g := let* pp := get_parent p in deref pp in
  let* gl := get_left g in
  if p =? gl then
    let* u := get_right g in
    let* uc := get_color u in
    if eqb uc RED then
      set_color p BLACK;;
      set_color u BLACK;;
      set_color g RED;;
      ret g
    else
      let* pr := get_right p in
      let* z := (if z =? pr then _left_rotate p;; ret p else ret z) in
      let* p := let* zp := get_parent z in deref zp in
      set_color p BLACK;;
      let* g := let* pp := get_parent p in deref pp in
      set_color g RED;;
      _right_rotate g;;
      ret z
  else
    let* u := get_left g in
    let* uc := get_color u in
    if eqb uc RED then
      set_color p BLACK;;
      set_color u BLACK;;
      set_color g RED;;
      ret g
    else
      let* pl := get_left p in
      let* z := (if z =? pl then _right_rotate p;; ret p else ret z) in
      let* p := let* zp := get_parent z in deref zp in
      set_color p BLACK;;
      let* g := let* pp := get_parent p in deref pp in
      set_color g RED;;
      _left_rotate g;;
      ret z.

Definition _insert_fix (z : ptr) : M unit :=
  let* fuel := budget in
  while fuel _insert_fix_cond _insert_fix_body z;;
  let* r := get_root in
  set_color r BLACK.

(** The descent of [insert]: loop variables [(y, x)]. *)
Definition insert_cond (s : option ptr * ptr) : M bool :=
  ret (negb (snd s =? NIL)).
Definition insert_body (k : Z) (s : option ptr * ptr) : M (option ptr * ptr) :=
  let x := snd s in
  let* xk := get_key x in
  let* x' := (if (k <? xk)%Z then get_left x else get_right x) in
  ret (Some x, x').

Definition insert (k : Z) : M unit :=
  let* z := new_node k RED in
  let* fuel := budget in
  let* r := get_root in
  let* s := while fuel insert_cond (insert_body k) (None, r) in
  let y := fst s in
  set_parent z y;;
  match y with
  | None => set_root z
  | Some y =>
      let* yk := get_key y in
      if (k <? yk)%Z then set_left y z else set_right y z
  end;;
  _insert_fix z.

Definition _transplant (u v : ptr) : M unit :=
  let* up := get_parent u in
  match up with
  | None => set_root v
  | Some p =>
      let* pl := get_left p in
      if u =? pl then set_left p v else set_right p v
  end;;
  let* up := get_parent u in
  set_parent v up.

Definition _tree_minimum (x : ptr) : M ptr :=
  let* fuel := budget in
  while fuel
    (fun x => let* xl := get_left x in ret (negb (xl =? NIL)))
    (fun x => get_left x)
    x.

Definition _search (node : ptr) (k : Z) : M ptr :=
  let* fuel := budget in
  while fuel
    (fun node =>
       if node =? NIL then ret false
       else let* nk := get_key node in ret (negb (k =? nk)%Z))
    (fun node =>
       let* nk := get_key node in
       if (k <? nk)%Z then get_left node else get_right node)
    node.

Definition _delete_fix_cond (x : ptr) : M bool :=
  let* r := get_root in
  if x =? r then ret false
  else let* c := get_color x in ret (eqb c BLACK).

Definition _delete_fix_body (x : ptr) : M ptr :=
  let* p := let* xp := get_parent x in deref xp in
  let* pl := get_left p in
  if x =? pl then
    let* w := get_right p in
    let* wc := get_color w in
    let* w :=
      (if eqb wc RED then
         set_color w BLACK;;
         set_color p RED;;
         _left_rotate p;;
         let* p := let* xp := get_parent x in deref xp in
         get_right p
       else ret w) in
    let* wl := get_left w in
    let* wlc := get_color wl in
    let* wr := get_right w in
    let* wrc := get_color wr in
    if eqb wlc BLACK && eqb wrc BLACK then
      set_color w RED;;
      let* p := let* xp := get_parent x in deref xp in
      ret p
    else
      let* w :=
        (if eqb wrc BLACK then
           let* wl := get_left w in
           set_color wl BLACK;;
           set_color w RED;;
           _right_rotate w;;
           let* p := let* xp := get_parent x in deref xp in
           get_right p
         else ret w) in
      let* p := let* xp := get_parent x in deref xp in
      let* pc := get_color p in
      set_color w pc;;
      set_color p BLACK;;
      let* wr := get_right w in
      set_color wr BLACK;;
      _left_rotate p;;
      get_root
  else
    let* w := get_left p in
    let* wc := get_color w in
    let* w :=
      (if eqb wc RED then
         set_color w BLACK;;
         set_color p RED;;
         _right_rotate p;;
         let* p := let* xp := get_parent x in deref xp in
         get_left p
       else ret w) in
    let* wr := get_right w in
    let* wrc := get_color wr in
    let* wl := get_left w in
    let* wlc := get_color wl in
    if eqb wrc BLACK && eqb wlc BLACK then
      set_color w RED;;
      let* p := let* xp := get_parent x in deref xp in
      ret p
    else
      let* w :=
        (if eqb wlc BLACK then
           let* wr := get_right w in
           set_color wr BLACK;;
           set_color w RED;;
           _left_rotate w;;
           let* p := let* xp := get_parent x in deref xp in
           get_left p
         else ret w) in
      let* p := let* xp := get_parent x in deref xp in
      let* pc := get_color p in
      set_color w pc;;
      set_color p BLACK;;
      let* wl := get_left w in
      set_color wl BLACK;;
      _right_rotate p;;
      get_root.

Definition _delete_fix (x : ptr) : M unit :=
  let* fuel := budget in
  let* x := while fuel _delete_fix_cond _delete_fix_body x in
  set_color x BLACK.

Definition delete (k : Z) : M unit :=
  let* r := get_root in
  let* z := _search r k in
  if z =? NIL then ret tt
  else
    let* y_orig := get_color z in
    let* zl := get_left z in
    let* zr := get_right z in
    let* xy :=
      (if zl =? NIL then
         _transplant z zr;;
         ret (zr, y_orig)
       else if zr =? NIL then
         _transplant z zl;;
         ret (zl, y_orig)
       else
         let* y := _tree_minimum zr in
         let* y_orig := get_color y in
         let* x := get_right y in
         let* yp := get_parent y in
         (if decide (yp = Some z) then
            set_parent x (Some y)
          else
            let* yr := get_right y in
            _transplant y yr;;
            let* zr := get_right z in
            set_right y zr;;
            let* yr := get_right y in
            set_parent yr (Some y));;
         _transplant z y;;
         let* zl := get_left z in
         set_left y zl;;
         let* yl := get_left y in
         set_parent yl (Some y);;
         let* zc := get_color z in
         set_color y zc;;
         ret (x, y_orig)) in
    if eqb (snd xy) BLACK then _delete_fix (fst xy) else ret tt.

End Analyze.

(** ** build.py: class RBTreeAnimated

    The animated engine appends a snapshot to [self.steps] at every sub-step
    and counts operations in [self._op_counter]; the log is append-only and
    never read back by the engine, so only the tree it maintains is kept
    here.  [delete] returns whether the key was found. *)
Module Build.

Definition _left_rotate (x : ptr) : M unit :=
  let* y := get_right x in
  let* yl := get_left y in
  set_right x yl;;
  let* yl := get_left y in
  (if negb (yl =? NIL) then set_parent yl (Some x) else ret tt);;
  let* xp := get_parent x in
  set_parent y xp;;
  let* xp := get_parent x in
  match xp with
  | None => set_root y
  | Some p =>
      let* pl := get_left p in
      if x =? pl then set_left p y else set_right p y
  end;;
  set_left y x;;
  set_parent x (Some y).

Definition _right_rotate (y : ptr) : M unit :=
  let* x := get_left y in
  let* xr := get_right x in
  set_left y xr;;
  let* xr := get_right x in
  (if negb (xr =? NIL) then set_parent xr (Some y) else ret tt);;
  let* yp := get_parent y in
  set_parent x yp;;
  let* yp := get_parent y in
  match yp with
  | None => set_root x
  | Some p =>
      let* pl := get_left p in
      if y =? pl then set_left p x else set_right p x
  end;;
  set_right x y;;
  set_parent y (Some x).

Definition _insert_fixup_cond (z : ptr) : M bool :=
  let* zp := get_parent z in
  match zp with
  | None => ret false
  | Some p => let* c := get_color p in ret (eqb c RED)
  end.

Definition _insert_fixup_body (z : ptr) : M ptr :=
  let* p := let* zp := get_parent z in deref zp in
  let* g := let* pp := get_parent p in deref pp in
  let* gl := get_left g in
  if p =? gl then
    let* uncle := get_right g in
    let* uc := get_color uncle in
    if eqb uc RED then
      set_color p BLACK;;
      set_color uncle BLACK;;
      set_color g RED;;
      ret g
    else
      let* pr := get_right p in
      let* z := (if z =? pr then _left_rotate p;; ret p else ret z) in
      let* p := let* zp := get_parent z in deref zp in
      set_color p BLACK;;
      let* g := let* pp := get_parent p in deref pp in
      set_color g RED;;
      _right_rotate g;;
      ret z
  else
    let* uncle := get_left g in
    let* uc := get_color uncle in
    if eqb uc RED then
      set_color p BLACK;;
      set_color uncle BLACK;;
      set_color g RED;;
      ret g
    else
      let* pl := get_left p in
      let* z := (if z =? pl then _right_rotate p;; ret p else ret z) in
      let* p := let* zp := get_parent z in deref zp in
      set_color p BLACK;;
      let* g := let* pp := get_parent p in deref pp in
      set_color g RED;;
      _left_rotate g;;
      ret z.

Definition _insert_fixup (z : ptr) : M unit :=
  let* fuel := budget in
  while fuel _insert_fixup_cond _insert_fixup_body z;;
  let* r := get_root in
  let* rc := get_color r in
  if eqb rc RED then set_color r BLACK else ret tt.

(** The descent of [insert]: loop variables [(y, x)] and whether the
    [return] on a duplicate key was taken. *)
Definition insert_cond (s : option ptr * ptr * bool) : M bool :=
  let '(_, x, returned) := s in
  ret (negb returned && negb (x =? NIL)).
Definition insert_body (k : Z) (s : option ptr * ptr * bool)
    : M (option ptr * ptr * bool) :=
  let '(_, x, _) := s in
  let* xk := get_key x in
  if (k =? xk)%Z then ret (Some x, x, true)
  else
    let* x' := (if (k <? xk)%Z then get_left x else get_right x) in
    ret (Some x, x', false).

Definition insert (k : Z) : M unit :=
  let* z := new_node k RED in
  let* fuel := budget in
  let* r := get_root in
  let* s := while fuel insert_cond (insert_body k) (None, r, false) in
  let '(y, _, returned) := s in
  if returned then ret tt
  else
    set_parent z y;;
    match y with
    | None => set_root z
    | Some y =>
        let* yk := get_key y in
        if (k <? yk)%Z then set_left y z else set_right y z
    end;;
    _insert_fixup z.

Definition _transplant (u v : ptr) : M unit :=
  let* up := get_parent u in
  match up with
  | None => set_root v
  | Some p =>
      let* pl := get_left p in
      if u =? pl then set_left p v else set_right p v
  end;;
  let* up := get_parent u in
  set_parent v up.

Definition _minimum (x : ptr) : M ptr :=
  let* fuel := budget in
  while fuel
    (fun x => let* xl := get_left x in ret (negb (xl =? NIL)))
    (fun x => get_left x)
    x.

(** [_search_recorded]: loop variable [node] and whether [return node] was
    taken inside the loop. *)
Definition _search_recorded (k : Z) : M ptr :=
  let* fuel := budget in
  let* r := get_root in
  let* s :=
    while fuel
      (fun s : ptr * bool => ret (negb (snd s) && negb (fst s =? NIL)))
      (fun s : ptr * bool =>
         let node := fst s in
         let* nk := get_key node in
         if (k =? nk)%Z then ret (node, true)
         else if (k <? nk)%Z then
           let* l := get_left node in ret (l, false)
         else
           let* r := get_right node in ret (r, false))
      (r, false) in
  if snd s then ret (fst s) else ret NIL.

(** [w.left == self.NIL or w.left.color == BLACK] *)
Definition nil_or_black (a : ptr) : M bool :=
  if a =? NIL then ret true
  else let* c := get_color a in ret (eqb c BLACK).

(** [if a != self.NIL: a.color = BLACK] *)
Definition blacken_unless_nil (a : ptr) : M unit :=
  if negb (a =? NIL) then set_color a BLACK else ret tt.

Definition _delete_fixup_cond (x : ptr) : M bool :=
  let* r := get_root in
  if x =? r then ret false
  else let* c := get_color x in ret (eqb c BLACK).

Definition _delete_fixup_body (x : ptr) : M ptr :=
  let* p := let* xp := get_parent x in deref xp in
  let* pl := get_left p in
  if x =? pl then
    let* w := get_right p in
    let* wc := get_color w in
    let* w :=
      (if eqb wc RED then
         set_color w BLACK;;
         set_color p RED;;
         _left_rotate p;;
         let* p := let* xp := get_parent x in deref xp in
         get_right p
       else ret w) in
    let* wl := get_left w in
    let* wl_b := nil_or_black wl in
    let* wr := get_right w in
    let* wr_b := nil_or_black wr in
    if wl_b && wr_b then
      set_color w RED;;
      let* p := let* xp := get_parent x in deref xp in
      ret p
    else
      let* w :=
        (if wr_b then
           let* wl := get_left w in
           blacken_unless_nil wl;;
           set_color w RED;;
           _right_rotate w;;
           let* p := let* xp := get_parent x in deref xp in
           get_right p
         else ret w) in
      let* p := let* xp := get_parent x in deref xp in
      let* pc := get_color p in
      set_color w pc;;
      set_color p BLACK;;
      let* wr := get_right w in
      blacken_unless_nil wr;;
      _left_rotate p;;
      get_root
  else
    let* w := get_left p in
    let* wc := get_color w in
    let* w :=
      (if eqb wc RED then
         set_color w BLACK;;
         set_color p RED;;
         _right_rotate p;;
         let* p := let* xp := get_parent x in deref xp in
         get_left p
       else ret w) in
    let* wl := get_left w in
    let* wl_b := nil_or_black wl in
    let* wr := get_right w in
    let* wr_b := nil_or_black wr in
    if wl_b && wr_b then
      set_color w RED;;
      let* p := let* xp := get_parent x in deref xp in
      ret p
    else
      let* w :=
        (if wl_b then
           let* wr := get_right w in
           blacken_unless_nil wr;;
           set_color w RED;;
           _left_rotate w;;
           let* p := let* xp := get_parent x in deref xp in
           get_left p
         else ret w) in
      let* p := let* xp := get_parent x in deref xp in
      let* pc := get_color p in
      set_color w pc;;
      set_color p BLACK;;
      let* wl := get_left w in
      blacken_unless_nil wl;;
      _right_rotate p;;
      get_root.

Definition _delete_fixup (x : ptr) : M unit :=
  let* fuel := budget in
  let* x := while fuel _delete_fixup_cond _delete_fixup_body x in
  set_color x BLACK.

Definition delete (k : Z) : M bool :=
  let* z := _search_recorded k in
  if z =? NIL then ret false
  else
    let* y_orig_color := get_color z in
    let* zl := get_left z in
    let* zr := get_right z in
    let* xy :=
      (if zl =? NIL then
         _transplant z zr;;
         ret (zr, y_orig_color)
       else if zr =? NIL then
         _transplant z zl;;
         ret (zl, y_orig_color)
       else
         let* y := _minimum zr in
         let* y_orig_color := get_color y in
         let* x := get_right y in
         let* yp := get_parent y in
         (if decide (yp = Some z) then
            set_parent x (Some y)
          else
            let* yr := get_right y in
            _transplant y yr;;
            let* zr := get_right z in
            set_right y zr;;
            let* yr := get_right y in
            set_parent yr (Some y));;
         _transplant z y;;
         let* zl := get_left z in
         set_left y zl;;
         let* yl := get_left y in
         set_parent yl (Some y);;
         let* zc := get_color z in
         set_color y zc;;
         ret (x, y_orig_color)) in
    (if eqb (snd xy) BLACK then _delete_fixup (fst xy) else ret tt);;
    ret true.

End Build.

(** ** Fingerprints: [to_tuple], [tnode_to_tuple] *)

(** The nested tuple [(key, color, left, right)], [None] for an empty
    subtree. *)
Inductive fingerprint :=
| FNone
| FTuple (k : option Z) (c : bool) (l r : fingerprint).

(** [RBTree.to_tuple(node)]: the recursion follows the child references of
    the store. *)
Fixpoint to_tuple_from (fuel : nat) (h : gmap ptr RBNode) (node : ptr)
    : option fingerprint :=
  match fuel with
  | O => None
  | S f =>
      if node =? NIL then Some FNone
      else
        match h !! node with
        | None => None
        | Some n =>
            match to_tuple_from f h (left n), to_tuple_from f h (right n) with
            | Some l, Some r => Some (FTuple (key n) (color n) l r)
            | _, _ => None
            end
        end
  end.

(** [t.to_tuple()] starts at [self.root]. *)
Definition to_tuple (st : RBTree) : option fingerprint :=
  to_tuple_from (next st) (heap st) (root st).

(** [_snapshot] of the animated engine has the same shape. *)
Definition snapshot (st : RBTree) : option fingerprint := to_tuple st.

(** ** Sequences of actions: [execute_steps] *)

Inductive action := INSERT | DELETE.

(** A step is the tuple [(action, key, is_helper)]. *)
Definition step : Type := action * Z * bool.

Fixpoint run_steps (steps : list step) : M unit :=
  match steps with
  | [] => ret tt
  | (a, k, _h) :: rest =>
      match a with
      | INSERT => Analyze.insert k
      | DELETE => Analyze.delete k
      end;;
      run_steps rest
  end.

Definition execute_steps (steps : list step) : option RBTree :=
  match run_steps steps RBTree_init with
  | Some (_, t) => Some t
  | None => None
  end.


(** The same replay on the animated engine. *)
Fixpoint run_steps_animated (steps : list step) : M unit :=
  match steps with
  | [] => ret tt
  | (a, k, _h) :: rest =>
      match a with
      | INSERT => Build.insert k
      | DELETE => Build.delete k;; ret tt
      end;;
      run_steps_animated rest
  end.

Definition execute_steps_animated (steps : list step) : option RBTree :=
  match run_steps_animated steps RBTree_init with
  | Some (_, t) => Some t
  | None => None
  end.

(** ** The target tree: class TNode *)

(** A [TNode] has a key, a colour and two children; [TNull] is Python's
    [None].  The layout coordinates play no part here. *)
Inductive TNode :=
| TNull
| TN (key : Z) (color : bool) (left right : TNode).

(** [tnode_to_tuple(n)] *)
Fixpoint tnode_to_tuple (n : TNode) : fingerprint :=
  match n with
  | TNull => FNone
  | TN k c l r => FTuple (Some k) c (tnode_to_tuple l) (tnode_to_tuple r)
  end.

(** The messages that the validators collect. *)
Inductive rb_error :=
| TreeEmpty
| RootNotBlack
| BstLow (key : Z) (bound : Z)
| BstHigh (key : Z) (bound : Z)
| RedViolation (key : Z)
| BlackHeightViolation (key : Z) (lbh rbh : Z)
| DuplicateKeys.

(** [validate_rb_tree(node, parent_color)] returns
    [(is_valid, black_height, errors)]. *)
Fixpoint validate_rb_tree (node : TNode) (parent_color : option bool)
    : bool * Z * list rb_error :=
  match node with
  | TNull => (true, 1%Z, [])
  | TN k c l r =>
      let errors :=
        if eqb c RED && bool_decide (parent_color = Some RED)
        then [RedViolation k] else [] in
      let '(_, left_bh, left_err) := validate_rb_tree l (Some c) in
      let '(_, right_bh, right_err) := validate_rb_tree r (Some c) in
      let errors := errors ++ left_err ++ right_err in
      let errors :=
        if negb (left_bh =? right_bh)%Z
        then errors ++ [BlackHeightViolation k left_bh right_bh] else errors in
      let bh := (left_bh + (if eqb c BLACK then 1 else 0))%Z in
      (length errors =? 0, bh, errors)
  end.

(** [validate_bst(node, min_val, max_val)]; an absent bound is an infinite
    one. *)
Fixpoint validate_bst (node : TNode) (min_val max_val : option Z)
    : bool * list rb_error :=
  match node with
  | TNull => (true, [])
  | TN k _ l r =>
      let e1 := match min_val with
                | Some m => if (k <=? m)%Z then [BstLow k m] else []
                | None => []
                end in
      let e2 := match max_val with
                | Some m => if (k >=? m)%Z then [BstHigh k m] else []
                | None => []
                end in
      let '(_, lerr) := validate_bst l min_val (Some k) in
      let '(_, rerr) := validate_bst r (Some k) max_val in
      let errors := (e1 ++ e2) ++ lerr ++ rerr in
      (length errors =? 0, errors)
  end.

(** [_inorder(n, out)] *)
Fixpoint _inorder (n : TNode) (out : list Z) : list Z :=
  match n with
  | TNull => out
  | TN k _ l r => _inorder r (_inorder l out ++ [k])
  end.

(** [_validate_target_tree()] *)
Definition _validate_target_tree (target_root : TNode) : bool * list rb_error :=
  match target_root with
  | TNull => (false, [TreeEmpty])
  | TN _ c _ _ =>
      let errors := if negb (eqb c BLACK) then [RootNotBlack] else [] in
      let '(_, bst_errors) := validate_bst target_root None None in
      let errors := errors ++ bst_errors in
      let '(_, _, rb_errors) := validate_rb_tree target_root None in
      let errors := errors ++ rb_errors in
      let keys := _inorder target_root [] in
      let errors :=
        if negb (length keys =? length (remove_dups keys))
        then errors ++ [DuplicateKeys] else errors in
      (length errors =? 0, errors)
  end.

(** ** The search *)

(** [itertools.permutations(l)]: the orderings of [l] by position, in the
    lexicographic order of the positions. *)
Fixpoint selections {A} (l : list A) : list (A * list A) :=
  match l with
  | [] => []
  | x :: xs => (x, xs) :: map (fun p => (fst p, x :: snd p)) (selections xs)
  end.

Fixpoint permutations_n {A} (n : nat) (l : list A) : list (list A) :=
  match n with
  | O => [[]]
  | S n' =>
      flat_map (fun p => map (cons (fst p)) (permutations_n n' (snd p)))
               (selections l)
  end.

Definition permutations {A} (l : list A) : list (list A) :=
  permutations_n (length l) l.

(** Equality of fingerprints, as [==] on the nested tuples. *)
Fixpoint fingerprint_eqb (a b : fingerprint) : bool :=
  match a, b with
  | FNone, FNone => true
  | FTuple k c l r, FTuple k' c' l' r' =>
      bool_decide (k = k') && eqb c c' && fingerprint_eqb l l'
      && fingerprint_eqb r r'
  | _, _ => false
  end.

Inductive search_mode := ModeDirect | ModeHelper | ModeBoth.
Inductive helper_pos_mode := PosAnywhere | PosBegin | PosSurround.
Inductive result_tag := DIRECT | HELPER.

Definition search_result : Type := result_tag * list step.

(** What the worker closes over. *)
Record search_setup := mkSetup {
  elems : list Z;
  helper_val : option Z;
  mode : search_mode;
  helper_pos : helper_pos_mode;
  prefix_n : nat;
  prefix_vals : list Z;
  target_tuple : fingerprint
}.

Definition use_prefix (s : search_setup) : bool :=
  (0 <? prefix_n s) && (length (prefix_vals s) =? prefix_n s).

(** [t = RBTree(); for k in perm: t.insert(k)] *)
Fixpoint insert_all (perm : list Z) : M unit :=
  match perm with
  | [] => ret tt
  | k :: rest => Analyze.insert k;; insert_all rest
  end.

(** [t.to_tuple() == target_tuple] after the inserts of [perm]. *)
Definition direct_match (target : fingerprint) (perm : list Z) : bool :=
  match insert_all perm RBTree_init with
  | Some (_, t) =>
      match to_tuple t with
      | Some fp => fingerprint_eqb fp target
      | None => false
      end
  | None => false
  end.

(** [execute_steps(steps).to_tuple() == target_tuple] *)
Definition steps_match (target : fingerprint) (steps : list step) : bool :=
  match execute_steps steps with
  | Some t =>
      match to_tuple t with
      | Some fp => fingerprint_eqb fp target
      | None => false
      end
  | None => false
  end.

(** The pairs [(ins_pos, del_pos)] that the helper search tries. *)
Definition positions (m : helper_pos_mode) (n : nat) : list (nat * nat) :=
  match m with
  | PosBegin => [(0, 1)]
  | PosSurround => [(0, n + 1)]
  | PosAnywhere =>
      flat_map (fun ip => map (fun dp_pos => (ip, dp_pos))
                              (seq (ip + 1) (n + 2 - (ip + 1))))
               (seq 0 (n + 1))
  end.

(** The sequence with the helper's insert at [ins_pos] and its delete at
    [del_pos]: the loop over [si] with the pointer [pi] into [pl]. *)
Definition helper_steps (pl : list Z) (h : Z) (ins_pos del_pos : nat)
    : list step :=
  let n := length pl in
  fst (fold_left
         (fun (acc : list step * nat) si =>
            let '(steps, pi) := acc in
            if si =? ins_pos then (steps ++ [(INSERT, h, true)], pi)
            else if si =? del_pos then (steps ++ [(DELETE, h, true)], pi)
            else if pi <? n then
              match pl !! pi with
              | Some k => (steps ++ [(INSERT, k, false)], pi + 1)
              | None => (steps, pi)
              end
            else (steps, pi))
         (seq 0 (n + 2)) ([], 0)).

(** The prefix check of the helper search: [pskip]. *)
Definition prefix_skip (s : search_setup) (steps : list step) : bool :=
  let main_inserts :=
    omap (fun st : step =>
            match st with
            | (INSERT, k, false) => Some k
            | _ => None
            end) steps in
  existsb (fun i =>
             match main_inserts !! i, prefix_vals s !! i with
             | Some a, Some b => negb (a =? b)%Z
             | _, _ => true
             end)
          (seq 0 (prefix_n s)).

(** The state of the worker: the number of polls of the stop flag so far and
    the results, oldest first. *)
Definition worker_state : Type := nat * list search_result.

Section worker.
Context (stop : nat -> bool) (s : search_setup).

(** The direct search of one permutation. *)
Definition direct_part (perm : list Z) (results : list search_result)
    : list search_result :=
  match mode s with
  | ModeDirect | ModeBoth =>
      if direct_match (target_tuple s) perm
      then results ++ [(DIRECT, map (fun k => (INSERT, k, false)) perm)]
      else results
  | ModeHelper => results
  end.

(** The loop over the position pairs; it ends early when the stop flag is
    set. *)
Fixpoint helper_loop (h : Z) (pl : list Z) (ps : list (nat * nat))
    (w : worker_state) : worker_state :=
  match ps with
  | [] => w
  | (ins_pos, del_pos) :: rest =>
      let '(polls, results) := w in
      if stop polls then (S polls, results)
      else
        let steps := helper_steps pl h ins_pos del_pos in
        if use_prefix s && prefix_skip s steps
        then helper_loop h pl rest (S polls, results)
        else if steps_match (target_tuple s) steps
        then helper_loop h pl rest (S polls, results ++ [(HELPER, steps)])
        else helper_loop h pl rest (S polls, results)
  end.

Definition helper_part (perm : list Z) (w : worker_state) : worker_state :=
  match helper_val s, mode s with
  | Some h, (ModeHelper | ModeBoth) =>
      helper_loop h perm (positions (helper_pos s) (length perm)) w
  | _, _ => w
  end.

(** The loop over the permutations. *)
Fixpoint worker_loop (perm_source : list (list Z)) (w : worker_state)
    : worker_state :=
  match perm_source with
  | [] => w
  | raw_perm :: rest =>
      let '(polls, results) := w in
      if stop polls then (S polls, results)
      else
        let perm := if use_prefix s then prefix_vals s ++ raw_perm
                    else raw_perm in
        let results := direct_part perm results in
        worker_loop rest (helper_part perm (S polls, results))
  end.

(** [worker()]: the results when the thread ends. *)
Definition worker : list search_result :=
  let perm_source :=
    if use_prefix s
    then permutations
           (filter (fun e => negb (bool_decide (e ∈ prefix_vals s))) (elems s))
    else permutations (elems s) in
  snd (worker_loop perm_source (0, [])).

End worker.

(** ** [_on_search]: the checks before the search starts *)

(** The text of an entry field: empty, not a number (or a list of numbers),
    or the value that it parses to. *)
Inductive entry (A : Type) :=
| Blank
| Malformed
| Parsed (a : A).
Arguments Blank {A}.
Arguments Malformed {A}.
Arguments Parsed {A} a.

Inductive refusal :=
| AlreadyRunning
| NoTarget
| InvalidTarget (errors : list rb_error)
| InvalidElements
| NoElements
| InvalidHelper
| HelperInElements
| HelperMissing
| InvalidPrefix
| PrefixNotPositive
| PrefixTooFew (n : Z) (given : nat)
| PrefixNotInElements (pv : Z)
| PrefixDuplicates.

(** The prefix filter: the count [prefix_n] and the values [prefix_vals]
    that the search will use, or the refusal. *)
Definition parse_prefix (pfn : entry Z) (pfv : entry (list Z)) (elems : list Z)
    : refusal + (Z * list Z) :=
  match pfn, pfv with
  | Blank, _ | _, Blank => inr (0%Z, [])
  | Malformed, _ | _, Malformed => inl InvalidPrefix
  | Parsed prefix_n, Parsed prefix_vals =>
      if (prefix_n <=? 0)%Z then inl PrefixNotPositive
      else if (Z.of_nat (length prefix_vals) <? prefix_n)%Z
      then inl (PrefixTooFew prefix_n (length prefix_vals))
      else
        let prefix_vals := take (Z.to_nat prefix_n) prefix_vals in
        match List.find (fun pv => negb (bool_decide (pv ∈ elems))) prefix_vals with
        | Some pv => inl (PrefixNotInElements pv)
        | None =>
            if negb (length prefix_vals =? length (remove_dups prefix_vals))
            then inl PrefixDuplicates
            else inr (prefix_n, prefix_vals)
        end
  end.

Record search_inputs := mkInputs {
  running : bool;
  target_root : TNode;
  elem_var : entry (list Z);
  helper_var : entry Z;
  mode_var : search_mode;
  helper_pos_var : helper_pos_mode;
  pfn_var : entry Z;
  pfv_var : entry (list Z)
}.

(** [_on_search()]: a refusal, or the results of the worker that it
    starts. *)
Definition _on_search (stop : nat -> bool) (i : search_inputs)
    : refusal + list search_result :=
  if running i then inl AlreadyRunning
  else
    match target_root i with
    | TNull => inl NoTarget
    | TN _ _ _ _ =>
        let '(is_valid, errors) := _validate_target_tree (target_root i) in
        if negb is_valid then inl (InvalidTarget errors)
        else
          match elem_var i with
          | Malformed => inl InvalidElements
          | Blank | Parsed [] => inl NoElements
          | Parsed elems =>
              let helper :=
                match helper_var i with
                | Blank => inr None
                | Malformed => inl InvalidHelper
                | Parsed h =>
                    if bool_decide (h ∈ elems) then inl HelperInElements
                    else inr (Some h)
                end in
              match helper with
              | inl e => inl e
              | inr helper_val =>
                  match mode_var i, helper_val with
                  | ModeHelper, None => inl HelperMissing
                  | _, _ =>
                      match parse_prefix (pfn_var i) (pfv_var i) elems with
                      | inl e => inl e
                      | inr (prefix_n, prefix_vals) =>
                          inr (worker stop
                                 (mkSetup elems helper_val (mode_var i)
                                    (helper_pos_var i) (Z.to_nat prefix_n)
                                    prefix_vals
                                    (tnode_to_tuple (target_root i))))
                      end
                  end
              end
          end
    end.

(** ** Random draws *)

(** The outcomes of a computation that draws random numbers, each with its
    probability. *)
Definition dist (A : Type) : Type := list (A * Q).

Definition dret {A} (a : A) : dist A := [(a, 1%Q)].

Definition dbind {A B} (d : dist A) (f : A -> dist B) : dist B :=
  flat_map (fun ap => map (fun bq => (fst bq, (snd ap * snd bq)%Q)) (f (fst ap)))
           d.

(** [random.randint(1, n)]: each of 1, ..., n with probability 1/n. *)
Definition randint1 (n : nat) : dist nat :=
  map (fun r => (r, (1 # Pos.of_nat n)%Q)) (seq 1 n).

(** The probability of the outcomes that satisfy [P]. *)
Definition prob {A} (P : A -> bool) (d : dist A) : Q :=
  fold_right Qplus 0%Q (map snd (List.filter (fun ap => P (fst ap)) d)).

(** ** [random_valid_rb_coloring] *)

(** A table [{(color, bh): count}], in the order of insertion. *)
Definition dp_key : Type := bool * Z.
Definition dp_table : Type := list (dp_key * nat).

Definition dp_key_eqb (a b : dp_key) : bool :=
  eqb (fst a) (fst b) && (snd a =? snd b)%Z.

(** [result.get(key, 0)] *)
Fixpoint dp_get (key : dp_key) (d : dp_table) : nat :=
  match d with
  | [] => 0
  | (k, v) :: d' => if dp_key_eqb key k then v else dp_get key d'
  end.

(** [result[key] = v] *)
Fixpoint dp_set (key : dp_key) (v : nat) (d : dp_table) : dp_table :=
  match d with
  | [] => [(key, v)]
  | (k, v') :: d' =>
      if dp_key_eqb key k then (k, v) :: d' else (k, v') :: dp_set key v d'
  end.

Definition NULL_DP : dp_table := [((BLACK, 1%Z), 1)].

(** [build_dp(n)]; [dp[id(n)]] is this table. *)
Fixpoint build_dp (n : TNode) : dp_table :=
  match n with
  | TNull => NULL_DP
  | TN _ _ l r =>
      let l_dp := build_dp l in
      let r_dp := build_dp r in
      fold_left
        (fun result color =>
           let bh_add := if eqb color BLACK then 1%Z else 0%Z in
           fold_left
             (fun result (le : dp_key * nat) =>
                let '((lc, lbh), lcnt) := le in
                if eqb color RED && eqb lc RED then result
                else
                  fold_left
                    (fun result (re : dp_key * nat) =>
                       let '((rc, rbh), rcnt) := re in
                       if eqb color RED && eqb rc RED then result
                       else if negb (lbh =? rbh)%Z then result
                       else
                         let key := (color, (lbh + bh_add)%Z) in
                         dp_set key (dp_get key result + lcnt * rcnt) result)
                    r_dp result)
             l_dp result)
        [RED; BLACK] []
  end.

(** The root's table restricted to BLACK. *)
Definition valid_entries (root : TNode) : dp_table :=
  List.filter (fun e => eqb (fst (fst e)) BLACK) (build_dp root).

(** [for nd in nodes: nd.color = BLACK] *)
Fixpoint all_black (n : TNode) : TNode :=
  match n with
  | TNull => TNull
  | TN k _ l r => TN k BLACK (all_black l) (all_black r)
  end.

(** The loop [cum += cnt; if r <= cum: pick]: the first item at which the
    running sum reaches [r]. *)
Fixpoint pick {A} (weight : A -> nat) (r cum : nat) (items : list A)
    : option A :=
  match items with
  | [] => None
  | x :: rest =>
      let cum := cum + weight x in
      if r <=? cum then Some x else pick weight r cum rest
  end.

Definition sum_by {A} (weight : A -> nat) (items : list A) : nat :=
  fold_right (fun x acc => weight x + acc) 0 items.

(** A candidate of [assign]: [(color, child_bh, total_count, pairs)]. *)
Definition candidate : Type := bool * Z * nat * list (bool * bool * nat).

Definition pairs_of (color : bool) (child_bh : Z) (l_dp r_dp : dp_table)
    : list (bool * bool * nat) :=
  flat_map
    (fun le : dp_key * nat =>
       let '((lc, lbh), lcnt) := le in
       if eqb color RED && eqb lc RED then []
       else if negb (lbh =? child_bh)%Z then []
       else
         flat_map
           (fun re : dp_key * nat =>
              let '((rc, rbh), rcnt) := re in
              if eqb color RED && eqb rc RED then []
              else if negb (rbh =? child_bh)%Z then []
              else [(lc, rc, lcnt * rcnt)])
           r_dp)
    l_dp.

Definition candidates_of (parent_color : option bool) (target_bh : Z)
    (l_dp r_dp : dp_table) : list candidate :=
  flat_map
    (fun color =>
       if bool_decide (parent_color = Some RED) && eqb color RED then []
       else
         let child_bh := (target_bh - (if eqb color BLACK then 1 else 0))%Z in
         if (child_bh <? 1)%Z then []
         else
           match pairs_of color child_bh l_dp r_dp with
           | [] => []
           | pairs => [(color, child_bh, sum_by snd pairs, pairs)]
           end)
    [RED; BLACK].

(** [assign(n, parent_color, target_bh)]: the subtree at [n] with its new
    colours.  The tables of the children are those that [build_dp] stored. *)
Fixpoint assign (n : TNode) (parent_color : option bool) (target_bh : Z)
    : dist TNode :=
  match n with
  | TNull => dret TNull
  | TN k c l r =>
      let candidates :=
        candidates_of parent_color target_bh (build_dp l) (build_dp r) in
      match candidates with
      | [] => dret (TN k BLACK l r)
      | _ =>
          let tot := sum_by (fun cd : candidate => snd (fst cd)) candidates in
          dbind (randint1 tot) (fun r1 =>
            match pick (fun cd : candidate => snd (fst cd)) r1 0 candidates with
            | None => dret (TN k c l r)
            | Some (color, child_bh, _, pairs) =>
                let tot2 := sum_by snd pairs in
                dbind (randint1 tot2) (fun r2 =>
                  dbind (assign l (Some color) child_bh) (fun l' =>
                    dbind (assign r (Some color) child_bh) (fun r' =>
                      dret (TN k color l' r'))))
            end)
      end
  end.

(** [root.color = BLACK] *)
Definition force_black (n : TNode) : TNode :=
  match n with
  | TNull => TNull
  | TN k _ l r => TN k BLACK l r
  end.

(** [random_valid_rb_coloring(root)]: the tree with its new colours; [None]
    is the exception of a draw that picks no black height. *)
Definition random_valid_rb_coloring (root : TNode) : dist (option TNode) :=
  match root with
  | TNull => dret (Some TNull)
  | TN _ _ _ _ =>
      match valid_entries root with
      | [] => dret (Some (all_black root))
      | valid =>
          let total := sum_by snd valid in
          dbind (randint1 total) (fun r =>
            match pick snd r 0 valid with
            | None => dret None
            | Some (_, root_bh, _) =>
                dbind (assign root None root_bh) (fun t =>
                  dret (Some (force_black t)))
            end)
      end
  end.

(** The colourings of a shape. *)
Fixpoint same_shape (a b : TNode) : Prop :=
  match a, b with
  | TNull, TNull => True
  | TN k _ l r, TN k' _ l' r' => k = k' /\ same_shape l l' /\ same_shape r r'
  | _, _ => False
  end.

Fixpoint colorings (n : TNode) : list TNode :=
  match n with
  | TNull => [TNull]
  | TN k _ l r =>
      flat_map (fun c =>
        flat_map (fun l' => map (fun r' => TN k c l' r') (colorings r))
                 (colorings l))
        [RED; BLACK]
  end.

Definition tn_color (n : TNode) : bool :=
  match n with TNull => BLACK | TN _ c _ _ => c end.

(** A colouring is valid when the root is BLACK and [validate_rb_tree] finds
    no violation. *)
Definition valid_coloring (n : TNode) : bool :=
  eqb (tn_color n) BLACK && fst (fst (validate_rb_tree n None)).

(** Equality of trees with their colours. *)
Fixpoint tnode_eqb (a b : TNode) : bool :=
  match a, b with
  | TNull, TNull => true
  | TN k c l r, TN k' c' l' r' =>
      (k =? k')%Z && eqb c c' && tnode_eqb l l' && tnode_eqb r r'
  | _, _ => false
  end.

Definition is_tree (t : TNode) (o : option TNode) : bool :=
  match o with Some t' => tnode_eqb t t' | None => false end.

(** ** analyze.py: from the tree object to a [TNode] tree and back *)

(** [_rbt_to_tn(rbt, node)]: the recursion follows the child references of
    the store.  A [TNode] needs a key: the sentinel is the only object
    without one, and it is not converted. *)
Fixpoint _rbt_to_tn_from (fuel : nat) (h : gmap ptr RBNode) (node : ptr)
    : option TNode :=
  match fuel with
  | O => None
  | S f =>
      if node =? NIL then Some TNull
      else
        match h !! node with
        | None => None
        | Some n =>
            match key n, _rbt_to_tn_from f h (left n),
                  _rbt_to_tn_from f h (right n) with
            | Some k, Some l, Some r => Some (TN k (color n) l r)
            | _, _, _ => None
            end
        end
  end.

(** [_rbt_to_tn(rbt, rbt.root)] *)
Definition _rbt_to_tn (st : RBTree) : option TNode :=
  _rbt_to_tn_from (next st) (heap st) (root st).

(** [_tree_h(n)] *)
Fixpoint _tree_h (n : TNode) : nat :=
  match n with
  | TNull => 0
  | TN _ _ l r => 1 + Nat.max (_tree_h l) (_tree_h r)
  end.

(** [collect_nodes(n)]: the nodes in order; a node stands for the subtree
    that hangs on it. *)
Fixpoint collect_nodes (n : TNode) : list TNode :=
  match n with
  | TNull => []
  | TN _ _ l r => collect_nodes l ++ [n] ++ collect_nodes r
  end.

(** ** analyze.py: the generator of full trees *)

(** [l[i]] on a Python list: a negative index counts from the end, an index
    out of range raises. *)
Definition py_index {A} (l : list A) (i : Z) : option A :=
  if (0 <=? i)%Z then l !! Z.to_nat i
  else if (0 <=? Z.of_nat (length l) + i)%Z
       then l !! Z.to_nat (Z.of_nat (length l) + i)
       else None.

(** [_build_full(keys, lo, hi)]; [None] is the [IndexError] of [keys[mid]].
    The fuel bounds the depth of the recursion. *)
Fixpoint _build_full_fuel (fuel : nat) (keys : list Z) (lo hi : Z)
    : option TNode :=
  match fuel with
  | O => None
  | S f =>
      if (lo >? hi)%Z then Some TNull
      else
        let mid := ((lo + hi) / 2)%Z in
        match py_index keys mid with
        | None => None
        | Some k =>
            match _build_full_fuel f keys lo (mid - 1)%Z,
                  _build_full_fuel f keys (mid + 1)%Z hi with
            | Some l, Some r => Some (TN k BLACK l r)
            | _, _ => None
            end
        end
  end.

Definition _build_full (keys : list Z) (lo hi : Z) : option TNode :=
  _build_full_fuel (S (Z.to_nat (hi - lo + 1))) keys lo hi.

(** [_auto_color(node, depth)] *)
Fixpoint _auto_color (node : TNode) (depth : nat) : TNode :=
  match node with
  | TNull => TNull
  | TN k _ l r =>
      let c :=
        match l, r with
        | TNull, TNull => if 0 <? depth then RED else BLACK
        | _, _ => BLACK
        end in
      TN k c (_auto_color l (depth + 1)) (_auto_color r (depth + 1))
  end.

(** [_gen_full_tree(height)]: the new [target_root]. *)
Definition _gen_full_tree (height : nat) : option TNode :=
  let keys := map Z.of_nat (seq 1 (2 ^ height - 1)) in
  match _build_full keys 0 (Z.of_nat (length keys) - 1) with
  | Some root => Some (_auto_color root 0)
  | None => None
  end.

(** ** build.py: the tree object and its snapshots *)

(** A snapshot is the nested dict [{key, color, left, right}], [None] for an
    empty subtree: the data of a fingerprint. *)

(** [tree_height(node)] *)
Fixpoint tree_height (node : fingerprint) : nat :=
  match node with
  | FNone => 0
  | FTuple _ _ l r => 1 + Nat.max (tree_height l) (tree_height r)
  end.

(** [count_nodes(node)] *)
Fixpoint count_nodes (node : fingerprint) : nat :=
  match node with
  | FNone => 0
  | FTuple _ _ l r => 1 + count_nodes l + count_nodes r
  end.

(** [black_height(node)] *)
Fixpoint black_height (node : fingerprint) : nat :=
  match node with
  | FNone => 0
  | FTuple _ c l _ => black_height l + (if c then 0 else 1)
  end.

(** [count_colors(node)]: [(black_count, red_count)]. *)
Fixpoint count_colors (node : fingerprint) : nat * nat :=
  match node with
  | FNone => (0, 0)
  | FTuple _ c l r =>
      let '(bl, rl) := count_colors l in
      let '(br, rr) := count_colors r in
      if c then (bl + br, rl + rr + 1) else (bl + br + 1, rl + rr)
  end.

(** [collect_keys(node)] *)
Fixpoint collect_keys (node : fingerprint) : list (option Z) :=
  match node with
  | FNone => []
  | FTuple k _ l r => collect_keys l ++ [k] ++ collect_keys r
  end.

(** [validate_rb(node, parent_color)]: [(is_valid, black_height)]; a
    [parent_color] of [None] counts as not RED. *)
Fixpoint validate_rb (node : fingerprint) (parent_color : option bool)
    : bool * nat :=
  match node with
  | FNone => (true, 1)
  | FTuple _ c l r =>
      if c && bool_decide (parent_color = Some RED) then (false, 0)
      else
        let '(ok_l, bh_l) := validate_rb l (Some c) in
        let '(ok_r, bh_r) := validate_rb r (Some c) in
        if negb ok_l || negb ok_r || negb (bh_l =? bh_r) then (false, 0)
        else (true, bh_l + (if c then 0 else 1))
  end.

(** ** build.py: the keys that reach the animated engine

    [_parse_values] turns a token into an [int] when [int(token)] accepts it
    and into a [float] otherwise, so that the engine of build.py also
    receives floats, the infinities and NaN among them.  The engine only
    compares keys, with [==] and [<]. *)

(** A Python float is an IEEE double: a NaN, an infinity, or a finite number
    [(-1)^neg * m * 2^e] (a zero when [m = 0]).  The precision of a double
    bounds [m] and [e]; no bound is imposed here. *)
Inductive pyfloat :=
| FNan
| FInf (neg : bool)
| FFinite (neg : bool) (m : N) (e : Z).

(** A key is an [int] or a [float]. *)
Inductive pykey :=
| KInt (z : Z)
| KFloat (f : pyfloat).

(** The number a key stands for; NaN stands for none. *)
Inductive xval :=
| NegInf
| Fin (q : Q)
| PosInf.

Definition fval (neg : bool) (m : N) (e : Z) : Q :=
  let n := (if neg then - Z.of_N m else Z.of_N m)%Z in
  if (0 <=? e)%Z then inject_Z (n * 2 ^ e)
  else (n # Z.to_pos (2 ^ (- e)))%Q.

Definition kval (k : pykey) : option xval :=
  match k with
  | KInt z => Some (Fin (inject_Z z))
  | KFloat FNan => None
  | KFloat (FInf neg) => Some (if neg then NegInf else PosInf)
  | KFloat (FFinite neg m e) => Some (Fin (fval neg m e))
  end.

Definition is_nan (k : pykey) : bool :=
  match kval k with None => true | Some _ => false end.

Definition xeqb (a b : xval) : bool :=
  match a, b with
  | NegInf, NegInf => true
  | PosInf, PosInf => true
  | Fin p, Fin q => Qeq_bool p q
  | _, _ => false
  end.

Definition xltb (a b : xval) : bool :=
  match a, b with
  | NegInf, NegInf => false
  | NegInf, _ => true
  | Fin p, Fin q => negb (Qle_bool q p)
  | Fin _, PosInf => true
  | _, _ => false
  end.

(** [a == b] and [a < b] on keys: Python compares an [int] and a [float] by
    their exact values, and every comparison with NaN is [False]. *)
Definition key_eq (a b : pykey) : bool :=
  match kval a, kval b with
  | Some x, Some y => xeqb x y
  | _, _ => false
  end.

Definition key_lt (a b : pykey) : bool :=
  match kval a, kval b with
  | Some x, Some y => xltb x y
  | _, _ => false
  end.

(** ** build.py: class RBTreeAnimated on these keys

    The same methods as in the module [Build], which is the engine on
    integer keys, now on every key that the window passes.  The store, the
    monad and the field accesses are as before, with keys of type
    [pykey]. *)
Module BuildF.

(** [class RBNode] of build.py. *)
Record RBNode := mkRBNode {
  key : option pykey;
  color : bool;
  left : ptr;
  right : ptr;
  parent : option ptr
}.

(** The tree object. *)
Record RBTreeAnimated := mkRBTreeAnimated {
  heap : gmap ptr RBNode;
  root : ptr;
  next : ptr
}.

Definition M (A : Type) : Type := RBTreeAnimated -> option (A * RBTreeAnimated).

Definition ret {A} (a : A) : M A := fun st => Some (a, st).
Definition bind {A B} (m : M A) (f : A -> M B) : M B :=
  fun st => match m st with
            | Some (a, st') => f a st'
            | None => None
            end.
Definition raise {A} : M A := fun _ => None.

Declare Scope anim_scope.
Notation "'let*' x ':=' m 'in' k" := (bind m (fun x => k))
  (at level 10, x name, m at level 100, k at level 200) : anim_scope.
Notation "m ';;' k" := (bind m (fun _ => k))
  (at level 100, k at level 200, right associativity) : anim_scope.
Local Open Scope anim_scope.

Definition load (a : ptr) : M RBNode :=
  fun st => match heap st !! a with
            | Some n => Some (n, st)
            | None => None
            end.
Definition store (a : ptr) (n : RBNode) : M unit :=
  fun st =>
    Some (tt, mkRBTreeAnimated (<[a := n]> (heap st)) (root st) (next st)).

Definition get_key (a : ptr) : M pykey :=
  let* n := load a in
  match key n with Some k => ret k | None => raise end.
Definition get_color (a : ptr) : M bool := let* n := load a in ret (color n).
Definition get_left (a : ptr) : M ptr := let* n := load a in ret (left n).
Definition get_right (a : ptr) : M ptr := let* n := load a in ret (right n).
Definition get_parent (a : ptr) : M (option ptr) :=
  let* n := load a in ret (parent n).

Definition set_color (a : ptr) (c : bool) : M unit :=
  let* n := load a in
  store a (mkRBNode (key n) c (left n) (right n) (parent n)).
Definition set_left (a : ptr) (l : ptr) : M unit :=
  let* n := load a in
  store a (mkRBNode (key n) (color n) l (right n) (parent n)).
Definition set_right (a : ptr) (r : ptr) : M unit :=
  let* n := load a in
  store a (mkRBNode (key n) (color n) (left n) r (parent n)).
Definition set_parent (a : ptr) (p : option ptr) : M unit :=
  let* n := load a in
  store a (mkRBNode (key n) (color n) (left n) (right n) p).

Definition get_root : M ptr := fun st => Some (root st, st).
Definition set_root (r : ptr) : M unit :=
  fun st => Some (tt, mkRBTreeAnimated (heap st) r (next st)).

Definition deref (o : option ptr) : M ptr :=
  match o with Some a => ret a | None => raise end.

(** [RBNode(key, RED)] followed by [z.left = z.right = self.NIL]. *)
Definition new_node (k : pykey) (c : bool) : M ptr :=
  fun st =>
    Some (next st,
          mkRBTreeAnimated
            (<[next st := mkRBNode (Some k) c NIL NIL None]> (heap st))
            (root st) (S (next st))).

Fixpoint while {S : Type} (fuel : nat) (cond : S -> M bool) (body : S -> M S)
    (s : S) : M S :=
  match fuel with
  | O => raise
  | Datatypes.S f =>
      let* b := cond s in
      if b then let* s' := body s in while f cond body s' else ret s
  end.

Definition budget : M nat := fun st => Some (next st, st).

(** [RBTreeAnimated.__init__] *)
Definition init : RBTreeAnimated :=
  mkRBTreeAnimated {[ NIL := mkRBNode None BLACK NIL NIL None ]} NIL 1.


Definition _left_rotate (x : ptr) : M unit :=
  let* y := get_right x in
  let* yl := get_left y in
  set_right x yl;;
  let* yl := get_left y in
  (if negb (yl =? NIL) then set_parent yl (Some x) else ret tt);;
  let* xp := get_parent x in
  set_parent y xp;;
  let* xp := get_parent x in
  match xp with
  | None => set_root y
  | Some p =>
      let* pl := get_left p in
      if x =? pl then set_left p y else set_right p y
  end;;
  set_left y x;;
  set_parent x (Some y).

Definition _right_rotate (y : ptr) : M unit :=
  let* x := get_left y in
  let* xr := get_right x in
  set_left y xr;;
  let* xr := get_right x in
  (if negb (xr =? NIL) then set_parent xr (Some y) else ret tt);;
  let* yp := get_parent y in
  set_parent x yp;;
  let* yp := get_parent y in
  match yp with
  | None => set_root x
  | Some p =>
      let* pl := get_left p in
      if y =? pl then set_left p x else set_right p x
  end;;
  set_right x y;;
  set_parent y (Some x).

Definition _insert_fixup_cond (z : ptr) : M bool :=
  let* zp := get_parent z in
  match zp with
  | None => ret false
  | Some p => let* c := get_color p in ret (eqb c RED)
  end.

Definition _insert_fixup_body (z : ptr) : M ptr :=
  let* p := let* zp := get_parent z in deref zp in
  let* g := let* pp := get_parent p in deref pp in
  let* gl := get_left g in
  if p =? gl then
    let* uncle := get_right g in
    let* uc := get_color uncle in
    if eqb uc RED then
      set_color p BLACK;;
      set_color uncle BLACK;;
      set_color g RED;;
      ret g
    else
      let* pr := get_right p in
      let* z := (if z =? pr then _left_rotate p;; ret p else ret z) in
      let* p := let* zp := get_parent z in deref zp in
      set_color p BLACK;;
      let* g := let* pp := get_parent p in deref pp in
      set_color g RED;;
      _right_rotate g;;
      ret z
  else
    let* uncle := get_left g in
    let* uc := get_color uncle in
    if eqb uc RED then
      set_color p BLACK;;
      set_color uncle BLACK;;
      set_color g RED;;
      ret g
    else
      let* pl := get_left p in
      let* z := (if z =? pl then _right_rotate p;; ret p else ret z) in
      let* p := let* zp := get_parent z in deref zp in
      set_color p BLACK;;
      let* g := let* pp := get_parent p in deref pp in
      set_color g RED;;
      _left_rotate g;;
      ret z.

Definition _insert_fixup (z : ptr) : M unit :=
  let* fuel := budget in
  while fuel _insert_fixup_cond _insert_fixup_body z;;
  let* r := get_root in
  let* rc := get_color r in
  if eqb rc RED then set_color r BLACK else ret tt.

(** The descent of [insert]: loop variables [(y, x)] and whether the
    [return] on a duplicate key was taken. *)
Definition insert_cond (s : option ptr * ptr * bool) : M bool :=
  let '(_, x, returned) := s in
  ret (negb returned && negb (x =? NIL)).
Definition insert_body (k : pykey) (s : option ptr * ptr * bool)
    : M (option ptr * ptr * bool) :=
  let '(_, x, _) := s in
  let* xk := get_key x in
  if key_eq k xk then ret (Some x, x, true)
  else
    let* x' := (if key_lt k xk then get_left x else get_right x) in
    ret (Some x, x', false).

Definition insert (k : pykey) : M unit :=
  let* z := new_node k RED in
  let* fuel := budget in
  let* r := get_root in
  let* s := while fuel insert_cond (insert_body k) (None, r, false) in
  let '(y, _, returned) := s in
  if returned then ret tt
  else
    set_parent z y;;
    match y with
    | None => set_root z
    | Some y =>
        let* yk := get_key y in
        if key_lt k yk then set_left y z else set_right y z
    end;;
    _insert_fixup z.

Definition _transplant (u v : ptr) : M unit :=
  let* up := get_parent u in
  match up with
  | None => set_root v
  | Some p =>
      let* pl := get_left p in
      if u =? pl then set_left p v else set_right p v
  end;;
  let* up := get_parent u in
  set_parent v up.

Definition _minimum (x : ptr) : M ptr :=
  let* fuel := budget in
  while fuel
    (fun x => let* xl := get_left x in ret (negb (xl =? NIL)))
    (fun x => get_left x)
    x.

(** [_search_recorded]: loop variable [node] and whether [return node] was
    taken inside the loop. *)
Definition _search_recorded (k : pykey) : M ptr :=
  let* fuel := budget in
  let* r := get_root in
  let* s :=
    while fuel
      (fun s : ptr * bool => ret (negb (snd s) && negb (fst s =? NIL)))
      (fun s : ptr * bool =>
         let node := fst s in
         let* nk := get_key node in
         if key_eq k nk then ret (node, true)
         else if key_lt k nk then
           let* l := get_left node in ret (l, false)
         else
           let* r := get_right node in ret (r, false))
      (r, false) in
  if snd s then ret (fst s) else ret NIL.

(** [w.left == self.NIL or w.left.color == BLACK] *)
Definition nil_or_black (a : ptr) : M bool :=
  if a =? NIL then ret true
  else let* c := get_color a in ret (eqb c BLACK).

(** [if a != self.NIL: a.color = BLACK] *)
Definition blacken_unless_nil (a : ptr) : M unit :=
  if negb (a =? NIL) then set_color a BLACK else ret tt.

Definition _delete_fixup_cond (x : ptr) : M bool :=
  let* r := get_root in
  if x =? r then ret false
  else let* c := get_color x in ret (eqb c BLACK).

Definition _delete_fixup_body (x : ptr) : M ptr :=
  let* p := let* xp := get_parent x in deref xp in
  let* pl := get_left p in
  if x =? pl then
    let* w := get_right p in
    let* wc := get_color w in
    let* w :=
      (if eqb wc RED then
         set_color w BLACK;;
         set_color p RED;;
         _left_rotate p;;
         let* p := let* xp := get_parent x in deref xp in
         get_right p
       else ret w) in
    let* wl := get_left w in
    let* wl_b := nil_or_black wl in
    let* wr := get_right w in
    let* wr_b := nil_or_black wr in
    if wl_b && wr_b then
      set_color w RED;;
      let* p := let* xp := get_parent x in deref xp in
      ret p
    else
      let* w :=
        (if wr_b then
           let* wl := get_left w in
           blacken_unless_nil wl;;
           set_color w RED;;
           _right_rotate w;;
           let* p := let* xp := get_parent x in deref xp in
           get_right p
         else ret w) in
      let* p := let* xp := get_parent x in deref xp in
      let* pc := get_color p in
      set_color w pc;;
      set_color p BLACK;;
      let* wr := get_right w in
      blacken_unless_nil wr;;
      _left_rotate p;;
      get_root
  else
    let* w := get_left p in
    let* wc := get_color w in
    let* w :=
      (if eqb wc RED then
         set_color w BLACK;;
         set_color p RED;;
         _right_rotate p;;
         let* p := let* xp := get_parent x in deref xp in
         get_left p
       else ret w) in
    let* wl := get_left w in
    let* wl_b := nil_or_black wl in
    let* wr := get_right w in
    let* wr_b := nil_or_black wr in
    if wl_b && wr_b then
      set_color w RED;;
      let* p := let* xp := get_parent x in deref xp in
      ret p
    else
      let* w :=
        (if wl_b then
           let* wr := get_right w in
           blacken_unless_nil wr;;
           set_color w RED;;
           _left_rotate w;;
           let* p := let* xp := get_parent x in deref xp in
           get_left p
         else ret w) in
      let* p := let* xp := get_parent x in deref xp in
      let* pc := get_color p in
      set_color w pc;;
      set_color p BLACK;;
      let* wl := get_left w in
      blacken_unless_nil wl;;
      _right_rotate p;;
      get_root.

Definition _delete_fixup (x : ptr) : M unit :=
  let* fuel := budget in
  let* x := while fuel _delete_fixup_cond _delete_fixup_body x in
  set_color x BLACK.

Definition delete (k : pykey) : M bool :=
  let* z := _search_recorded k in
  if z =? NIL then ret false
  else
    let* y_orig_color := get_color z in
    let* zl := get_left z in
    let* zr := get_right z in
    let* xy :=
      (if zl =? NIL then
         _transplant z zr;;
         ret (zr, y_orig_color)
       else if zr =? NIL then
         _transplant z zl;;
         ret (zl, y_orig_color)
       else
         let* y := _minimum zr in
         let* y_orig_color := get_color y in
         let* x := get_right y in
         let* yp := get_parent y in
         (if decide (yp = Some z) then
            set_parent x (Some y)
          else
            let* yr := get_right y in
            _transplant y yr;;
            let* zr := get_right z in
            set_right y zr;;
            let* yr := get_right y in
            set_parent yr (Some y));;
         _transplant z y;;
         let* zl := get_left z in
         set_left y zl;;
         let* yl := get_left y in
         set_parent yl (Some y);;
         let* zc := get_color z in
         set_color y zc;;
         ret (x, y_orig_color)) in
    (if eqb (snd xy) BLACK then _delete_fixup (fst xy) else ret tt);;
    ret true.

(** A snapshot: the nested dict [{key, color, left, right}], [None] for an
    empty subtree. *)
Inductive snap :=
| SNone
| SDict (k : option pykey) (c : bool) (l r : snap).

(** [_snapshot()] *)
Fixpoint _snap (fuel : nat) (h : gmap ptr RBNode) (n : ptr) : option snap :=
  match fuel with
  | O => None
  | S f =>
      if n =? NIL then Some SNone
      else
        match h !! n with
        | None => None
        | Some nd =>
            match _snap f h (left nd), _snap f h (right nd) with
            | Some l, Some r => Some (SDict (key nd) (color nd) l r)
            | _, _ => None
            end
        end
  end.

Definition _snapshot (st : RBTreeAnimated) : option snap :=
  _snap (next st) (heap st) (root st).

(** [get_all_keys()] *)
Fixpoint _in (fuel : nat) (h : gmap ptr RBNode) (n : ptr)
    : option (list (option pykey)) :=
  match fuel with
  | O => None
  | S f =>
      if n =? NIL then Some []
      else
        match h !! n with
        | None => None
        | Some nd =>
            match _in f h (left nd), _in f h (right nd) with
            | Some l, Some r => Some (l ++ [key nd] ++ r)
            | _, _ => None
            end
        end
  end.

Definition get_all_keys (st : RBTreeAnimated) : option (list (option pykey)) :=
  _in (next st) (heap st) (root st).

(** [collect_keys(node)] and [count_nodes(node)] on a snapshot. *)
Fixpoint collect_keys (node : snap) : list (option pykey) :=
  match node with
  | SNone => []
  | SDict k _ l r => collect_keys l ++ [k] ++ collect_keys r
  end.

Fixpoint count_nodes (node : snap) : nat :=
  match node with
  | SNone => 0
  | SDict _ _ l r => 1 + count_nodes l + count_nodes r
  end.

(** The replay of the queue of operations:
    [for op, key in self.operations: tree.insert(key) / tree.delete(key)]. *)
Fixpoint run_operations (ops : list (action * pykey)) : M unit :=
  match ops with
  | [] => ret tt
  | (a, k) :: rest =>
      match a with
      | INSERT => insert k
      | DELETE => delete k;; ret tt
      end;;
      run_operations rest
  end.

Definition execute (ops : list (action * pykey)) : option RBTreeAnimated :=
  match run_operations ops init with
  | Some (_, t) => Some t
  | None => None
  end.

End BuildF.

(** ** The tree a store represents

    The proofs relate a store to the binary tree it holds.  Every node of the
    tree carries the identity of the object that stores it, so that the tree
    determines the content of each of its cells. *)

Inductive tree :=
| Leaf
| Node (a : ptr) (c : bool) (l : tree) (k : Z) (r : tree).

Definition addr (t : tree) : ptr :=
  match t with Leaf => NIL | Node a _ _ _ _ => a end.
Definition tcolor (t : tree) : bool :=
  match t with Leaf => BLACK | Node _ c _ _ _ => c end.
Definition tleft (t : tree) : tree :=
  match t with Leaf => Leaf | Node _ _ l _ _ => l end.
Definition tright (t : tree) : tree :=
  match t with Leaf => Leaf | Node _ _ _ _ r => r end.
Definition is_node (t : tree) : bool :=
  match t with Leaf => false | Node _ _ _ _ _ => true end.

Fixpoint addrs (t : tree) : list ptr :=
  match t with
  | Leaf => []
  | Node a _ l _ r => a :: addrs l ++ addrs r
  end.

(** In-order key sequence. *)
Fixpoint keys (t : tree) : list Z :=
  match t with
  | Leaf => []
  | Node _ _ l k r => keys l ++ k :: keys r
  end.

(** The fingerprint of a tree forgets the identities. *)
Fixpoint erase (t : tree) : fingerprint :=
  match t with
  | Leaf => FNone
  | Node _ c l k r => FTuple (Some k) c (erase l) (erase r)
  end.

Fixpoint height (t : tree) : nat :=
  match t with
  | Leaf => 0
  | Node _ _ l _ r => S (Nat.max (height l) (height r))
  end.

(** One step of a path from a node to the root: the node is the left child
    ([FL]) or the right child ([FR]) of [a]; the frame keeps the sibling. *)
Inductive frame :=
| FL (a : ptr) (c : bool) (k : Z) (r : tree)
| FR (a : ptr) (c : bool) (l : tree) (k : Z).

Definition fill (F : frame) (t : tree) : tree :=
  match F with
  | FL a c k r => Node a c t k r
  | FR a c l k => Node a c l k t
  end.
Definition faddr (F : frame) : ptr :=
  match F with FL a _ _ _ => a | FR a _ _ _ => a end.
Definition fcolor (F : frame) : bool :=
  match F with FL _ c _ _ => c | FR _ c _ _ => c end.
Definition fsib (F : frame) : tree :=
  match F with FL _ _ _ r => r | FR _ _ l _ => l end.

(** A context is the path from a subtree up to the root, innermost frame
    first. *)
Definition ctx := list frame.

Fixpoint plug (C : ctx) (t : tree) : tree :=
  match C with
  | [] => t
  | F :: C' => plug C' (fill F t)
  end.

Definition caddr (C : ctx) : option ptr :=
  match C with [] => None | F :: _ => Some (faddr F) end.

Fixpoint caddrs (C : ctx) : list ptr :=
  match C with
  | [] => []
  | F :: C' => faddr F :: addrs (fsib F) ++ caddrs C'
  end.

(** The subtree reached from [t] along a path ([true] is left), and the
    context of that subtree. *)
Fixpoint sub_of (t : tree) (p : list bool) {struct p} : tree :=
  match p, t with
  | d :: p', Node _ _ l _ r => sub_of (if d then l else r) p'
  | _, _ => t
  end.
Fixpoint ctx_of (t : tree) (p : list bool) (C : ctx) {struct p} : ctx :=
  match p, t with
  | d :: p', Node a c l k r =>
      if d then ctx_of l p' (FL a c k r :: C)
      else ctx_of r p' (FR a c l k :: C)
  | _, _ => C
  end.

(** Local changes of a tree: recolouring the root, the two rotations. *)
Definition recolor (c' : bool) (t : tree) : tree :=
  match t with Leaf => Leaf | Node a _ l k r => Node a c' l k r end.
Definition rotl (t : tree) : tree :=
  match t with
  | Node x cx a kx (Node y cy b ky c) => Node y cy (Node x cx a kx b) ky c
  | _ => t
  end.
Definition rotr (t : tree) : tree :=
  match t with
  | Node y cy (Node x cx a kx b) ky c => Node x cx a kx (Node y cy b ky c)
  | _ => t
  end.

(** *** Insertion on trees

    [ins_ctx k t C] is the context of the leaf at which the descent of
    [insert] for [k] stops, [ins_step] is one pass of the loop of the
    fix-up for a node below a red parent [P] with grandparent [G], and
    [ins_fix] is the whole loop. *)
Fixpoint ins_ctx (k : Z) (t : tree) (C : ctx) : ctx :=
  match t with
  | Leaf => C
  | Node a c l x r =>
      if (k <? x)%Z then ins_ctx k l (FL a c x r :: C)
      else ins_ctx k r (FR a c l x :: C)
  end.

Definition ins_step (P G : frame) (t : tree) : tree * bool :=
  match G with
  | FL g _ kg u =>
      if tcolor u then
        (Node g RED (recolor BLACK (fill P t)) kg (recolor BLACK u), true)
      else
        match P with
        | FR _ _ _ _ =>
            (rotr (Node g RED (recolor BLACK (rotl (fill P t))) kg u), false)
        | FL _ _ _ _ =>
            (rotr (Node g RED (recolor BLACK (fill P t)) kg u), false)
        end
  | FR g _ u kg =>
      if tcolor u then
        (Node g RED (recolor BLACK u) kg (recolor BLACK (fill P t)), true)
      else
        match P with
        | FL _ _ _ _ =>
            (rotl (Node g RED u kg (recolor BLACK (rotr (fill P t)))), false)
        | FR _ _ _ _ =>
            (rotl (Node g RED u kg (recolor BLACK (fill P t))), false)
        end
  end.

Fixpoint ins_fix (C : ctx) (t : tree) : tree :=
  match C with
  | P :: G :: C' =>
      if fcolor P then
        let (t', again) := ins_step P G t in
        if again then ins_fix C' t' else plug C' t'
      else plug C t
  | _ => plug C t
  end.

(** *** Deletion on trees

    [find] is the descent of [_search], [min_ctx] the descent of
    [_tree_minimum].  [del_focus] is the structural part of [delete]: the
    context and the subtree of the node [x] that moved into the place of the
    spliced-out node, and the original colour of that node. *)
Fixpoint find (k : Z) (t : tree) (C : ctx) : ctx * tree :=
  match t with
  | Leaf => (C, Leaf)
  | Node a c l x r =>
      if (k =? x)%Z then (C, t)
      else if (k <? x)%Z then find k l (FL a c x r :: C)
      else find k r (FR a c l x :: C)
  end.

Fixpoint min_ctx (t : tree) (C : ctx) : ctx * tree :=
  match t with
  | Leaf => (C, Leaf)
  | Node a c l x r =>
      match l with
      | Leaf => (C, t)
      | Node _ _ _ _ _ => min_ctx l (FL a c x r :: C)
      end
  end.

Definition del_focus (C : ctx) (t : tree) : ctx * tree * bool :=
  match t with
  | Leaf => (C, Leaf, RED)
  | Node z cz l kz r =>
      if negb (is_node l) then (C, r, cz)
      else if negb (is_node r) then (C, l, cz)
      else
        match min_ctx r [] with
        | (Cm, Node y cy _ ky ry) => (Cm ++ FR y cz l ky :: C, ry, cy)
        | (_, Leaf) => (C, t, RED)
        end
  end.

Definition set_left_black (w : tree) : tree :=
  match w with
  | Leaf => Leaf
  | Node a c l k r => Node a c (recolor BLACK l) k r
  end.
Definition set_right_black (w : tree) : tree :=
  match w with
  | Leaf => Leaf
  | Node a c l k r => Node a c l k (recolor BLACK r)
  end.

(** Cases 2 to 4 of the delete fix-up for a node [t] in the hole of the
    frame [P], with a black sibling: the subtree that replaces [P[t]], and
    whether the loop goes on from its root (case 2). *)
Definition del_cases (P : frame) (t : tree) : tree * bool :=
  match P with
  | FL p cp kp w =>
      if eqb (tcolor (tleft w)) BLACK && eqb (tcolor (tright w)) BLACK then
        (Node p cp t kp (recolor RED w), true)
      else
        let w1 := if eqb (tcolor (tright w)) BLACK
                  then rotr (recolor RED (set_left_black w)) else w in
        (rotl (Node p BLACK t kp (set_right_black (recolor cp w1))), false)
  | FR p cp w kp =>
      if eqb (tcolor (tright w)) BLACK && eqb (tcolor (tleft w)) BLACK then
        (Node p cp (recolor RED w) kp t, true)
      else
        let w1 := if eqb (tcolor (tleft w)) BLACK
                  then rotl (recolor RED (set_right_black w)) else w in
        (rotr (Node p BLACK (set_left_black (recolor cp w1)) kp t), false)
  end.

(** One pass of the loop: the focus of the node the loop goes on with.  A
    red sibling is first rotated above the parent (case 1); after a terminal
    case the loop variable is the root. *)
Definition del_body (P : frame) (C : ctx) (t : tree) : ctx * tree :=
  match P with
  | FL p cp kp (Node wa true wl kw wr) =>
      let (t', again) := del_cases (FL p RED kp wl) t in
      if again then (FL wa BLACK kw wr :: C, t')
      else ([], plug (FL wa BLACK kw wr :: C) t')
  | FR p cp (Node wa true wl kw wr) kp =>
      let (t', again) := del_cases (FR p RED wr kp) t in
      if again then (FR wa BLACK wl kw :: C, t')
      else ([], plug (FR wa BLACK wl kw :: C) t')
  | _ =>
      let (t', again) := del_cases P t in
      if again then (C, t') else ([], plug C t')
  end.

(** The loop of the delete fix-up and the final [x.color = BLACK]; [n]
    bounds the number of passes. *)
Fixpoint del_fix (n : nat) (C : ctx) (t : tree) : tree :=
  match n, C with
  | S n', P :: C' =>
      if tcolor t then plug C (recolor BLACK t)
      else let (C2, t2) := del_body P C' t in del_fix n' C2 t2
  | _, _ => plug C (recolor BLACK t)
  end.

(** The tree after [delete k]. *)
Definition del_tree (k : Z) (T : tree) : tree :=
  let (C, t) := find k T [] in
  match t with
  | Leaf => T
  | Node _ _ _ _ _ =>
      let '(Cx, tx, y_orig) := del_focus C t in
      if eqb y_orig BLACK then del_fix (S (length Cx)) Cx tx
      else plug Cx tx
  end.

(** The descent of [insert] went left at keys above [k] only. *)
Definition dir_ok (k : Z) (C : ctx) : Prop :=
  match C with
  | [] => True
  | FL _ _ x _ :: _ => (k <? x)%Z = true
  | FR _ _ _ x :: _ => (k <? x)%Z = false
  end.

(** The tree after [insert k] when the new node is the object [z]. *)
Definition ins_tree (z : ptr) (k : Z) (T : tree) : tree :=
  recolor BLACK (ins_fix (ins_ctx k T []) (Node z RED Leaf k Leaf)).

(** The root of the tree is black (a context ends with the root's frame). *)
Definition root_black (C : ctx) : Prop :=
  match last C with Some F => fcolor F = BLACK | None => True end.

(** *** The red-black invariants on trees

    Black height as [validate_rb_tree] counts it: an empty subtree has black
    height 1.  [balanced] is invariants 4 and 5: no red node has a red child,
    and the two subtrees of every node have the same black height. *)
Fixpoint bh (t : tree) : nat :=
  match t with
  | Leaf => 1
  | Node _ c l _ _ => bh l + (if c then 0 else 1)
  end.

Fixpoint balanced (t : tree) : Prop :=
  match t with
  | Leaf => True
  | Node _ c l _ r =>
      bh l = bh r /\ balanced l /\ balanced r /\
      (c = RED -> tcolor l = BLACK /\ tcolor r = BLACK)
  end.

(** Invariants 2, 4 and 5 of a whole tree. *)
Definition rb (T : tree) : Prop := tcolor T = BLACK /\ balanced T.

(** The frames of a context fit around a subtree of black height [n] whose
    root may have any colour below a black frame and must be black below a
    red one; a red frame is never the root's. *)
Definition top_black (C : ctx) : Prop :=
  match C with [] => False | F :: _ => fcolor F = BLACK end.

Fixpoint ctx_ok (n : nat) (C : ctx) : Prop :=
  match C with
  | [] => True
  | F :: C' =>
      bh (fsib F) = n /\ balanced (fsib F) /\
      (fcolor F = RED -> tcolor (fsib F) = BLACK /\ top_black C') /\
      ctx_ok (n + (if fcolor F then 0 else 1)) C'
  end.

(** The hole of the context may hold a red root. *)
Definition hole_any (C : ctx) : Prop :=
  match C with [] => True | F :: _ => fcolor F = BLACK end.

(** The state of the delete fix-up at a node [t] in context [C]: the paths
    through [t] are one black node short, and [t] is balanced once its root
    is black. *)
Definition deficit (C : ctx) (t : tree) : Prop :=
  ctx_ok (S (bh t)) C /\ balanced (recolor BLACK t).

(** Number of passes of the loop that may still follow. *)
Definition need (C : ctx) (t : tree) : nat :=
  match C with
  | [] => 0
  | _ :: _ => if tcolor t then 0 else length C
  end.

(** The keys of a context to the left and to the right of its hole. *)
Fixpoint lkeys (C : ctx) : list Z :=
  match C with
  | [] => []
  | FL _ _ _ _ :: C' => lkeys C'
  | FR _ _ l k :: C' => lkeys C' ++ keys l ++ [k]
  end.
Fixpoint rkeys (C : ctx) : list Z :=
  match C with
  | [] => []
  | FL _ _ k r :: C' => k :: keys r ++ rkeys C'
  | FR _ _ _ _ :: C' => rkeys C'
  end.

(** The store holds the tree [t] below a node [par]. *)
Fixpoint Rep (h : gmap ptr RBNode) (par : option ptr) (t : tree) : Prop :=
  match t with
  | Leaf => True
  | Node a c l k r =>
      h !! a = Some (mkRBNode (Some k) c (addr l) (addr r) par)
      /\ Rep h (Some a) l /\ Rep h (Some a) r
  end.

(** The store holds the context [C] around a hole that points to [a]. *)
Fixpoint RepC (h : gmap ptr RBNode) (C : ctx) (a : ptr) : Prop :=
  match C with
  | [] => True
  | FL p c k r :: C' =>
      h !! p = Some (mkRBNode (Some k) c a (addr r) (caddr C'))
      /\ Rep h (Some p) r /\ RepC h C' p
  | FR p c l k :: C' =>
      h !! p = Some (mkRBNode (Some k) c (addr l) a (caddr C'))
      /\ Rep h (Some p) l /\ RepC h C' p
  end.

(** The tree object [st] holds the tree [T]; [np] is the current content of
    the sentinel's [parent] field. *)
Record Inv (st : RBTree) (T : tree) (np : option ptr) : Prop := mkInv {
  inv_rep : Rep (heap st) None T;
  inv_nodup : NoDup (addrs T);
  inv_root : root st = addr T;
  inv_sentinel : heap st !! NIL = Some (mkRBNode None BLACK NIL NIL np);
  inv_next : forall a, a ∈ NIL :: addrs T -> a < next st;
  inv_nil : NIL ∉ addrs T
}.

(** Total correctness of a computation from a state. *)
Definition wp {A} (m : M A) (st : RBTree) (Q : A -> RBTree -> Prop) : Prop :=
  exists a st', m st = Some (a, st') /\ Q a st'.

(** ** The invariants of the data model, read off a fingerprint *)

(** The in-order key sequence. *)
Fixpoint inorder (fp : fingerprint) : list Z :=
  match fp with
  | FNone => []
  | FTuple k _ l r =>
      inorder l ++ match k with Some x => [x] | None => [] end ++ inorder r
  end.

(** The colour of a position: an empty position is the BLACK sentinel. *)
Definition fp_color (fp : fingerprint) : bool :=
  match fp with
  | FNone => BLACK
  | FTuple _ c _ _ => c
  end.

(** The number of BLACK nodes on the leftmost path, the sentinel counted. *)
Fixpoint fp_bh (fp : fingerprint) : nat :=
  match fp with
  | FNone => 1
  | FTuple _ c l _ => fp_bh l + (if c then 0 else 1)
  end.

(** No RED node has a RED child. *)
Fixpoint no_red_red (fp : fingerprint) : Prop :=
  match fp with
  | FNone => True
  | FTuple _ c l r =>
      (c = RED -> fp_color l = BLACK /\ fp_color r = BLACK)
      /\ no_red_red l /\ no_red_red r
  end.

(** Every path from a node down to a sentinel has the same number of BLACK
    nodes. *)
Fixpoint equal_black_height (fp : fingerprint) : Prop :=
  match fp with
  | FNone => True
  | FTuple _ _ l r =>
      fp_bh l = fp_bh r /\ equal_black_height l /\ equal_black_height r
  end.

(** Invariants 2 to 5 (invariants 1 and 3 hold by the types: a colour is a
    boolean and an empty position is BLACK). *)
Definition red_black (fp : fingerprint) : Prop :=
  fp_color fp = BLACK /\ no_red_red fp /\ equal_black_height fp.

(** Invariant 6. *)
Definition strictly_increasing (l : list Z) : Prop := StronglySorted Z.lt l.
Definition increasing (l : list Z) : Prop := StronglySorted Z.le l.

(** The keys the tree object holds, in order. *)
Definition tree_keys (st : RBTree) : list Z :=
  match to_tuple st with
  | Some fp => inorder fp
  | None => []
  end.

(** ** The effect of a sequence of actions on the abstract tree *)

(** [z] is the identity that a new node receives. *)
Definition step_tree (z : ptr) (s : step) (T : tree) : tree :=
  match s with
  | (INSERT, k, _) => ins_tree z k T
  | (DELETE, k, _) => del_tree k T
  end.

Definition step_next (z : ptr) (s : step) : ptr :=
  match s with
  | (INSERT, _, _) => S z
  | (DELETE, _, _) => z
  end.

Fixpoint steps_tree (z : ptr) (steps : list step) (T : tree) : tree :=
  match steps with
  | [] => T
  | s :: rest => steps_tree (step_next z s) rest (step_tree z s T)
  end.

(** The sequences that never insert a key that the tree holds. *)
Fixpoint fresh_inserts (present : list Z) (steps : list step) : Prop :=
  match steps with
  | [] => True
  | (INSERT, k, _) :: rest => (k ∉ present) /\ fresh_inserts (k :: present) rest
  | (DELETE, k, _) :: rest =>
      fresh_inserts (filter (fun x => x <> k) present) rest
  end.

(** One action of a sequence, as [execute_steps] runs it. *)
Definition run_step (s : step) : M unit :=
  match s with
  | (INSERT, k, _) => Analyze.insert k
  | (DELETE, k, _) => Analyze.delete k
  end.

(** The keys that a sequence leaves in the tree, as a plain list. *)
Fixpoint steps_keys (steps : list step) (present : list Z) : list Z :=
  match steps with
  | [] => present
  | (INSERT, k, _) :: rest => steps_keys rest (k :: present)
  | (DELETE, k, _) :: rest => steps_keys rest (filter (fun x => x <> k) present)
  end.

(** The pure-insert sequence of a permutation, and the two helper actions. *)
Definition inserts (ks : list Z) : list step :=
  map (fun k => (INSERT, k, false)) ks.
Definition helper_insert (h : Z) : step := (INSERT, h, true).
Definition helper_delete (h : Z) : step := (DELETE, h, true).

(** [execute_steps(steps).to_tuple()] *)
Definition fingerprint_of (steps : list step) : option fingerprint :=
  match execute_steps steps with
  | Some st => to_tuple st
  | None => None
  end.

(** The same on the animated engine of build.py. *)
Definition fingerprint_of_animated (steps : list step) : option fingerprint :=
  match execute_steps_animated steps with
  | Some st => snapshot st
  | None => None
  end.

(** ** Colourings and tables *)

(** The tree [t] has a root of colour [c] and the black height [h], no RED
    node of it has a RED child, and the black heights of the two children of
    every node are equal. *)
Fixpoint col_ok (t : TNode) (c : bool) (h : Z) : Prop :=
  match t with
  | TNull => c = BLACK /\ h = 1%Z
  | TN _ c' l r =>
      c' = c /\
      exists lc rc ch,
        col_ok l lc ch /\ col_ok r rc ch
        /\ (c = RED -> lc = BLACK /\ rc = BLACK)
        /\ h = (ch + (if eqb c BLACK then 1 else 0))%Z
  end.

Definition dp_keys (d : dp_table) : list dp_key := map fst d.

(** Three shapes: the perfect tree of three nodes and the chains of two and
    of three nodes. *)
Definition perfect3 : TNode :=
  TN 2 BLACK (TN 1 BLACK TNull TNull) (TN 3 BLACK TNull TNull).
Definition chain2 : TNode := TN 1 BLACK TNull (TN 2 BLACK TNull TNull).
Definition chain3 : TNode :=
  TN 1 BLACK TNull (TN 2 BLACK TNull (TN 3 BLACK TNull TNull)).

(** ** Definitions that the proofs use *)

(** The invariant seen from a subtree [t] in its context [C]. *)
Record InvF (st : RBTree) (C : ctx) (t : tree) (np : option ptr) : Prop := mkInvF {
  invf_ctx : RepC (heap st) C (addr t);
  invf_sub : Rep (heap st) (caddr C) t;
  invf_nodup : NoDup (addrs t ++ caddrs C);
  invf_root : root st = addr (plug C t);
  invf_sentinel : heap st !! NIL = Some (mkRBNode None BLACK NIL NIL np);
  invf_next : forall a, a ∈ NIL :: addrs t ++ caddrs C -> a < next st;
  invf_nil : NIL ∉ addrs t ++ caddrs C
}.

(** Disjointness of two lists of identities, in a form that decomposes. *)
Definition disj (l k : list ptr) : Prop := forall z, z ∈ l -> z ∉ k.

(** The statements of [insert] between the descent and the fix-up. *)
Definition link (z : ptr) (k : Z) (y : option ptr) : M unit :=
  bind (set_parent z y) (fun _ =>
    match y with
    | None => set_root z
    | Some y =>
        let* yk := get_key y in
        if (k <? yk)%Z then set_left y z else set_right y z
    end).

(** The statements of [delete] that put the successor [y] in the place of
    [z], followed by the rest [K] of the method. *)
Definition relink {A} (z y : ptr) (K : M A) : M A :=
  Analyze._transplant z y;;
  let* zl := get_left z in
  set_left y zl;;
  let* yl := get_left y in
  set_parent yl (Some y);;
  let* zc := get_color z in
  set_color y zc;;
  K.

(** The statements of [delete] between the search and the fix-up: they
    return [x] and the original colour of the node that was spliced out. *)
Definition delete_splice (z zl zr : ptr) (y_orig : bool) : M (ptr * bool) :=
  if zl =? NIL then
    Analyze._transplant z zr;;
    ret (zr, y_orig)
  else if zr =? NIL then
    Analyze._transplant z zl;;
    ret (zl, y_orig)
  else
    let* y := Analyze._tree_minimum zr in
    let* y_orig := get_color y in
    let* x := get_right y in
    let* yp := get_parent y in
    (if decide (yp = Some z) then
       set_parent x (Some y)
     else
       let* yr := get_right y in
       Analyze._transplant y yr;;
       let* zr := get_right z in
       set_right y zr;;
       let* yr := get_right y in
       set_parent yr (Some y));;
    Analyze._transplant z y;;
    let* zl := get_left z in
    set_left y zl;;
    let* yl := get_left y in
    set_parent yl (Some y);;
    let* zc := get_color z in
    set_color y zc;;
    ret (x, y_orig).

(** The keys on the two sides of the place where [insert] descends. *)
Definition bounds (k : Z) (C : ctx) : Prop :=
  Forall (fun x => (x <= k)%Z) (lkeys C) /\ Forall (fun x => (k < x)%Z) (rkeys C).

(** The keys on the two sides of the place where [_search] descends. *)
Definition sbounds (k : Z) (C : ctx) : Prop :=
  Forall (fun x => (x < k)%Z) (lkeys C) /\ Forall (fun x => (k < x)%Z) (rkeys C).

(** What a node of colour [c] adds to the black height. *)
Definition bh_add (c : bool) : Z := if eqb c BLACK then 1%Z else 0%Z.

(** ** More definitions for the statements about the tree object *)

(** The object that a path of child references leads to from [a]; [true] is
    [left]. *)
Fixpoint node_at (h : gmap ptr RBNode) (a : ptr) (p : list bool) : option ptr :=
  match p with
  | [] => Some a
  | d :: p' =>
      match h !! a with
      | Some n => node_at h (if d then left n else right n) p'
      | None => None
      end
  end.

(** The [TNode] tree of an abstract tree. *)
Fixpoint to_tnode (t : tree) : TNode :=
  match t with
  | Leaf => TNull
  | Node _ c l k r => TN k c (to_tnode l) (to_tnode r)
  end.

(** The number of nodes. *)
Fixpoint size (t : tree) : nat :=
  match t with
  | Leaf => 0
  | Node _ _ l _ r => 1 + size l + size r
  end.

(** One pass of the loop of [helper_steps]. *)
Definition helper_step (pl : list Z) (h : Z) (ins_pos del_pos : nat)
    (acc : list step * nat) (si : nat) : list step * nat :=
  let '(steps, pi) := acc in
  if si =? ins_pos then (steps ++ [(INSERT, h, true)], pi)
  else if si =? del_pos then (steps ++ [(DELETE, h, true)], pi)
  else if pi <? length pl then
    match pl !! pi with
    | Some k => (steps ++ [(INSERT, k, false)], pi + 1)
    | None => (steps, pi)
    end
  else (steps, pi).


(** The results that one permutation adds when the search is not
    cancelled. *)
Definition direct_results (s : search_setup) (perm : list Z)
    : list search_result :=
  match mode s with
  | ModeDirect | ModeBoth =>
      if direct_match (target_tuple s) perm
      then [(DIRECT, inserts perm)] else []
  | ModeHelper => []
  end.

Definition helper_results (s : search_setup) (h : Z) (pl : list Z)
    (ps : list (nat * nat)) : list search_result :=
  flat_map
    (fun p : nat * nat =>
       let steps := helper_steps pl h (fst p) (snd p) in
       if use_prefix s && prefix_skip s steps then []
       else if steps_match (target_tuple s) steps then [(HELPER, steps)]
       else [])
    ps.

Definition helper_part_results (s : search_setup) (perm : list Z)
    : list search_result :=
  match helper_val s, mode s with
  | Some h, (ModeHelper | ModeBoth) =>
      helper_results s h perm (positions (helper_pos s) (length perm))
  | _, _ => []
  end.

Definition perm_results (s : search_setup) (raw_perm : list Z)
    : list search_result :=
  let perm := if use_prefix s then prefix_vals s ++ raw_perm else raw_perm in
  direct_results s perm ++ helper_part_results s perm.

(** The permutations that the worker runs through. *)
Definition perm_source (s : search_setup) : list (list Z) :=
  if use_prefix s
  then permutations
         (filter (fun e => negb (bool_decide (e ∈ prefix_vals s))) (elems s))
  else permutations (elems s).

(** Once the stop flag is set it stays set. *)
Definition stays_set (stop : nat -> bool) : Prop :=
  forall i j, i <= j -> stop i = true -> stop j = true.

(** Every result runs to the target. *)
Definition sound (s : search_setup) (results : list search_result) : Prop :=
  forall r, r ∈ results -> fingerprint_of (snd r) = Some (target_tuple s).

(** ** More definitions for the statements about [TNode] trees *)

(** [x] lies strictly between the bounds; an absent bound is infinite. *)
Definition in_bounds (lo hi : option Z) (x : Z) : Prop :=
  match lo with Some m => (m < x)%Z | None => True end
  /\ match hi with Some m => (x < m)%Z | None => True end.

(** The perfect tree of height [h] over the keys from position [lo] on, all
    BLACK: what [_build_full] builds from [2^h - 1] keys. *)
Fixpoint perfect (keys : list Z) (lo h : nat) : TNode :=
  match h with
  | O => TNull
  | S h' =>
      let mid := lo + (2 ^ h' - 1) in
      TN (nth mid keys 0%Z) BLACK (perfect keys lo h') (perfect keys (S mid) h')
  end.

(** ** More definitions for the statements about the sampler *)

(** The values that a computation with random draws can return. *)
Definition outcomes {A} (d : dist A) : list A := map fst d.

(** The request [(parent_color, target_bh)] that [assign] gets for the
    subtree [n] can be met: the table of [n] has an entry of that black
    height whose colour the parent allows. *)
Definition can_assign (n : TNode) (parent_color : option bool) (h : Z) : Prop :=
  exists c, (c, h) ∈ dp_keys (build_dp n)
            /\ (parent_color = Some RED -> c = BLACK).

(** The total probability of the outcomes. *)
Definition mass {A} (d : dist A) : Q := fold_right Qplus 0%Q (map snd d).

(** Every count of a table is positive. *)
Definition counts_pos (d : dp_table) : Prop := forall e, e ∈ d -> 1 <= snd e.

(** ** The effect of the animated engine on the abstract tree *)

(** [insert] of build.py returns at a node with the key. *)
Definition bins_tree (z : ptr) (k : Z) (T : tree) : tree :=
  if is_node (snd (find k T [])) then T else ins_tree z k T.

Definition bstep_tree (z : ptr) (s : step) (T : tree) : tree :=
  match s with
  | (INSERT, k, _) => bins_tree z k T
  | (DELETE, k, _) => del_tree k T
  end.

Fixpoint bsteps_tree (z : ptr) (steps : list step) (T : tree) : tree :=
  match steps with
  | [] => T
  | s :: rest => bsteps_tree (step_next z s) rest (bstep_tree z s T)
  end.

(** One action of a sequence on the animated engine. *)
Definition run_step_animated (s : step) : M unit :=
  match s with
  | (INSERT, k, _) => Build.insert k
  | (DELETE, k, _) => Build.delete k;; ret tt
  end.

(** ** The colourings that a table of [build_dp] counts *)

(** The colours that a child of a node of colour [c] may have. *)
Definition child_colors (c : bool) : list bool :=
  if eqb c RED then [BLACK] else [RED; BLACK].

(** The colourings of the shape [t] with the root colour [c] and the black
    height [h] in which no RED node has a RED child and the two children of
    every node have the same black height. *)
Fixpoint cols (t : TNode) (c : bool) (h : Z) : list TNode :=
  match t with
  | TNull => if eqb c BLACK && (h =? 1)%Z then [TNull] else []
  | TN k _ l r =>
      let ch := (h - (if eqb c BLACK then 1 else 0))%Z in
      flat_map
        (fun l' =>
           map (fun r' => TN k c l' r')
             (flat_map (fun rc => cols r rc ch) (child_colors c)))
        (flat_map (fun lc => cols l lc ch) (child_colors c))
  end.

(** The counts of the entries of a table that a node of colour [c] can use
    for a child of black height [ch]. *)
Definition wsum (c : bool) (ch : Z) (d : dp_table) : nat :=
  sum_by (fun e : dp_key * nat =>
            if eqb c RED && eqb (fst (fst e)) RED then 0
            else if negb (snd (fst e) =? ch)%Z then 0 else snd e) d.

(** ** The set of keys that a sequence of actions leaves *)

(** An INSERT adds its key to the set, a DELETE takes it out. *)
Fixpoint keys_after (steps : list step) (present : gset Z) : gset Z :=
  match steps with
  | [] => present
  | (INSERT, k, _) :: rest => keys_after rest ({[k]} ∪ present)
  | (DELETE, k, _) :: rest => keys_after rest (present ∖ {[k]})
  end.

(** ** The animated engine on floats and the engine on integers *)

(** The place of a key among the keys of a list: the number of the keys of
    the list that are less. *)
Definition rank (K : list pykey) (x : pykey) : Z :=
  Z.of_nat (length (List.filter (fun y => key_lt y x) K)).

(** NaN, which is less than no key and equals none, is put above the keys
    of the list. *)
Definition place (K : list pykey) (x : pykey) : Z :=
  if is_nan x then (Z.of_nat (length K) + 1)%Z else rank K x.

(** A tree object on floats seen with integer keys. *)
Definition mpn (emb : pykey -> Z) (n : BuildF.RBNode) : RBNode :=
  mkRBNode (emb <$> BuildF.key n) (BuildF.color n) (BuildF.left n)
           (BuildF.right n) (BuildF.parent n).

Definition mp (emb : pykey -> Z) (st : BuildF.RBTreeAnimated) : RBTree :=
  mkRBTree (mpn emb <$> BuildF.heap st) (BuildF.root st) (BuildF.next st).

(** The keys of the objects of a store. *)
Definition ktab (st : BuildF.RBTreeAnimated) : gmap ptr (option pykey) :=
  BuildF.key <$> BuildF.heap st.

(** A computation on floats and a computation on integers do the same. *)
Definition sim {A} (emb : pykey -> Z) (mf : BuildF.M A) (mz : M A) : Prop :=
  forall st,
    match mf st with
    | Some (a, st') => mz (mp emb st) = Some (a, mp emb st') /\ ktab st' = ktab st
    | None => mz (mp emb st) = None
    end.

(** The keys of the objects of a store are among [K]. *)
Definition keys_ok (K : pykey -> Prop) (st : BuildF.RBTreeAnimated) : Prop :=
  forall p k, ktab st !! p = Some (Some k) -> K k.

Definition simP {A} (emb : pykey -> Z) (K : pykey -> Prop)
    (mf : BuildF.M A) (mz : M A) : Prop :=
  forall st, keys_ok K st ->
    match mf st with
    | Some (a, st') => mz (mp emb st) = Some (a, mp emb st') /\ ktab st' = ktab st
    | None => mz (mp emb st) = None
    end.

(** An operation of the queue as a step on integer keys. *)
Definition to_step (emb : pykey -> Z) (op : action * pykey) : step :=
  (fst op, emb (snd op), false).

(** No insert of the queue has the key NaN. *)
Definition no_nan_inserted (ops : list (action * pykey)) : bool :=
  forallb (fun op : action * pykey =>
             match fst op with
             | INSERT => negb (is_nan (snd op))
             | DELETE => true
             end) ops.

(** A snapshot with integer keys. *)
Fixpoint map_snap (emb : pykey -> Z) (s : BuildF.snap) : fingerprint :=
  match s with
  | BuildF.SNone => FNone
  | BuildF.SDict k c l r =>
      FTuple (emb <$> k) c (map_snap emb l) (map_snap emb r)
  end.

(** The snapshot of the tree [t] in a store. *)
Fixpoint snap_of (h : gmap ptr BuildF.RBNode) (t : tree) : BuildF.snap :=
  match t with
  | Leaf => BuildF.SNone
  | Node a c l _ r =>
      BuildF.SDict (h !! a ≫= BuildF.key) c (snap_of h l) (snap_of h r)
  end.

(** ** The invariants of a snapshot *)

Definition snap_color (s : BuildF.snap) : bool :=
  match s with
  | BuildF.SNone => BLACK
  | BuildF.SDict _ c _ _ => c
  end.

(** The number of BLACK nodes on the leftmost path, the sentinel counted. *)
Fixpoint snap_bh (s : BuildF.snap) : nat :=
  match s with
  | BuildF.SNone => 1
  | BuildF.SDict _ c l _ => snap_bh l + (if c then 0 else 1)
  end.

Fixpoint snap_no_red_red (s : BuildF.snap) : Prop :=
  match s with
  | BuildF.SNone => True
  | BuildF.SDict _ c l r =>
      (c = RED -> snap_color l = BLACK /\ snap_color r = BLACK)
      /\ snap_no_red_red l /\ snap_no_red_red r
  end.

Fixpoint snap_equal_black_height (s : BuildF.snap) : Prop :=
  match s with
  | BuildF.SNone => True
  | BuildF.SDict _ _ l r =>
      snap_bh l = snap_bh r
      /\ snap_equal_black_height l /\ snap_equal_black_height r
  end.

(** The root is BLACK, no RED node has a RED child, and every path has the
    same number of BLACK nodes. *)
Definition snap_red_black (s : BuildF.snap) : Prop :=
  snap_color s = BLACK /\ snap_no_red_red s /\ snap_equal_black_height s.

(** The keys increase strictly, by [<] of Python. *)
Definition keys_increasing (ks : list pykey) : Prop :=
  StronglySorted (fun a b => key_lt a b = true) ks.

(** Some key of the list equals [x], by [==] of Python. *)
Definition holds (ks : list pykey) (x : pykey) : bool :=
  existsb (key_eq x) ks.

(** The keys that a queue of operations leaves: an insert adds its key unless
    an equal key is there, a delete takes the equal keys out. *)
Fixpoint keys_left (ops : list (action * pykey)) (present : list pykey)
    : list pykey :=
  match ops with
  | [] => present
  | (INSERT, k) :: rest =>
      keys_left rest (if holds present k then present else k :: present)
  | (DELETE, k) :: rest =>
      keys_left rest (List.filter (fun y => negb (key_eq k y)) present)
  end.

(** ** Integer keys *)

(** A step of the executor as an operation of the queue, and the integer of
    an [int] key. *)
Definition int_op (s : step) : action * pykey :=
  (fst (fst s), KInt (snd (fst s))).

Definition int_of (k : pykey) : Z :=
  match k with KInt z => z | KFloat _ => 0%Z end.

(** ** Reasoning about computations *)

Lemma wp_bind {A B} (m : M A) (f : A -> M B) st Q :
  wp m st (fun a st' => wp (f a) st' Q) -> wp (bind m f) st Q.
Proof.
  intros (a & st' & E & b & st'' & E' & HQ). exists b, st''. split; [|done].
  unfold bind. by rewrite E.
Qed.

Lemma wp_ret {A} (a : A) st (Q : A -> RBTree -> Prop) : Q a st -> wp (ret a) st Q.
Proof. intros. by exists a, st. Qed.

Lemma wp_mono {A} (m : M A) st (Q Q' : A -> RBTree -> Prop) :
  wp m st Q -> (forall a st', Q a st' -> Q' a st') -> wp m st Q'.
Proof. intros (a & st' & E & HQ) H. exists a, st'. auto. Qed.

Lemma wp_eq {A} (m : M A) st a st' (Q : A -> RBTree -> Prop) :
  m st = Some (a, st') -> Q a st' -> wp m st Q.
Proof. intros. by exists a, st'. Qed.

Lemma wp_bind_eq {A B} (m : M A) (f : A -> M B) st a st' Q :
  m st = Some (a, st') -> wp (f a) st' Q -> wp (bind m f) st Q.
Proof. intros E H. apply wp_bind. by apply (wp_eq _ _ a st'). Qed.

Lemma wp_elim {A} (m : M A) st (Q : A -> RBTree -> Prop) :
  wp m st Q -> exists a st', m st = Some (a, st') /\ Q a st'.
Proof. done. Qed.

Lemma wp_assoc {A B D} (m : M A) (f : A -> M B) (g : B -> M D) st Q :
  wp (bind m (fun x => bind (f x) g)) st Q -> wp (bind (bind m f) g) st Q.
Proof.
  intros (a & st' & E & HQ). exists a, st'. split; [|done].
  revert E. unfold bind. by destruct (m st) as [[? ?]|].
Qed.

Lemma wp_last {A} (m : M A) st Q : wp (bind m ret) st Q -> wp m st Q.
Proof.
  intros (a & st' & E & HQ). exists a, st'. split; [|done].
  revert E. unfold bind, ret. by destruct (m st) as [[? ?]|].
Qed.

Lemma wp_assoc_rev {A B D} (m : M A) (f : A -> M B) (g : B -> M D) st Q :
  wp (bind (bind m f) g) st Q -> wp (bind m (fun x => bind (f x) g)) st Q.
Proof.
  intros (a & st' & E & HQ). exists a, st'. split; [|done].
  revert E. unfold bind. by destruct (m st) as [[? ?]|].
Qed.

(** ** Trees and contexts *)

Lemma addrs_plug C t : addrs (plug C t) ≡ₚ addrs t ++ caddrs C.
Proof.
  revert t. induction C as [|F C IH]; intros t; simpl.
  - by rewrite app_nil_r.
  - rewrite IH. destruct F; simpl.
    + rewrite <- !app_assoc. apply Permutation_middle.
    + rewrite <- (Permutation_middle _ _ a). simpl. constructor.
      rewrite <- !app_assoc. rewrite (app_assoc (addrs l)).
      rewrite (Permutation_app_comm (addrs l)). by rewrite <- !app_assoc.
Qed.

Lemma keys_plug_congr C t t' : keys t = keys t' -> keys (plug C t) = keys (plug C t').
Proof.
  revert t t'. induction C as [|F C IH]; intros t t' E; simpl; [done|].
  apply IH. destruct F; simpl; by rewrite E.
Qed.

Lemma Rep_plug h C t :
  Rep h None (plug C t) <-> RepC h C (addr t) /\ Rep h (caddr C) t.
Proof.
  revert t. induction C as [|F C IH]; intros t; simpl.
  - tauto.
  - rewrite IH. destruct F; simpl; tauto.
Qed.

Lemma plug_ctx_of t p C : plug (ctx_of t p C) (sub_of t p) = plug C t.
Proof.
  revert t C. induction p as [|d p IH]; intros t C; simpl; [done|].
  destruct t as [|a c l k r]; [done|]. destruct d; by rewrite IH.
Qed.

Lemma plug_app C1 C2 t : plug (C1 ++ C2) t = plug C2 (plug C1 t).
Proof. revert t. induction C1; simpl; auto. Qed.

Lemma is_node_plug C t : C <> [] -> is_node (plug C t) = true.
Proof.
  revert t. induction C as [|F C IH]; intros t H; [done|]. simpl.
  destruct C; [by destruct F|]. apply IH. done.
Qed.

Lemma is_node_plug' C t : is_node t = true -> is_node (plug C t) = true.
Proof.
  intros H. destruct C as [|F C]; [done|]. by apply (is_node_plug (F :: C)).
Qed.

Lemma caddrs_app C1 C2 : caddrs (C1 ++ C2) = caddrs C1 ++ caddrs C2.
Proof.
  induction C1 as [|F C1 IH]; simpl; [done|]. by rewrite IH, <- app_assoc.
Qed.

Lemma addr_plug_in C t : C <> [] -> addr (plug C t) ∈ caddrs C.
Proof.
  revert t. induction C as [|F C IH]; intros t H; [done|]. simpl.
  destruct C as [|F' C].
  - destruct F; simpl; left.
  - right. apply elem_of_app. right. apply IH. done.
Qed.

Lemma addr_plug_congr C t t' : addr t = addr t' -> addr (plug C t) = addr (plug C t').
Proof.
  revert t t'. induction C as [|F C IH]; intros t t' E; simpl; [done|].
  apply IH. by destruct F.
Qed.


(** ** The focused form of the invariant *)

Lemma Inv_focus st C t np : Inv st (plug C t) np <-> InvF st C t np.
Proof.
  split.
  - intros [H1 H2 H3 H4 H5 H6]. apply Rep_plug in H1 as [? ?].
    assert (HP := addrs_plug C t).
    split; auto.
    + by rewrite <- HP.
    + intros a Ha. apply H5. by rewrite HP.
    + by rewrite <- HP.
  - intros [H1 H2 H3 H4 H5 H6 H7]. assert (HP := addrs_plug C t).
    split; auto.
    + apply Rep_plug. done.
    + by rewrite HP.
    + intros a Ha. apply H6. by rewrite <- HP.
    + by rewrite HP.
Qed.

Lemma Inv_focus_at st C t p np :
  Inv st (plug C t) np -> InvF st (ctx_of t p C) (sub_of t p) np.
Proof. intros H. apply Inv_focus. by rewrite plug_ctx_of. Qed.

(** ** Reading the fields of a node of the tree *)

Lemma load_node st C a c l k r np :
  InvF st C (Node a c l k r) np ->
  load a st = Some (mkRBNode (Some k) c (addr l) (addr r) (caddr C), st).
Proof. intros [_ [H _] _ _ _ _ _]. unfold load. by rewrite H. Qed.

Lemma load_nil st C t np :
  InvF st C t np -> load NIL st = Some (mkRBNode None BLACK NIL NIL np, st).
Proof. intros [_ _ _ _ H _ _]. unfold load. by rewrite H. Qed.

Section reads.
Context (st : RBTree) (C : ctx) (t : tree) (np : option ptr).
Context (HInv : Inv st (plug C t) np).

Lemma rd_color p :
  get_color (addr (sub_of t p)) st = Some (tcolor (sub_of t p), st).
Proof.
  pose proof (Inv_focus_at _ _ _ p _ HInv) as H. unfold get_color, bind.
  destruct (sub_of t p); simpl.
  - by rewrite (load_nil _ _ _ _ H).
  - by rewrite (load_node _ _ _ _ _ _ _ _ H).
Qed.

Lemma rd_left p :
  get_left (addr (sub_of t p)) st = Some (addr (tleft (sub_of t p)), st).
Proof.
  pose proof (Inv_focus_at _ _ _ p _ HInv) as H. unfold get_left, bind.
  destruct (sub_of t p); simpl.
  - by rewrite (load_nil _ _ _ _ H).
  - by rewrite (load_node _ _ _ _ _ _ _ _ H).
Qed.

Lemma rd_right p :
  get_right (addr (sub_of t p)) st = Some (addr (tright (sub_of t p)), st).
Proof.
  pose proof (Inv_focus_at _ _ _ p _ HInv) as H. unfold get_right, bind.
  destruct (sub_of t p); simpl.
  - by rewrite (load_nil _ _ _ _ H).
  - by rewrite (load_node _ _ _ _ _ _ _ _ H).
Qed.

Lemma rd_parent p :
  get_parent (addr (sub_of t p)) st =
  Some (if is_node (sub_of t p) then caddr (ctx_of t p C) else np, st).
Proof.
  pose proof (Inv_focus_at _ _ _ p _ HInv) as H. unfold get_parent, bind.
  destruct (sub_of t p); simpl.
  - by rewrite (load_nil _ _ _ _ H).
  - by rewrite (load_node _ _ _ _ _ _ _ _ H).
Qed.

Lemma rd_parent' p :
  (is_node (sub_of t p) = false -> np = caddr (ctx_of t p C)) ->
  get_parent (addr (sub_of t p)) st = Some (caddr (ctx_of t p C), st).
Proof.
  intros H. rewrite rd_parent. destruct (is_node (sub_of t p)); [done|].
  by rewrite H.
Qed.

Lemma rd_key p :
  match sub_of t p with
  | Leaf => True
  | Node a _ _ k _ => get_key a st = Some (k, st)
  end.
Proof.
  pose proof (Inv_focus_at _ _ _ p _ HInv) as H.
  destruct (sub_of t p); simpl; [done|].
  unfold get_key, bind. by rewrite (load_node _ _ _ _ _ _ _ _ H).
Qed.

Lemma rd_root : get_root st = Some (addr (plug C t), st).
Proof. unfold get_root. by rewrite (inv_root _ _ _ HInv). Qed.

Lemma rd_budget : budget st = Some (next st, st).
Proof. done. Qed.

End reads.

(** ** Stores that differ on a few cells *)

Lemma Rep_frame h h' par t :
  Rep h par t -> (forall a, a ∈ addrs t -> h' !! a = h !! a) -> Rep h' par t.
Proof.
  revert par. induction t as [|a c l IHl k r IHr]; intros par H Hf; simpl in *; [done|].
  destruct H as (H & Hl & Hr). split_and!.
  - rewrite Hf; [done|]. left.
  - apply IHl; [done|]. intros b Hb. apply Hf. right. apply elem_of_app. by left.
  - apply IHr; [done|]. intros b Hb. apply Hf. right. apply elem_of_app. by right.
Qed.

Lemma RepC_frame h h' C a :
  RepC h C a -> (forall b, b ∈ caddrs C -> h' !! b = h !! b) -> RepC h' C a.
Proof.
  revert a. induction C as [|F C IH]; intros a H Hf; simpl in *; [done|].
  destruct F; destruct H as (H & Hs & HC); split_and!.
  - rewrite Hf; [done|]. left.
  - apply (Rep_frame h); [done|]. intros b Hb. apply Hf. right. apply elem_of_app. by left.
  - apply IH; [done|]. intros b Hb. apply Hf. right. apply elem_of_app. by right.
  - rewrite Hf; [done|]. left.
  - apply (Rep_frame h); [done|]. intros b Hb. apply Hf. right. apply elem_of_app. by left.
  - apply IH; [done|]. intros b Hb. apply Hf. right. apply elem_of_app. by right.
Qed.

Ltac nodup_split H :=
  repeat first
    [ rewrite NoDup_cons in H
    | rewrite NoDup_app in H
    | rewrite not_elem_of_cons in H
    | rewrite not_elem_of_app in H
    | rewrite not_elem_of_nil in H ];
  destruct_and? H.

Lemma set_color_focus st C a c l k r np c' :
  InvF st C (Node a c l k r) np ->
  wp (set_color a c') st (fun _ st' =>
    InvF st' C (Node a c' l k r) np /\ next st' = next st).
Proof.
  intros H. pose proof (load_node _ _ _ _ _ _ _ _ H) as Hl.
  destruct H as [H1 H2 H3 H4 H5 H6 H7].
  unfold set_color. eapply wp_bind_eq; [exact Hl|]. simpl.
  eapply wp_eq; [reflexivity|]. split; [|done].
  simpl in *. destruct H2 as (Ha & Hl' & Hr').
  assert (Hd := H3). nodup_split Hd.
  split; simpl; auto.
  - apply (RepC_frame (heap st)); [done|]. intros b Hb.
    rewrite lookup_insert_ne; [done|]. set_solver.
  - split_and!.
    + by rewrite lookup_insert_eq.
    + apply (Rep_frame (heap st)); [done|]. intros b Hb.
      rewrite lookup_insert_ne; [done|]. set_solver.
    + apply (Rep_frame (heap st)); [done|]. intros b Hb.
      rewrite lookup_insert_ne; [done|]. set_solver.
  - rewrite H4. by apply addr_plug_congr.
  - rewrite lookup_insert_ne; [done|]. set_solver.
Qed.


Lemma addr_ne (x : ptr) t : x ∉ addrs t -> NIL ≠ x -> x ≠ addr t.
Proof. destruct t; simpl; [auto|]. set_solver. Qed.

Lemma InvF_intro st st' C C' t t' np np' :
  InvF st C t np ->
  RepC (heap st') C' (addr t') ->
  Rep (heap st') (caddr C') t' ->
  addrs t' ++ caddrs C' ≡ₚ addrs t ++ caddrs C ->
  root st' = addr (plug C' t') ->
  heap st' !! NIL = Some (mkRBNode None BLACK NIL NIL np') ->
  next st' = next st ->
  InvF st' C' t' np'.
Proof.
  intros [H1 H2 H3 H4 H5 H6 H7] HC Ht HP Hr Hn Hx. split; auto.
  - by rewrite HP.
  - intros a Ha. rewrite Hx. apply H6. by rewrite <- HP.
  - by rewrite HP.
Qed.


Lemma NoDup_app_disj (l k : list ptr) : NoDup (l ++ k) <-> NoDup l /\ disj l k /\ NoDup k.
Proof. apply NoDup_app. Qed.
Lemma disj_cons_l a (l k : list ptr) : disj (a :: l) k <-> (a ∉ k) /\ disj l k.
Proof. unfold disj. set_solver. Qed.
Lemma disj_app_l (l1 l2 k : list ptr) : disj (l1 ++ l2) k <-> disj l1 k /\ disj l2 k.
Proof. unfold disj. set_solver. Qed.
Lemma disj_cons_r a (l k : list ptr) : disj l (a :: k) <-> (a ∉ l) /\ disj l k.
Proof. unfold disj. set_solver. Qed.
Lemma disj_app_r (l k1 k2 : list ptr) : disj l (k1 ++ k2) <-> disj l k1 /\ disj l k2.
Proof. unfold disj. set_solver. Qed.

Ltac facts :=
  repeat match goal with
  | H : NoDup (_ :: _) |- _ => apply NoDup_cons in H as [? ?]
  | H : NoDup (_ ++ _) |- _ => apply NoDup_app_disj in H as (? & ? & ?)
  | H : _ ∉ _ :: _ |- _ => apply not_elem_of_cons in H as [? ?]
  | H : _ ∉ _ ++ _ |- _ => apply not_elem_of_app in H as [? ?]
  | H : disj (_ :: _) _ |- _ => apply disj_cons_l in H as [? ?]
  | H : disj (_ ++ _) _ |- _ => apply disj_app_l in H as [? ?]
  | H : disj _ (_ :: _) |- _ => apply disj_cons_r in H as [? ?]
  | H : disj _ (_ ++ _) |- _ => apply disj_app_r in H as [? ?]
  | H : disj [] _ |- _ => clear H
  | H : disj _ [] |- _ => clear H
  | H : _ ∉ [] |- _ => clear H
  | H : NoDup [] |- _ => clear H
  | H : _ /\ _ |- _ => destruct H
  end.

Ltac solve_ne :=
  solve [ assumption
        | apply not_eq_sym; assumption
        | apply addr_ne; [assumption | first [assumption | apply not_eq_sym; assumption]]
        | apply not_eq_sym; apply addr_ne;
          [assumption | first [assumption | apply not_eq_sym; assumption]]
        | let E := fresh in intros E; subst; contradiction
        | let E := fresh in intros E; rewrite E in *; contradiction
        | let E := fresh in intros E; rewrite <- E in *; contradiction ].

Ltac heap_simpl :=
  simpl;
  repeat first
   [ rewrite lookup_insert_eq
   | rewrite lookup_insert_ne by solve_ne
   | match goal with H : ?h !! ?a = Some _ |- context [?h !! ?a] => rewrite H end ];
  simpl.

Ltac eqb_simpl :=
  repeat first
    [ rewrite Nat.eqb_refl
    | match goal with
      | |- context [Nat.eqb ?a ?b] =>
          let E := fresh in
          assert (E : (a =? b) = false) by (apply Nat.eqb_neq; solve_ne);
          rewrite E; clear E
      end ];
  simpl.

Ltac raw_prim :=
  unfold get_key, get_color, get_left, get_right, get_parent,
    set_color, set_left, set_right, set_parent, get_root, set_root,
    load, store, bind, ret, deref;
  repeat (progress (heap_simpl; eqb_simpl)); reflexivity.

Ltac raw_step :=
  match goal with
  | |- wp (bind _ _) _ _ => eapply wp_bind_eq; [ raw_prim | ]; simpl
  end.

Ltac frame_rep :=
  match goal with
  | H : Rep ?h ?par ?t |- Rep _ ?par ?t =>
      apply (Rep_frame h); [exact H|];
      let b := fresh "b" in let Hb := fresh "Hb" in
      intros b Hb; rewrite ?lookup_insert_ne by solve_ne; reflexivity
  | H : RepC ?h ?C ?a |- RepC _ ?C ?a =>
      apply (RepC_frame h); [exact H|];
      let b := fresh "b" in let Hb := fresh "Hb" in
      intros b Hb; rewrite ?lookup_insert_ne by solve_ne; reflexivity
  end.

Ltac finish_inv H P :=
  eapply wp_eq; [raw_prim|]; split; [|done];
  eapply (InvF_intro _ _ _ _ _ _ _ _ H); simpl;
  [ | | exact P | | heap_simpl; try done | done];
  [ first [ done | frame_rep
          | split_and?; heap_simpl; first [ done | frame_rep | idtac ] ] ..
  | first [ done
          | etransitivity; [eassumption|]; apply addr_plug_congr; reflexivity
          | idtac ] ].

Lemma left_rotate_focus st C x cx a kx y cy b ky c np :
  InvF st C (Node x cx a kx (Node y cy b ky c)) np ->
  wp (Analyze._left_rotate x) st (fun _ st' =>
    InvF st' C (Node y cy (Node x cx a kx b) ky c) np /\ next st' = next st).
Proof.
  intros HI.
  assert (P : addrs (Node y cy (Node x cx a kx b) ky c) ++ caddrs C
          ≡ₚ addrs (Node x cx a kx (Node y cy b ky c)) ++ caddrs C)
    by (simpl; solve_Permutation).
  destruct HI as [HC Hs Hnd Hroot Hnil Hnext Hnn] eqn:EI. clear EI.
  unfold Analyze._left_rotate.
  destruct b as [|b0 cb bl kb br]; simpl in *;
  (destruct C as [|[p cp kp sr|p cp sl kp] C']; simpl in *); facts.
  all: repeat raw_step; finish_inv HI P.
Qed.

Lemma right_rotate_focus st C x cx a kx y cy b ky c np :
  InvF st C (Node y cy (Node x cx a kx b) ky c) np ->
  wp (Analyze._right_rotate y) st (fun _ st' =>
    InvF st' C (Node x cx a kx (Node y cy b ky c)) np /\ next st' = next st).
Proof.
  intros HI.
  assert (P : addrs (Node x cx a kx (Node y cy b ky c)) ++ caddrs C
          ≡ₚ addrs (Node y cy (Node x cx a kx b) ky c) ++ caddrs C)
    by (simpl; solve_Permutation).
  destruct HI as [HC Hs Hnd Hroot Hnil Hnext Hnn] eqn:EI. clear EI.
  unfold Analyze._right_rotate.
  destruct b as [|b0 cb bl kb br]; simpl in *;
  (destruct C as [|[p cp kp sr|p cp sl kp] C']; simpl in *); facts.
  all: repeat raw_step; finish_inv HI P.
Qed.

(** The sentinel may be written to, as long as it stays black. *)
Lemma set_color_nil st C t np :
  InvF st C t np ->
  wp (set_color NIL BLACK) st (fun _ st' => InvF st' C t np /\ next st' = next st).
Proof.
  intros HI.
  destruct HI as [HC Hs Hnd Hroot Hnil Hnext Hnn] eqn:EI. clear EI.
  unfold set_color. raw_step.
  eapply wp_eq; [raw_prim|]; split; [|done].
  eapply (InvF_intro _ _ _ _ _ _ _ _ HI); simpl; auto.
  - apply (RepC_frame (heap st)); [done|]. intros b Hb.
    rewrite lookup_insert_ne; [done|]. intros <-. apply Hnn. apply elem_of_app. by right.
  - apply (Rep_frame (heap st)); [done|]. intros b Hb.
    rewrite lookup_insert_ne; [done|]. intros <-. apply Hnn. apply elem_of_app. by left.
  - by rewrite lookup_insert_eq.
Qed.

(** ** The same operations anywhere in the tree *)

Section at_path.
Context (st : RBTree) (C : ctx) (t : tree) (np : option ptr).
Context (HInv : Inv st (plug C t) np).

Lemma set_color_at p c' :
  is_node (sub_of t p) = true \/ c' = BLACK ->
  wp (set_color (addr (sub_of t p)) c') st (fun _ st' =>
    Inv st' (plug (ctx_of t p C) (recolor c' (sub_of t p))) np
    /\ next st' = next st).
Proof.
  intros Hc. pose proof (Inv_focus_at _ _ _ p _ HInv) as H.
  destruct (sub_of t p) as [|a c l k r]; simpl.
  - destruct Hc as [Hc | ->]; [done|].
    eapply wp_mono; [apply (set_color_nil _ _ _ _ H)|].
    intros _ st' [? ?]. split; [|done]. by apply Inv_focus.
  - eapply wp_mono; [apply (set_color_focus _ _ _ _ _ _ _ _ c' H)|].
    intros _ st' [? ?]. split; [|done]. by apply Inv_focus.
Qed.

Lemma left_rotate_at p :
  is_node (sub_of t p) = true -> is_node (tright (sub_of t p)) = true ->
  wp (Analyze._left_rotate (addr (sub_of t p))) st (fun _ st' =>
    Inv st' (plug (ctx_of t p C) (rotl (sub_of t p))) np
    /\ next st' = next st).
Proof.
  intros H1 H2. pose proof (Inv_focus_at _ _ _ p _ HInv) as H.
  destruct (sub_of t p) as [|x cx a kx [|y cy b ky c]]; try done. simpl.
  eapply wp_mono; [apply (left_rotate_focus _ _ _ _ _ _ _ _ _ _ _ _ H)|].
  intros _ st' [? ?]. split; [|done]. by apply Inv_focus.
Qed.

Lemma right_rotate_at p :
  is_node (sub_of t p) = true -> is_node (tleft (sub_of t p)) = true ->
  wp (Analyze._right_rotate (addr (sub_of t p))) st (fun _ st' =>
    Inv st' (plug (ctx_of t p C) (rotr (sub_of t p))) np
    /\ next st' = next st).
Proof.
  intros H1 H2. pose proof (Inv_focus_at _ _ _ p _ HInv) as H.
  destruct (sub_of t p) as [|y cy [|x cx a kx b] ky c]; try done. simpl.
  eapply wp_mono; [apply (right_rotate_focus _ _ _ _ _ _ _ _ _ _ _ _ H)|].
  intros _ st' [? ?]. split; [|done]. by apply Inv_focus.
Qed.

End at_path.

(** ** Allocation and linking of a new node *)

Lemma new_node_spec st T np k c :
  Inv st T np ->
  wp (new_node k c) st (fun z st' =>
    z = next st /\ Inv st' T np /\ next st' = S (next st) /\
    heap st' !! z = Some (mkRBNode (Some k) c NIL NIL None) /\
    z ∉ NIL :: addrs T).
Proof.
  intros [H1 H2 H3 H4 H5 H6]. eapply wp_eq; [reflexivity|]. simpl.
  assert (Hz : next st ∉ NIL :: addrs T).
  { intros Hz. apply H5 in Hz. lia. }
  split_and!; auto.
  - split; simpl; auto.
    + apply (Rep_frame (heap st)); [done|]. intros b Hb.
      rewrite lookup_insert_ne; [done|]. set_solver.
    + rewrite lookup_insert_ne; [done|]. set_solver.
    + intros a Ha. apply H5 in Ha. lia.
  - by rewrite lookup_insert_eq.
Qed.


Lemma link_focus st C np z k :
  InvF st C Leaf np ->
  heap st !! z = Some (mkRBNode (Some k) RED NIL NIL None) ->
  z ∉ NIL :: caddrs C -> z < next st -> dir_ok k C ->
  wp (link z k (caddr C)) st (fun _ st' =>
    InvF st' C (Node z RED Leaf k Leaf) np /\ next st' = next st).
Proof.
  intros HI Hz Hfresh Hlt Hdir.
  destruct HI as [HC Hs Hnd Hroot Hnil Hnext Hnn] eqn:EI. clear EI.
  assert (N1 : NoDup (z :: caddrs C)).
  { constructor; [set_solver|done]. }
  assert (N2 : forall a, a ∈ NIL :: z :: caddrs C -> a < next st).
  { intros a [->|Ha]%elem_of_cons; [apply Hnext; left|].
    apply elem_of_cons in Ha as [->|Ha]; [done|]. apply Hnext. by right. }
  assert (N3 : NIL ∉ z :: caddrs C) by set_solver.
  revert N1 N2 N3.
  unfold link.
  destruct C as [|[p cp kp sr|p cp sl kp] C']; simpl in *; facts.
  all: intros N1 N2 N3.
  all: repeat raw_step; try rewrite Hdir.
  all: eapply wp_eq; [raw_prim|]; split; [|done].
  all: split; simpl; [ | | done | | heap_simpl; done | done | done ].
  all: try (split_and?; heap_simpl; first [done | frame_rep]).
  all: try (rewrite Hroot; apply addr_plug_congr; reflexivity).
Qed.

(** ** The red-black invariants through a context *)

Lemma tcolor_plug C t : C <> [] -> root_black C -> tcolor (plug C t) = BLACK.
Proof.
  revert t. induction C as [|F C IH]; intros t HC Hrb; [done|]. simpl.
  destruct C as [|F' C].
  - unfold root_black in Hrb. simpl in *. by destruct F.
  - apply IH; [done|]. unfold root_black in *. by simpl in *.
Qed.

Lemma root_black_of_plug C t : tcolor (plug C t) = BLACK -> root_black C.
Proof.
  revert t. induction C as [|F C IH]; intros t H; [done|]. simpl in H.
  destruct C as [|F' C].
  - unfold root_black. simpl in *. by destruct F.
  - apply IH in H. unfold root_black in *. by simpl in *.
Qed.

Lemma ctx_ok_root_black n C : ctx_ok n C -> root_black C.
Proof.
  revert n. induction C as [|F C IH]; intros n H; [done|].
  simpl in H. destruct H as (_ & _ & Hc & H). apply IH in H.
  unfold root_black in *. simpl. destruct C as [|F' C]; [|done].
  simpl. destruct (fcolor F); [|done]. by destruct Hc.
Qed.

Lemma plug_balanced C : forall n t,
  ctx_ok n C -> balanced t -> bh t = n ->
  (tcolor t = RED -> hole_any C) ->
  balanced (plug C t).
Proof.
  induction C as [|F C IH]; intros n t HC Ht Hn Hcol; [done|].
  simpl in HC. destruct HC as (Hb & Hs & Hc & HC). simpl.
  apply (IH (n + (if fcolor F then 0 else 1))); auto.
  - destruct F as [a c k r|a c l k]; simpl in *; split_and!; auto; try lia.
    + intros ->. destruct Hc as [? ?]; [done|]. split; [|done].
      destruct (tcolor t) eqn:E; [|done]. by specialize (Hcol eq_refl).
    + intros ->. destruct Hc as [? ?]; [done|]. split; [done|].
      destruct (tcolor t) eqn:E; [|done]. by specialize (Hcol eq_refl).
  - destruct F as [a c k r|a c l k]; simpl in *; lia.
  - destruct F as [a c k r|a c l k]; simpl in *; intros ->;
      destruct Hc as [? Htb]; try done; destruct C; done.
Qed.

Lemma unplug_balanced C : forall t,
  balanced (plug C t) -> root_black C ->
  ctx_ok (bh t) C /\ balanced t /\ (tcolor t = RED -> hole_any C).
Proof.
  induction C as [|F C IH]; intros t H Hrb; [done|].
  simpl in H. apply IH in H as (HC & Hb & Hcol).
  2:{ unfold root_black in *. simpl in Hrb. by destruct C. }
  assert (Hnr : fcolor F = RED -> C <> []).
  { intros E ->. unfold root_black in Hrb. simpl in Hrb.
    unfold RED, BLACK in *. congruence. }
  destruct F as [a c k r|a c l k]; simpl in *;
    destruct Hb as (Hbh & Hl & Hr & Hc); split_and!; auto; try lia.
  - intros ->. specialize (Hc eq_refl) as [? ?]. split; [done|].
    specialize (Hcol eq_refl). specialize (Hnr eq_refl). by destruct C.
  - intros E. destruct c; [|done]. specialize (Hc eq_refl) as [? ?].
    unfold RED, BLACK in *. congruence.
  - intros ->. specialize (Hc eq_refl) as [? ?]. split; [done|].
    specialize (Hcol eq_refl). specialize (Hnr eq_refl). by destruct C.
  - by rewrite <- Hbh.
  - intros E. destruct c; [|done]. specialize (Hc eq_refl) as [? ?].
    unfold RED, BLACK in *. congruence.
Qed.

Ltac colors := unfold RED, BLACK in *; congruence.

Lemma keys_plug C t : keys (plug C t) = lkeys C ++ keys t ++ rkeys C.
Proof.
  revert t. induction C as [|F C IH]; intros t; simpl.
  - by rewrite app_nil_r.
  - rewrite IH. destruct F; simpl; by rewrite <- ?app_assoc.
Qed.

Lemma balanced_recolor_black t : balanced t -> balanced (recolor BLACK t).
Proof. destruct t; simpl; [done|]. intros (? & ? & ? & ?). split_and!; auto; colors. Qed.

Lemma tcolor_recolor c t : is_node t = true -> tcolor (recolor c t) = c.
Proof. by destruct t. Qed.

Lemma keys_recolor c t : keys (recolor c t) = keys t.
Proof. by destruct t. Qed.

Lemma addrs_recolor c t : addrs (recolor c t) = addrs t.
Proof. by destruct t. Qed.

Lemma bh_recolor_black t : tcolor t = RED -> bh (recolor BLACK t) = S (bh t).
Proof. destruct t as [|a [] l k r]; simpl; first [done | lia]. Qed.

Ltac rb_hyps :=
  unfold RED, BLACK in *;
  repeat match goal with
  | H : _ /\ _ |- _ => destruct H
  | H : ?c = ?c -> _ |- _ => specialize (H eq_refl)
  | H : RED = BLACK -> _ |- _ => clear H
  | H : BLACK = RED -> _ |- _ => clear H
  | H : true = false -> _ |- _ => clear H
  | H : false = true -> _ |- _ => clear H
  end.
Ltac rb_auto :=
  rb_hyps;
  repeat match goal with
  | |- _ /\ _ => split
  | |- _ -> _ => intros ?
  end;
  rb_hyps; auto; try lia; try colors.

(** ** The descent of insertion *)

Lemma dir_ok_ins_ctx k t C : dir_ok k C -> dir_ok k (ins_ctx k t C).
Proof.
  revert C. induction t as [|a c l IHl x r IHr]; intros C H; simpl; [done|].
  destruct (k <? x)%Z eqn:E; [apply IHl|apply IHr]; done.
Qed.

Lemma plug_ins_ctx k t C : plug (ins_ctx k t C) Leaf = plug C t.
Proof.
  revert C. induction t as [|a c l IHl x r IHr]; intros C; simpl; [done|].
  destruct (k <? x)%Z; [rewrite IHl|rewrite IHr]; done.
Qed.

Lemma root_black_ins_ctx k t C :
  root_black C -> (C = [] -> tcolor t = BLACK) -> root_black (ins_ctx k t C).
Proof.
  revert C. induction t as [|a c l IHl x r IHr]; intros C H1 H2; simpl; [done|].
  assert (root_black (FL a c x r :: C) /\ root_black (FR a c l x :: C)) as [? ?].
  { unfold root_black in *. simpl. destruct C; simpl in *; auto. }
  destruct (k <? x)%Z; [apply IHl|apply IHr]; done.
Qed.

(** ** Insertion preserves the invariants *)

Lemma keys_ins_step P G t :
  keys (fst (ins_step P G t)) = keys (fill G (fill P t)).
Proof.
  destruct G as [g cg kg u|g cg u kg], P as [p cp kp pr|p cp pl kp]; simpl;
    destruct u as [|ua [] ul uk ur]; simpl; try done;
    destruct t as [|z cz zl kz zr]; simpl; try done;
    rewrite <- ?app_assoc; simpl; rewrite <- ?app_assoc; done.
Qed.

Lemma keys_ins_fix : forall n C t,
  length C <= n -> keys (ins_fix C t) = keys (plug C t).
Proof.
  induction n as [|n IH]; intros C t Hn.
  - destruct C; [done|simpl in Hn; lia].
  - destruct C as [|P [|G C]]; try done. simpl ins_fix.
    destruct (fcolor P); [|done].
    pose proof (keys_ins_step P G t) as Hk.
    destruct (ins_step P G t) as [t' again]. simpl in Hk.
    destruct again.
    + rewrite IH by (simpl in Hn; lia). simpl. by apply keys_plug_congr.
    + simpl. by apply keys_plug_congr.
Qed.

Lemma ins_step_balanced P G t n :
  fcolor P = RED -> tcolor (fsib P) = BLACK -> fcolor G = BLACK ->
  is_node t = true -> tcolor t = RED -> balanced t -> bh t = n ->
  bh (fsib P) = n -> balanced (fsib P) ->
  bh (fsib G) = n -> balanced (fsib G) ->
  let t' := fst (ins_step P G t) in
  balanced t' /\ bh t' = S n /\ is_node t' = true /\
  tcolor t' = (if snd (ins_step P G t) then RED else BLACK).
Proof.
  intros HP HsP HG Ht Hct Hb Hn HbP HbbP HbG HbbG.
  destruct t as [|z cz zl kz zr]; [done|]. simpl in Hct. subst cz.
  destruct G as [g cg kg u|g cg u kg], P as [p cp kp pr|p cp pl kp];
    simpl in *; subst;
    destruct u as [|ua [] ul uk ur]; simpl in *;
    rb_auto.
Qed.

Lemma ins_fix_balanced : forall n C t,
  length C <= n ->
  ctx_ok (bh t) C -> is_node t = true -> tcolor t = RED -> balanced t ->
  balanced (ins_fix C t).
Proof.
  induction n as [|n IH]; intros C t Hn HC Ht Hct Hb.
  - destruct C; [done|simpl in Hn; lia].
  - destruct C as [|P [|G C]]; try done.
    + simpl. simpl in HC. destruct HC as (H1 & H2 & H3 & _).
      destruct (fcolor P) eqn:HP; [by destruct H3|].
      destruct P; simpl in *; split_and!; auto; colors.
    + simpl ins_fix. destruct (fcolor P) eqn:HP.
      2:{ apply (plug_balanced (P :: G :: C) (bh t) t); auto. }
      simpl in HC. destruct HC as (H1 & H2 & H3 & H4 & H5 & H6 & H7).
      rewrite HP in *. destruct H3 as [H3 H3']; [done|]. simpl in H3'.
      rewrite H3' in *. rewrite Nat.add_0_r in *.
      pose proof (ins_step_balanced P G t (bh t) HP H3 H3' Ht Hct Hb eq_refl H1 H2 H4 H5)
        as (Hb' & Hh' & Hn' & Hc').
      destruct (ins_step P G t) as [t' again]. simpl in *.
      destruct again.
      * apply IH; auto; [lia|]. rewrite Hh'. by rewrite Nat.add_1_r in H7.
      * apply (plug_balanced C (S (bh t)) t'); auto; [|colors].
        by rewrite Nat.add_1_r in H7.
Qed.

Lemma is_node_ins_fix : forall n C t,
  length C <= n -> is_node t = true -> is_node (ins_fix C t) = true.
Proof.
  induction n as [|n IH]; intros C t Hn Ht.
  - destruct C; [done|simpl in Hn; lia].
  - destruct C as [|P [|G C]]; try done.
    + by destruct P.
    + simpl ins_fix. destruct (fcolor P).
      2:{ by apply (is_node_plug (P :: G :: C)). }
      destruct (ins_step P G t) as [t' again] eqn:Hs.
      assert (is_node t' = true).
      { destruct G, P; simpl in Hs; destruct (tcolor _); simpl in Hs;
          destruct t; try done; injection Hs as <- <-; done. }
      destruct again; [apply IH; [simpl in Hn; lia|done]|].
      destruct C as [|F' C']; [done|]. by apply (is_node_plug (F' :: C')).
Qed.

(** ** The delete fix-up preserves the invariants *)

Lemma bh_pos t : 1 <= bh t.
Proof. induction t as [|a [] l IHl k r IHr]; simpl; lia. Qed.

Lemma bh_node t : 2 <= bh t -> balanced t -> is_node t = true.
Proof. destruct t; simpl; [lia|done]. Qed.

Lemma deficit_sibling P C t :
  deficit (P :: C) t ->
  is_node (fsib P) = true /\
  (tcolor (fsib P) = RED ->
   is_node (tleft (fsib P)) = true /\ is_node (tright (fsib P)) = true).
Proof.
  intros [(Hb & Hbal & Hc & HC) _]. pose proof (bh_pos t).
  destruct (fsib P) as [|wa cw wl kw wr]; simpl in *; [lia|].
  split; [done|]. intros ->. rewrite Nat.add_0_r in *.
  destruct Hbal as (E & Hl & Hr & _).
  destruct wl, wr; simpl in *; try done; lia.
Qed.

Lemma del_cases_ok P t :
  balanced t -> bh (fsib P) = S (bh t) -> balanced (fsib P) ->
  tcolor (fsib P) = BLACK ->
  let t' := fst (del_cases P t) in
  keys t' = keys (fill P t) /\ is_node t' = true /\ tcolor t' = fcolor P /\
  if snd (del_cases P t)
  then bh t' = bh t + (if fcolor P then 0 else 1) /\ balanced (recolor BLACK t')
  else bh t' = S (bh t) + (if fcolor P then 0 else 1) /\ balanced t'.
Proof.
  intros Hb Hbw Hbalw Hcw. pose proof (bh_pos t) as Hpos.
  destruct P as [p cp kp w|p cp w kp]; simpl in *;
    (destruct w as [|wa [] wl kw wr]; simpl in *; [lia|colors|]);
    destruct (tcolor wl) eqn:Ewl, (tcolor wr) eqn:Ewr; simpl.
  all: try (destruct wl as [|wla [] wll wlk wlr]; simpl in *; try colors; []).
  all: try (destruct wr as [|wra [] wrl wrk wrr]; simpl in *; try colors; []).
  all: rewrite <- ?app_assoc; simpl; rewrite <- ?app_assoc; simpl.
  all: destruct cp; rb_auto.
Qed.

Lemma top_black_hole_any C : top_black C -> hole_any C.
Proof. by destruct C. Qed.

Lemma need_le C t : need C t <= length C.
Proof. unfold need. destruct C; [done|]. destruct (tcolor t); simpl; lia. Qed.

Lemma del_body_black P C t :
  tcolor (fsib P) = BLACK ->
  del_body P C t =
  (if snd (del_cases P t) then (C, fst (del_cases P t))
   else ([], plug C (fst (del_cases P t)))).
Proof.
  intros H. unfold del_body.
  destruct P as [p cp kp [|wa [] wl kw wr]|p cp [|wa [] wl kw wr] kp];
    try done; destruct (del_cases _ t) as [t' []]; done.
Qed.

Lemma del_body_red_l p cp kp wa wl kw wr C t :
  del_body (FL p cp kp (Node wa RED wl kw wr)) C t =
  (if snd (del_cases (FL p RED kp wl) t)
   then (FL wa BLACK kw wr :: C, fst (del_cases (FL p RED kp wl) t))
   else ([], plug (FL wa BLACK kw wr :: C) (fst (del_cases (FL p RED kp wl) t)))).
Proof. unfold del_body. by destruct (del_cases _ t) as [t' []]. Qed.

Lemma del_body_red_r p cp kp wa wl kw wr C t :
  del_body (FR p cp (Node wa RED wl kw wr) kp) C t =
  (if snd (del_cases (FR p RED wr kp) t)
   then (FR wa BLACK wl kw :: C, fst (del_cases (FR p RED wr kp) t))
   else ([], plug (FR wa BLACK wl kw :: C) (fst (del_cases (FR p RED wr kp) t)))).
Proof. unfold del_body. by destruct (del_cases _ t) as [t' []]. Qed.

Lemma del_body_deficit P C t :
  deficit (P :: C) t -> tcolor t = BLACK ->
  let C2 := fst (del_body P C t) in
  let t2 := snd (del_body P C t) in
  deficit C2 t2 /\ need C2 t2 <= length C /\
  keys (plug C2 t2) = keys (plug (P :: C) t).
Proof.
  intros [HC Hb] Ht.
  assert (Hb' : balanced t) by (destruct t as [|? [] ? ? ?]; done).
  clear Hb. pose proof (bh_pos t) as Hpos.
  simpl in HC. destruct HC as (Hbw & Hbalw & Hcol & HC).
  destruct (tcolor (fsib P)) eqn:Hcw.
  - (* case 1: the sibling is red *)
    assert (HcP : fcolor P = BLACK).
    { destruct (fcolor P); [|done]. destruct Hcol as [? ?]; [done|colors]. }
    rewrite HcP in HC. clear Hcol.
    destruct P as [p cp kp w|p cp w kp]; simpl in *|-; subst cp;
      destruct w as [|wa cw wl kw wr]; simpl in *|-; try done; subst cw;
      destruct Hbalw as (E & Hl & Hr & Hcc); specialize (Hcc eq_refl) as [Hcl Hcr];
      rewrite Nat.add_0_r in *;
      rewrite ?del_body_red_l, ?del_body_red_r.
    + pose proof (del_cases_ok (FL p RED kp wl) t Hb' Hbw Hl Hcl) as (Hk & Hn & Hc & H).
      destruct (del_cases (FL p RED kp wl) t) as [t' again]. simpl in *|-.
      destruct again; cbn [fst snd]; destruct H as [Hh Hbal]; rewrite Nat.add_0_r in Hh.
      * split_and!.
        -- split; [|done]. simpl. rewrite Hh. split_and!; auto; [lia|colors].
        -- unfold need. rewrite Hc. simpl. lia.
        -- cbn [plug fill]. apply keys_plug_congr. simpl. rewrite Hk. simpl.
           by rewrite <- !app_assoc.
      * split_and!.
        -- split; [done|]. apply balanced_recolor_black.
           apply (plug_balanced (FL wa BLACK kw wr :: C) (S (bh t)) t');
             [simpl; split_and!; auto; [lia|colors] | done | done | by intros _].
        -- simpl. lia.
        -- cbn [plug fill]. apply keys_plug_congr. simpl. rewrite Hk. simpl.
           by rewrite <- !app_assoc.
    + assert (Hbw' : bh wr = S (bh t)) by lia.
      pose proof (del_cases_ok (FR p RED wr kp) t Hb' Hbw' Hr Hcr) as (Hk & Hn & Hc & H).
      destruct (del_cases (FR p RED wr kp) t) as [t' again]. simpl in *|-.
      destruct again; cbn [fst snd]; destruct H as [Hh Hbal]; rewrite Nat.add_0_r in Hh.
      * split_and!.
        -- split; [|done]. simpl. rewrite Hh.
           split_and!; auto; try lia; try colors; try (by rewrite Hbw).
        -- unfold need. rewrite Hc. simpl. lia.
        -- cbn [plug fill]. apply keys_plug_congr. simpl. rewrite Hk. simpl.
           by rewrite <- !app_assoc.
      * split_and!.
        -- split; [done|]. apply balanced_recolor_black.
           apply (plug_balanced (FR wa BLACK wl kw :: C) (S (bh t)) t');
             [simpl; split_and!; auto; try lia; try colors; try (by rewrite Hbw)
             | done | done | by intros _].
        -- simpl. lia.
        -- cbn [plug fill]. apply keys_plug_congr. simpl. rewrite Hk. simpl.
           by rewrite <- !app_assoc.
  - rewrite del_body_black by done.
    pose proof (del_cases_ok P t Hb' Hbw Hbalw Hcw) as (Hk & Hn & Hc & H).
    destruct (del_cases P t) as [t' again]. simpl in *|-.
    destruct again; cbn [fst snd]; destruct H as [Hh Hbal].
    + split_and!.
      * split; [|done]. rewrite Hh. exact HC.
      * apply need_le.
      * cbn [plug]. by apply keys_plug_congr.
    + split_and!.
      * split; [done|]. apply balanced_recolor_black.
        apply (plug_balanced C (S (bh t) + (if fcolor P then 0 else 1)) t'); auto.
        intros E. rewrite Hc in E. destruct Hcol as [_ ?]; [done|].
        by apply top_black_hole_any.
      * simpl. lia.
      * cbn [plug]. by apply keys_plug_congr.
Qed.

(** The result of the loop and of the final recolouring. *)
Lemma del_fix_rb : forall n C t,
  need C t <= n -> deficit C t ->
  rb (del_fix n C t) /\ keys (del_fix n C t) = keys (plug C t).
Proof.
  induction n as [|n IH]; intros C t Hn [HC Hb].
  - unfold need in Hn. destruct C as [|P C].
    + simpl. split; [split; [by destruct t|done]|]. by rewrite keys_recolor.
    + destruct (tcolor t) eqn:Ht; [|simpl in Hn; lia].
      assert (del_fix 0 (P :: C) t = plug (P :: C) (recolor BLACK t)) as -> by done.
      split; [split|].
      * apply tcolor_plug; [done|]. by apply ctx_ok_root_black in HC.
      * apply (plug_balanced (P :: C) (S (bh t)) (recolor BLACK t)); auto.
        -- by apply bh_recolor_black.
        -- destruct t; simpl; [done|colors].
      * apply keys_plug_congr. by rewrite keys_recolor.
  - destruct C as [|P C].
    + simpl. split; [split; [by destruct t|done]|]. by rewrite keys_recolor.
    + simpl del_fix. destruct (tcolor t) eqn:Ht.
      * split; [split|].
        -- apply (tcolor_plug (P :: C)); [done|]. by apply ctx_ok_root_black in HC.
        -- apply (plug_balanced (P :: C) (S (bh t)) (recolor BLACK t)); auto.
           ++ by apply bh_recolor_black.
           ++ destruct t; simpl; [done|colors].
        -- apply (keys_plug_congr (P :: C)). by rewrite keys_recolor.
      * pose proof (del_body_deficit P C t (conj HC Hb) Ht) as (HJ & Hm & Hk).
        destruct (del_body P C t) as [C2 t2]. simpl in *.
        destruct (IH C2 t2) as [? ?]; [|done|].
        -- unfold need in Hn. rewrite Ht in Hn. simpl in Hn. lia.
        -- split; [done|]. congruence.
Qed.

(** ** The descents of [delete] *)

Lemma plug_find k t : forall C,
  plug (fst (find k t C)) (snd (find k t C)) = plug C t.
Proof.
  induction t as [|a c l IHl x r IHr]; intros C; simpl; [done|].
  destruct (k =? x)%Z; [done|]. destruct (k <? x)%Z; [apply IHl|apply IHr].
Qed.

Lemma min_ctx_app t : forall C,
  min_ctx t C = (fst (min_ctx t []) ++ C, snd (min_ctx t [])).
Proof.
  induction t as [|a c l IHl x r _]; intros C; [done|]. simpl.
  destruct l as [|la lc ll lk lr]; [done|].
  rewrite (IHl (FL a c x r :: C)), (IHl [FL a c x r]). simpl.
  by rewrite <- app_assoc.
Qed.

Lemma plug_min_ctx t : forall C,
  plug (fst (min_ctx t C)) (snd (min_ctx t C)) = plug C t.
Proof.
  induction t as [|a c l IHl x r _]; intros C; [done|]. simpl.
  destruct l as [|la lc ll lk lr]; [done|]. apply IHl.
Qed.

Lemma min_ctx_shape t C :
  is_node t = true ->
  exists y cy ky ry, snd (min_ctx t C) = Node y cy Leaf ky ry.
Proof.
  revert C. induction t as [|a c l IHl x r _]; intros C Ht; [done|]. simpl.
  destruct l as [|la lc ll lk lr]; [by eauto|]. by apply IHl.
Qed.

Lemma min_ctx_lkeys t : forall C, lkeys (fst (min_ctx t C)) = lkeys C.
Proof.
  induction t as [|a c l IHl x r _]; intros C; [done|]. simpl.
  destruct l as [|la lc ll lk lr]; [done|]. by rewrite IHl.
Qed.

(** ** The structural part of deletion preserves the invariants *)

Lemma ctx_ok_swap Cm : forall n a a' c l k k' C,
  ctx_ok n (Cm ++ FR a c l k :: C) -> ctx_ok n (Cm ++ FR a' c l k' :: C).
Proof.
  induction Cm as [|F Cm IH]; intros n a a' c l k k' C H; simpl in *; [done|].
  destruct H as (H1 & H2 & H3 & H4). split_and!; auto.
  - intros E. destruct (H3 E) as [? Ht]. split; [done|].
    destruct Cm; simpl in *; done.
  - eapply IH. exact H4.
Qed.

Lemma hole_any_swap Cm a a' c l k k' C :
  hole_any (Cm ++ FR a c l k :: C) -> hole_any (Cm ++ FR a' c l k' :: C).
Proof. by destruct Cm. Qed.

(** Splicing out a node without a left child. *)
Lemma splice_ok C y cy ky ry :
  ctx_ok (bh (Node y cy Leaf ky ry)) C ->
  balanced (Node y cy Leaf ky ry) ->
  if eqb cy BLACK then deficit C ry
  else ctx_ok (bh ry) C /\ balanced ry /\ tcolor ry = BLACK.
Proof.
  intros HC (Hbh & _ & Hr & Hc). simpl in *.
  destruct cy; simpl in *.
  - destruct (Hc eq_refl) as [_ ?]. rewrite <- Hbh. split_and!; auto.
  - split.
    + by rewrite <- Hbh.
    + by apply balanced_recolor_black.
Qed.

(** Splicing out a node without a right child. *)
Lemma splice_ok_left C z cz kz l :
  ctx_ok (bh (Node z cz l kz Leaf)) C ->
  balanced (Node z cz l kz Leaf) ->
  if eqb cz BLACK then deficit C l
  else ctx_ok (bh l) C /\ balanced l /\ tcolor l = BLACK.
Proof.
  intros HC (Hbh & Hl & _ & Hc). simpl in *.
  destruct cz; simpl in *.
  - destruct (Hc eq_refl) as [? _]. rewrite Nat.add_0_r in HC.
    split_and!; auto.
  - rewrite Nat.add_1_r in HC. split; [done|].
    by apply balanced_recolor_black.
Qed.

Lemma del_focus_ok C z cz l kz r :
  rb (plug C (Node z cz l kz r)) ->
  let '(Cx, tx, yc) := del_focus C (Node z cz l kz r) in
  (if eqb yc BLACK then deficit Cx tx
   else ctx_ok (bh tx) Cx /\ balanced tx /\ tcolor tx = BLACK /\ Cx <> []) /\
  keys (plug Cx tx) = (lkeys C ++ keys l) ++ keys r ++ rkeys C.
Proof.
  intros [Hcol Hb]. pose proof (root_black_of_plug _ _ Hcol) as Hrb.
  assert (Hne : cz = RED -> C <> []).
  { intros -> ->. simpl in Hcol. colors. }
  unfold del_focus.
  destruct l as [|l0 cl ll kl lr]; cbn [is_node negb].
  { apply unplug_balanced in Hb as (HC & Hb & _); [|done].
    split.
    - pose proof (splice_ok C z cz kz r HC Hb) as H.
      destruct cz; simpl in *; [|done]. destruct H as (? & ? & ?). auto.
    - rewrite keys_plug. by rewrite app_nil_r. }
  destruct r as [|r0 cr rl kr rr]; cbn [is_node negb].
  { apply unplug_balanced in Hb as (HC & Hb & _); [|done].
    split.
    - pose proof (splice_ok_left C z cz kz _ HC Hb) as H.
      destruct cz; simpl in *; [|done]. destruct H as (? & ? & ?). auto.
    - rewrite keys_plug. simpl. by rewrite <- !app_assoc. }
  set (l := Node l0 cl ll kl lr) in *. set (r := Node r0 cr rl kr rr) in *.
  destruct (min_ctx_shape r [] eq_refl) as (y & cy & ky & ry & Hy).
  pose proof (plug_min_ctx r []) as Hplug.
  pose proof (min_ctx_lkeys r []) as Hlk.
  destruct (min_ctx r []) as [Cm ty]. simpl in Hy, Hplug, Hlk. subst ty.
  assert (HT : plug (Cm ++ FR z cz l kz :: C) (Node y cy Leaf ky ry)
               = plug C (Node z cz l kz r)).
  { rewrite plug_app. simpl. by rewrite Hplug. }
  rewrite <- HT in Hb, Hcol.
  apply root_black_of_plug in Hcol.
  apply unplug_balanced in Hb as (HC & Hby & _); [|done].
  apply (ctx_ok_swap Cm _ z y cz l kz ky C) in HC.
  split.
  - pose proof (splice_ok _ y cy ky ry HC Hby) as H.
    destruct cy; simpl in *; [|done]. destruct H as (? & ? & ?).
    split_and!; auto. by destruct Cm.
  - assert (Hkr : keys r = ky :: keys (plug Cm ry)).
    { rewrite <- Hplug, !keys_plug, Hlk. done. }
    rewrite plug_app. cbn [plug fill]. rewrite keys_plug. cbn [keys].
    rewrite Hkr. by rewrite <- !app_assoc.
Qed.

(** The tree after a deletion is a red-black tree, and its keys are those of
    the tree before without the key of the node found. *)
Lemma find_lkeys k t : forall C,
  let (C', t') := find k t C in
  lkeys C ++ keys t ++ rkeys C = lkeys C' ++ keys t' ++ rkeys C'.
Proof.
  induction t as [|a c l IHl x r IHr]; intros C; simpl; [done|].
  destruct (k =? x)%Z; [done|]. destruct (k <? x)%Z.
  - specialize (IHl (FL a c x r :: C)). destruct (find k l _) as [C' t'].
    rewrite <- IHl. simpl. by rewrite <- !app_assoc.
  - specialize (IHr (FR a c l x :: C)). destruct (find k r _) as [C' t'].
    rewrite <- IHr. simpl. by rewrite <- !app_assoc.
Qed.

Lemma find_key k t : forall C,
  match snd (find k t C) with
  | Leaf => True
  | Node _ _ _ x _ => x = k
  end.
Proof.
  induction t as [|a c l IHl x r IHr]; intros C; simpl; [done|].
  destruct (k =? x)%Z eqn:E; [simpl; lia|].
  destruct (k <? x)%Z; [apply IHl|apply IHr].
Qed.

Theorem del_tree_rb k T : rb T -> rb (del_tree k T).
Proof.
  intros HT. unfold del_tree.
  pose proof (plug_find k T []) as Hp.
  destruct (find k T []) as [C t]. simpl in Hp.
  destruct t as [|z cz l kz r]; [done|].
  rewrite <- Hp in HT.
  pose proof (del_focus_ok C z cz l kz r HT) as H.
  destruct (del_focus C (Node z cz l kz r)) as [[Cx tx] yc].
  destruct H as [H _]. destruct yc; cbn [eqb BLACK] in H.
  - destruct H as (HC & Hb & Hc & Hne). split.
    + apply tcolor_plug; [done|]. by apply ctx_ok_root_black in HC.
    + apply (plug_balanced Cx (bh tx) tx); auto. intros E. colors.
  - apply (del_fix_rb (S (length Cx)) Cx tx); [|done].
    pose proof (need_le Cx tx). lia.
Qed.

Theorem del_tree_keys k T :
  rb T ->
  (exists l1 l2, keys T = l1 ++ k :: l2 /\ keys (del_tree k T) = l1 ++ l2)
  \/ del_tree k T = T /\ snd (find k T []) = Leaf.
Proof.
  intros HT. unfold del_tree.
  pose proof (plug_find k T []) as Hp.
  pose proof (find_key k T []) as Hk.
  destruct (find k T []) as [C t]. simpl in Hp, Hk.
  destruct t as [|z cz l kz r]; [by right|]. subst kz. left.
  rewrite <- Hp in HT.
  pose proof (del_focus_ok C z cz l k r HT) as H.
  destruct (del_focus C (Node z cz l k r)) as [[Cx tx] yc].
  destruct H as [H Hkeys].
  exists (lkeys C ++ keys l), (keys r ++ rkeys C). split.
  - rewrite <- Hp, keys_plug. simpl. by rewrite <- !app_assoc.
  - destruct yc; cbn [eqb BLACK] in H; [done|].
    rewrite <- Hkeys. apply (del_fix_rb (S (length Cx)) Cx tx); [|done].
    pose proof (need_le Cx tx). lia.
Qed.

(** ** Stepping through a method on a store that holds a known tree *)

Ltac nsimpl :=
  cbn [sub_of ctx_of tcolor addr tleft tright is_node recolor rotl rotr plug
       fill caddr faddr fcolor fsib negb andb orb eqb RED BLACK fst snd
       ins_step del_cases del_body set_left_black set_right_black].
Tactic Notation "nsimpl" "in" hyp(H) :=
  cbn [sub_of ctx_of tcolor addr tleft tright is_node recolor rotl rotr plug
       fill caddr faddr fcolor fsib negb andb orb eqb RED BLACK fst snd
       ins_step del_cases del_body set_left_black set_right_black] in H.

Ltac with_inv st tac :=
  match goal with
  | H : Inv st (plug ?C ?t) ?np |- _ => tac H C t np
  | H : Inv st ?T ?np |- _ =>
      change (Inv st (plug [] T) np) in H; tac H (@nil frame) T np
  end.

Ltac try_paths tac :=
  first
    [ tac (@nil bool) | tac [true] | tac [false]
    | tac [true; true] | tac [true; false] | tac [false; true] | tac [false; false]
    | tac [true; true; true] | tac [true; true; false]
    | tac [true; false; true] | tac [true; false; false]
    | tac [false; true; true] | tac [false; true; false]
    | tac [false; false; true] | tac [false; false; false] ].

Ltac step_write lem :=
  eapply wp_bind; eapply wp_mono;
  [ lem
  | let H' := fresh "HInv" in let Hn := fresh "Hnext" in
    intros _ ? [H' Hn]; nsimpl in H' ].

Ltac cond_simpl :=
  first
    [ progress nsimpl
    | rewrite Nat.eqb_refl
    | match goal with
      | |- context [Nat.eqb ?a ?b] =>
          let E := fresh in
          assert (E : Nat.eqb a b = false) by (apply Nat.eqb_neq; solve_ne);
          rewrite E; clear E
      end ].

Ltac is_prim m :=
  lazymatch m with
  | get_color _ => idtac
  | get_left _ => idtac
  | get_right _ => idtac
  | get_parent _ => idtac
  | get_key _ => idtac
  | get_root => idtac
  | deref _ => idtac
  | set_color _ _ => idtac
  | Analyze._left_rotate _ => idtac
  | Analyze._right_rotate _ => idtac
  end.

Ltac step :=
  lazymatch goal with
  | |- wp (bind (bind _ _) _) _ _ => apply wp_assoc
  | |- wp (ret _) _ _ => apply wp_ret
  | |- wp (bind (if ?b then _ else _) _) _ _ => cond_simpl
  | |- wp (if ?b then _ else _) _ _ => cond_simpl
  | |- wp (bind (match ?b with Some _ => _ | None => _ end) _) _ _ => fail "match"
  | |- wp (match ?b with Some _ => _ | None => _ end) _ _ => fail "match"
  | |- wp (bind (get_color ?a) _) ?st _ =>
      with_inv st ltac:(fun H C t np => try_paths ltac:(fun p =>
        eapply wp_bind_eq; [exact (rd_color st C t np H p)|]))
  | |- wp (bind (get_left ?a) _) ?st _ =>
      with_inv st ltac:(fun H C t np => try_paths ltac:(fun p =>
        eapply wp_bind_eq; [exact (rd_left st C t np H p)|]))
  | |- wp (bind (get_right ?a) _) ?st _ =>
      with_inv st ltac:(fun H C t np => try_paths ltac:(fun p =>
        eapply wp_bind_eq; [exact (rd_right st C t np H p)|]))
  | |- wp (bind (get_parent ?a) _) ?st _ =>
      with_inv st ltac:(fun H C t np => try_paths ltac:(fun p =>
        eapply wp_bind_eq;
        [ apply (rd_parent' st C t np H p); nsimpl;
          solve [ intros; discriminate | assumption ]
        | ]))
  | |- wp (bind (get_key ?a) _) ?st _ =>
      with_inv st ltac:(fun H C t np => try_paths ltac:(fun p =>
        eapply wp_bind_eq; [exact (rd_key st C t np H p)|]))
  | |- wp (bind get_root _) ?st _ =>
      with_inv st ltac:(fun H C t np =>
        eapply wp_bind_eq; [exact (rd_root st C t np H)|])
  | |- wp (bind (deref (Some _)) _) _ _ =>
      eapply wp_bind_eq; [reflexivity|]
  | |- wp (bind (ret _) _) _ _ =>
      eapply wp_bind_eq; [reflexivity|]
  | |- wp (bind (set_color ?a ?c) _) ?st _ =>
      with_inv st ltac:(fun H C t np => try_paths ltac:(fun p =>
        step_write ltac:(apply (set_color_at st C t np H p c); nsimpl; auto)))
  | |- wp (bind (Analyze._left_rotate ?a) _) ?st _ =>
      with_inv st ltac:(fun H C t np => try_paths ltac:(fun p =>
        step_write ltac:(apply (left_rotate_at st C t np H p); reflexivity)))
  | |- wp (bind (Analyze._right_rotate ?a) _) ?st _ =>
      with_inv st ltac:(fun H C t np => try_paths ltac:(fun p =>
        step_write ltac:(apply (right_rotate_at st C t np H p); reflexivity)))
  | |- wp (bind _ _) _ _ => fail "unknown operation"
  | |- wp ?m _ _ => is_prim m; apply wp_last
  end; nsimpl.

(** Facts about the identities of the nodes of the tree a store holds. *)
Ltac inv_facts H :=
  let HF := fresh in
  pose proof (proj1 (Inv_focus _ _ _ _) H) as HF;
  destruct HF as [_ _ ?Hnd _ _ _ ?Hnn]; simpl in *|-; facts.

Lemma insert_fix_body_spec st P G C t np :
  Inv st (plug (P :: G :: C) t) np ->
  is_node t = true -> fcolor P = RED ->
  wp (Analyze._insert_fix_body (addr t)) st (fun z' st' =>
    Inv st' (plug C (fst (ins_step P G t))) np /\ next st' = next st /\
    if snd (ins_step P G t) then z' = addr (fst (ins_step P G t))
    else wp (Analyze._insert_fix_cond z') st' (fun b st'' => b = false /\ st'' = st')).
Proof.
  intros HInv Ht HP. destruct t as [|z cz zl kz zr]; [done|]. clear Ht.
  inv_facts HInv.
  unfold Analyze._insert_fix_body.
  destruct G as [g cg kg u|g cg u kg], P as [p cp kp pr|p cp pl kp];
    simpl in HP; subst cp; nsimpl in HInv; simpl in *|-; facts.
  all: repeat step; destruct u as [|ua [] ul uk ur]; nsimpl; repeat step;
    (split_and!; [done|congruence|
       first [done | unfold Analyze._insert_fix_cond; repeat step; done]]).
Qed.

Lemma insert_fix_cond_spec st C t np :
  Inv st (plug C t) np -> is_node t = true ->
  wp (Analyze._insert_fix_cond (addr t)) st (fun b st' =>
    st' = st /\ b = match C with [] => false | P :: _ => fcolor P end).
Proof.
  intros HInv Ht. destruct t as [|z cz zl kz zr]; [done|].
  unfold Analyze._insert_fix_cond.
  destruct C as [|[p cp kp sr|p cp sl kp] C']; nsimpl in HInv; nsimpl;
    repeat step.
  all: split; [done|]; try done; by destruct cp.
Qed.

Lemma root_black_tail P G C : root_black (P :: G :: C) -> root_black C.
Proof. unfold root_black. simpl. destruct C; [done|]. simpl. done. Qed.

Lemma insert_fix_loop np fuel : forall C t st,
  length C < fuel ->
  Inv st (plug C t) np -> is_node t = true -> root_black C ->
  wp (while fuel Analyze._insert_fix_cond Analyze._insert_fix_body (addr t)) st
    (fun _ st' => Inv st' (ins_fix C t) np /\ next st' = next st).
Proof.
  induction fuel as [|fuel IH]; intros C t st Hf HInv Ht Hrb; [lia|].
  simpl. eapply wp_bind. eapply wp_mono; [by eapply insert_fix_cond_spec|].
  intros b st' [-> ->].
  destruct C as [|P [|G C]].
  - apply wp_ret. done.
  - unfold root_black in Hrb. simpl in Hrb. rewrite Hrb. apply wp_ret. done.
  - simpl ins_fix. destruct (fcolor P) eqn:HP; [|apply wp_ret; done].
    eapply wp_bind. eapply wp_mono; [by eapply insert_fix_body_spec|].
    intros z' st' (HInv' & Hn & Hz). simpl in Hz.
    destruct (ins_step P G t) as [t' again] eqn:Hs. simpl in *.
    assert (Ht' : is_node t' = true).
    { destruct G, P; simpl in Hs; destruct (tcolor _); simpl in Hs;
        destruct t; try done; injection Hs as <- <-; done. }
    destruct again.
    + subst z'. eapply wp_mono.
      * apply (IH C t'); [lia|done|done|]. by apply root_black_tail in Hrb.
      * intros _ st'' [? ?]. split; [done|congruence].
    + destruct fuel as [|fuel]; [lia|]. simpl.
      eapply wp_bind. eapply wp_mono; [exact Hz|].
      intros b st'' [-> ->]. apply wp_ret. done.
Qed.

(** ** The whole of [insert] *)

Lemma bounded_NoDup_length (l : list nat) n :
  NoDup l -> (forall a, a ∈ l -> a < n) -> length l <= n.
Proof.
  intros Hnd Hb.
  assert (l ⊆+ seq 0 n).
  { apply NoDup_submseteq; [done|]. intros a Ha. apply elem_of_seq.
    specialize (Hb a Ha). lia. }
  apply submseteq_length in H. by rewrite length_seq in H.
Qed.

Lemma Inv_size st T np : Inv st T np -> length (addrs T) < next st.
Proof.
  intros [H1 H2 H3 H4 H5 H6].
  assert (length (NIL :: addrs T) <= next st); [|simpl in *; lia].
  apply bounded_NoDup_length; [|done]. by constructor.
Qed.

Lemma height_le_size t : height t <= length (addrs t).
Proof.
  induction t as [|a c l IHl k r IHr]; simpl; [lia|].
  rewrite length_app. lia.
Qed.

Lemma length_caddrs C : length C <= length (caddrs C).
Proof.
  induction C as [|F C IH]; simpl; [lia|]. rewrite length_app. lia.
Qed.

Lemma Inv_depth st C t np :
  Inv st (plug C t) np -> length C + length (addrs t) < next st.
Proof.
  intros H. apply Inv_size in H. rewrite addrs_plug, length_app in H.
  pose proof (length_caddrs C). lia.
Qed.

Lemma Inv_nonnil st C a c l k r np :
  Inv st (plug C (Node a c l k r)) np -> a <> NIL.
Proof.
  intros H%Inv_focus. destruct H as [_ _ _ _ _ _ H]. simpl in H.
  intros ->. apply H. left.
Qed.

Lemma insert_descent k np fuel : forall t C st,
  height t < fuel ->
  Inv st (plug C t) np ->
  wp (while fuel Analyze.insert_cond (Analyze.insert_body k) (caddr C, addr t)) st
    (fun s st' => st' = st /\ s = (caddr (ins_ctx k t C), NIL)).
Proof.
  induction fuel as [|fuel IH]; intros t C st Hf HInv; [lia|].
  destruct t as [|a c l x r]; simpl.
  - unfold Analyze.insert_cond. simpl. eapply wp_bind_eq; [reflexivity|].
    simpl. by apply wp_ret.
  - pose proof (Inv_nonnil _ _ _ _ _ _ _ _ HInv) as Ha.
    unfold Analyze.insert_cond, Analyze.insert_body. simpl.
    eapply wp_bind_eq; [reflexivity|].
    apply Nat.eqb_neq in Ha. rewrite Ha. simpl.
    step. step. simpl in Hf. destruct (k <? x)%Z; nsimpl.
    + repeat step. apply (IH l (FL a c x r :: C)); [lia|done].
    + repeat step. apply (IH r (FR a c l x :: C)); [lia|done].
Qed.

Lemma insert_fix_spec st C t np :
  Inv st (plug C t) np -> is_node t = true -> root_black C ->
  wp (Analyze._insert_fix (addr t)) st (fun _ st' =>
    Inv st' (recolor BLACK (ins_fix C t)) np /\ next st' = next st).
Proof.
  intros HInv Ht Hrb. unfold Analyze._insert_fix.
  eapply wp_bind_eq; [reflexivity|].
  eapply wp_bind. eapply wp_mono.
  { apply (insert_fix_loop np _ C t); [|done..]. apply Inv_depth in HInv. lia. }
  intros _ st' [HInv' Hn]. step.
  change (ins_fix C t) with (sub_of (ins_fix C t) []).
  eapply wp_mono; [apply (set_color_at _ [] _ _ HInv' [] BLACK); auto|].
  intros _ st'' [? ?]. split; [done|congruence].
Qed.

Theorem insert_spec st T np k :
  Inv st T np -> tcolor T = BLACK ->
  wp (Analyze.insert k) st (fun _ st' =>
    Inv st' (ins_tree (next st) k T) np /\ next st' = S (next st)).
Proof.
  intros HInv Hc. unfold Analyze.insert.
  eapply wp_bind. eapply wp_mono; [by apply new_node_spec|].
  intros z st1 (-> & HInv1 & Hn1 & Hz & Hfresh).
  eapply wp_bind_eq; [reflexivity|]. step.
  eapply wp_bind. eapply wp_mono.
  { apply (insert_descent k np _ T [] st1); [|done].
    pose proof (Inv_size _ _ _ HInv1) as Hs. simpl in Hs.
    pose proof (height_le_size T). lia. }
  intros s st2 [-> ->]. cbn [fst].
  set (C := ins_ctx k T []).
  rewrite <- (plug_ins_ctx k T []) in HInv1. fold C in HInv1.
  apply wp_assoc_rev. eapply wp_bind. eapply wp_mono.
  { apply (link_focus st1 C np (next st) k); [by apply Inv_focus|done| | |].
    - pose proof (addrs_plug (ins_ctx k T []) Leaf) as HP.
      rewrite plug_ins_ctx in HP. simpl in HP. by rewrite HP in Hfresh.
    - lia.
    - by apply dir_ok_ins_ctx. }
  intros _ st3 [HInv3%Inv_focus Hn3].
  eapply wp_mono.
  { apply (insert_fix_spec st3 C (Node (next st) RED Leaf k Leaf) np); [done..|].
    apply root_black_ins_ctx; done. }
  intros _ st4 [? ?]. split; [done|congruence].
Qed.

(** ** The fix-up of [delete] *)

Lemma red_is_node t : tcolor t = RED -> is_node t = true.
Proof. by destruct t. Qed.

Ltac red_node w E :=
  destruct w as [|? ? ? ? ?]; [discriminate E|]; simpl in E; subst;
  simpl in *|-; facts.

Ltac finish_body :=
  split_and!;
  [ reflexivity | eassumption | congruence
  | first [ reflexivity | apply is_node_plug'; reflexivity ] ].

Lemma delete_fix_body_spec st P C t np :
  Inv st (plug (P :: C) t) np ->
  (is_node t = false -> np = Some (faddr P)) ->
  is_node (fsib P) = true ->
  (tcolor (fsib P) = RED ->
   is_node (tleft (fsib P)) = true /\ is_node (tright (fsib P)) = true) ->
  wp (Analyze._delete_fix_body (addr t)) st (fun x' st' =>
    x' = addr (snd (del_body P C t)) /\
    Inv st' (plug (fst (del_body P C t)) (snd (del_body P C t))) np /\
    next st' = next st /\ is_node (snd (del_body P C t)) = true).
Proof.
  intros HInv Hnp Hw Hw'.
  inv_facts HInv.
  unfold Analyze._delete_fix_body.
  destruct P as [p cp kp w|p cp w kp]; simpl in Hw, Hw', Hnp;
    destruct w as [|wa cw wl kw wr]; try done;
    nsimpl in HInv; simpl in *|-; facts.
  - destruct cw.
    + destruct Hw' as [Hwl Hwr]; [done|].
      destruct wl as [|wla wlc wll wlk wlr]; [done|]. simpl in *|-; facts.
      repeat step.
      destruct (tcolor wll) eqn:Ewl, (tcolor wlr) eqn:Ewr; nsimpl;
        rewrite ?Ewl, ?Ewr; nsimpl.
      * repeat step. finish_body.
      * red_node wll Ewl. repeat step. finish_body.
      * repeat step. finish_body.
      * repeat step. finish_body.
    + repeat step.
      destruct (tcolor wl) eqn:Ewl, (tcolor wr) eqn:Ewr; nsimpl;
        rewrite ?Ewl, ?Ewr; nsimpl.
      * repeat step. finish_body.
      * red_node wl Ewl. repeat step. finish_body.
      * repeat step. finish_body.
      * repeat step. finish_body.
  - destruct cw.
    + destruct Hw' as [Hwl Hwr]; [done|].
      destruct wr as [|wra wrc wrl wrk wrr]; [done|]. simpl in *|-; facts.
      repeat step.
      destruct (tcolor wrl) eqn:Ewl, (tcolor wrr) eqn:Ewr; nsimpl;
        rewrite ?Ewl, ?Ewr; nsimpl.
      * repeat step. finish_body.
      * repeat step. finish_body.
      * red_node wrr Ewr. repeat step. finish_body.
      * repeat step. finish_body.
    + repeat step.
      destruct (tcolor wl) eqn:Ewl, (tcolor wr) eqn:Ewr; nsimpl;
        rewrite ?Ewl, ?Ewr; nsimpl.
      * repeat step. finish_body.
      * repeat step. finish_body.
      * red_node wr Ewr. repeat step. finish_body.
      * repeat step. finish_body.
Qed.

Lemma addr_plug_ne st C t np :
  Inv st (plug C t) np -> C <> [] -> addr t <> addr (plug C t).
Proof.
  intros H%Inv_focus HC. destruct H as [_ _ Hnd _ _ _ Hnn].
  pose proof (addr_plug_in C t HC) as Hin.
  apply NoDup_app in Hnd as (_ & Hd & _).
  destruct t as [|a c l k r]; simpl in *.
  - intros E. rewrite <- E in Hin. done.
  - intros E. rewrite <- E in Hin. apply (Hd a); [left|done].
Qed.

Lemma delete_fix_cond_spec st C t np :
  Inv st (plug C t) np ->
  wp (Analyze._delete_fix_cond (addr t)) st (fun b st' =>
    st' = st /\ b = match C with [] => false | _ => eqb (tcolor t) BLACK end).
Proof.
  intros HInv. unfold Analyze._delete_fix_cond. step.
  destruct C as [|P C].
  - simpl. rewrite Nat.eqb_refl. by apply wp_ret.
  - pose proof (addr_plug_ne _ _ _ _ HInv) as Hne.
    apply Nat.eqb_neq in Hne; [|done]. rewrite Hne.
    change (addr t) with (addr (sub_of t [])).
    eapply wp_bind_eq; [apply (rd_color _ _ _ _ HInv [])|].
    by apply wp_ret.
Qed.

Lemma delete_fix_loop np fuel : forall n C t st,
  need C t < fuel -> need C t <= n ->
  deficit C t ->
  Inv st (plug C t) np ->
  (is_node t = false -> np = caddr C) ->
  wp (while fuel Analyze._delete_fix_cond Analyze._delete_fix_body (addr t)) st
    (fun x' st' => exists Cf tf,
       x' = addr tf /\ Inv st' (plug Cf tf) np /\ next st' = next st /\
       plug Cf (recolor BLACK tf) = del_fix n C t).
Proof.
  induction fuel as [|fuel IH]; intros n C t st Hf Hn HJ HInv Hnp; [lia|].
  simpl. eapply wp_bind. eapply wp_mono; [by eapply delete_fix_cond_spec|].
  intros b st' [-> ->].
  destruct C as [|P C].
  { apply wp_ret. exists [], t. split_and!; auto. by destruct n. }
  destruct (tcolor t) eqn:Ht; simpl.
  { apply wp_ret. exists (P :: C), t. split_and!; auto.
    destruct n; simpl; rewrite ?Ht; done. }
  unfold need in Hf, Hn. rewrite Ht in Hf, Hn. simpl in Hf, Hn.
  destruct n as [|n]; [lia|].
  pose proof (deficit_sibling _ _ _ HJ) as [Hw Hw'].
  pose proof (del_body_deficit P C t HJ Ht) as (HJ' & Hm & _).
  eapply wp_bind. eapply wp_mono.
  { eapply delete_fix_body_spec; eauto. }
  intros x' st' (-> & HInv' & Hnext & Hnode).
  simpl del_fix. rewrite Ht.
  destruct (del_body P C t) as [C2 t2]. simpl in *.
  eapply wp_mono.
  { apply (IH n C2 t2); auto; try lia. intros E. congruence. }
  intros x'' st'' (Cf & tf & ? & ? & ? & ?). exists Cf, tf.
  split_and!; auto. congruence.
Qed.

Lemma delete_fix_spec st C t np n :
  length C <= n ->
  deficit C t ->
  Inv st (plug C t) np ->
  (is_node t = false -> np = caddr C) ->
  wp (Analyze._delete_fix (addr t)) st (fun _ st' =>
    Inv st' (del_fix n C t) np /\ next st' = next st).
Proof.
  intros Hn HJ HInv Hnp. unfold Analyze._delete_fix.
  eapply wp_bind_eq; [reflexivity|].
  pose proof (need_le C t) as Hneed.
  eapply wp_bind. eapply wp_mono.
  { apply (delete_fix_loop np _ n C t); auto; [|lia].
    apply Inv_depth in HInv. lia. }
  intros x' st' (Cf & tf & -> & HInv' & Hnext & <-).
  change (addr tf) with (addr (sub_of tf [])).
  eapply wp_mono; [apply (set_color_at _ Cf tf _ HInv' [] BLACK); auto|].
  intros _ st'' [? ?]. split; [done|congruence].
Qed.

(** ** The structural part of [delete] on the store *)

Lemma submseteq_NoDup (l k : list nat) : l ⊆+ k -> NoDup k -> NoDup l.
Proof.
  intros [k' Hs]%submseteq_Permutation Hk. rewrite Hs in Hk.
  by apply NoDup_app in Hk as (? & _ & _).
Qed.

(** A store that holds a tree on a part of the identities of the old one. *)
Lemma InvF_intro_sub st st' C C' t t' np np' :
  InvF st C t np ->
  RepC (heap st') C' (addr t') ->
  Rep (heap st') (caddr C') t' ->
  addrs t' ++ caddrs C' ⊆+ addrs t ++ caddrs C ->
  root st' = addr (plug C' t') ->
  heap st' !! NIL = Some (mkRBNode None BLACK NIL NIL np') ->
  next st' = next st ->
  InvF st' C' t' np'.
Proof.
  intros [H1 H2 H3 H4 H5 H6 H7] HC Ht HP Hr Hn Hx. split; auto.
  - by eapply submseteq_NoDup.
  - intros a Ha. rewrite Hx. apply H6.
    apply elem_of_cons in Ha as [->|Ha]; [left|right].
    eapply elem_of_submseteq; eauto.
  - intros Hin. apply H7. eapply elem_of_submseteq; eauto.
Qed.

Ltac finish_sub H P :=
  eapply wp_eq; [raw_prim|];
  split_and?;
  [ eapply (InvF_intro_sub _ _ _ _ _ _ _ _ H); simpl;
    [ | | exact P | | heap_simpl; try done | done];
    [ first [ done | frame_rep
            | split_and?; heap_simpl; first [ done | frame_rep | idtac ] ] ..
    | first [ done
            | etransitivity; [eassumption|]; apply addr_plug_congr; reflexivity
            | idtac ] ]
  | try done .. ].

Lemma transplant_right st C z cz kz r np :
  InvF st C (Node z cz Leaf kz r) np ->
  wp (Analyze._transplant z (addr r)) st (fun _ st' =>
    InvF st' C r (if is_node r then np else caddr C) /\
    next st' = next st /\ heap st' !! z = heap st !! z).
Proof.
  intros HI.
  assert (P : addrs r ++ caddrs C ⊆+ addrs (Node z cz Leaf kz r) ++ caddrs C)
    by (simpl; solve_submseteq).
  destruct HI as [HC Hs Hnd Hroot Hnil Hnext Hnn] eqn:EI. clear EI.
  unfold Analyze._transplant.
  destruct r as [|b0 cb bl kb br]; simpl in *;
  (destruct C as [|[p cp kp sr|p cp sl kp] C']; simpl in *); facts.
  all: repeat raw_step; finish_sub HI P.
  all: heap_simpl; done.
Qed.

Lemma transplant_left st C z cz kz l np :
  InvF st C (Node z cz l kz Leaf) np ->
  wp (Analyze._transplant z (addr l)) st (fun _ st' =>
    InvF st' C l (if is_node l then np else caddr C) /\
    next st' = next st /\ heap st' !! z = heap st !! z).
Proof.
  intros HI.
  assert (P : addrs l ++ caddrs C ⊆+ addrs (Node z cz l kz Leaf) ++ caddrs C)
    by (simpl; solve_submseteq).
  destruct HI as [HC Hs Hnd Hroot Hnil Hnext Hnn] eqn:EI. clear EI.
  unfold Analyze._transplant.
  destruct l as [|b0 cb bl kb br]; simpl in *;
  (destruct C as [|[p cp kp sr|p cp sl kp] C']; simpl in *); facts.
  all: repeat raw_step; finish_sub HI P.
  all: heap_simpl; done.
Qed.


Ltac prove_invf_sub H P :=
  eapply (InvF_intro_sub _ _ _ _ _ _ _ _ H); simpl;
  [ | | exact P | | heap_simpl; try done | done];
  [ first [ done | frame_rep
          | split_and?; heap_simpl; first [ done | frame_rep | idtac ] ] ..
  | first [ done
          | etransitivity; [eassumption|]; apply addr_plug_congr; reflexivity
          | idtac ] ].

Lemma splice_direct {A} st C z cz l kz y cy ky ry np (K : M A) Q :
  InvF st C (Node z cz l kz (Node y cy Leaf ky ry)) np ->
  is_node l = true ->
  (forall st',
     InvF st' (FR y cz l ky :: C) ry (if is_node ry then np else Some y) ->
     next st' = next st -> wp K st' Q) ->
  wp (bind (set_parent (addr ry) (Some y)) (fun _ => relink z y K)) st Q.
Proof.
  intros HI Hl HK.
  assert (P : addrs ry ++ caddrs (FR y cz l ky :: C)
              ⊆+ addrs (Node z cz l kz (Node y cy Leaf ky ry)) ++ caddrs C)
    by (simpl; solve_submseteq).
  destruct HI as [HC Hs Hnd Hroot Hnil Hnext Hnn] eqn:EI. clear EI.
  unfold relink, Analyze._transplant.
  destruct l as [|l0 cl ll kl lr]; [done|].
  destruct ry as [|b0 cb bl kb br]; simpl in *;
  (destruct C as [|[p cp kp sr|p cp sl kp] C']; simpl in *); facts.
  all: repeat raw_step.
  all: apply HK; [|done].
  all: prove_invf_sub HI P.
Qed.

Lemma splice_indirect {A} st C z cz l kz r y cy ky yr yp np (K : M A) Q :
  InvF st C (Node z cz l kz r) np ->
  is_node l = true -> is_node r = true ->
  heap st !! y = Some (mkRBNode (Some ky) cy NIL yr yp) ->
  y ∉ NIL :: addrs (Node z cz l kz r) ++ caddrs C -> y < next st ->
  (forall st',
     InvF st' C (Node y cz l ky r) np -> next st' = next st -> wp K st' Q) ->
  wp (bind (set_right y (addr r)) (fun _ =>
        bind (bind (get_right y) (fun yr => set_parent yr (Some y)))
             (fun _ => relink z y K))) st Q.
Proof.
  intros HI Hl Hr Hy Hfresh Hlt HK.
  destruct HI as [HC Hs Hnd Hroot Hnil Hnext Hnn] eqn:EI. clear EI.
  assert (N1 : NoDup (addrs (Node y cz l ky r) ++ caddrs C)).
  { simpl in *. apply NoDup_cons in Hnd as [_ Hnd]. constructor; [|done].
    set_solver. }
  assert (N2 : forall a, a ∈ NIL :: addrs (Node y cz l ky r) ++ caddrs C ->
                         a < next st).
  { simpl in *. intros a [->|Ha]%elem_of_cons; [apply Hnext; left|].
    apply elem_of_cons in Ha as [->|Ha]; [done|]. apply Hnext.
    right. by right. }
  assert (N3 : NIL ∉ addrs (Node y cz l ky r) ++ caddrs C).
  { simpl in *. set_solver. }
  revert N1 N2 N3.
  unfold relink, Analyze._transplant.
  destruct l as [|l0 cl ll kl lr]; [done|].
  destruct r as [|r0 cr rl kr rr]; [done|]. simpl in *.
  (destruct C as [|[p cp kp sr|p cp sl kp] C']; simpl in *); facts.
  all: intros N1 N2 N3.
  all: repeat raw_step.
  all: apply HK; [|done].
  all: split; simpl; [ | | done | | heap_simpl; done | done | done ].
  all: try (split_and?; heap_simpl; first [done | frame_rep]).
  all: try (rewrite Hroot; apply addr_plug_congr; reflexivity).
Qed.

(** ** The whole of [delete] *)

Lemma search_loop k np fuel : forall t C st,
  height t < fuel ->
  Inv st (plug C t) np ->
  wp (while fuel
        (fun node =>
           if node =? NIL then ret false
           else let* nk := get_key node in ret (negb (k =? nk)%Z))
        (fun node =>
           let* nk := get_key node in
           if (k <? nk)%Z then get_left node else get_right node)
        (addr t)) st
    (fun x st' => st' = st /\ x = addr (snd (find k t C))).
Proof.
  induction fuel as [|fuel IH]; intros t C st Hf HInv; [lia|].
  destruct t as [|a c l x r]; simpl.
  - eapply wp_bind_eq; [reflexivity|]. by apply wp_ret.
  - pose proof (Inv_nonnil _ _ _ _ _ _ _ _ HInv) as Ha.
    apply Nat.eqb_neq in Ha. rewrite Ha. simpl in Hf.
    destruct (k =? x)%Z eqn:E1; [|destruct (k <? x)%Z eqn:E2];
      repeat (first [step | rewrite E1; nsimpl | rewrite E2; nsimpl]).
    + done.
    + apply (IH l (FL a c x r :: C)); [lia|done].
    + apply (IH r (FR a c l x :: C)); [lia|done].
Qed.

Lemma minimum_loop np fuel : forall t C st,
  height t < fuel ->
  Inv st (plug C t) np ->
  wp (while fuel
        (fun x => let* xl := get_left x in ret (negb (xl =? NIL)))
        (fun x => get_left x)
        (addr t)) st
    (fun x st' => st' = st /\ x = addr (snd (min_ctx t C))).
Proof.
  induction fuel as [|fuel IH]; intros t C st Hf HInv; [lia|].
  destruct t as [|a c l x r]; simpl.
  - repeat step. done.
  - destruct l as [|la lc ll lk lr].
    + repeat step. done.
    + assert (la <> NIL) as H.
      { apply (Inv_nonnil st (FL a c x r :: C) la lc ll lk lr np). exact HInv. }
      apply Nat.eqb_neq in H.
      repeat (first [step | rewrite H; nsimpl]).
      apply (IH (Node la lc ll lk lr) (FL a c x r :: C)); [simpl in *; lia|done].
Qed.


Lemma delete_unfold k :
  Analyze.delete k =
  (let* r := get_root in
   let* z := Analyze._search r k in
   if z =? NIL then ret tt
   else
     let* y_orig := get_color z in
     let* zl := get_left z in
     let* zr := get_right z in
     let* xy := delete_splice z zl zr y_orig in
     if eqb (snd xy) BLACK then Analyze._delete_fix (fst xy) else ret tt).
Proof. reflexivity. Qed.

Lemma delete_splice_spec st C z cz l kz r np :
  Inv st (plug C (Node z cz l kz r)) np ->
  wp (delete_splice z (addr l) (addr r) cz) st (fun xy st' =>
    let '(Cx, tx, yc) := del_focus C (Node z cz l kz r) in
    xy = (addr tx, yc) /\ next st' = next st /\
    exists np', Inv st' (plug Cx tx) np' /\
                (is_node tx = false -> np' = caddr Cx)).
Proof.
  intros HInv. unfold delete_splice.
  destruct l as [|l0 cl ll kl lr].
  { (* no left child *)
    simpl. eapply wp_bind. eapply wp_mono.
    { apply (transplant_right st C z cz kz r np). by apply Inv_focus. }
    intros _ st' (HI & Hn & _). apply wp_ret. split_and!; auto.
    eexists. split; [by apply Inv_focus|]. intros E. by rewrite E. }
  assert (Hl0 : l0 <> NIL).
  { apply (Inv_nonnil st (FL z cz kz r :: C) l0 cl ll kl lr np). exact HInv. }
  apply Nat.eqb_neq in Hl0. cbn [addr]. rewrite Hl0.
  destruct r as [|r0 cr rl kr rr].
  { (* no right child *)
    simpl. eapply wp_bind. eapply wp_mono.
    { apply (transplant_left st C z cz kz (Node l0 cl ll kl lr) np). by apply Inv_focus. }
    intros _ st' (HI & Hn & _). apply wp_ret. split_and!; auto.
    eexists. split; [by apply Inv_focus|]. done. }
  assert (Hr0 : r0 <> NIL).
  { apply (Inv_nonnil st (FR z cz (Node l0 cl ll kl lr) kz :: C) r0 cr rl kr rr np).
    exact HInv. }
  apply Nat.eqb_neq in Hr0. cbn [addr]. rewrite Hr0.
  set (l := Node l0 cl ll kl lr) in *. set (r := Node r0 cr rl kr rr) in *.
  (* the successor *)
  unfold Analyze._tree_minimum.
  eapply wp_bind. eapply wp_bind_eq; [reflexivity|]. eapply wp_mono.
  { apply (minimum_loop np _ r (FR z cz l kz :: C) st); [|exact HInv].
    apply (Inv_depth st (FR z cz l kz :: C) r) in HInv.
    pose proof (height_le_size r). lia. }
  intros y st' [-> ->].
  cbn [del_focus is_node negb]. subst l. cbn [is_node negb]. subst r.
  cbn [is_node negb]. set (l := Node l0 cl ll kl lr) in *.
  set (r := Node r0 cr rl kr rr) in *.
  rewrite (min_ctx_app r (FR z cz l kz :: C)).
  destruct (min_ctx_shape r [] eq_refl) as (y & cy & ky & ry & Hy).
  pose proof (plug_min_ctx r []) as Hplug.
  destruct (min_ctx r []) as [Cm ty]. simpl in Hy. subst ty. simpl in Hplug.
  cbn [fst snd addr].
  assert (HInv1 : Inv st (plug (Cm ++ FR z cz l kz :: C) (Node y cy Leaf ky ry)) np).
  { rewrite plug_app. simpl. by rewrite Hplug. }
  clear HInv. repeat step.
  destruct Cm as [|F Cm]; cbn [app caddr].
  - (* the successor is the right child *)
    rewrite decide_True by done. simpl in Hplug. subst r.
    eapply (splice_direct st C z cz l kz y cy ky ry np); [|done|].
    { apply Inv_focus. exact HInv1. }
    intros st' HI Hn. apply wp_ret. split_and!; auto.
    eexists. split; [apply Inv_focus; exact HI|]. intros E. by rewrite E.
  - (* the successor lies deeper *)
    assert (faddr F <> z).
    { apply Inv_focus in HInv1. destruct HInv1 as [_ _ Hnd _ _ _ _].
      simpl in Hnd. rewrite NoDup_cons in Hnd. destruct Hnd as [_ Hnd].
      apply NoDup_app in Hnd as (_ & _ & Hnd). apply NoDup_cons in Hnd as [Hnd _].
      intros E. apply Hnd. rewrite E. rewrite caddrs_app. simpl.
      rewrite !elem_of_app. right. right. left. }
    rewrite decide_False by congruence.
    step. step.
    (* [_transplant y y.right] *)
    apply wp_assoc. eapply wp_bind. eapply wp_mono.
    { apply (transplant_right st (F :: Cm ++ FR z cz l kz :: C) y cy ky ry np).
      by apply Inv_focus. }
    intros _ st1 (HI1 & Hn1 & Hy1).
    assert (Hycell : heap st1 !! y =
              Some (mkRBNode (Some ky) cy NIL (addr ry) (Some (faddr F)))).
    { rewrite Hy1. apply Inv_focus in HInv1. destruct HInv1 as [_ [H1 _] _ _ _ _ _].
      exact H1. }
    assert (Hyfresh : y ∉ NIL :: addrs (Node z cz l kz (plug (F :: Cm) ry)) ++ caddrs C).
    { apply Inv_focus in HInv1. destruct HInv1 as [_ _ Hnd _ _ _ Hnn].
      simpl in Hnd, Hnn. apply NoDup_cons in Hnd as [Hnd _].
      apply not_elem_of_cons in Hnn as [Hnn _].
      assert (HP : addrs (Node z cz l kz (plug (F :: Cm) ry)) ++ caddrs C
                   ≡ₚ addrs ry ++ caddrs ((F :: Cm) ++ FR z cz l kz :: C)).
      { rewrite <- (addrs_plug C), <- addrs_plug. by rewrite plug_app. }
      rewrite HP. apply not_elem_of_cons. split; [congruence|]. exact Hnd. }
    assert (Hylt : y < next st1).
    { rewrite Hn1. apply Inv_focus in HInv1. destruct HInv1 as [_ _ _ _ _ Hx _].
      apply Hx. right. left. }
    apply Inv_focus in HI1.
    change (plug (F :: Cm ++ FR z cz l kz :: C) ry)
      with (plug ((F :: Cm) ++ FR z cz l kz :: C) ry) in HI1.
    rewrite plug_app in HI1. cbn [plug fill] in HI1.
    set (r' := plug (F :: Cm) ry) in *.
    assert (Hr' : is_node r' = true) by (by apply (is_node_plug (F :: Cm))).
    step. step. apply wp_assoc.
    eapply (splice_indirect st1 C z cz l kz r' y cy ky (addr ry) (Some (faddr F)));
      [by apply Inv_focus|done|done|done|done|done|].
    intros st2 HI2 Hn2. apply wp_ret. split_and!; auto; [congruence|].
    eexists. split.
    + apply Inv_focus in HI2. rewrite plug_app. exact HI2.
    + intros E. by rewrite E.
Qed.

Theorem delete_spec st T np k :
  Inv st T np -> rb T ->
  wp (Analyze.delete k) st (fun _ st' =>
    (exists np', Inv st' (del_tree k T) np') /\ next st' = next st).
Proof.
  intros HInv HT. rewrite delete_unfold.
  eapply wp_bind_eq; [apply (rd_root st [] T np HInv)|]. cbn [plug].
  unfold Analyze._search. eapply wp_bind. eapply wp_bind_eq; [reflexivity|].
  eapply wp_mono.
  { apply (search_loop k np _ T [] st); [|exact HInv].
    pose proof (Inv_size _ _ _ HInv) as Hs. pose proof (height_le_size T). lia. }
  intros z st' [-> ->]. unfold del_tree.
  pose proof (plug_find k T []) as Hp.
  destruct (find k T []) as [C t]. cbn [fst snd] in *. simpl in Hp.
  destruct t as [|z cz l kz r]; cbn [addr].
  { simpl. apply wp_ret. split; [by exists np|done]. }
  rewrite <- Hp in HInv, HT.
  pose proof (Inv_nonnil _ _ _ _ _ _ _ _ HInv) as Hz.
  apply Nat.eqb_neq in Hz. rewrite Hz.
  pose proof (Inv_focus_at st C (Node z cz l kz r) [] np HInv) as HF.
  cbn [ctx_of sub_of] in HF.
  eapply wp_bind_eq.
  { unfold get_color, bind. by rewrite (load_node _ _ _ _ _ _ _ _ HF). }
  eapply wp_bind_eq.
  { unfold get_left, bind. by rewrite (load_node _ _ _ _ _ _ _ _ HF). }
  eapply wp_bind_eq.
  { unfold get_right, bind. by rewrite (load_node _ _ _ _ _ _ _ _ HF). }
  cbn [color left right].
  eapply wp_bind. eapply wp_mono; [by apply (delete_splice_spec st C z cz l kz r np)|].
  intros xy st1. cbv beta.
  pose proof (del_focus_ok C z cz l kz r HT) as Hok.
  destruct (del_focus C (Node z cz l kz r)) as [[Cx tx] yc].
  intros (-> & Hn & np' & HI & Hnp). cbn [fst snd]. destruct Hok as [Hok _].
  destruct yc; cbn [eqb BLACK] in *.
  - apply wp_ret. split; [by exists np'|done].
  - eapply wp_mono.
    { apply (delete_fix_spec st1 Cx tx np' (S (length Cx))); auto. }
    intros _ st2 [? ?]. split; [by exists np'|congruence].
Qed.

(** ** The fingerprint of the tree object *)

Lemma inorder_erase T : inorder (erase T) = keys T.
Proof. induction T as [|a c l IHl k r IHr]; simpl; [done|]. by rewrite IHl, IHr. Qed.

Lemma fp_bh_erase T : fp_bh (erase T) = bh T.
Proof. induction T as [|a c l IHl k r IHr]; simpl; [done|]. by rewrite IHl. Qed.

Lemma fp_color_erase T : fp_color (erase T) = tcolor T.
Proof. by destruct T. Qed.

Lemma red_black_erase T : rb T -> red_black (erase T).
Proof.
  intros [Hc Hb]. split; [by rewrite fp_color_erase|]. clear Hc.
  induction T as [|a c l IHl k r IHr]; simpl; [done|].
  destruct Hb as (H1 & H2 & H3 & H4). rewrite !fp_bh_erase, !fp_color_erase.
  destruct (IHl H2), (IHr H3). done.
Qed.

Lemma to_tuple_from_Rep h : forall T par fuel,
  Rep h par T -> NIL ∉ addrs T -> height T < fuel ->
  to_tuple_from fuel h (addr T) = Some (erase T).
Proof.
  induction T as [|a c l IHl k r IHr]; intros par fuel HR Hn Hf.
  - destruct fuel; [lia|]. done.
  - destruct fuel; [lia|]. simpl in *. destruct HR as (Ha & Hl & Hr).
    apply not_elem_of_cons in Hn as [Hne Hn].
    apply not_elem_of_app in Hn as [? ?].
    assert (a <> NIL) as Hne' by congruence.
    apply Nat.eqb_neq in Hne'. rewrite Hne', Ha. simpl.
    rewrite (IHl (Some a) fuel), (IHr (Some a) fuel); auto; lia.
Qed.

Lemma to_tuple_Inv st T np : Inv st T np -> to_tuple st = Some (erase T).
Proof.
  intros H. unfold to_tuple. rewrite (inv_root _ _ _ H).
  apply (to_tuple_from_Rep _ T None).
  - apply (inv_rep _ _ _ H).
  - apply (inv_nil _ _ _ H).
  - pose proof (Inv_size _ _ _ H). pose proof (height_le_size T). lia.
Qed.

Lemma tree_keys_Inv st T np : Inv st T np -> tree_keys st = keys T.
Proof.
  intros H. unfold tree_keys. by rewrite (to_tuple_Inv _ _ _ H), inorder_erase.
Qed.

Lemma Inv_init : Inv RBTree_init Leaf None.
Proof.
  split; simpl; try done.
  - constructor.
  - intros a Ha. apply elem_of_cons in Ha as [->|Ha]; [unfold NIL; lia|by apply elem_of_nil in Ha].
  - apply not_elem_of_nil.
Qed.

(** ** Insertion keeps the red-black invariants *)

Theorem ins_tree_rb z k T : rb T -> rb (ins_tree z k T).
Proof.
  intros [Hc Hb]. unfold ins_tree.
  set (C := ins_ctx k T []). set (t := Node z RED Leaf k Leaf).
  assert (Hrb : root_black C) by (by apply root_black_ins_ctx).
  assert (HC : ctx_ok 1 C).
  { pose proof (plug_ins_ctx k T []) as HP. cbn [plug] in HP. fold C in HP.
    rewrite <- HP in Hb. by apply unplug_balanced in Hb as (? & _ & _). }
  assert (Hn : is_node (ins_fix C t) = true).
  { by apply (is_node_ins_fix (length C)). }
  split.
  - by apply tcolor_recolor.
  - apply balanced_recolor_black.
    apply (ins_fix_balanced (length C)); auto. simpl. done.
Qed.


(** ** The keys after an insertion *)

Lemma ins_ctx_bounds k : forall t C,
  increasing (lkeys C ++ keys t ++ rkeys C) -> bounds k C ->
  bounds k (ins_ctx k t C).
Proof.
  induction t as [|a c l IHl x r IHr]; intros C Hs [HL HR]; simpl; [done|].
  simpl in Hs. unfold increasing in *. rewrite <- !app_assoc in Hs. simpl in Hs.
  destruct (k <? x)%Z eqn:E.
  - apply Z.ltb_lt in E. apply IHl; [done|].
    split; [done|]. simpl. constructor; [done|].
    apply Forall_app. split; [|done].
    apply StronglySorted_app_1_r, StronglySorted_app_1_r in Hs.
    apply StronglySorted_cons in Hs as [Hx _].
    apply Forall_app in Hx as [Hx _].
    eapply Forall_impl; [exact Hx|]. simpl. intros. lia.
  - apply Z.ltb_ge in E. apply IHr.
    + simpl. rewrite <- !app_assoc. simpl. done.
    + split; [|done]. simpl. apply Forall_app. split; [done|].
      apply Forall_app. split; [|by repeat constructor].
      apply StronglySorted_app_1_r in Hs.
      apply Forall_forall. intros y Hy.
      assert (y <= x)%Z; [|lia].
      apply (StronglySorted_app_1_elem_of _ (keys l) (x :: keys r ++ rkeys C));
        [done|done|left].
Qed.

Theorem ins_tree_keys z k T :
  exists l1 l2,
    keys T = l1 ++ l2 /\ keys (ins_tree z k T) = l1 ++ k :: l2 /\
    (increasing (keys T) ->
     Forall (fun x => (x <= k)%Z) l1 /\ Forall (fun x => (k < x)%Z) l2).
Proof.
  set (C := ins_ctx k T []).
  exists (lkeys C), (rkeys C). split_and!.
  - pose proof (plug_ins_ctx k T []) as HP. cbn [plug] in HP. fold C in HP.
    rewrite <- HP at 1. rewrite keys_plug. done.
  - unfold ins_tree. fold C. rewrite keys_recolor.
    rewrite (keys_ins_fix (length C)) by done. rewrite keys_plug. done.
  - intros Hs. apply (ins_ctx_bounds k T []).
    + simpl. by rewrite app_nil_r.
    + split; constructor.
Qed.


(** ** The keys after a deletion *)

Lemma find_bounds k : forall t C,
  increasing (lkeys C ++ keys t ++ rkeys C) -> sbounds k C ->
  sbounds k (fst (find k t C)).
Proof.
  induction t as [|a c l IHl x r IHr]; intros C Hs [HL HR]; simpl; [done|].
  simpl in Hs. unfold increasing in *. rewrite <- !app_assoc in Hs. simpl in Hs.
  destruct (k =? x)%Z eqn:E0; [done|]. apply Z.eqb_neq in E0.
  destruct (k <? x)%Z eqn:E.
  - apply Z.ltb_lt in E. apply IHl; [done|].
    split; [done|]. simpl. constructor; [done|].
    apply Forall_app. split; [|done].
    apply StronglySorted_app_1_r, StronglySorted_app_1_r in Hs.
    apply StronglySorted_cons in Hs as [Hx _].
    apply Forall_app in Hx as [Hx _].
    eapply Forall_impl; [exact Hx|]. simpl. intros. lia.
  - apply Z.ltb_ge in E. apply IHr.
    + simpl. rewrite <- !app_assoc. simpl. done.
    + split; [|done]. simpl. apply Forall_app. split; [done|].
      apply Forall_app. split; [|repeat constructor; lia].
      apply StronglySorted_app_1_r in Hs.
      apply Forall_forall. intros y Hy.
      assert (y <= x)%Z; [|lia].
      apply (StronglySorted_app_1_elem_of _ (keys l) (x :: keys r ++ rkeys C));
        [done|done|left].
Qed.

Lemma find_hit k T :
  increasing (keys T) -> k ∈ keys T -> is_node (snd (find k T [])) = true.
Proof.
  intros Hs Hk.
  pose proof (find_bounds k T []) as Hb. pose proof (find_lkeys k T []) as He.
  destruct (find k T []) as [C t]. simpl in *.
  destruct t; [|done]. exfalso.
  rewrite app_nil_r in *. destruct Hb as [HL HR]; [done|split; constructor|].
  rewrite He in Hk. simpl in Hk. apply elem_of_app in Hk as [Hk|Hk].
  - rewrite Forall_forall in HL. apply HL in Hk. lia.
  - rewrite Forall_forall in HR. apply HR in Hk. lia.
Qed.

Theorem del_tree_present k T :
  rb T -> increasing (keys T) -> k ∈ keys T ->
  exists l1 l2, keys T = l1 ++ k :: l2 /\ keys (del_tree k T) = l1 ++ l2.
Proof.
  intros HT Hs Hk. destruct (del_tree_keys k T HT) as [H|[_ H]]; [done|].
  apply (find_hit k T Hs) in Hk. by rewrite H in Hk.
Qed.

Theorem del_tree_absent k T : k ∉ keys T -> del_tree k T = T.
Proof.
  intros Hk. unfold del_tree.
  pose proof (find_key k T []) as Hf. pose proof (find_lkeys k T []) as He.
  destruct (find k T []) as [C t]. simpl in *.
  destruct t as [|z cz l kz r]; [done|]. subst kz. exfalso. apply Hk.
  rewrite app_nil_r in He. rewrite He. simpl.
  rewrite !elem_of_app, elem_of_cons. auto.
Qed.

(** ** Sorted key lists *)

Lemma sorted_remove {R : relation Z} l1 k l2 :
  StronglySorted R (l1 ++ k :: l2) -> StronglySorted R (l1 ++ l2).
Proof.
  rewrite !StronglySorted_app, StronglySorted_cons.
  intros (H1 & H2 & H3 & H4). split_and!; auto.
  intros. apply H1; [done|by right].
Qed.

Lemma increasing_add l1 k l2 :
  increasing (l1 ++ l2) ->
  Forall (fun x => (x <= k)%Z) l1 -> Forall (fun x => (k < x)%Z) l2 ->
  increasing (l1 ++ k :: l2).
Proof.
  unfold increasing. rewrite !StronglySorted_app, StronglySorted_cons.
  rewrite !Forall_forall. intros (H1 & H2 & H3) HL HR. split_and!; auto.
  - intros x y Hx [->|Hy]%elem_of_cons; auto.
  - intros y Hy. apply HR in Hy. lia.
Qed.

Lemma strictly_increasing_add l1 k l2 :
  strictly_increasing (l1 ++ l2) -> k ∉ l1 ->
  Forall (fun x => (x <= k)%Z) l1 -> Forall (fun x => (k < x)%Z) l2 ->
  strictly_increasing (l1 ++ k :: l2).
Proof.
  unfold strictly_increasing. rewrite !StronglySorted_app, StronglySorted_cons.
  rewrite !Forall_forall. intros (H1 & H2 & H3) Hk HL HR. split_and!; auto.
  intros x y Hx Hy. apply elem_of_cons in Hy as [->|Hy]; [|auto].
  assert (x <> k) by (by intros ->). apply HL in Hx. lia.
Qed.

Lemma strictly_increasing_weaken l : strictly_increasing l -> increasing l.
Proof.
  induction 1 as [|x l H IH Hx]; constructor; [done|].
  eapply Forall_impl; [exact Hx|]. simpl. intros. lia.
Qed.

Lemma strictly_increasing_NoDup l : strictly_increasing l -> NoDup l.
Proof.
  induction 1 as [|x l H IH Hx]; constructor; [|done].
  rewrite Forall_forall in Hx. intros Hin. apply Hx in Hin. lia.
Qed.

(** ** Sequences of actions *)

Lemma step_tree_rb z s T : rb T -> rb (step_tree z s T).
Proof.
  destruct s as [[[] k] h]; simpl; [apply ins_tree_rb|apply del_tree_rb].
Qed.

Lemma step_tree_increasing z s T :
  rb T -> increasing (keys T) -> increasing (keys (step_tree z s T)).
Proof.
  intros HT Hs. destruct s as [[[] k] h]; simpl.
  - destruct (ins_tree_keys z k T) as (l1 & l2 & E1 & E2 & Hb).
    destruct (Hb Hs) as [? ?]. rewrite E2. rewrite E1 in Hs.
    by apply increasing_add.
  - destruct (del_tree_keys k T HT) as [(l1 & l2 & E1 & E2)|[E _]].
    + rewrite E2. rewrite E1 in Hs. by apply sorted_remove in Hs.
    + by rewrite E.
Qed.

Lemma steps_tree_rb steps : forall z T,
  rb T -> increasing (keys T) ->
  rb (steps_tree z steps T) /\ increasing (keys (steps_tree z steps T)).
Proof.
  induction steps as [|s steps IH]; intros z T HT Hs; simpl; [done|].
  apply IH; [by apply step_tree_rb|by apply step_tree_increasing].
Qed.

Lemma run_step_spec s st T np :
  Inv st T np -> rb T ->
  wp (run_step s) st (fun _ st' =>
    (exists np', Inv st' (step_tree (next st) s T) np')
    /\ next st' = step_next (next st) s).
Proof.
  intros HI HT. destruct s as [[[] k] h]; simpl.
  - eapply wp_mono; [apply (insert_spec st T np k HI); apply HT|].
    intros _ st' [? ?]. split; [by exists np|done].
  - exact (delete_spec st T np k HI HT).
Qed.

Lemma run_steps_cons s steps :
  run_steps (s :: steps) = bind (run_step s) (fun _ => run_steps steps).
Proof. by destruct s as [[[] k] h]. Qed.

Lemma run_steps_spec steps : forall st T np,
  Inv st T np -> rb T -> increasing (keys T) ->
  wp (run_steps steps) st (fun _ st' =>
    exists np', Inv st' (steps_tree (next st) steps T) np').
Proof.
  induction steps as [|s steps IH]; intros st T np HI HT Hs.
  - apply wp_ret. by exists np.
  - rewrite run_steps_cons. apply wp_bind. eapply wp_mono.
    { by apply (run_step_spec s st T np). }
    intros _ st' [[np' HI'] Hn]. cbn [steps_tree]. rewrite <- Hn.
    apply (IH st' _ np' HI').
    + by apply step_tree_rb.
    + by apply step_tree_increasing.
Qed.

Lemma rb_Leaf : rb Leaf.
Proof. done. Qed.

Lemma execute_steps_spec steps :
  exists st np, execute_steps steps = Some st
                /\ Inv st (steps_tree 1 steps Leaf) np.
Proof.
  destruct (run_steps_spec steps RBTree_init Leaf None Inv_init rb_Leaf)
    as (u & st & E & np & HI); [constructor|].
  exists st, np. unfold execute_steps. by rewrite E.
Qed.

(** Every sequence of actions runs to the end and leaves a red-black tree
    whose keys increase weakly. *)
Theorem execute_steps_invariants steps :
  exists st fp, execute_steps steps = Some st /\ to_tuple st = Some fp
                /\ red_black fp /\ increasing (inorder fp).
Proof.
  destruct (execute_steps_spec steps) as (st & np & E & HI).
  destruct (steps_tree_rb steps 1 Leaf rb_Leaf) as [H1 H2]; [constructor|].
  exists st, (erase (steps_tree 1 steps Leaf)). split_and!; auto.
  - by apply (to_tuple_Inv st _ np).
  - by apply red_black_erase.
  - by rewrite inorder_erase.
Qed.

(** ** Sequences that never insert a key twice *)

Lemma step_tree_strict z s T p :
  rb T -> strictly_increasing (keys T) -> (forall x, x ∈ p <-> x ∈ keys T) ->
  fresh_inserts p [s] ->
  strictly_increasing (keys (step_tree z s T))
  /\ (forall x, x ∈ steps_keys [s] p <-> x ∈ keys (step_tree z s T)).
Proof.
  intros HT Hs Hp Hf. destruct s as [[[] k] h]; simpl in *.
  - destruct Hf as [Hk _]. rewrite Hp in Hk.
    destruct (ins_tree_keys z k T) as (l1 & l2 & E1 & E2 & Hb).
    destruct (Hb (strictly_increasing_weaken _ Hs)) as [H1 H2].
    rewrite E2. rewrite E1 in Hs, Hk. split.
    + apply strictly_increasing_add; auto.
      intros Hin. apply Hk. apply elem_of_app. by left.
    + intros x. rewrite elem_of_cons, Hp, E1, !elem_of_app, elem_of_cons. tauto.
  - destruct (decide (k ∈ keys T)) as [Hk|Hk].
    + destruct (del_tree_present k T HT (strictly_increasing_weaken _ Hs) Hk)
        as (l1 & l2 & E1 & E2).
      rewrite E2. rewrite E1 in Hs. split; [by apply sorted_remove in Hs|].
      apply strictly_increasing_NoDup in Hs.
      apply NoDup_app in Hs as (_ & Hd & Hn). apply NoDup_cons in Hn as [Hn _].
      specialize (Hd k).
      intros x. rewrite list_elem_of_filter, Hp, E1, !elem_of_app, elem_of_cons.
      split.
      * intros [? [?|[?|?]]]; auto. done.
      * intros [H|H]; split; auto; intros ->; [apply Hd; [done|left]|done].
    + rewrite (del_tree_absent k T Hk). split; [done|].
      intros x. rewrite list_elem_of_filter, Hp. split; [tauto|].
      intros H. split; [|done]. by intros ->.
Qed.

Lemma steps_tree_strict steps : forall z T p,
  rb T -> strictly_increasing (keys T) -> (forall x, x ∈ p <-> x ∈ keys T) ->
  fresh_inserts p steps ->
  strictly_increasing (keys (steps_tree z steps T))
  /\ (forall x, x ∈ steps_keys steps p <-> x ∈ keys (steps_tree z steps T)).
Proof.
  induction steps as [|s steps IH]; intros z T p HT Hs Hp Hf; [done|].
  assert (Hf1 : fresh_inserts p [s]).
  { destruct s as [[[] k] h]; simpl in *; tauto. }
  destruct (step_tree_strict z s T p HT Hs Hp Hf1) as [H1 H2].
  cbn [steps_tree].
  assert (E : steps_keys (s :: steps) p = steps_keys steps (steps_keys [s] p)).
  { by destruct s as [[[] k] h]. }
  rewrite E. apply IH; auto.
  - by apply step_tree_rb.
  - destruct s as [[[] k] h]; simpl in *; tauto.
Qed.

Lemma execute_steps_strict steps :
  fresh_inserts [] steps ->
  exists st T np,
    execute_steps steps = Some st /\ Inv st T np /\ rb T
    /\ strictly_increasing (keys T)
    /\ (forall x, x ∈ steps_keys steps [] <-> x ∈ keys T).
Proof.
  intros Hf. destruct (execute_steps_spec steps) as (st & np & E & HI).
  exists st, (steps_tree 1 steps Leaf), np.
  destruct (steps_tree_rb steps 1 Leaf rb_Leaf) as [H1 _]; [constructor|].
  destruct (steps_tree_strict steps 1 Leaf [] rb_Leaf) as [H2 H3]; auto.
  constructor.
Qed.

Lemma strictly_increasing_unique l1 l2 :
  strictly_increasing l1 -> strictly_increasing l2 ->
  (forall x, x ∈ l1 <-> x ∈ l2) -> l1 = l2.
Proof.
  intros H1 H2 H. apply (StronglySorted_unique_strong Z.lt).
  - intros. lia.
  - exact H1.
  - exact H2.
  - apply list.NoDup_Permutation; [by apply strictly_increasing_NoDup..|done].
Qed.

Lemma steps_keys_app s1 : forall s2 p,
  steps_keys (s1 ++ s2) p = steps_keys s2 (steps_keys s1 p).
Proof.
  induction s1 as [|[[[] k] h] s1 IH]; intros s2 p; simpl; auto.
Qed.

Lemma fresh_inserts_app s1 : forall s2 p,
  fresh_inserts p (s1 ++ s2) <->
  fresh_inserts p s1 /\ fresh_inserts (steps_keys s1 p) s2.
Proof.
  induction s1 as [|[[[] k] h] s1 IH]; intros s2 p; simpl.
  - tauto.
  - rewrite IH. tauto.
  - apply IH.
Qed.

Lemma steps_keys_inserts ks : forall p,
  steps_keys (inserts ks) p = reverse ks ++ p.
Proof.
  induction ks as [|k ks IH]; intros p; simpl; [done|].
  rewrite IH, reverse_cons. by rewrite <- app_assoc.
Qed.

Lemma fresh_inserts_inserts ks : forall p,
  NoDup ks -> (forall x, x ∈ ks -> x ∉ p) -> fresh_inserts p (inserts ks).
Proof.
  induction ks as [|k ks IH]; intros p Hd Hp; simpl; [done|].
  apply NoDup_cons in Hd as [Hk Hd]. split.
  - apply Hp. left.
  - apply IH; [done|]. intros x Hx. rewrite not_elem_of_cons. split.
    + by intros ->.
    + apply Hp. by right.
Qed.

Lemma inserts_app a b : inserts (a ++ b) = inserts a ++ inserts b.
Proof. apply map_app. Qed.

Lemma fingerprint_of_spec steps :
  exists st np, execute_steps steps = Some st
    /\ Inv st (steps_tree 1 steps Leaf) np
    /\ fingerprint_of steps = Some (erase (steps_tree 1 steps Leaf)).
Proof.
  destruct (execute_steps_spec steps) as (st & np & E & HI).
  exists st, np. split_and!; auto. unfold fingerprint_of. rewrite E.
  by apply (to_tuple_Inv st _ np).
Qed.

(** ** The permutations *)

Lemma selections_perm {A} (l : list A) x r :
  (x, r) ∈ selections l -> x :: r ≡ₚ l.
Proof.
  revert x r. induction l as [|y l IH]; intros x r H; simpl in H.
  - by apply elem_of_nil in H.
  - apply elem_of_cons in H as [H|H]; [by injection H as -> ->|].
    apply list_elem_of_In, in_map_iff in H as ([x' r'] & E & H).
    simpl in E. injection E as -> <-.
    apply list_elem_of_In, IH in H. rewrite <- H. apply perm_swap.
Qed.

Lemma selections_elem {A} (l : list A) x :
  x ∈ l -> exists r, (x, r) ∈ selections l.
Proof.
  induction l as [|y l IH]; intros H; [by apply elem_of_nil in H|].
  apply elem_of_cons in H as [->|H].
  - exists l. left.
  - destruct (IH H) as [r Hr]. exists (y :: r). simpl. right.
    apply list_elem_of_In, in_map_iff. exists (x, r). split; [done|].
    by apply list_elem_of_In.
Qed.

Lemma permutations_n_spec {A} n : forall (l p : list A),
  length l = n -> (p ∈ permutations_n n l <-> p ≡ₚ l).
Proof.
  induction n as [|n IH]; intros l p Hl.
  - destruct l; [|done]. simpl. rewrite list_elem_of_singleton. split.
    + by intros ->.
    + intros H. by apply Permutation_nil_r in H.
  - simpl. rewrite list_elem_of_In, in_flat_map. split.
    + intros ([x r] & Hs & Hp). simpl in Hp.
      apply in_map_iff in Hp as (q & <- & Hq).
      apply list_elem_of_In, selections_perm in Hs.
      apply list_elem_of_In in Hq. apply IH in Hq.
      * by rewrite Hq.
      * apply Permutation_length in Hs. simpl in Hs. lia.
    + intros Hp. destruct p as [|x q].
      { apply Permutation_length in Hp. simpl in Hp. lia. }
      assert (x ∈ l) as Hx by (rewrite <- Hp; left).
      destruct (selections_elem l x Hx) as [r Hr].
      exists (x, r). split; [by apply list_elem_of_In|]. simpl.
      apply in_map_iff. exists q. split; [done|].
      pose proof (selections_perm l x r Hr) as Hs.
      apply list_elem_of_In, IH.
      * apply Permutation_length in Hs. simpl in Hs. lia.
      * apply (Permutation_cons_inv (a := x)). by rewrite Hp, Hs.
Qed.

Lemma permutations_spec {A} (l p : list A) : p ∈ permutations l <-> p ≡ₚ l.
Proof. by apply permutations_n_spec. Qed.

(** ** Comparing fingerprints *)

Lemma fingerprint_eqb_eq a : forall b, fingerprint_eqb a b = true <-> a = b.
Proof.
  induction a as [|k c l IHl r IHr]; intros [|k' c' l' r']; simpl; try done.
  rewrite !andb_true_iff, bool_decide_eq_true, eqb_true_iff, IHl, IHr.
  split; [intros [[[-> ->] ->] ->]; done|]. intros H. by injection H as -> -> -> ->.
Qed.

(** ** The direct search *)

Lemma insert_all_run_steps perm : insert_all perm = run_steps (inserts perm).
Proof. induction perm as [|k perm IH]; simpl; [done|]. by rewrite IH. Qed.

Lemma direct_match_spec target perm :
  direct_match target perm = true <-> fingerprint_of (inserts perm) = Some target.
Proof.
  unfold direct_match, fingerprint_of, execute_steps.
  rewrite insert_all_run_steps.
  destruct (run_steps (inserts perm) RBTree_init) as [[[] t]|]; [|done].
  destruct (to_tuple t) as [fp|]; [|done].
  rewrite fingerprint_eqb_eq. split; [by intros ->|]. by intros [= ->].
Qed.

Lemma fingerprint_of_total steps : exists fp, fingerprint_of steps = Some fp.
Proof. destruct (fingerprint_of_spec steps) as (? & ? & _ & _ & H). eauto. Qed.

Section direct.
Context (s : search_setup).
Context (Hmode : mode s = ModeDirect) (Hprefix : use_prefix s = false).

Lemma worker_loop_direct perms : forall polls results,
  snd (worker_loop (fun _ => false) s perms (polls, results))
  = results ++ map (fun p => (DIRECT, inserts p))
                   (List.filter (direct_match (target_tuple s)) perms).
Proof.
  induction perms as [|p perms IH]; intros polls results; simpl.
  { by rewrite app_nil_r. }
  rewrite Hprefix. unfold helper_part, direct_part. rewrite Hmode.
  assert (E : forall w : worker_state,
             match helper_val s with Some _ | _ => w end = w).
  { intros w. by destruct (helper_val s). }
  rewrite E, IH.
  destruct (direct_match (target_tuple s) p); simpl; [|done].
  by rewrite <- app_assoc.
Qed.

Lemma worker_direct :
  worker (fun _ => false) s
  = map (fun p => (DIRECT, inserts p))
        (List.filter (direct_match (target_tuple s)) (permutations (elems s))).
Proof. unfold worker. rewrite Hprefix. by rewrite worker_loop_direct. Qed.

End direct.

(** ** The prefix filter *)

Lemma remove_dups_length_le (l : list Z) : length (remove_dups l) <= length l.
Proof.
  induction l as [|x l IH]; simpl; [done|].
  destruct (decide_rel elem_of x l); simpl; lia.
Qed.

Lemma remove_dups_length (l : list Z) :
  length l = length (remove_dups l) <-> NoDup l.
Proof.
  induction l as [|x l IH]; simpl.
  - split; [constructor|done].
  - rewrite NoDup_cons. pose proof (remove_dups_length_le l).
    destruct (decide_rel elem_of x l); simpl.
    + split; [lia|]. by intros [? _].
    + rewrite <- IH. split; [intros; split; [done|lia]|]. intros [_ ?]. lia.
Qed.

Lemma find_not_member (elems vals : list Z) :
  match List.find (fun pv => negb (bool_decide (pv ∈ elems))) vals with
  | Some pv => pv ∈ vals /\ pv ∉ elems
  | None => Forall (fun pv => pv ∈ elems) vals
  end.
Proof.
  destruct (List.find _ vals) as [pv|] eqn:E.
  - apply find_some in E as [H1 H2]. split; [by apply list_elem_of_In|].
    apply negb_true_iff, bool_decide_eq_false in H2. done.
  - apply Forall_forall. intros x Hx.
    apply list_elem_of_In in Hx.
    apply (find_none _ _ E) in Hx.
    by apply negb_false_iff, bool_decide_eq_true in Hx.
Qed.

(** The prefix filter with both fields filled in with numbers. *)
Lemma parse_prefix_spec (n : Z) (vals elems : list Z) :
  let kept := take (Z.to_nat n) vals in
  match parse_prefix (Parsed n) (Parsed vals) elems with
  | inl _ =>
      (n <= 0)%Z \/ (Z.of_nat (length vals) < n)%Z
      \/ (exists pv, pv ∈ kept /\ pv ∉ elems) \/ ~ NoDup kept
  | inr (n', vals') =>
      n' = n /\ vals' = kept /\ (0 < n)%Z /\ (n <= Z.of_nat (length vals))%Z
      /\ Forall (fun pv => pv ∈ elems) kept /\ NoDup kept
  end.
Proof.
  intros kept. unfold parse_prefix.
  destruct (n <=? 0)%Z eqn:E1; [left; lia|]. apply Z.leb_gt in E1.
  destruct (Z.of_nat (length vals) <? n)%Z eqn:E2; [right; left; lia|].
  apply Z.ltb_ge in E2. fold kept.
  pose proof (find_not_member elems kept) as Hf.
  destruct (List.find _ kept) as [pv|]; [right; right; left; by exists pv|].
  pose proof (remove_dups_length kept) as Hd.
  destruct (length kept =? length (remove_dups kept)) eqn:E3; simpl.
  - apply Nat.eqb_eq in E3. split_and!; auto. by apply Hd.
  - apply Nat.eqb_neq in E3. right. right. right. by rewrite <- Hd.
Qed.

(** ** The keys of the tables of [build_dp] *)

Lemma dp_key_eqb_eq a b : dp_key_eqb a b = true <-> a = b.
Proof.
  destruct a as [c h], b as [c' h']. unfold dp_key_eqb. simpl.
  rewrite andb_true_iff, eqb_true_iff, Z.eqb_eq. split.
  - by intros [-> ->].
  - by intros [= -> ->].
Qed.

Lemma dp_set_keys key v d k :
  k ∈ dp_keys (dp_set key v d) <-> k ∈ dp_keys d \/ k = key.
Proof.
  induction d as [|[k' v'] d IH]; simpl.
  - rewrite list_elem_of_singleton. split; [auto|]. intros [H|H]; [|done].
    by apply elem_of_nil in H.
  - destruct (dp_key_eqb key k') eqn:E; simpl.
    + apply dp_key_eqb_eq in E. subst k'. rewrite !elem_of_cons.
      fold (dp_keys d). tauto.
    + rewrite !elem_of_cons. fold (dp_keys d) (dp_keys (dp_set key v d)).
      rewrite IH. tauto.
Qed.

Lemma fold_left_keys {X} (f : dp_table -> X -> dp_table)
    (new : X -> dp_key -> Prop) :
  (forall acc x k, k ∈ dp_keys (f acc x) <-> k ∈ dp_keys acc \/ new x k) ->
  forall xs acc k,
    k ∈ dp_keys (fold_left f xs acc)
    <-> k ∈ dp_keys acc \/ exists x, x ∈ xs /\ new x k.
Proof.
  intros Hf. induction xs as [|x xs IH]; intros acc k; simpl.
  - split; [auto|]. intros [H|(x & H & _)]; [done|]. by apply elem_of_nil in H.
  - rewrite IH, Hf. split.
    + intros [[H|H]|(y & H1 & H2)]; eauto.
      * right. exists x. split; [left|done].
      * right. exists y. split; [by right|done].
    + intros [H|(y & H1 & H2)]; eauto.
      apply elem_of_cons in H1 as [->|H1]; eauto.
Qed.


Lemma build_dp_node_keys k0 c0 l r c h :
  (c, h) ∈ dp_keys (build_dp (TN k0 c0 l r)) <->
  exists lc rc ch,
    (lc, ch) ∈ dp_keys (build_dp l) /\ (rc, ch) ∈ dp_keys (build_dp r)
    /\ (c = RED -> lc = BLACK /\ rc = BLACK)
    /\ h = (ch + bh_add c)%Z.
Proof.
  cbn [build_dp].
  set (inner := fun (color : bool) (lbh : Z) (lcnt : nat)
                    (result : dp_table) (re : dp_key * nat) =>
     let '((rc, rbh), rcnt) := re in
     if eqb color RED && eqb rc RED then result
     else if negb (lbh =? rbh)%Z then result
     else dp_set (color, (lbh + (if eqb color BLACK then 1 else 0))%Z)
            (dp_get (color, (lbh + (if eqb color BLACK then 1 else 0))%Z) result
             + lcnt * rcnt) result).
  assert (Hin : forall color lbh lcnt acc re k,
    k ∈ dp_keys (inner color lbh lcnt acc re) <->
    k ∈ dp_keys acc \/
    (~ (color = RED /\ fst (fst re) = RED) /\ lbh = snd (fst re)
     /\ k = (color, (lbh + bh_add color)%Z))).
  { intros color lbh lcnt acc [[rc rbh] rcnt] k. unfold inner. simpl.
    destruct (eqb color RED && eqb rc RED) eqn:E1.
    { apply andb_true_iff in E1 as [->%eqb_true_iff ->%eqb_true_iff].
      split; [auto|]. intros [?|[H _]]; [done|]. by destruct H. }
    destruct (lbh =? rbh)%Z eqn:E2; simpl.
    - apply Z.eqb_eq in E2. subst rbh. rewrite dp_set_keys.
      apply andb_false_iff in E1. rewrite !eqb_false_iff in E1.
      unfold bh_add. split; [|tauto]. intros [?|?]; [by left|right].
      split_and!; auto. intros [? ?]. tauto.
    - apply Z.eqb_neq in E2. split; [auto|]. intros [?|(_ & ? & _)]; done. }
  set (middle := fun (color : bool) (result : dp_table) (le : dp_key * nat) =>
     let '((lc, lbh), lcnt) := le in
     if eqb color RED && eqb lc RED then result
     else fold_left (inner color lbh lcnt) (build_dp r) result).
  assert (Hmid : forall color acc le k,
    k ∈ dp_keys (middle color acc le) <->
    k ∈ dp_keys acc \/
    (~ (color = RED /\ fst (fst le) = RED) /\
     exists re, re ∈ build_dp r /\
       ~ (color = RED /\ fst (fst re) = RED) /\ snd (fst le) = snd (fst re)
       /\ k = (color, (snd (fst le) + bh_add color)%Z))).
  { intros color acc [[lc lbh] lcnt] k. unfold middle. simpl.
    destruct (eqb color RED && eqb lc RED) eqn:E1.
    { apply andb_true_iff in E1 as [->%eqb_true_iff ->%eqb_true_iff].
      split; [auto|]. intros [?|[H _]]; [done|]. by destruct H. }
    rewrite (fold_left_keys _ _ (Hin color lbh lcnt)).
    apply andb_false_iff in E1. rewrite !eqb_false_iff in E1.
    split; [|tauto]. intros [?|?]; [by left|right]. split; [|done].
    intros [? ?]. tauto. }
  change (fold_left _ [RED; BLACK] [])
    with (fold_left (fun result color =>
            fold_left (middle color) (build_dp l) result) [RED; BLACK] []).
  rewrite (fold_left_keys _
             (fun color k => exists le, le ∈ build_dp l /\
                ~ (color = RED /\ fst (fst le) = RED) /\
                exists re, re ∈ build_dp r /\
                  ~ (color = RED /\ fst (fst re) = RED)
                  /\ snd (fst le) = snd (fst re)
                  /\ k = (color, (snd (fst le) + bh_add color)%Z))).
  2:{ intros acc color k. apply (fold_left_keys _ _ (Hmid color)). }
  split.
  - intros [H|(color & _ & [[lc lbh] lcnt] & Hl & H1 & [[rc rbh] rcnt] & Hr & H2
               & H3 & H4)]; [by apply elem_of_nil in H|].
    simpl in *. injection H4 as -> ->. subst rbh.
    exists lc, rc, lbh. split_and!; auto.
    + apply list_elem_of_In, in_map_iff. exists (lc, lbh, lcnt).
      split; [done|by apply list_elem_of_In].
    + apply list_elem_of_In, in_map_iff. exists (rc, lbh, rcnt).
      split; [done|by apply list_elem_of_In].
    + intros ->. split.
      * destruct lc; [|done]. exfalso. by apply H1.
      * destruct rc; [|done]. exfalso. by apply H2.
  - intros (lc & rc & ch & Hl & Hr & Hc & ->). right. exists c. split.
    { destruct c; [left|right; left]. }
    apply list_elem_of_In, in_map_iff in Hl as ([[lc' lbh'] lcnt] & E & Hl).
    simpl in E. injection E as -> ->.
    apply list_elem_of_In, in_map_iff in Hr as ([[rc' rbh'] rcnt] & E & Hr).
    simpl in E. injection E as -> ->.
    exists (lc, ch, lcnt). split; [by apply list_elem_of_In|]. simpl. split.
    { intros [H1 H2]. destruct (Hc H1) as [H _]. rewrite H in H2. done. }
    exists (rc, ch, rcnt). split; [by apply list_elem_of_In|]. simpl.
    split_and!; auto.
    intros [H1 H2]. destruct (Hc H1) as [_ H]. rewrite H in H2. done.
Qed.

Lemma build_dp_keys t : forall c h,
  (c, h) ∈ dp_keys (build_dp t) <-> exists t', same_shape t t' /\ col_ok t' c h.
Proof.
  induction t as [|k0 c0 l IHl r IHr]; intros c h.
  - simpl. rewrite list_elem_of_singleton. split.
    + intros [= -> ->]. by exists TNull.
    + intros ([|] & Hs & Hc); [|done]. simpl in Hc. by destruct Hc as [-> ->].
  - rewrite build_dp_node_keys. split.
    + intros (lc & rc & ch & Hl & Hr & Hc & ->).
      apply IHl in Hl as (l' & Hsl & Hl). apply IHr in Hr as (r' & Hsr & Hr).
      exists (TN k0 c l' r'). split; [done|]. simpl. split; [done|].
      exists lc, rc, ch. done.
    + intros ([|k' c' l' r'] & Hs & Hc); [done|].
      destruct Hs as (-> & Hsl & Hsr).
      destruct Hc as (-> & lc & rc & ch & Hl & Hr & Hc & ->).
      exists lc, rc, ch. split_and!; auto.
      * apply IHl. by exists l'.
      * apply IHr. by exists r'.
Qed.

(** ** [validate_rb_tree] and the colourings *)

Lemma col_ok_color t c h : col_ok t c h -> c = tn_color t.
Proof. destruct t; simpl; [by intros [-> _]|by intros [-> _]]. Qed.

Lemma validate_bh t : forall pc c h,
  col_ok t c h -> snd (fst (validate_rb_tree t pc)) = h.
Proof.
  induction t as [|k c0 l IHl r IHr]; intros pc c h; simpl.
  - by intros [_ ->].
  - intros (-> & lc & rc & ch & Hl & Hr & Hc & ->).
    specialize (IHl (Some c) lc ch Hl). specialize (IHr (Some c) rc ch Hr).
    destruct (validate_rb_tree l (Some c)) as [[? lbh] lerr].
    destruct (validate_rb_tree r (Some c)) as [[? rbh] rerr].
    simpl in *. by subst.
Qed.

Lemma validate_errors t : forall pc,
  snd (validate_rb_tree t pc) = [] <->
  (exists h, col_ok t (tn_color t) h)
  /\ ~ (tn_color t = RED /\ pc = Some RED /\ t <> TNull).
Proof.
  induction t as [|k c l IHl r IHr]; intros pc; simpl.
  - split; [|done]. intros _. split; [by exists 1%Z|]. by intros (_ & _ & ?).
  - specialize (IHl (Some c)). specialize (IHr (Some c)).
    pose proof (fun lc h => validate_bh l (Some c) lc h) as Hbl.
    pose proof (fun rc h => validate_bh r (Some c) rc h) as Hbr.
    destruct (validate_rb_tree l (Some c)) as [[? lbh] lerr].
    destruct (validate_rb_tree r (Some c)) as [[? rbh] rerr].
    simpl in *.
    assert (Hred : (if eqb c RED && bool_decide (pc = Some RED)
                    then [RedViolation k] else []) = []
                   <-> ~ (c = RED /\ pc = Some RED)).
    { destruct (eqb c RED && bool_decide (pc = Some RED)) eqn:E.
      - apply andb_true_iff in E as [->%eqb_true_iff Hpc%bool_decide_eq_true].
        split; [done|]. intros Hx. exfalso. by apply Hx.
      - apply andb_false_iff in E. rewrite eqb_false_iff, bool_decide_eq_false in E.
        split; [|done]. intros _ [? ?]. tauto. }
    assert (Hall : (let errors := (if eqb c RED && bool_decide (pc = Some RED)
                                   then [RedViolation k] else [])
                                  ++ lerr ++ rerr in
                    if negb (lbh =? rbh)%Z
                    then errors ++ [BlackHeightViolation k lbh rbh] else errors)
                   = []
                   <-> ~ (c = RED /\ pc = Some RED) /\ lerr = [] /\ rerr = []
                       /\ lbh = rbh).
    { cbv zeta. rewrite <- Hred. destruct (lbh =? rbh)%Z eqn:E; simpl.
      - apply Z.eqb_eq in E. rewrite !app_nil. tauto.
      - apply Z.eqb_neq in E. split; [|tauto]. intros H.
        by apply app_nil in H as [_ ?]. }
    cbv zeta in Hall. rewrite Hall, IHl, IHr. clear Hall IHl IHr Hred. split.
    + intros (H0 & [[hl Hl] Hnl] & [[hr Hr] Hnr] & ->). split.
      * assert (hl = rbh) by (by rewrite <- (Hbl _ _ Hl)).
        assert (hr = rbh) by (by rewrite <- (Hbr _ _ Hr)). subst.
        exists (rbh + (if eqb c BLACK then 1 else 0))%Z. split; [done|].
        exists (tn_color l), (tn_color r), rbh. split_and!; auto.
        intros ->. split.
        -- destruct l as [|? [] ? ?]; simpl in *; auto. exfalso. by apply Hnl.
        -- destruct r as [|? [] ? ?]; simpl in *; auto. exfalso. by apply Hnr.
      * intros (? & ? & _). by apply H0.
    + intros [(h & _ & lc & rc & ch & Hl & Hr & Hc & ->) H0].
      pose proof (col_ok_color _ _ _ Hl) as El.
      pose proof (col_ok_color _ _ _ Hr) as Er. subst lc rc.
      split_and!.
      * intros [? ?]. apply H0. by split_and!.
      * by exists ch.
      * intros (H1 & [= ->] & _).
        destruct (Hc eq_refl) as [H _]. unfold RED, BLACK in *. congruence.
      * by exists ch.
      * intros (H1 & [= ->] & _).
        destruct (Hc eq_refl) as [_ H]. unfold RED, BLACK in *. congruence.
      * by rewrite (Hbl _ _ Hl), (Hbr _ _ Hr).
Qed.

Lemma validate_ok t pc :
  fst (fst (validate_rb_tree t pc)) = true <-> snd (validate_rb_tree t pc) = [].
Proof.
  destruct t as [|k c l r]; simpl; [done|].
  destruct (validate_rb_tree l (Some c)) as [[? lbh] lerr].
  destruct (validate_rb_tree r (Some c)) as [[? rbh] rerr]. simpl.
  rewrite Nat.eqb_eq. by destruct (if negb (lbh =? rbh)%Z then _ else _).
Qed.

Lemma valid_coloring_spec t :
  valid_coloring t = true <-> exists h, col_ok t BLACK h.
Proof.
  unfold valid_coloring.
  rewrite andb_true_iff, eqb_true_iff, validate_ok, validate_errors. split.
  - intros (E & [h H] & _). exists h. by rewrite <- E.
  - intros [h H]. pose proof (col_ok_color _ _ _ H) as E.
    split_and!; auto; [exists h; by rewrite <- E|].
    intros (H1 & _ & _). unfold RED, BLACK in *. congruence.
Qed.

Lemma same_shape_all_black t : same_shape t (all_black t).
Proof. induction t; simpl; auto. Qed.

Lemma valid_entries_nil root :
  valid_entries root = [] <-> forall h, (BLACK, h) ∉ dp_keys (build_dp root).
Proof.
  unfold valid_entries. split.
  - intros E h Hin. apply list_elem_of_In, in_map_iff in Hin as ([[c h'] v] & Ek & Hin).
    simpl in Ek. injection Ek as -> ->.
    assert (H : In (BLACK, h, v)
                  (List.filter (fun e => eqb (fst (fst e)) BLACK) (build_dp root))).
    { apply filter_In. split; done. }
    by rewrite E in H.
  - intros H. destruct (List.filter _ _) as [|[[c h] v] rest] eqn:E; [done|].
    assert (Hin : In (c, h, v) (List.filter (fun e => eqb (fst (fst e)) BLACK)
                                            (build_dp root))).
    { rewrite E. by left. }
    apply filter_In in Hin as [Hin Hc]. simpl in Hc.
    destruct c; [done|]. exfalso. apply (H h).
    apply list_elem_of_In, in_map_iff. by exists (BLACK, h, v).
Qed.

(** The fallback is taken for the shapes without a valid colouring. *)
Lemma fallback_spec root :
  valid_entries root = [] <->
  forall t', same_shape root t' -> valid_coloring t' = false.
Proof.
  rewrite valid_entries_nil. split.
  - intros H t' Hs. destruct (valid_coloring t') eqn:E; [|done].
    apply valid_coloring_spec in E as [h Hc]. exfalso. apply (H h).
    apply build_dp_keys. by exists t'.
  - intros H h Hin. apply build_dp_keys in Hin as (t' & Hs & Hc).
    specialize (H t' Hs).
    assert (valid_coloring t' = true) by (apply valid_coloring_spec; by exists h).
    congruence.
Qed.

(** * The claims about the tree engine *)


(** C1. Every sequence of inserts and deletes from the empty tree runs to the
    end and leaves a tree that satisfies invariants 1 to 5 and whose in-order
    keys increase weakly; but the order is not strict: [insert] of analyze.py
    has no check for a key that is present, and after insert 10, insert 10
    the in-order key sequence is 10, 10. *)
Theorem C1_invariants_but_duplicate_keys :
  (forall steps, exists st fp,
      execute_steps steps = Some st /\ to_tuple st = Some fp
      /\ red_black fp /\ increasing (inorder fp))
  /\ (exists st, execute_steps (inserts [10; 10]%Z) = Some st
                 /\ tree_keys st = [10; 10]%Z
                 /\ ~ strictly_increasing (tree_keys st)).
Proof.
  split; [apply execute_steps_invariants|].
  destruct (execute_steps (inserts [10; 10]%Z)) as [st|] eqn:E;
    [|by vm_compute in E].
  exists st. split; [done|].
  assert (Hk : tree_keys st = [10; 10]%Z).
  { vm_compute in E. injection E as <-. by vm_compute. }
  split; [done|]. rewrite Hk. intros H.
  apply StronglySorted_cons in H as [H _].
  apply Forall_cons in H as [H _]. lia.
Qed.

(** C2. On the tree that holds the key 10 alone, [insert 10] of build.py
    leaves the fingerprint as it is, and [insert 10] of analyze.py adds a
    second node with the key 10. *)
Theorem C2_duplicate_insert_mutates :
  fingerprint_of (inserts [10]%Z) = Some (FTuple (Some 10%Z) BLACK FNone FNone)
  /\ fingerprint_of_animated (inserts [10; 10]%Z)
     = Some (FTuple (Some 10%Z) BLACK FNone FNone)
  /\ fingerprint_of (inserts [10; 10]%Z)
     = Some (FTuple (Some 10%Z) BLACK FNone
               (FTuple (Some 10%Z) RED FNone FNone)).
Proof. split_and!; by vm_compute. Qed.

(** C9. The two engines differ on the sequence insert 10, insert 10. *)
Theorem C9_engines_differ_on_duplicate :
  fingerprint_of (inserts [10; 10]%Z)
  <> fingerprint_of_animated (inserts [10; 10]%Z).
Proof. vm_compute. discriminate. Qed.

(** C7, as the claim states it: the children of 20 would be BLACK. *)
Lemma C7_counterexample :
  fingerprint_of (inserts [10; 20; 30]%Z)
  <> Some (FTuple (Some 20%Z) BLACK (FTuple (Some 10%Z) BLACK FNone FNone)
             (FTuple (Some 30%Z) BLACK FNone FNone)).
Proof. vm_compute. discriminate. Qed.

(** C7, amended. Inserting 10, 20, 30 gives 20 BLACK with the RED children
    10 and 30; deleting 20 then gives 30 BLACK with the RED left child 10. *)
Theorem C7_scenario :
  fingerprint_of (inserts [10; 20; 30]%Z)
  = Some (FTuple (Some 20%Z) BLACK (FTuple (Some 10%Z) RED FNone FNone)
            (FTuple (Some 30%Z) RED FNone FNone))
  /\ fingerprint_of (inserts [10; 20; 30]%Z ++ [(DELETE, 20%Z, false)])
     = Some (FTuple (Some 30%Z) BLACK (FTuple (Some 10%Z) RED FNone FNone)
               FNone).
Proof. split; by vm_compute. Qed.

(** C4, as the claim states it: with the helper 4 inserted and deleted after
    the inserts 1, 2, 3 the nodes 1 and 3 are BLACK, without it they are
    RED. *)
Lemma C4_counterexample :
  fingerprint_of (inserts [1; 2; 3]%Z ++ helper_insert 4 :: inserts []
                    ++ helper_delete 4 :: inserts [])
  <> fingerprint_of (inserts ([1; 2; 3]%Z ++ [] ++ [])).
Proof. vm_compute. discriminate. Qed.

(** C4, amended. For inserts of distinct keys and a helper key that is not
    among them, at every pair of helper positions, the sequence with the
    helper actions and the sequence without them both run to the end, both
    leave red-black trees, and the two trees have the same in-order key
    sequence. *)
Theorem C4_helper_round_trip_keys (k1 k2 k3 : list Z) (h : Z) :
  NoDup (k1 ++ k2 ++ k3) -> h ∉ k1 ++ k2 ++ k3 ->
  exists fp fp',
    fingerprint_of (inserts k1 ++ helper_insert h :: inserts k2
                      ++ helper_delete h :: inserts k3) = Some fp
    /\ fingerprint_of (inserts (k1 ++ k2 ++ k3)) = Some fp'
    /\ red_black fp /\ red_black fp'
    /\ strictly_increasing (inorder fp)
    /\ inorder fp = inorder fp'.
Proof.
  intros Hd Hh.
  set (s := inserts k1 ++ helper_insert h :: inserts k2
              ++ helper_delete h :: inserts k3).
  set (s' := inserts (k1 ++ k2 ++ k3)).
  apply NoDup_app in Hd as (Hd1 & Hd12 & Hd23).
  apply NoDup_app in Hd23 as (Hd2 & Hd23 & Hd3).
  apply not_elem_of_app in Hh as [Hh1 Hh23].
  apply not_elem_of_app in Hh23 as [Hh2 Hh3].
  assert (Hf : fresh_inserts [] s).
  { unfold s. rewrite fresh_inserts_app, steps_keys_inserts. split.
    { apply fresh_inserts_inserts; [done|]. intros. apply not_elem_of_nil. }
    simpl. rewrite app_nil_r. split; [by rewrite elem_of_reverse|].
    rewrite fresh_inserts_app, steps_keys_inserts. split.
    { apply fresh_inserts_inserts; [done|]. intros x Hx.
      rewrite not_elem_of_cons, elem_of_reverse. split; [by intros ->|].
      intros Hx1. apply (Hd12 x Hx1). apply elem_of_app. by left. }
    simpl. apply fresh_inserts_inserts; [done|]. intros x Hx.
    rewrite list_elem_of_filter, elem_of_app, elem_of_cons, !elem_of_reverse.
    intros [_ [Hx2|[->|Hx1]]]; [by apply (Hd23 x)|done|].
    apply (Hd12 x Hx1). apply elem_of_app. by right. }
  assert (Hf' : fresh_inserts [] s').
  { apply fresh_inserts_inserts.
    - apply NoDup_app. split_and!; [done| |by apply NoDup_app].
      intros x Hx1 Hx. by apply (Hd12 x).
    - intros. apply not_elem_of_nil. }
  destruct (fingerprint_of_spec s) as (st & np & E & HI & Efp).
  destruct (fingerprint_of_spec s') as (st' & np' & E' & HI' & Efp').
  destruct (steps_tree_rb s 1 Leaf rb_Leaf) as [Hrb _]; [constructor|].
  destruct (steps_tree_rb s' 1 Leaf rb_Leaf) as [Hrb' _]; [constructor|].
  destruct (steps_tree_strict s 1 Leaf [] rb_Leaf) as [Hs Hm]; auto;
    [constructor|].
  destruct (steps_tree_strict s' 1 Leaf [] rb_Leaf) as [Hs' Hm']; auto;
    [constructor|].
  eexists _, _. split; [exact Efp|]. split; [exact Efp'|].
  split_and!; try (by apply red_black_erase).
  - by rewrite inorder_erase.
  - rewrite !inorder_erase. apply strictly_increasing_unique; auto.
    intros x. rewrite <- Hm, <- Hm'. unfold s, s'.
    rewrite steps_keys_app, !steps_keys_inserts. simpl.
    rewrite steps_keys_app, !steps_keys_inserts. simpl.
    rewrite !steps_keys_inserts, !app_nil_r.
    rewrite !elem_of_app, list_elem_of_filter, !elem_of_app, elem_of_cons.
    rewrite !elem_of_reverse, !elem_of_app.
    split.
    + intros [?|[? [?|[?|?]]]]; auto. done.
    + intros [?|[?|?]]; auto.
      * right. split; [by intros ->|auto].
      * right. split; [by intros ->|auto].
Qed.

Lemma C4_helper_round_trip_keys_witness :
  NoDup ([1; 2; 3]%Z ++ [] ++ []) /\ (4%Z ∉ [1; 2; 3]%Z ++ [] ++ []) /\
  exists fp fp',
    fingerprint_of (inserts [1; 2; 3]%Z ++ helper_insert 4 :: inserts []
                      ++ helper_delete 4 :: inserts []) = Some fp
    /\ fingerprint_of (inserts ([1; 2; 3]%Z ++ [] ++ [])) = Some fp'
    /\ red_black fp /\ red_black fp'
    /\ strictly_increasing (inorder fp)
    /\ inorder fp = inorder fp'.
Proof.
  assert (H1 : NoDup ([1; 2; 3]%Z ++ [] ++ [])) by compute_done.
  assert (H2 : 4%Z ∉ [1; 2; 3]%Z ++ [] ++ []) by compute_done.
  split; [exact H1|]. split; [exact H2|].
  exact (C4_helper_round_trip_keys [1; 2; 3]%Z [] [] 4%Z H1 H2).
Defined.

(** C10. On a tree reached from the empty tree by deletes and by inserts of
    keys that the tree does not hold, the in-order keys increase strictly;
    [insert k] for an absent [k] returns and adds [k] at its sorted position,
    [delete k] for a present [k] returns and removes exactly [k]; the other
    keys stay as they are. *)
Theorem C10_insert_delete_exact_key (steps : list step) :
  fresh_inserts [] steps ->
  exists st,
    execute_steps steps = Some st /\ strictly_increasing (tree_keys st)
    /\ forall k : Z,
         (k ∉ tree_keys st ->
          exists st' l1 l2,
            Analyze.insert k st = Some (tt, st')
            /\ tree_keys st = l1 ++ l2 /\ tree_keys st' = l1 ++ k :: l2
            /\ Forall (fun x => (x < k)%Z) l1 /\ Forall (fun x => (k < x)%Z) l2)
         /\ (k ∈ tree_keys st ->
             exists st' l1 l2,
               Analyze.delete k st = Some (tt, st')
               /\ tree_keys st = l1 ++ k :: l2 /\ tree_keys st' = l1 ++ l2).
Proof.
  intros Hf.
  destruct (execute_steps_strict steps Hf) as (st & T & np & E & HI & HT & Hs & _).
  pose proof (tree_keys_Inv st T np HI) as Hk.
  exists st. rewrite Hk. split_and!; auto. intros k. split; intros Hin.
  - destruct (insert_spec st T np k HI (proj1 HT)) as ([] & st' & Ei & HI' & _).
    destruct (ins_tree_keys (next st) k T) as (l1 & l2 & E1 & E2 & Hb).
    destruct (Hb (strictly_increasing_weaken _ Hs)) as [H1 H2].
    exists st', l1, l2. split_and!; auto.
    + by rewrite (tree_keys_Inv st' _ np HI').
    + rewrite Forall_forall in *. intros x Hx.
      assert (x <> k); [|specialize (H1 x Hx); lia].
      intros ->. apply Hin. rewrite E1. apply elem_of_app. by left.
  - destruct (delete_spec st T np k HI HT) as ([] & st' & Ed & [np' HI'] & _).
    destruct (del_tree_present k T HT (strictly_increasing_weaken _ Hs) Hin)
      as (l1 & l2 & E1 & E2).
    exists st', l1, l2. split_and!; auto.
    by rewrite (tree_keys_Inv st' _ np' HI').
Qed.

Lemma C10_insert_delete_exact_key_witness :
  fresh_inserts [] (inserts [5; 3; 8]%Z ++ [(DELETE, 3%Z, false)]) /\
  exists st,
    execute_steps (inserts [5; 3; 8]%Z ++ [(DELETE, 3%Z, false)]) = Some st
    /\ strictly_increasing (tree_keys st)
    /\ forall k : Z,
         (k ∉ tree_keys st ->
          exists st' l1 l2,
            Analyze.insert k st = Some (tt, st')
            /\ tree_keys st = l1 ++ l2 /\ tree_keys st' = l1 ++ k :: l2
            /\ Forall (fun x => (x < k)%Z) l1 /\ Forall (fun x => (k < x)%Z) l2)
         /\ (k ∈ tree_keys st ->
             exists st' l1 l2,
               Analyze.delete k st = Some (tt, st')
               /\ tree_keys st = l1 ++ k :: l2 /\ tree_keys st' = l1 ++ l2).
Proof.
  assert (H : fresh_inserts [] (inserts [5; 3; 8]%Z ++ [(DELETE, 3%Z, false)])).
  { simpl. split_and!; try done; compute_done. }
  split; [exact H|].
  exact (C10_insert_delete_exact_key _ H).
Defined.

(** * The claims about the search *)

(** C3, as the claim states it, fails when a prefix filter is on: with the
    distinct elements 1, 2, 3, the prefix 2 and the target that the inserts
    1, 2, 3 build, the Direct search that runs to the end examines only the
    two permutations that start with 2; the permutation 1, 2, 3 gives the
    target and is not among the results. *)
Lemma C3_counterexample :
  let s := mkSetup [1; 2; 3]%Z None ModeDirect PosAnywhere 1 [2]%Z
             (FTuple (Some 2%Z) BLACK (FTuple (Some 1%Z) RED FNone FNone)
                (FTuple (Some 3%Z) RED FNone FNone)) in
  mode s = ModeDirect /\ NoDup (elems s)
  /\ fingerprint_of (inserts [1; 2; 3]%Z) = Some (target_tuple s)
  /\ worker (fun _ => false) s
     = [(DIRECT, inserts [2; 1; 3]%Z); (DIRECT, inserts [2; 3; 1]%Z)]
  /\ (DIRECT, inserts [1; 2; 3]%Z) ∉ worker (fun _ => false) s.
Proof.
  intros s.
  assert (Hw : worker (fun _ => false) s
               = [(DIRECT, inserts [2; 1; 3]%Z); (DIRECT, inserts [2; 3; 1]%Z)])
    by (by vm_compute).
  split_and!; [done|compute_done|by vm_compute|exact Hw|].
  rewrite Hw. intros H.
  apply elem_of_cons in H as [H|H]; [by vm_compute in H|].
  apply elem_of_cons in H as [H|H]; [by vm_compute in H|].
  by apply elem_of_nil in H.
Qed.

(** C3, amended. In Direct mode, with no prefix filter and the stop flag
    never set, the worker examines the permutations of the elements, all of
    them; the inserts of each run to the end; the results are the
    permutations whose fingerprint equals the target's, each recorded as a
    Direct result; so the sequence that built the target is among them. *)
Theorem C3_direct_search_sound_complete (s : search_setup) :
  mode s = ModeDirect -> use_prefix s = false ->
  let results := worker (fun _ => false) s in
  (forall p, p ∈ permutations (elems s) <-> p ≡ₚ elems s)
  /\ (forall p, exists fp, fingerprint_of (inserts p) = Some fp)
  /\ results = map (fun p => (DIRECT, inserts p))
                 (List.filter (direct_match (target_tuple s))
                              (permutations (elems s)))
  /\ (forall r, r ∈ results <->
        exists p, r = (DIRECT, inserts p) /\ p ≡ₚ elems s
                  /\ fingerprint_of (inserts p) = Some (target_tuple s))
  /\ (forall S, S ≡ₚ elems s ->
        fingerprint_of (inserts S) = Some (target_tuple s) ->
        (DIRECT, inserts S) ∈ results).
Proof.
  intros Hm Hp results.
  assert (Hr : forall r, r ∈ results <->
        exists p, r = (DIRECT, inserts p) /\ p ≡ₚ elems s
                  /\ fingerprint_of (inserts p) = Some (target_tuple s)).
  { intros r. unfold results. rewrite (worker_direct s Hm Hp).
    rewrite list_elem_of_In, in_map_iff. split.
    - intros (p & <- & H). apply filter_In in H as [H1 H2]. exists p.
      split_and!; [done| |by apply direct_match_spec].
      by apply permutations_spec, list_elem_of_In.
    - intros (p & -> & H1 & H2). exists p. split; [done|].
      apply filter_In. split; [|by apply direct_match_spec].
      by apply list_elem_of_In, permutations_spec. }
  split_and!.
  - intros p. apply permutations_spec.
  - intros p. apply fingerprint_of_total.
  - apply (worker_direct s Hm Hp).
  - exact Hr.
  - intros S HS Hfp. apply Hr. by exists S.
Qed.

Lemma C3_direct_search_sound_complete_witness :
  let s := mkSetup [1; 2; 3]%Z None ModeDirect PosAnywhere 0 []
             (FTuple (Some 2%Z) BLACK (FTuple (Some 1%Z) RED FNone FNone)
                (FTuple (Some 3%Z) RED FNone FNone)) in
  mode s = ModeDirect /\ use_prefix s = false /\
  (DIRECT, inserts [2; 1; 3]%Z) ∈ worker (fun _ => false) s.
Proof.
  intros s. split; [reflexivity|]. split; [reflexivity|].
  destruct (C3_direct_search_sound_complete s eq_refl eq_refl)
    as (_ & _ & _ & _ & H).
  apply H; [|by vm_compute].
  apply perm_swap.
Defined.

(** C8, as the claim states it: with N = 1 and the two values 2, 1 the count
    does not match the number of values, and the search runs all the same,
    with the prefix 2. *)
Lemma C8_counterexample :
  _on_search (fun _ => false)
    (mkInputs false
       (TN 2 BLACK (TN 1 RED TNull TNull) (TN 3 RED TNull TNull))
       (Parsed [1; 2; 3]%Z) Blank ModeDirect PosAnywhere
       (Parsed 1%Z) (Parsed [2; 1]%Z))
  = inr [(DIRECT, inserts [2; 1; 3]%Z); (DIRECT, inserts [2; 3; 1]%Z)].
Proof. by vm_compute. Qed.

(** C8, amended. With both prefix fields filled in with numbers, the search
    refuses to start when N is not positive, when fewer than N values are
    given, when one of the first N values is not an element, or when the
    first N values contain a duplicate.  In every other case the prefix
    check passes with the first N values: the values after them are dropped,
    whatever they are, and a search that starts uses the first N values as
    its prefix. *)
Theorem C8_prefix_refusals (stop : nat -> bool) (i : search_inputs)
    (elems vals : list Z) (n : Z) :
  elem_var i = Parsed elems -> pfn_var i = Parsed n -> pfv_var i = Parsed vals ->
  let kept := take (Z.to_nat n) vals in
  let refused :=
    (n <= 0)%Z \/ (Z.of_nat (length vals) < n)%Z
    \/ (exists pv, pv ∈ kept /\ pv ∉ elems) \/ ~ NoDup kept in
  (refused -> exists e, _on_search stop i = inl e)
  /\ (~ refused -> parse_prefix (pfn_var i) (pfv_var i) elems = inr (n, kept))
  /\ (forall r, _on_search stop i = inr r ->
        ~ refused
        /\ exists helper,
             r = worker stop
                   (mkSetup elems helper (mode_var i) (helper_pos_var i)
                      (Z.to_nat n) kept (tnode_to_tuple (target_root i)))).
Proof.
  intros He Hn Hv kept refused.
  pose proof (parse_prefix_spec n vals elems) as Hs. fold kept in Hs.
  assert (Hr : refused ->
            exists e, parse_prefix (Parsed n) (Parsed vals) elems = inl e).
  { intros H. destruct (parse_prefix _ _ _) as [e|[n' vals']]; [by exists e|].
    destruct Hs as (_ & _ & H1 & H2 & H3 & H4). exfalso.
    destruct H as [H|[H|[(pv & Hp & Hq)|H]]]; try lia; try done.
    rewrite Forall_forall in H3. by apply Hq, H3. }
  assert (Hnr : ~ refused ->
            parse_prefix (Parsed n) (Parsed vals) elems = inr (n, kept)).
  { intros H. destruct (parse_prefix _ _ _) as [e|[n' vals']]; [done|].
    by destruct Hs as (-> & -> & _). }
  assert (Hstart : forall e,
            parse_prefix (Parsed n) (Parsed vals) elems = inl e -> refused).
  { intros e E. by rewrite E in Hs. }
  split_and!.
  - intros [e E]%Hr. unfold _on_search. rewrite He, Hn, Hv, E.
    repeat (case_match; eauto).
  - intros H. rewrite Hn, Hv. by apply Hnr.
  - intros r. unfold _on_search. rewrite He, Hn, Hv.
    destruct (parse_prefix _ _ _) as [e|[n' vals']] eqn:E.
    + repeat (case_match; try done).
    + assert (Hnot : ~ refused).
      { intros [e E']%Hr. congruence. }
      pose proof (Hnr Hnot) as E2.
      assert (E3 : @inr refusal _ (n', vals') = inr (n, kept)) by congruence.
      injection E3 as -> ->.
      repeat (case_match; try done); intros [= <-]; eauto.
Qed.

Lemma C8_prefix_refusals_witness :
  let i := mkInputs false
       (TN 2 BLACK (TN 1 RED TNull TNull) (TN 3 RED TNull TNull))
       (Parsed [1; 2; 3]%Z) Blank ModeDirect PosAnywhere
       (Parsed 2%Z) (Parsed [2; 7]%Z) in
  elem_var i = Parsed [1; 2; 3]%Z /\ pfn_var i = Parsed 2%Z
  /\ pfv_var i = Parsed [2; 7]%Z
  /\ exists e, _on_search (fun _ => false) i = inl e.
Proof.
  intros i. split; [reflexivity|]. split; [reflexivity|]. split; [reflexivity|].
  destruct (C8_prefix_refusals (fun _ => false) i [1; 2; 3]%Z [2; 7]%Z 2%Z
              eq_refl eq_refl eq_refl) as (H & _ & _).
  apply H. right. right. left. exists 7%Z. split; compute_done.
Defined.

(** * The claims about the sampler *)

(** C5. The perfect shape of three nodes has two valid colourings, all BLACK
    and BLACK with two RED children; the sampler returns the first with
    probability 3/4 and the second with probability 1/4: [assign] lets the
    root draw RED, and the root is forced to BLACK afterwards. *)
Theorem C5_sampler_not_uniform :
  List.filter valid_coloring (colorings perfect3)
  = [TN 2 BLACK (TN 1 RED TNull TNull) (TN 3 RED TNull TNull);
     all_black perfect3]
  /\ (prob (is_tree (all_black perfect3)) (random_valid_rb_coloring perfect3)
      == 3 # 4)%Q
  /\ (prob (is_tree (TN 2 BLACK (TN 1 RED TNull TNull) (TN 3 RED TNull TNull)))
           (random_valid_rb_coloring perfect3)
      == 1 # 4)%Q.
Proof. split_and!; by vm_compute. Qed.

(** C6, as the claim states it: the all-BLACK colouring of the chain of two
    nodes is not valid, and the chain of three nodes takes the fallback. *)
Lemma C6_counterexample :
  valid_coloring (all_black chain2) = false
  /\ valid_entries chain3 = []
  /\ random_valid_rb_coloring chain3 = dret (Some (all_black chain3))
  /\ valid_coloring (all_black chain3) = false.
Proof. split_and!; by vm_compute. Qed.

(** C6, amended. The fallback branch is taken for the shapes that have no
    valid colouring with a BLACK root, and for no other shape; there the
    sampler returns the all-BLACK colouring, which is not valid. *)
Theorem C6_fallback_iff_no_valid_coloring (k : Z) (c : bool) (l r : TNode) :
  let root := TN k c l r in
  (valid_entries root = [] <->
   forall t', same_shape root t' -> valid_coloring t' = false)
  /\ (valid_entries root = [] ->
      random_valid_rb_coloring root = dret (Some (all_black root))
      /\ valid_coloring (all_black root) = false).
Proof.
  intros root. split; [apply fallback_spec|]. intros E. split.
  - unfold random_valid_rb_coloring, root. fold root. by rewrite E.
  - apply (proj1 (fallback_spec root) E). apply same_shape_all_black.
Qed.

(** * More about the tree object of analyze.py *)

Lemma reachable_inv steps st :
  execute_steps steps = Some st ->
  exists T np, Inv st T np /\ rb T /\ increasing (keys T).
Proof.
  intros E. destruct (execute_steps_spec steps) as (st' & np & E' & HI).
  assert (st' = st) by congruence. subst st'.
  destruct (steps_tree_rb steps 1 Leaf rb_Leaf) as [H1 H2]; [constructor|].
  eauto.
Qed.

Lemma find_miss k T : k ∉ keys T -> snd (find k T []) = Leaf.
Proof.
  intros Hk. pose proof (find_key k T []) as Hf.
  pose proof (find_lkeys k T []) as He.
  destruct (find k T []) as [C t]. simpl in *.
  destruct t as [|z cz l kz r]; [done|]. subst kz. exfalso. apply Hk.
  rewrite app_nil_r in He. rewrite He. simpl.
  rewrite !elem_of_app, elem_of_cons. auto.
Qed.

Lemma search_spec st T np k :
  Inv st T np ->
  Analyze._search (root st) k st = Some (addr (snd (find k T [])), st).
Proof.
  intros HI. unfold Analyze._search.
  destruct (search_loop k np (next st) T [] st) as (x & st' & E & -> & ->).
  { pose proof (Inv_size _ _ _ HI). pose proof (height_le_size T). lia. }
  { exact HI. }
  unfold bind, budget. simpl. rewrite (inv_root _ _ _ HI). exact E.
Qed.

Lemma find_node_facts st T np k C z cz l kz r :
  Inv st T np -> find k T [] = (C, Node z cz l kz r) ->
  z <> NIL /\ kz = k /\ k ∈ keys T /\ get_key z st = Some (k, st).
Proof.
  intros HI E. pose proof (plug_find k T []) as Hp.
  pose proof (find_key k T []) as Hk. pose proof (find_lkeys k T []) as He.
  rewrite E in Hp, Hk, He. simpl in Hp, Hk, He. subst kz.
  rewrite <- Hp in HI. split_and!; auto.
  - by apply (Inv_nonnil _ _ _ _ _ _ _ _ HI).
  - rewrite app_nil_r in He. rewrite He, !elem_of_app, elem_of_cons. auto.
  - pose proof (Inv_focus_at st C _ [] np HI) as HF. cbn [ctx_of sub_of] in HF.
    unfold get_key, bind. by rewrite (load_node _ _ _ _ _ _ _ _ HF).
Qed.

Lemma node_at_Inv st T np p :
  Inv st T np -> node_at (heap st) (root st) p = Some (addr (sub_of T p)).
Proof.
  intros HI. rewrite (inv_root _ _ _ HI).
  assert (H : forall q t (C : ctx), Inv st (plug C t) np ->
            node_at (heap st) (addr t) q = Some (addr (sub_of t q))).
  { induction q as [|d q IH]; intros t C Ht; [done|].
    pose proof (proj1 (Inv_focus st C t np) Ht) as HF.
    destruct t as [|a c l k r]; cbn [node_at addr sub_of].
    - rewrite (invf_sentinel _ _ _ _ HF). simpl.
      assert (E : (if d then NIL else NIL) = NIL) by (by destruct d).
      rewrite E. specialize (IH Leaf C Ht). by destruct q.
    - destruct HF as [_ [Ha _] _ _ _ _ _]. rewrite Ha. simpl. destruct d.
      + apply (IH l (FL a c k r :: C)). exact Ht.
      + apply (IH r (FR a c l k :: C)). exact Ht. }
  apply (H p T []). exact HI.
Qed.

Lemma to_tnode_erase T : tnode_to_tuple (to_tnode T) = erase T.
Proof. induction T as [|a c l IHl k r IHr]; simpl; [done|]. by rewrite IHl, IHr. Qed.

Lemma to_tnode_inorder T : forall out, _inorder (to_tnode T) out = out ++ keys T.
Proof.
  induction T as [|a c l IHl k r IHr]; intros out; simpl.
  - by rewrite app_nil_r.
  - rewrite IHl, IHr. by rewrite <- !app_assoc.
Qed.

Lemma to_tnode_height T : _tree_h (to_tnode T) = height T.
Proof. induction T as [|a c l IHl k r IHr]; simpl; [done|]. by rewrite IHl, IHr. Qed.

Lemma rbt_to_tn_from_Rep h : forall T par fuel,
  Rep h par T -> NIL ∉ addrs T -> height T < fuel ->
  _rbt_to_tn_from fuel h (addr T) = Some (to_tnode T).
Proof.
  induction T as [|a c l IHl k r IHr]; intros par fuel HR Hn Hf.
  - destruct fuel; [lia|]. done.
  - destruct fuel; [lia|]. simpl in *. destruct HR as (Ha & Hl & Hr).
    apply not_elem_of_cons in Hn as [Hne Hn].
    apply not_elem_of_app in Hn as [? ?].
    assert (a <> NIL) as Hne' by congruence.
    apply Nat.eqb_neq in Hne'. rewrite Hne', Ha. simpl.
    rewrite (IHl (Some a) fuel), (IHr (Some a) fuel); auto; lia.
Qed.

Lemma rbt_to_tn_Inv st T np : Inv st T np -> _rbt_to_tn st = Some (to_tnode T).
Proof.
  intros H. unfold _rbt_to_tn. rewrite (inv_root _ _ _ H).
  apply (rbt_to_tn_from_Rep _ T None).
  - apply (inv_rep _ _ _ H).
  - apply (inv_nil _ _ _ H).
  - pose proof (Inv_size _ _ _ H). pose proof (height_le_size T). lia.
Qed.

(** ** The height of a red-black tree *)

Lemma height_bh t :
  balanced t -> height t <= 2 * (bh t - 1) + (if tcolor t then 1 else 0).
Proof.
  induction t as [|a c l IHl k r IHr]; simpl; [lia|].
  intros (Hbh & Hl & Hr & Hc). specialize (IHl Hl). specialize (IHr Hr).
  pose proof (bh_pos l). pose proof (bh_pos r).
  destruct c.
  - destruct (Hc eq_refl) as [El Er]. rewrite El in IHl. rewrite Er in IHr.
    unfold BLACK in *. lia.
  - destruct (tcolor l), (tcolor r); lia.
Qed.

Lemma size_bh t : balanced t -> 2 ^ (bh t - 1) <= size t + 1.
Proof.
  induction t as [|a c l IHl k r IHr]; simpl; [lia|].
  intros (Hbh & Hl & Hr & Hc). specialize (IHl Hl). specialize (IHr Hr).
  pose proof (bh_pos l). pose proof (bh_pos r). rewrite <- Hbh in IHr.
  destruct c.
  - rewrite Nat.add_0_r. lia.
  - replace (bh l + 1 - 1) with (S (bh l - 1)) by lia.
    rewrite Nat.pow_succ_r'. lia.
Qed.

Lemma size_keys t : length (keys t) = size t.
Proof.
  induction t as [|a c l IHl k r IHr]; simpl; [done|].
  rewrite length_app. simpl. lia.
Qed.

Lemma rb_height t : rb t -> 2 ^ (height t / 2) <= length (keys t) + 1.
Proof.
  intros [Hc Hb]. pose proof (height_bh t Hb) as H1.
  pose proof (size_bh t Hb) as H2. rewrite Hc in H1. rewrite size_keys.
  etransitivity; [|exact H2]. apply Nat.pow_le_mono_r; [lia|].
  apply Nat.Div0.div_le_upper_bound. unfold BLACK in H1. lia.
Qed.

(** * More about the search *)

(** ** The sequences of the helper search *)

Lemma helper_steps_fold pl h ip dp :
  helper_steps pl h ip dp
  = fst (fold_left (helper_step pl h ip dp) (seq 0 (length pl + 2)) ([], 0)).
Proof. reflexivity. Qed.

Lemma helper_plain pl h ip dp : forall m a steps pi,
  (forall si, a <= si < a + m -> si <> ip /\ si <> dp) ->
  pi + m <= length pl ->
  fold_left (helper_step pl h ip dp) (seq a m) (steps, pi)
  = (steps ++ inserts (take m (drop pi pl)), pi + m).
Proof.
  induction m as [|m IH]; intros a steps pi Hne Hpi; simpl.
  - by rewrite app_nil_r, Nat.add_0_r.
  - destruct (Hne a) as [H1 H2]; [lia|].
    apply Nat.eqb_neq in H1, H2. rewrite H1, H2.
    assert (Hlt : pi <? length pl = true) by (apply Nat.ltb_lt; lia).
    rewrite Hlt.
    destruct (pl !! pi) as [k|] eqn:Ek.
    2:{ apply lookup_ge_None in Ek. lia. }
    rewrite IH; [|intros; apply Hne; lia|lia].
    rewrite <- app_assoc. f_equal; [|lia]. f_equal.
    rewrite (drop_S pl k pi Ek). simpl.
    replace (pi + 1) with (S pi) by lia. done.
Qed.

Lemma seq_split a n i :
  i < n -> seq a n = seq a i ++ (a + i) :: seq (a + S i) (n - S i).
Proof.
  revert a n. induction i as [|i IH]; intros a n Hi.
  - destruct n; [lia|]. simpl. rewrite Nat.add_0_r, Nat.sub_0_r.
    by replace (a + 1) with (S a) by lia.
  - destruct n; [lia|]. simpl. f_equal. rewrite (IH (S a) n) by lia.
    f_equal. replace (S a + i) with (a + S i) by lia. f_equal.
    f_equal. lia.
Qed.

Lemma helper_steps_spec pl h ip dp :
  ip <= length pl -> ip < dp -> dp <= length pl + 1 ->
  helper_steps pl h ip dp
  = inserts (take ip pl) ++ helper_insert h
      :: inserts (take (dp - ip - 1) (drop ip pl)) ++ helper_delete h
      :: inserts (drop (dp - 1) pl).
Proof.
  intros H1 H2 H3. rewrite helper_steps_fold.
  assert (Es : seq 0 (length pl + 2)
               = seq 0 ip ++ [ip] ++ seq (S ip) (dp - ip - 1) ++ [dp]
                 ++ seq (S dp) (length pl + 1 - dp)).
  { rewrite (seq_split 0 (length pl + 2) ip) by lia. simpl. do 2 f_equal.
    rewrite (seq_split (S ip) (length pl + 2 - S ip) (dp - ip - 1)) by lia.
    f_equal. replace (S ip + (dp - ip - 1)) with dp by lia.
    f_equal. f_equal; lia. }
  rewrite Es, !fold_left_app.
  rewrite (helper_plain pl h ip dp ip 0 [] 0); [|lia|lia].
  cbn [fold_left app].
  assert (Ei : forall steps pi,
            helper_step pl h ip dp (steps, pi) ip
            = (steps ++ [helper_insert h], pi)).
  { intros. unfold helper_step. by rewrite Nat.eqb_refl. }
  assert (Ed : forall steps pi,
            helper_step pl h ip dp (steps, pi) dp
            = (steps ++ [helper_delete h], pi)).
  { intros. unfold helper_step.
    assert (E1 : dp =? ip = false) by (apply Nat.eqb_neq; lia).
    by rewrite E1, Nat.eqb_refl. }
  rewrite Ei.
  rewrite (helper_plain pl h ip dp); [|lia|lia].
  rewrite Ed.
  rewrite (helper_plain pl h ip dp); [|lia|lia].
  cbn [fst]. rewrite drop_0. simpl. rewrite <- !app_assoc. simpl.
  do 5 f_equal.
  replace (ip + (dp - ip - 1)) with (dp - 1) by lia.
  rewrite take_ge; [done|]. rewrite length_drop. lia.
Qed.

Lemma positions_spec m n ip dp :
  ((ip, dp) ∈ positions m n) ->
  ip <= n /\ ip < dp /\ dp <= n + 1.
Proof.
  destruct m; simpl.
  - rewrite list_elem_of_In, in_flat_map. intros (i & Hi & H).
    apply in_map_iff in H as (d & [= -> ->] & Hd).
    apply in_seq in Hi, Hd. lia.
  - rewrite list_elem_of_singleton. intros [= -> ->]. lia.
  - rewrite list_elem_of_singleton. intros [= -> ->]. lia.
Qed.

Lemma positions_anywhere n ip dp :
  (ip, dp) ∈ positions PosAnywhere n <-> ip <= n /\ ip < dp /\ dp <= n + 1.
Proof.
  split; [apply positions_spec|]. intros (H1 & H2 & H3). simpl.
  rewrite list_elem_of_In, in_flat_map. exists ip. split.
  - apply in_seq. lia.
  - apply in_map_iff. exists dp. split; [done|]. apply in_seq. lia.
Qed.

(** ** The worker, cancelled or not *)

Lemma steps_match_spec target steps :
  steps_match target steps = true <-> fingerprint_of steps = Some target.
Proof.
  unfold steps_match, fingerprint_of.
  destruct (execute_steps steps) as [t|]; [|done].
  destruct (to_tuple t) as [fp|]; [|done].
  rewrite fingerprint_eqb_eq. split; [by intros ->|]. by intros [= ->].
Qed.

Section worker_facts.
Context (stop : nat -> bool) (s : search_setup).

Lemma direct_part_results perm results :
  direct_part s perm results = results ++ direct_results s perm.
Proof.
  unfold direct_part, direct_results.
  destruct (mode s); destruct (direct_match (target_tuple s) perm);
    by rewrite ?app_nil_r.
Qed.

(** The loop over the position pairs adds a prefix of its results, all of
    them unless it saw the stop flag at its last poll. *)
Lemma helper_loop_results h pl ps : forall polls results,
  exists polls' e,
    helper_loop stop s h pl ps (polls, results) = (polls', results ++ e)
    /\ (e = helper_results s h pl ps /\ (forall i, polls <= i < polls' -> stop i = false)
        \/ (e `prefix_of` helper_results s h pl ps
            /\ 0 < polls' /\ stop (polls' - 1) = true)).
Proof.
  induction ps as [|[ip dp] ps IH]; intros polls results.
  - exists polls, []. rewrite app_nil_r. split; [done|]. left. split; [done|].
    intros; lia.
  - cbn [helper_loop helper_results flat_map fst snd].
    destruct (stop polls) eqn:Es.
    { exists (S polls), []. rewrite app_nil_r. split; [done|]. right.
      split_and!; [apply prefix_nil|lia|]. by rewrite Nat.sub_1_r. }
    assert (Hcont : forall x,
      exists polls' e,
        helper_loop stop s h pl ps (S polls, results ++ x)
        = (polls', results ++ x ++ e)
        /\ (x ++ e = x ++ helper_results s h pl ps
              /\ (forall i, polls <= i < polls' -> stop i = false)
            \/ (x ++ e `prefix_of` x ++ helper_results s h pl ps
                /\ 0 < polls' /\ stop (polls' - 1) = true))).
    { intros x. destruct (IH (S polls) (results ++ x)) as (polls' & e & E & H).
      exists polls', e. rewrite <- app_assoc in E. split; [done|].
      destruct H as [[-> Hc]|(Hp & ? & ?)].
      - left. split; [done|]. intros i Hi.
        destruct (decide (i = polls)) as [->|]; [done|]. apply Hc. lia.
      - right. split_and!; auto. by apply prefix_app. }
    destruct (use_prefix s && prefix_skip s (helper_steps pl h ip dp)).
    { destruct (Hcont []) as (polls' & e & E & H).
      rewrite app_nil_r in E. exists polls', e. done. }
    destruct (steps_match (target_tuple s) (helper_steps pl h ip dp)).
    + destruct (Hcont [(HELPER, helper_steps pl h ip dp)])
        as (polls' & e & E & H).
      exists polls', ([(HELPER, helper_steps pl h ip dp)] ++ e). done.
    + destruct (Hcont []) as (polls' & e & E & H).
      rewrite app_nil_r in E. exists polls', e. done.
Qed.

Lemma helper_part_spec perm polls results :
  exists polls' e,
    helper_part stop s perm (polls, results) = (polls', results ++ e)
    /\ (e = helper_part_results s perm
        \/ (e `prefix_of` helper_part_results s perm
            /\ 0 < polls' /\ stop (polls' - 1) = true)).
Proof.
  unfold helper_part, helper_part_results.
  assert (Hnone : exists polls' e,
            (polls, results) = (polls', results ++ e)
            /\ (e = [] \/ (e `prefix_of` []
                            /\ 0 < polls' /\ stop (polls' - 1) = true))).
  { exists polls, []. rewrite app_nil_r. auto. }
  destruct (helper_val s) as [h|]; [|done].
  destruct (mode s); try done.
  - destruct (helper_loop_results h perm
                (positions (helper_pos s) (length perm)) polls results)
      as (polls' & e & E & [[-> _]|H]); eauto.
  - destruct (helper_loop_results h perm
                (positions (helper_pos s) (length perm)) polls results)
      as (polls' & e & E & [[-> _]|H]); eauto.
Qed.

Lemma worker_loop_stopped perms polls results :
  stop polls = true ->
  snd (worker_loop stop s perms (polls, results)) = results.
Proof. intros E. destruct perms; simpl; [done|]. by rewrite E. Qed.

Lemma worker_loop_results (Hstop : stays_set stop) perms :
  forall polls results,
    exists e,
      snd (worker_loop stop s perms (polls, results)) = results ++ e
      /\ e `prefix_of` flat_map (perm_results s) perms
      /\ ((forall i, stop i = false) -> e = flat_map (perm_results s) perms).
Proof.
  induction perms as [|raw perms IH]; intros polls results.
  { exists []. rewrite app_nil_r. done. }
  cbn [worker_loop flat_map].
  destruct (stop polls) eqn:Es.
  { exists []. rewrite app_nil_r. split_and!; [done|apply prefix_nil|].
    intros H. by rewrite H in Es. }
  unfold perm_results at 1 3.
  set (perm := if use_prefix s then prefix_vals s ++ raw else raw).
  rewrite direct_part_results.
  destruct (helper_part_spec perm (S polls) (results ++ direct_results s perm))
    as (polls' & eh & E & H).
  rewrite E. destruct H as [->|(Hp & Hpos & Hlast)].
  - destruct (IH polls' ((results ++ direct_results s perm)
                           ++ helper_part_results s perm)) as (e & E' & Hp & Hf).
    exists ((direct_results s perm ++ helper_part_results s perm) ++ e).
    rewrite E', <- !app_assoc. split_and!; [done| |].
    + do 2 apply prefix_app. done.
    + intros Hn. by rewrite (Hf Hn).
  - assert (Ep : stop polls' = true).
    { apply (Hstop (polls' - 1)); [lia|done]. }
    rewrite worker_loop_stopped by done.
    exists (direct_results s perm ++ eh). rewrite <- app_assoc.
    split_and!; [done| |].
    + rewrite <- app_assoc. apply prefix_app.
      etransitivity; [exact Hp|]. apply prefix_app_r. done.
    + intros Hn. by rewrite Hn in Ep.
Qed.

End worker_facts.

(** ** Every result runs to the target *)

Lemma sound_app s l1 l2 : sound s (l1 ++ l2) <-> sound s l1 /\ sound s l2.
Proof.
  unfold sound. split.
  - intros H. split; intros r Hr; apply H, elem_of_app; auto.
  - intros [H1 H2] r [?|?]%elem_of_app; auto.
Qed.

Lemma sound_direct_results s perm : sound s (direct_results s perm).
Proof.
  unfold direct_results. intros r.
  destruct (mode s); destruct (direct_match (target_tuple s) perm) eqn:E;
    intros Hr; try (by apply elem_of_nil in Hr);
    apply list_elem_of_singleton in Hr; subst r; by apply direct_match_spec.
Qed.

Lemma sound_helper_results s h pl ps : sound s (helper_results s h pl ps).
Proof.
  induction ps as [|[ip dp] ps IH]; simpl.
  - intros r Hr. by apply elem_of_nil in Hr.
  - apply sound_app. split; [|done]. intros r.
    destruct (use_prefix s && prefix_skip s (helper_steps pl h ip dp));
      [intros Hr; by apply elem_of_nil in Hr|].
    destruct (steps_match (target_tuple s) (helper_steps pl h ip dp)) eqn:E;
      [|intros Hr; by apply elem_of_nil in Hr].
    intros Hr. apply list_elem_of_singleton in Hr. subst r.
    by apply steps_match_spec.
Qed.

Lemma sound_prefix s l1 l2 : l1 `prefix_of` l2 -> sound s l2 -> sound s l1.
Proof. intros [k ->] H. by apply sound_app in H as [? _]. Qed.

Lemma sound_worker_loop stop s perms : forall polls results,
  sound s results -> sound s (snd (worker_loop stop s perms (polls, results))).
Proof.
  induction perms as [|raw perms IH]; intros polls results Hs; [done|].
  cbn [worker_loop]. destruct (stop polls); [done|].
  set (perm := if use_prefix s then prefix_vals s ++ raw else raw).
  rewrite direct_part_results.
  destruct (helper_part_spec stop s perm (S polls)
              (results ++ direct_results s perm)) as (polls' & e & E & H).
  rewrite E. apply IH. rewrite !sound_app. split_and!; auto.
  - apply sound_direct_results.
  - assert (Hh : sound s (helper_part_results s perm)).
    { unfold helper_part_results. destruct (helper_val s); [|by intros ? ?%elem_of_nil].
      destruct (mode s); try (by intros ? ?%elem_of_nil);
        apply sound_helper_results. }
    destruct H as [->|[Hp _]]; [done|]. by apply (sound_prefix s _ _ Hp).
Qed.

(** ** The direct search under a prefix filter *)

Lemma elems_split (elems pre : list Z) :
  NoDup elems -> NoDup pre -> (forall x, x ∈ pre -> x ∈ elems) ->
  elems ≡ₚ pre ++ filter (fun e => negb (bool_decide (e ∈ pre))) elems.
Proof.
  intros He Hp Hsub. apply list.NoDup_Permutation; [done| |].
  - apply NoDup_app. split_and!; [done| |by apply NoDup_filter].
    intros x Hx [Hn _]%list_elem_of_filter.
    apply negb_True in Hn. by apply Hn, bool_decide_pack.
  - intros x. rewrite elem_of_app, list_elem_of_filter. split.
    + intros Hx. destruct (decide (x ∈ pre)); [by left|right].
      split; [|done]. apply negb_True. by rewrite bool_decide_spec.
    + intros [?|[_ ?]]; auto.
Qed.

(** * The validation of a target tree *)

Lemma inorder_app t : forall out, _inorder t out = out ++ _inorder t [].
Proof.
  induction t as [|k c l IHl r IHr]; intros out; simpl.
  - by rewrite app_nil_r.
  - rewrite (IHr (_inorder l out ++ [k])), (IHl out).
    rewrite (IHr (_inorder l [] ++ [k])). by rewrite <- !app_assoc.
Qed.

Lemma inorder_node k c l r :
  _inorder (TN k c l r) [] = _inorder l [] ++ k :: _inorder r [].
Proof. simpl. rewrite inorder_app. by rewrite <- app_assoc. Qed.

Lemma validate_bst_ok t lo hi :
  fst (validate_bst t lo hi) = true <-> snd (validate_bst t lo hi) = [].
Proof.
  destruct t as [|k c l r]; simpl; [done|].
  destruct (validate_bst l lo (Some k)) as [? lerr].
  destruct (validate_bst r (Some k) hi) as [? rerr]. simpl.
  rewrite Nat.eqb_eq. by destruct (_ ++ _).
Qed.

Lemma validate_bst_errors t : forall lo hi,
  snd (validate_bst t lo hi) = [] <->
  strictly_increasing (_inorder t []) /\ Forall (in_bounds lo hi) (_inorder t []).
Proof.
  induction t as [|k c l IHl r IHr]; intros lo hi.
  - simpl. split; [|done]. intros _. split; constructor.
  - rewrite inorder_node. cbn [validate_bst].
    specialize (IHl lo (Some k)). specialize (IHr (Some k) hi).
    destruct (validate_bst l lo (Some k)) as [? lerr].
    destruct (validate_bst r (Some k) hi) as [? rerr]. cbn [snd] in *.
    assert (E1 : match lo with
                 | Some m => if (k <=? m)%Z then [BstLow k m] else []
                 | None => []
                 end = [] <-> match lo with Some m => (m < k)%Z | None => True end).
    { destruct lo as [m|]; [|done]. destruct (k <=? m)%Z eqn:E.
      - apply Z.leb_le in E. split; [done|lia].
      - apply Z.leb_gt in E. done. }
    assert (E2 : match hi with
                 | Some m => if (k >=? m)%Z then [BstHigh k m] else []
                 | None => []
                 end = [] <-> match hi with Some m => (k < m)%Z | None => True end).
    { destruct hi as [m|]; [|done]. destruct (k >=? m)%Z eqn:E.
      - apply Z.geb_le in E. split; [done|lia].
      - rewrite Z.geb_leb in E. apply Z.leb_gt in E. done. }
    rewrite !app_nil, E1, E2, IHl, IHr. clear E1 E2 IHl IHr.
    unfold strictly_increasing.
    rewrite StronglySorted_app, StronglySorted_cons, Forall_app, Forall_cons.
    rewrite !Forall_forall. unfold in_bounds. split.
    + intros ((Hlo & Hhi) & (Hsl & Hbl) & (Hsr & Hbr)). split_and!; auto.
      * intros x y Hx [->|Hy]%elem_of_cons; [by apply Hbl|].
        apply Hbl in Hx as [_ Hx]. apply Hbr in Hy as [Hy _]. lia.
      * intros x Hx. by apply Hbr.
      * intros x Hx. destruct (Hbl x Hx) as [H1 H2]. split; [done|].
        destruct hi; [lia|done].
      * intros x Hx. destruct (Hbr x Hx) as [H1 H2]. split; [|done].
        destruct lo; [lia|done].
    + intros ((Hlt & Hsl & Hkr & Hsr) & Hbl & Hbk & Hbr). split_and!; auto; try tauto.
      * intros x Hx. split; [by apply Hbl|]. apply (Hlt x k Hx). left.
      * intros x Hx. split; [by apply Hkr|]. by apply Hbr.
Qed.

Lemma validate_target_spec t :
  fst (_validate_target_tree t) = true <->
  t <> TNull /\ valid_coloring t = true /\ strictly_increasing (_inorder t []).
Proof.
  destruct t as [|k c l r]; [simpl; split; [done|by intros [? _]]|].
  unfold _validate_target_tree.
  pose proof (validate_bst_errors (TN k c l r) None None) as Hb.
  pose proof (validate_errors (TN k c l r) None) as Hr.
  pose proof (validate_ok (TN k c l r) None) as Hok.
  destruct (validate_bst (TN k c l r) None None) as [? bst_errors].
  unfold valid_coloring.
  destruct (validate_rb_tree (TN k c l r) None) as [[okrb ?] rb_errors].
  cbn [fst snd tn_color] in *.
  set (ks := _inorder (TN k c l r) []) in *.
  pose proof (remove_dups_length ks) as Hd.
  assert (E : forall errors : list rb_error,
            (length errors =? 0) = true <-> errors = []).
  { intros errors. rewrite Nat.eqb_eq. by destruct errors. }
  rewrite E. clear E.
  assert (Hdup : (length ks =? length (remove_dups ks)) = true <-> NoDup ks).
  { by rewrite Nat.eqb_eq. }
  rewrite andb_true_iff, eqb_true_iff, Hok. split.
  - intros H. destruct (length ks =? length (remove_dups ks)) eqn:El; simpl in H.
    + apply app_eq_nil in H as [H H3]. apply app_eq_nil in H as [H1 H2].
      split; [done|]. split_and!.
      * by destruct c.
      * done.
      * by apply Hb.
    + by apply app_eq_nil in H as [_ ?].
  - intros (_ & [Hc Hrb] & Hs). subst c rb_errors.
    assert (Hbst : bst_errors = []).
    { apply Hb. split; [done|]. apply Forall_forall. by intros. }
    rewrite Hbst. apply strictly_increasing_NoDup, Hdup in Hs. by rewrite Hs.
Qed.

(** The trees of the engine are valid targets. *)

Lemma col_ok_to_tnode T :
  balanced T -> col_ok (to_tnode T) (tcolor T) (Z.of_nat (bh T)).
Proof.
  induction T as [|a c l IHl k r IHr]; simpl; [done|].
  intros (Hbh & Hl & Hr & Hc). split; [done|].
  exists (tcolor l), (tcolor r), (Z.of_nat (bh l)). split_and!; auto.
  - rewrite Hbh. auto.
  - destruct c; simpl; lia.
Qed.

Lemma valid_coloring_to_tnode T : rb T -> valid_coloring (to_tnode T) = true.
Proof.
  intros [Hc Hb]. apply valid_coloring_spec. exists (Z.of_nat (bh T)).
  rewrite <- Hc. by apply col_ok_to_tnode.
Qed.

(** * The generator of full trees *)

Lemma pow2_pos h : 1 <= 2 ^ h.
Proof. induction h; simpl; lia. Qed.

Lemma pow2_succ h : 2 ^ S h - 1 = 2 * (2 ^ h - 1) + 1.
Proof. pose proof (pow2_pos h). simpl. lia. Qed.

Lemma pow2_gt h : h < 2 ^ h.
Proof. induction h; simpl; lia. Qed.

Lemma build_full_perfect keys h : forall fuel lo,
  h < fuel -> lo + (2 ^ h - 1) <= length keys ->
  _build_full_fuel fuel keys (Z.of_nat lo)
    (Z.of_nat lo + Z.of_nat (2 ^ h - 1) - 1)
  = Some (perfect keys lo h).
Proof.
  induction h as [|h IH]; intros fuel lo Hf Hlen.
  - destruct fuel; [lia|]. cbn [_build_full_fuel perfect].
    match goal with
    | |- context [(?a >? ?b)%Z] =>
        destruct (Z.gtb_spec a b) as [|Hle]; [done|simpl in Hle; lia]
    end.
  - destruct fuel; [lia|]. rewrite pow2_succ in *.
    set (m := 2 ^ h - 1) in *. cbn [_build_full_fuel perfect]. fold m.
    destruct (Z.gtb_spec (Z.of_nat lo)
                (Z.of_nat lo + Z.of_nat (2 * m + 1) - 1)) as [Hgt|_]; [lia|].
    assert (Emid : ((Z.of_nat lo + (Z.of_nat lo + Z.of_nat (2 * m + 1) - 1)) / 2)%Z
                   = Z.of_nat (lo + m)).
    { replace (Z.of_nat lo + (Z.of_nat lo + Z.of_nat (2 * m + 1) - 1))%Z
        with (Z.of_nat (lo + m) * 2)%Z by lia.
      apply Z.div_mul. lia. }
    rewrite Emid. unfold py_index.
    assert (E0 : (0 <=? Z.of_nat (lo + m))%Z = true) by (apply Z.leb_le; lia).
    rewrite E0, Nat2Z.id.
    assert (El : keys !! (lo + m) = Some (nth (lo + m) keys 0%Z)).
    { destruct (lookup_lt_is_Some_2 keys (lo + m)) as [x Hx]; [lia|].
      by rewrite nth_lookup, Hx. }
    rewrite El.
    replace (Z.of_nat (lo + m) - 1)%Z
      with (Z.of_nat lo + Z.of_nat m - 1)%Z by lia.
    rewrite (IH fuel lo); [|lia|lia].
    replace (Z.of_nat (lo + m) + 1)%Z with (Z.of_nat (S (lo + m))) by lia.
    replace (Z.of_nat lo + Z.of_nat (2 * m + 1) - 1)%Z
      with (Z.of_nat (S (lo + m)) + Z.of_nat m - 1)%Z by lia.
    rewrite (IH fuel (S (lo + m))); [|lia|lia].
    done.
Qed.

Lemma perfect_inorder keys h : forall lo,
  lo + (2 ^ h - 1) <= length keys ->
  _inorder (perfect keys lo h) [] = take (2 ^ h - 1) (drop lo keys).
Proof.
  induction h as [|h IH]; intros lo Hlen; [done|].
  rewrite pow2_succ in *. set (m := 2 ^ h - 1) in *.
  cbn [perfect]. fold m. rewrite inorder_node.
  rewrite (IH lo), (IH (S (lo + m))); fold m; [|lia|lia].
  replace (2 * m + 1) with (m + S m) by lia.
  rewrite <- take_take_drop. f_equal. rewrite drop_drop.
  assert (E : drop (lo + m) keys = nth (lo + m) keys 0%Z :: drop (S (lo + m)) keys).
  { apply drop_S.
    destruct (lookup_lt_is_Some_2 keys (lo + m)) as [x Hx]; [lia|].
    by rewrite nth_lookup, Hx. }
  rewrite E. done.
Qed.

Lemma auto_color_inorder t : forall d out,
  _inorder (_auto_color t d) out = _inorder t out.
Proof.
  induction t as [|k c l IHl r IHr]; intros d out; simpl; [done|].
  by rewrite IHl, IHr.
Qed.

Lemma auto_color_height t : forall d, _tree_h (_auto_color t d) = _tree_h t.
Proof.
  induction t as [|k c l IHl r IHr]; intros d; simpl; [done|].
  by rewrite IHl, IHr.
Qed.

Lemma perfect_height keys h : forall lo, _tree_h (perfect keys lo h) = h.
Proof.
  induction h as [|h IH]; intros lo; simpl; [done|]. rewrite !IH. lia.
Qed.

(** Below the root, a coloured perfect tree of height 1 is a RED leaf and a
    higher one has a BLACK root; its black height is its height. *)
Lemma auto_color_perfect keys h : forall lo d,
  0 < d ->
  col_ok (_auto_color (perfect keys lo (S h)) d)
         (match h with O => RED | _ => BLACK end) (Z.of_nat (S h)).
Proof.
  induction h as [|h IH]; intros lo d Hd.
  - simpl. apply Nat.ltb_lt in Hd. rewrite Hd. split; [done|].
    exists BLACK, BLACK, 1%Z. done.
  - set (m := 2 ^ S h - 1).
    change (perfect keys lo (S (S h)))
      with (TN (nth (lo + m) keys 0%Z) BLACK (perfect keys lo (S h))
               (perfect keys (S (lo + m)) (S h))).
    cbn [_auto_color].
    assert (Ec : match perfect keys lo (S h), perfect keys (S (lo + m)) (S h) with
                 | TNull, TNull => if 0 <? d then RED else BLACK
                 | _, _ => BLACK
                 end = BLACK) by done.
    rewrite Ec. split; [done|].
    exists (match h with O => RED | _ => BLACK end),
           (match h with O => RED | _ => BLACK end), (Z.of_nat (S h)).
    split_and!; [apply IH; lia|apply IH; lia|done|simpl; lia].
Qed.

Lemma auto_color_perfect_root keys h lo :
  exists b, col_ok (_auto_color (perfect keys lo (S h)) 0) BLACK b.
Proof.
  destruct h as [|h].
  - exists 2%Z. simpl. split; [done|]. exists BLACK, BLACK, 1%Z. done.
  - set (m := 2 ^ S h - 1).
    change (perfect keys lo (S (S h)))
      with (TN (nth (lo + m) keys 0%Z) BLACK (perfect keys lo (S h))
               (perfect keys (S (lo + m)) (S h))).
    cbn [_auto_color].
    assert (Ec : match perfect keys lo (S h), perfect keys (S (lo + m)) (S h) with
                 | TNull, TNull => if 0 <? 0 then RED else BLACK
                 | _, _ => BLACK
                 end = BLACK) by done.
    rewrite Ec. exists (Z.of_nat (S h) + 1)%Z. split; [done|].
    exists (match h with O => RED | _ => BLACK end),
           (match h with O => RED | _ => BLACK end), (Z.of_nat (S h)).
    split_and!; [apply auto_color_perfect; lia|apply auto_color_perfect; lia
                |done|done].
Qed.

Lemma seq_increasing a n : strictly_increasing (map Z.of_nat (seq a n)).
Proof.
  revert a. induction n as [|n IH]; intros a; simpl; constructor; [apply IH|].
  apply Forall_forall. intros x Hx.
  apply list_elem_of_In, in_map_iff in Hx as (y & <- & Hy).
  apply in_seq in Hy. lia.
Qed.

Lemma gen_full_tree_spec h :
  _gen_full_tree h
  = Some (_auto_color (perfect (map Z.of_nat (seq 1 (2 ^ h - 1))) 0 h) 0).
Proof.
  unfold _gen_full_tree, _build_full.
  set (keys := map Z.of_nat (seq 1 (2 ^ h - 1))).
  assert (Hl : length keys = 2 ^ h - 1).
  { unfold keys. by rewrite length_map, length_seq. }
  rewrite Hl.
  pose proof (build_full_perfect keys h
                (S (Z.to_nat (Z.of_nat (2 ^ h - 1) - 1 - 0 + 1))) 0) as H.
  change (Z.of_nat 0) with 0%Z in H. rewrite Z.add_0_l in H.
  rewrite H; [done| |lia].
  pose proof (pow2_gt h). lia.
Qed.

(** * The colourings that the sampler returns *)

Lemma outcomes_dret {A} (a x : A) : x ∈ outcomes (dret a) <-> x = a.
Proof. unfold outcomes, dret. simpl. apply list_elem_of_singleton. Qed.

Lemma outcomes_dbind {A B} (d : dist A) (f : A -> dist B) x :
  x ∈ outcomes (dbind d f) <-> exists a, a ∈ outcomes d /\ x ∈ outcomes (f a).
Proof.
  unfold outcomes, dbind. rewrite list_elem_of_In, in_map_iff. split.
  - intros ([b q] & Hx & H). simpl in Hx. subst b.
    apply in_flat_map in H as ([a p] & Ha & H).
    apply in_map_iff in H as ([b' q'] & Hb & Hb'). simpl in Hb.
    injection Hb as -> _.
    exists a. split; apply list_elem_of_In, in_map_iff.
    + by exists (a, p).
    + by exists (x, q').
  - intros (a & Ha & Hx).
    apply list_elem_of_In, in_map_iff in Ha as ([a' p] & <- & Ha).
    apply list_elem_of_In, in_map_iff in Hx as ([b q] & <- & Hb). simpl in *.
    exists (b, (p * q)%Q). split; [done|]. apply in_flat_map.
    exists (a', p). split; [done|]. apply in_map_iff. by exists (b, q).
Qed.

Lemma outcomes_randint1 n r : r ∈ outcomes (randint1 n) <-> 1 <= r <= n.
Proof.
  unfold outcomes, randint1. rewrite map_map. simpl. rewrite map_id.
  rewrite list_elem_of_In, in_seq. lia.
Qed.

Lemma pick_some {A} (w : A -> nat) items : forall r cum,
  cum < r -> r <= cum + sum_by w items ->
  exists x, pick w r cum items = Some x /\ x ∈ items.
Proof.
  induction items as [|x items IH]; intros r cum H1 H2; simpl in *; [lia|].
  destruct (r <=? cum + w x) eqn:E.
  - exists x. split; [done|left].
  - apply Nat.leb_gt in E. destruct (IH r (cum + w x)) as (y & Hy & Hin);
      [lia|lia|]. exists y. split; [done|by right].
Qed.

Lemma col_ok_bh_pos t : forall c h, col_ok t c h -> (1 <= h)%Z.
Proof.
  induction t as [|k c0 l IHl r _]; intros c h; simpl.
  - intros [_ ->]. lia.
  - intros (_ & lc & rc & ch & Hl & _ & _ & ->). apply IHl in Hl.
    destruct (eqb c BLACK); lia.
Qed.

Lemma dp_keys_elem (d : dp_table) c h :
  (c, h) ∈ dp_keys d <-> exists v, (c, h, v) ∈ d.
Proof.
  unfold dp_keys. rewrite list_elem_of_In, in_map_iff. split.
  - intros ([[c' h'] v] & [= -> ->] & H). exists v. by apply list_elem_of_In.
  - intros [v H]. exists (c, h, v). split; [done|]. by apply list_elem_of_In.
Qed.

(** The pairs of a candidate come from entries of the two tables. *)
Lemma pairs_of_spec color child_bh l_dp r_dp lc rc :
  (exists v, (lc, rc, v) ∈ pairs_of color child_bh l_dp r_dp) <->
  (lc, child_bh) ∈ dp_keys l_dp /\ (rc, child_bh) ∈ dp_keys r_dp
  /\ (color = RED -> lc = BLACK /\ rc = BLACK).
Proof.
  unfold pairs_of. rewrite !dp_keys_elem. split.
  - intros [v H]. apply list_elem_of_In, in_flat_map in H
      as ([[lc' lbh] lcnt] & Hl & H).
    destruct (eqb color RED && eqb lc' RED) eqn:E1; [done|].
    destruct (lbh =? child_bh)%Z eqn:E2; [|done]. simpl in H.
    apply Z.eqb_eq in E2. subst lbh.
    apply in_flat_map in H as ([[rc' rbh] rcnt] & Hr & H).
    destruct (eqb color RED && eqb rc' RED) eqn:E3; [done|].
    destruct (rbh =? child_bh)%Z eqn:E4; [|done]. simpl in H.
    apply Z.eqb_eq in E4. subst rbh. destruct H as [[= -> -> <-]|[]].
    split_and!.
    + exists lcnt. by apply list_elem_of_In.
    + exists rcnt. by apply list_elem_of_In.
    + intros ->. by destruct lc, rc.
  - intros ([lcnt Hl] & [rcnt Hr] & Hc). exists (lcnt * rcnt).
    apply list_elem_of_In, in_flat_map. exists (lc, child_bh, lcnt).
    split; [by apply list_elem_of_In|].
    assert (E1 : eqb color RED && eqb lc RED = false).
    { destruct color; [|done]. by destruct (Hc eq_refl) as [-> _]. }
    assert (E3 : eqb color RED && eqb rc RED = false).
    { destruct color; [|done]. by destruct (Hc eq_refl) as [_ ->]. }
    rewrite E1, Z.eqb_refl. simpl. apply in_flat_map.
    exists (rc, child_bh, rcnt). split; [by apply list_elem_of_In|].
    rewrite E3, Z.eqb_refl. simpl. by left.
Qed.

Lemma candidates_of_spec pc h l_dp r_dp color child_bh cnt pairs :
  (color, child_bh, cnt, pairs) ∈ candidates_of pc h l_dp r_dp <->
  (pc = Some RED -> color = BLACK)
  /\ child_bh = (h - bh_add color)%Z /\ (1 <= child_bh)%Z
  /\ pairs = pairs_of color child_bh l_dp r_dp /\ pairs <> []
  /\ cnt = sum_by snd pairs.
Proof.
  unfold candidates_of. rewrite list_elem_of_In, in_flat_map. split.
  - intros (c & _ & H).
    destruct (bool_decide (pc = Some RED) && eqb c RED) eqn:E1; [done|].
    fold (bh_add c) in H.
    destruct (h - bh_add c <? 1)%Z eqn:E2; [done|]. apply Z.ltb_ge in E2.
    destruct (pairs_of c (h - bh_add c) l_dp r_dp) as [|p ps] eqn:E3; [done|].
    destruct H as [[= -> <- <- <-]|[]]. split_and!; auto.
    intros Hpc. apply andb_false_iff in E1 as [E1|E1].
    + by apply bool_decide_eq_false in E1.
    + by destruct color.
  - intros (Hpc & -> & Hbh & -> & Hne & ->). exists color. split.
    { destruct color; simpl; auto. }
    assert (E1 : bool_decide (pc = Some RED) && eqb color RED = false).
    { destruct (bool_decide (pc = Some RED)) eqn:E; [|done].
      apply bool_decide_eq_true in E. by rewrite (Hpc E). }
    rewrite E1. fold (bh_add color).
    assert (E2 : (h - bh_add color <? 1)%Z = false) by (apply Z.ltb_ge; lia).
    rewrite E2.
    destruct (pairs_of color (h - bh_add color) l_dp r_dp); [done|]. by left.
Qed.

Lemma can_assign_bh_pos n pc h : can_assign n pc h -> (1 <= h)%Z.
Proof.
  intros (c & Hc & _). apply build_dp_keys in Hc as (t' & _ & Hc).
  by apply col_ok_bh_pos in Hc.
Qed.

(** A request that can be met leaves a candidate. *)
Lemma candidates_nonempty k c0 l r pc h :
  can_assign (TN k c0 l r) pc h ->
  candidates_of pc h (build_dp l) (build_dp r) <> [].
Proof.
  intros (c & Hc & Hpc).
  apply build_dp_node_keys in Hc as (lc & rc & ch & Hl & Hr & Hcol & ->).
  assert (Hch : (1 <= ch)%Z).
  { apply build_dp_keys in Hl as (t' & _ & Hl). by apply col_ok_bh_pos in Hl. }
  destruct (proj2 (pairs_of_spec c ch (build_dp l) (build_dp r) lc rc))
    as [v Hv]; [done|].
  assert (Hin : (c, ch, sum_by snd (pairs_of c ch (build_dp l) (build_dp r)),
                 pairs_of c ch (build_dp l) (build_dp r))
                ∈ candidates_of pc (ch + bh_add c) (build_dp l) (build_dp r)).
  { apply candidates_of_spec. split_and!; auto; [lia|].
    intros E. rewrite E in Hv. by apply elem_of_nil in Hv. }
  intros E. rewrite E in Hin. by apply elem_of_nil in Hin.
Qed.

Lemma assign_ok n : forall pc h t',
  can_assign n pc h ->
  t' ∈ outcomes (assign n pc h) ->
  same_shape n t'
  /\ exists c, col_ok t' c h /\ (pc = Some RED -> c = BLACK).
Proof.
  induction n as [|k c0 l IHl r IHr]; intros pc h t' Hcan Ht.
  - simpl in Ht. apply outcomes_dret in Ht. subst t'. split; [done|].
    destruct Hcan as (c & Hc & _). simpl in Hc.
    apply list_elem_of_singleton in Hc. injection Hc as -> ->.
    exists BLACK. done.
  - pose proof (candidates_nonempty k c0 l r pc h Hcan) as Hne.
    cbn [assign] in Ht.
    set (cands := candidates_of pc h (build_dp l) (build_dp r)) in *.
    assert (Ht' : t' ∈ outcomes
              (dbind (randint1 (sum_by (fun cd : candidate => snd (fst cd)) cands))
                 (fun r1 =>
                    match pick (fun cd : candidate => snd (fst cd)) r1 0 cands with
                    | None => dret (TN k c0 l r)
                    | Some (color, child_bh, _, pairs) =>
                        dbind (randint1 (sum_by snd pairs)) (fun r2 =>
                          dbind (assign l (Some color) child_bh) (fun l' =>
                            dbind (assign r (Some color) child_bh) (fun r' =>
                              dret (TN k color l' r'))))
                    end))).
    { destruct cands; [done|exact Ht]. }
    clear Ht. apply outcomes_dbind in Ht' as (r1 & Hr1 & Ht).
    apply outcomes_randint1 in Hr1.
    destruct (pick_some (fun cd : candidate => snd (fst cd)) cands r1 0)
      as ([[[color child_bh] cnt] pairs] & Hpick & Hin); [lia|lia|].
    rewrite Hpick in Ht.
    apply candidates_of_spec in Hin as (Hpc & Hbh & Hpos & Hpairs & Hpne & _).
    apply outcomes_dbind in Ht as (r2 & _ & Ht).
    apply outcomes_dbind in Ht as (l' & Hl' & Ht).
    apply outcomes_dbind in Ht as (r' & Hr' & Ht).
    apply outcomes_dret in Ht. subst t'.
    destruct pairs as [|[[lc rc] v] ps]; [done|].
    destruct (proj1 (pairs_of_spec color child_bh (build_dp l) (build_dp r) lc rc))
      as (Hl & Hr & Hcol).
    { exists v. rewrite <- Hpairs. left. }
    destruct (IHl (Some color) child_bh l') as (Hsl & cl & Hcl & Hrl); [|done|].
    { exists lc. split; [done|]. intros [= ->]. by destruct (Hcol eq_refl). }
    destruct (IHr (Some color) child_bh r') as (Hsr & cr & Hcr & Hrr); [|done|].
    { exists rc. split; [done|]. intros [= ->]. by destruct (Hcol eq_refl). }
    split; [done|]. exists color. split; [|done]. simpl. split; [done|].
    exists cl, cr, child_bh. split_and!; auto.
    + intros ->. split; [by apply Hrl|by apply Hrr].
    + unfold bh_add in Hbh. lia.
Qed.

Lemma same_shape_force_black n t : same_shape n t -> same_shape n (force_black t).
Proof. destruct n, t; simpl; auto. Qed.

Lemma valid_entries_elem root c h v :
  (c, h, v) ∈ valid_entries root <-> c = BLACK /\ (c, h, v) ∈ build_dp root.
Proof.
  unfold valid_entries. rewrite !list_elem_of_In, filter_In. simpl.
  rewrite eqb_true_iff. tauto.
Qed.

(** The sampler does not raise; it keeps the shape and returns a BLACK
    root; what it returns is a valid colouring when the shape has one. *)
Lemma sampler_ok root o :
  o ∈ outcomes (random_valid_rb_coloring root) ->
  exists t',
    o = Some t' /\ same_shape root t' /\ tn_color t' = BLACK
    /\ ((exists t0, same_shape root t0 /\ valid_coloring t0 = true) ->
        valid_coloring t' = true).
Proof.
  destruct root as [|k c l r].
  { simpl. intros ->%outcomes_dret. exists TNull. split_and!; auto. }
  set (root := TN k c l r). unfold random_valid_rb_coloring. fold root.
  destruct (valid_entries root) as [|e es] eqn:Ev.
  { intros ->%outcomes_dret. exists (all_black root).
    split_and!; auto; [apply same_shape_all_black|].
    intros (t0 & Hs & Hv). pose proof (proj1 (fallback_spec root) Ev t0 Hs).
    congruence. }
  rewrite <- Ev. clear e es Ev. intros Ho.
  apply outcomes_dbind in Ho as (r0 & Hr0 & Ho).
  apply outcomes_randint1 in Hr0.
  destruct (pick_some snd (valid_entries root) r0 0)
    as ([[cb root_bh] v] & Hpick & Hin); [lia|lia|].
  rewrite Hpick in Ho.
  apply valid_entries_elem in Hin as [-> Hin].
  apply outcomes_dbind in Ho as (t & Ht & Ho). apply outcomes_dret in Ho.
  subst o.
  destruct (assign_ok root None root_bh t) as (Hs & ct & Hct & _); [|done|].
  { exists BLACK. split; [|done]. apply dp_keys_elem. by exists v. }
  exists (force_black t). split; [done|].
  split; [by apply same_shape_force_black|].
  destruct t as [|k' c' l' r']; [done|]. split; [done|]. intros _.
  apply valid_coloring_spec. simpl in Hct.
  destruct Hct as (-> & lc & rc & ch & Hl & Hr & Hcol & ->).
  destruct ct.
  - destruct (Hcol eq_refl) as [-> ->].
    exists (ch + 1)%Z. simpl. split; [done|]. exists BLACK, BLACK, ch. done.
  - exists (ch + 1)%Z. simpl. split; [done|]. exists lc, rc, ch. done.
Qed.

(** * The sampler always returns *)

Lemma mass_dret {A} (a : A) : (mass (dret a) == 1)%Q.
Proof. unfold mass, dret. simpl. ring. Qed.

Lemma mass_app {A} (d1 d2 : dist A) : (mass (d1 ++ d2) == mass d1 + mass d2)%Q.
Proof.
  unfold mass. induction d1 as [|[a p] d1 IH]; simpl; [ring|].
  rewrite IH. ring.
Qed.

Lemma mass_scale {A} (p : Q) (d : dist A) :
  (mass (map (fun bq => (fst bq, (p * snd bq)%Q)) d) == p * mass d)%Q.
Proof.
  unfold mass. induction d as [|[b q] d IH]; simpl; [ring|].
  rewrite IH. ring.
Qed.

Lemma mass_dbind {A B} (d : dist A) (f : A -> dist B) :
  (forall a, a ∈ outcomes d -> (mass (f a) == 1)%Q) ->
  (mass (dbind d f) == mass d)%Q.
Proof.
  unfold dbind. induction d as [|[a p] d IH]; intros H; simpl; [reflexivity|].
  rewrite mass_app, mass_scale, IH.
  - rewrite (H a); [|left]. unfold mass. simpl. ring.
  - intros a' Ha'. apply H. by right.
Qed.

Lemma mass_const (q : Q) (l : list nat) :
  (mass (map (fun r => (r, q)) l) == inject_Z (Z.of_nat (length l)) * q)%Q.
Proof.
  unfold mass. induction l as [|x l IH]; simpl length; simpl map.
  - simpl. ring.
  - simpl fold_right. rewrite IH, Nat2Z.inj_succ, <- Z.add_1_r, inject_Z_plus.
    ring.
Qed.

Lemma mass_randint1 n : 1 <= n -> (mass (randint1 n) == 1)%Q.
Proof.
  intros Hn. unfold randint1. rewrite mass_const, length_seq.
  unfold Qeq, Qmult, inject_Z. simpl.
  rewrite Z.mul_1_r, Pos.mul_1_l, Z.mul_1_r.
  rewrite Z.mul_1_l. destruct n; [lia|].
  by rewrite <- (Pos.of_nat_succ n), Zpos_P_of_succ_nat, Nat2Z.inj_succ.
Qed.

(** ** The counts of the tables are positive *)

Lemma counts_pos_dp_set key v d :
  counts_pos d -> 1 <= v -> counts_pos (dp_set key v d).
Proof.
  intros Hd Hv. induction d as [|[k' v'] d IH]; simpl.
  - intros e ->%list_elem_of_singleton. done.
  - assert (Hd' : counts_pos d) by (intros e He; apply Hd; by right).
    destruct (dp_key_eqb key k').
    + intros e [->|He]%elem_of_cons; [done|]. by apply Hd'.
    + intros e [->|He]%elem_of_cons; [apply (Hd (k', v')); left|].
      by apply IH.
Qed.

Lemma fold_left_inv {X S} (P : S -> Prop) (f : S -> X -> S) (xs : list X) :
  (forall acc x, x ∈ xs -> P acc -> P (f acc x)) ->
  forall acc, P acc -> P (fold_left f xs acc).
Proof.
  induction xs as [|x xs IH]; intros Hf acc Hacc; simpl; [done|].
  apply IH.
  - intros acc' x' Hx'. apply Hf. by right.
  - apply Hf; [left|done].
Qed.

Lemma build_dp_counts_pos n : counts_pos (build_dp n).
Proof.
  induction n as [|k c l IHl r IHr].
  - intros e ->%list_elem_of_singleton. done.
  - cbn [build_dp]. apply fold_left_inv; [|by intros e ?%elem_of_nil].
    intros acc color _ Hacc. apply fold_left_inv; [|done].
    intros acc1 [[lc lbh] lcnt] Hl Hacc1.
    destruct (eqb color RED && eqb lc RED); [done|].
    apply fold_left_inv; [|done].
    intros acc2 [[rc rbh] rcnt] Hr Hacc2.
    destruct (eqb color RED && eqb rc RED); [done|].
    destruct (negb (lbh =? rbh)%Z); [done|].
    apply counts_pos_dp_set; [done|].
    apply IHl in Hl. apply IHr in Hr. simpl in *. nia.
Qed.

Lemma sum_by_pos {A} (w : A -> nat) (items : list A) :
  items <> [] -> (forall x, x ∈ items -> 1 <= w x) -> 1 <= sum_by w items.
Proof.
  destruct items as [|x items]; [done|]. intros _ H. simpl.
  assert (1 <= w x) by (apply H; left). lia.
Qed.

Lemma pairs_of_pos color child_bh l r p :
  p ∈ pairs_of color child_bh (build_dp l) (build_dp r) -> 1 <= snd p.
Proof.
  unfold pairs_of. intros H.
  apply list_elem_of_In, in_flat_map in H as ([[lc lbh] lcnt] & Hl & H).
  destruct (eqb color RED && eqb lc RED); [done|].
  destruct (negb (lbh =? child_bh)%Z); [done|].
  apply in_flat_map in H as ([[rc rbh] rcnt] & Hr & H).
  destruct (eqb color RED && eqb rc RED); [done|].
  destruct (negb (rbh =? child_bh)%Z); [done|].
  destruct H as [<-|[]]. simpl.
  apply list_elem_of_In, build_dp_counts_pos in Hl.
  apply list_elem_of_In, build_dp_counts_pos in Hr. simpl in *. nia.
Qed.

Lemma assign_mass n : forall pc h,
  can_assign n pc h -> (mass (assign n pc h) == 1)%Q.
Proof.
  induction n as [|k c0 l IHl r IHr]; intros pc h Hcan.
  - apply mass_dret.
  - pose proof (candidates_nonempty k c0 l r pc h Hcan) as Hne.
    cbn [assign].
    set (cands := candidates_of pc h (build_dp l) (build_dp r)) in *.
    assert (Hcand : forall cd, cd ∈ cands ->
              1 <= snd (fst cd)
              /\ 1 <= sum_by snd (snd cd)
              /\ can_assign l (Some (fst (fst (fst cd)))) (snd (fst (fst cd)))
              /\ can_assign r (Some (fst (fst (fst cd)))) (snd (fst (fst cd)))).
    { intros [[[color child_bh] cnt] pairs] Hin.
      apply candidates_of_spec in Hin as (Hpc & Hbh & Hpos & Hpairs & Hpne & ->).
      assert (Hsum : 1 <= sum_by snd pairs).
      { apply sum_by_pos; [done|]. intros p Hp. rewrite Hpairs in Hp.
        by apply pairs_of_pos in Hp. }
      cbn [fst snd]. split; [done|]. split; [done|].
      destruct pairs as [|[[lc rc] v] ps]; [done|].
      destruct (proj1 (pairs_of_spec color child_bh (build_dp l) (build_dp r)
                         lc rc)) as (Hl & Hr & Hcol).
      { exists v. rewrite <- Hpairs. left. }
      split.
      - exists lc. split; [done|]. intros [= ->]. by destruct (Hcol eq_refl).
      - exists rc. split; [done|]. intros [= ->]. by destruct (Hcol eq_refl). }
    assert (Htot : 1 <= sum_by (fun cd : candidate => snd (fst cd)) cands).
    { apply sum_by_pos; [done|]. intros cd Hcd. by apply Hcand. }
    assert (E : (mass
              (dbind (randint1 (sum_by (fun cd : candidate => snd (fst cd)) cands))
                 (fun r1 =>
                    match pick (fun cd : candidate => snd (fst cd)) r1 0 cands with
                    | None => dret (TN k c0 l r)
                    | Some (color, child_bh, _, pairs) =>
                        dbind (randint1 (sum_by snd pairs)) (fun r2 =>
                          dbind (assign l (Some color) child_bh) (fun l' =>
                            dbind (assign r (Some color) child_bh) (fun r' =>
                              dret (TN k color l' r'))))
                    end)) == 1)%Q).
    { rewrite mass_dbind; [by apply mass_randint1|].
      intros r1 Hr1%outcomes_randint1.
      destruct (pick_some (fun cd : candidate => snd (fst cd)) cands r1 0)
        as ([[[color child_bh] cnt] pairs] & Hpick & Hin); [lia|lia|].
      rewrite Hpick. destruct (Hcand _ Hin) as (_ & Hp & Hl & Hr).
      cbn [fst snd] in *.
      rewrite mass_dbind; [by apply mass_randint1|]. intros r2 _.
      rewrite mass_dbind; [by apply IHl|]. intros l' _.
      rewrite mass_dbind; [by apply IHr|]. intros r' _.
      apply mass_dret. }
    destruct cands; [done|exact E].
Qed.

Lemma sampler_mass root : (mass (random_valid_rb_coloring root) == 1)%Q.
Proof.
  destruct root as [|k c l r]; [apply mass_dret|].
  cbn [random_valid_rb_coloring].
  destruct (valid_entries (TN k c l r)) as [|e es] eqn:Ev; [apply mass_dret|].
  rewrite <- Ev.
  assert (Hne : valid_entries (TN k c l r) <> []) by (by rewrite Ev).
  clear e es Ev.
  assert (Hpos : 1 <= sum_by snd (valid_entries (TN k c l r))).
  { apply sum_by_pos; [done|]. intros [[cb h] v] Hin.
    apply valid_entries_elem in Hin as [_ Hin].
    by apply build_dp_counts_pos in Hin. }
  rewrite mass_dbind; [by apply mass_randint1|].
  intros r0 Hr0%outcomes_randint1.
  destruct (pick_some snd (valid_entries (TN k c l r)) r0 0)
    as ([[cb root_bh] v] & Hpick & Hin); [lia|lia|].
  rewrite Hpick. apply valid_entries_elem in Hin as [-> Hin].
  rewrite mass_dbind; [|intros; apply mass_dret].
  apply assign_mass. exists BLACK. split; [|done].
  apply dp_keys_elem. by exists v.
Qed.

(** * The counts of [build_dp] *)

Lemma dp_key_eqb_refl k : dp_key_eqb k k = true.
Proof. by apply dp_key_eqb_eq. Qed.

Lemma dp_key_eqb_neq a b : dp_key_eqb a b = false <-> a <> b.
Proof.
  rewrite <- dp_key_eqb_eq. destruct (dp_key_eqb a b); split; congruence.
Qed.

Lemma dp_get_set q k v d :
  dp_get q (dp_set k v d) = if dp_key_eqb q k then v else dp_get q d.
Proof.
  induction d as [|[k' v'] d IH]; simpl; [done|].
  destruct (dp_key_eqb k k') eqn:E; simpl.
  - apply dp_key_eqb_eq in E. subst k'. by destruct (dp_key_eqb q k).
  - rewrite IH. destruct (dp_key_eqb q k') eqn:E1; [|done].
    apply dp_key_eqb_eq in E1. subst k'.
    destruct (dp_key_eqb q k) eqn:E2; [|done].
    apply dp_key_eqb_eq in E2. subst k. by rewrite dp_key_eqb_refl in E.
Qed.

Lemma fold_left_get {X} (f : dp_table -> X -> dp_table) (w : X -> nat) q :
  (forall acc x, dp_get q (f acc x) = dp_get q acc + w x) ->
  forall xs acc, dp_get q (fold_left f xs acc) = dp_get q acc + sum_by w xs.
Proof.
  intros Hf. induction xs as [|x xs IH]; intros acc; simpl; [lia|].
  rewrite IH, Hf. lia.
Qed.

Lemma sum_by_ext {A} (f g : A -> nat) (xs : list A) :
  (forall x, x ∈ xs -> f x = g x) -> sum_by f xs = sum_by g xs.
Proof.
  induction xs as [|x xs IH]; intros H; simpl; [done|].
  rewrite (H x), IH; [done| |left]. intros y Hy. apply H. by right.
Qed.

Lemma sum_by_zero {A} (xs : list A) : sum_by (fun _ => 0) xs = 0.
Proof. induction xs as [|x xs IH]; simpl; [done|]. by rewrite IH. Qed.

Lemma sum_by_add {A} (f g : A -> nat) (xs : list A) :
  sum_by (fun x => f x + g x) xs = sum_by f xs + sum_by g xs.
Proof. induction xs as [|x xs IH]; simpl; [done|]. rewrite IH. lia. Qed.

Lemma sum_by_mul_l {A} (n : nat) (f : A -> nat) (xs : list A) :
  sum_by (fun x => n * f x) xs = n * sum_by f xs.
Proof. induction xs as [|x xs IH]; simpl; [lia|]. rewrite IH. lia. Qed.

Lemma sum_by_mul_r {A} (n : nat) (f : A -> nat) (xs : list A) :
  sum_by (fun x => f x * n) xs = sum_by f xs * n.
Proof. induction xs as [|x xs IH]; simpl; [lia|]. rewrite IH. lia. Qed.

(** The count of an entry of a node's table, from the tables of the
    children. *)
Lemma build_dp_node_get k0 c0 l r c h :
  dp_get (c, h) (build_dp (TN k0 c0 l r))
  = wsum c (h - (if eqb c BLACK then 1 else 0))%Z (build_dp l)
    * wsum c (h - (if eqb c BLACK then 1 else 0))%Z (build_dp r).
Proof.
  cbn [build_dp].
  set (add := fun color : bool => if eqb color BLACK then 1%Z else 0%Z).
  set (inner := fun (color : bool) (lbh : Z) (lcnt : nat)
                    (result : dp_table) (re : dp_key * nat) =>
     let '((rc, rbh), rcnt) := re in
     if eqb color RED && eqb rc RED then result
     else if negb (lbh =? rbh)%Z then result
     else dp_set (color, (lbh + add color)%Z)
            (dp_get (color, (lbh + add color)%Z) result + lcnt * rcnt) result).
  set (wr := fun (color : bool) (lbh : Z) (lcnt : nat) (re : dp_key * nat) =>
     if eqb color RED && eqb (fst (fst re)) RED then 0
     else if negb (lbh =? snd (fst re))%Z then 0
     else if dp_key_eqb (c, h) (color, (lbh + add color)%Z)
          then lcnt * snd re else 0).
  assert (Hin : forall color lbh lcnt acc re,
    dp_get (c, h) (inner color lbh lcnt acc re)
    = dp_get (c, h) acc + wr color lbh lcnt re).
  { intros color lbh lcnt acc [[rc rbh] rcnt]. unfold inner, wr. simpl.
    destruct (eqb color RED && eqb rc RED); [lia|].
    destruct (negb (lbh =? rbh)%Z); [lia|].
    rewrite dp_get_set.
    destruct (dp_key_eqb (c, h) (color, (lbh + add color)%Z)) eqn:E; [|lia].
    apply dp_key_eqb_eq in E. by rewrite <- E. }
  set (middle := fun (color : bool) (result : dp_table) (le : dp_key * nat) =>
     let '((lc, lbh), lcnt) := le in
     if eqb color RED && eqb lc RED then result
     else fold_left (inner color lbh lcnt) (build_dp r) result).
  set (wl := fun (color : bool) (le : dp_key * nat) =>
     if eqb color RED && eqb (fst (fst le)) RED then 0
     else sum_by (wr color (snd (fst le)) (snd le)) (build_dp r)).
  assert (Hmid : forall color acc le,
    dp_get (c, h) (middle color acc le) = dp_get (c, h) acc + wl color le).
  { intros color acc [[lc lbh] lcnt]. unfold middle, wl. simpl.
    destruct (eqb color RED && eqb lc RED); [lia|].
    apply (fold_left_get _ _ _ (Hin color lbh lcnt)). }
  change (fold_left _ [RED; BLACK] [])
    with (fold_left (fun result color =>
            fold_left (middle color) (build_dp l) result) [RED; BLACK] []).
  rewrite (fold_left_get _ (fun color => sum_by (wl color) (build_dp l))).
  2:{ intros acc color. apply (fold_left_get _ _ _ (Hmid color)). }
  cbn [dp_get sum_by fold_right].
  (* the colour that is not [c] adds nothing *)
  assert (Hother : forall color, color <> c ->
            sum_by (wl color) (build_dp l) = 0).
  { intros color Hne. rewrite <- (sum_by_zero (build_dp l)).
    apply sum_by_ext. intros [[lc lbh] lcnt] _. unfold wl. simpl.
    destruct (eqb color RED && eqb lc RED); [done|].
    rewrite <- (sum_by_zero (build_dp r)).
    apply sum_by_ext. intros [[rc rbh] rcnt] _. unfold wr. simpl.
    destruct (eqb color RED && eqb rc RED); [done|].
    destruct (negb (lbh =? rbh)%Z); [done|].
    destruct (dp_key_eqb _ _) eqn:E; [|done].
    apply dp_key_eqb_eq in E. congruence. }
  assert (Hsame : sum_by (wl c) (build_dp l)
            = wsum c (h - add c)%Z (build_dp l) * wsum c (h - add c)%Z (build_dp r)).
  { unfold wsum at 1. rewrite <- sum_by_mul_r.
    apply sum_by_ext. intros [[lc lbh] lcnt] _. unfold wl. simpl.
    destruct (eqb c RED && eqb lc RED); [done|].
    destruct (lbh =? h - add c)%Z eqn:El; simpl.
    - apply Z.eqb_eq in El. unfold wsum. rewrite <- sum_by_mul_l.
      apply sum_by_ext. intros [[rc rbh] rcnt] _. unfold wr. simpl.
      destruct (eqb c RED && eqb rc RED); [lia|].
      rewrite El.
      replace (dp_key_eqb (c, h) (c, (h - add c + add c)%Z)) with true.
      2:{ symmetry. apply dp_key_eqb_eq. f_equal. lia. }
      rewrite (Z.eqb_sym rbh). destruct (h - add c =? rbh)%Z; simpl; lia.
    - apply Z.eqb_neq in El. rewrite <- (sum_by_zero (build_dp r)).
      apply sum_by_ext. intros [[rc rbh] rcnt] _. unfold wr. simpl.
      destruct (eqb c RED && eqb rc RED); [done|].
      destruct (negb (lbh =? rbh)%Z); [done|].
      destruct (dp_key_eqb _ _) eqn:E; [|done].
      apply dp_key_eqb_eq in E. injection E as E. lia. }
  fold (add c). rewrite <- Hsame.
  assert (HR : c = RED \/ c = BLACK) by (destruct c; auto).
  destruct HR as [->| ->].
  - rewrite (Hother BLACK) by done. lia.
  - rewrite (Hother RED) by done. lia.
Qed.

(** ** The keys of a table are distinct *)

Lemma dp_set_NoDup k v d : NoDup (dp_keys d) -> NoDup (dp_keys (dp_set k v d)).
Proof.
  induction d as [|[k' v'] d IH]; simpl; intros Hd.
  - apply NoDup_singleton.
  - apply NoDup_cons in Hd as [Hk Hd]. fold (dp_keys d) in *.
    destruct (dp_key_eqb k k') eqn:E; simpl.
    + by apply NoDup_cons.
    + fold (dp_keys (dp_set k v d)). apply NoDup_cons. split; [|by apply IH].
      rewrite dp_set_keys. intros [H|H]; [done|]. subst k'.
      by rewrite dp_key_eqb_refl in E.
Qed.

Lemma build_dp_NoDup t : NoDup (dp_keys (build_dp t)).
Proof.
  destruct t as [|k c l r].
  - apply NoDup_singleton.
  - cbn [build_dp].
    apply (fold_left_inv (fun d => NoDup (dp_keys d))); [|apply NoDup_nil_2].
    intros acc color _ Hacc.
    apply (fold_left_inv (fun d => NoDup (dp_keys d))); [|done].
    intros acc1 [[lc lbh] lcnt] _ Hacc1.
    destruct (eqb color RED && eqb lc RED); [done|].
    apply (fold_left_inv (fun d => NoDup (dp_keys d))); [|done].
    intros acc2 [[rc rbh] rcnt] _ Hacc2.
    destruct (eqb color RED && eqb rc RED); [done|].
    destruct (negb (lbh =? rbh)%Z); [done|].
    by apply dp_set_NoDup.
Qed.

Lemma dp_get_absent k d : k ∉ dp_keys d -> dp_get k d = 0.
Proof.
  induction d as [|[k' v'] d IH]; simpl; [done|]. fold (dp_keys d).
  intros [Hne Hk]%not_elem_of_cons.
  destruct (dp_key_eqb k k') eqn:E; [|by apply IH].
  by apply dp_key_eqb_eq in E.
Qed.

Lemma dp_get_elem k v d : NoDup (dp_keys d) -> (k, v) ∈ d -> dp_get k d = v.
Proof.
  induction d as [|[k' v'] d IH]; simpl; intros Hd Hin.
  - by apply elem_of_nil in Hin.
  - apply NoDup_cons in Hd as [Hk Hd]. fold (dp_keys d) in *.
    apply elem_of_cons in Hin as [[= <- <-]|Hin].
    + by rewrite dp_key_eqb_refl.
    + destruct (dp_key_eqb k k') eqn:E; [|by apply IH].
      apply dp_key_eqb_eq in E. subst k'. exfalso. apply Hk.
      apply list_elem_of_In, in_map_iff. exists (k, v).
      split; [done|by apply list_elem_of_In].
Qed.

Lemma sum_key_get k d :
  NoDup (dp_keys d) ->
  sum_by (fun e : dp_key * nat =>
            if dp_key_eqb k (fst e) then snd e else 0) d = dp_get k d.
Proof.
  induction d as [|[k' v'] d IH]; simpl; intros Hd; [done|].
  apply NoDup_cons in Hd as [Hk Hd]. fold (dp_keys d) in *.
  rewrite (IH Hd). destruct (dp_key_eqb k k') eqn:E; [|done].
  apply dp_key_eqb_eq in E. subst k'. rewrite (dp_get_absent k d Hk). lia.
Qed.

Lemma wsum_get c ch d :
  NoDup (dp_keys d) ->
  wsum c ch d = sum_by (fun lc => dp_get (lc, ch) d) (child_colors c).
Proof.
  intros Hd. unfold wsum.
  assert (HR : c = RED \/ c = BLACK) by (destruct c; auto).
  destruct HR as [->| ->]; unfold child_colors; simpl.
  - rewrite <- (sum_key_get (BLACK, ch) d Hd), Nat.add_0_r.
    apply sum_by_ext. intros [[lc lbh] cnt] _. unfold dp_key_eqb. simpl.
    rewrite (Z.eqb_sym ch). by destruct lc, (lbh =? ch)%Z.
  - rewrite <- (sum_key_get (RED, ch) d Hd), <- (sum_key_get (BLACK, ch) d Hd).
    rewrite Nat.add_0_r, <- sum_by_add.
    apply sum_by_ext. intros [[lc lbh] cnt] _. unfold dp_key_eqb. simpl.
    rewrite (Z.eqb_sym ch). destruct lc, (lbh =? ch)%Z; simpl; lia.
Qed.

(** ** The colourings that an entry counts *)

Lemma length_prod {A B C} (f : A -> B -> C) (L : list A) (R : list B) :
  length (flat_map (fun a => map (f a) R) L) = length L * length R.
Proof.
  induction L as [|a L IH]; simpl; [done|].
  by rewrite length_app, length_map, IH.
Qed.

Lemma length_flat_map_sum {A B} (f : A -> list B) (xs : list A) :
  length (flat_map f xs) = sum_by (fun x => length (f x)) xs.
Proof.
  induction xs as [|x xs IH]; simpl; [done|]. by rewrite length_app, IH.
Qed.

Lemma cols_length t : forall c h,
  length (cols t c h) = dp_get (c, h) (build_dp t).
Proof.
  induction t as [|k c0 l IHl r IHr]; intros c h.
  - simpl. unfold dp_key_eqb. simpl.
    by destruct (eqb c BLACK && (h =? 1)%Z).
  - cbn [cols]. rewrite length_prod, !length_flat_map_sum.
    rewrite build_dp_node_get, !wsum_get by apply build_dp_NoDup.
    f_equal; apply sum_by_ext; intros x _; [apply IHl|apply IHr].
Qed.

Lemma child_colors_spec c lc :
  lc ∈ child_colors c <-> (c = RED -> lc = BLACK).
Proof.
  destruct c; cbn [child_colors eqb RED].
  - rewrite list_elem_of_singleton. split; [auto|]. intros H. by apply H.
  - split; [done|]. intros _. destruct lc; [left|right; left].
Qed.

Lemma child_cols_spec t c ch t' :
  In t' (flat_map (fun lc => cols t lc ch) (child_colors c)) <->
  exists lc, (c = RED -> lc = BLACK) /\ t' ∈ cols t lc ch.
Proof.
  rewrite in_flat_map. split.
  - intros (lc & H1 & H2). exists lc. split.
    + by apply child_colors_spec, list_elem_of_In.
    + by apply list_elem_of_In.
  - intros (lc & H1 & H2). exists lc. split.
    + by apply list_elem_of_In, child_colors_spec.
    + by apply list_elem_of_In.
Qed.

Lemma cols_spec t : forall c h t',
  t' ∈ cols t c h <-> same_shape t t' /\ col_ok t' c h.
Proof.
  induction t as [|k c0 l IHl r IHr]; intros c h t'.
  - simpl. destruct (eqb c BLACK && (h =? 1)%Z) eqn:E.
    + apply andb_true_iff in E as [->%eqb_true_iff ->%Z.eqb_eq].
      rewrite list_elem_of_singleton. split; [by intros ->|].
      intros [H _]. by destruct t'.
    + split; [by intros ?%elem_of_nil|]. intros [H1 H2]. destruct t'; [|done].
      simpl in H2. destruct H2 as [-> ->]. done.
  - cbn [cols]. rewrite list_elem_of_In, in_flat_map. split.
    + intros (l' & Hl & H). apply in_map_iff in H as (r' & <- & Hr).
      apply child_cols_spec in Hl as (lc & Hlc & Hl).
      apply child_cols_spec in Hr as (rc & Hrc & Hr).
      apply IHl in Hl as [Hl1 Hl2]. apply IHr in Hr as [Hr1 Hr2].
      split; [done|]. simpl. split; [done|].
      exists lc, rc, (h - (if eqb c BLACK then 1 else 0))%Z.
      split_and!; auto. lia.
    + intros [Hs Hc]. destruct t' as [|k' c' l' r']; [done|].
      destruct Hs as (<- & Hsl & Hsr).
      destruct Hc as (-> & lc & rc & ch & Hl & Hr & Hcol & ->).
      replace (ch + (if eqb c BLACK then 1 else 0)
               - (if eqb c BLACK then 1 else 0))%Z with ch by lia.
      exists l'. split.
      * apply child_cols_spec. exists lc. split; [by intros H; apply Hcol|].
        by apply IHl.
      * apply in_map_iff. exists r'. split; [done|].
        apply child_cols_spec. exists rc. split; [by intros H; apply Hcol|].
        by apply IHr.
Qed.

Lemma NoDup_prod k c (L R : list TNode) :
  NoDup L -> NoDup R ->
  NoDup (flat_map (fun l' => map (fun r' => TN k c l' r') R) L).
Proof.
  intros HL HR. induction HL as [|a L Ha HL IH]; simpl; [apply NoDup_nil_2|].
  apply NoDup_app. split_and!; [|  |done].
  - clear -HR. induction HR as [|b R Hb HR IH]; simpl; [apply NoDup_nil_2|].
    apply NoDup_cons. split; [|done].
    rewrite list_elem_of_In, in_map_iff. intros (b' & [= ->] & Hin).
    by apply Hb, list_elem_of_In.
  - intros x Hx Hx'. apply list_elem_of_In, in_map_iff in Hx as (b & <- & _).
    apply list_elem_of_In, in_flat_map in Hx' as (a' & Ha' & Hx').
    apply in_map_iff in Hx' as (b' & [= -> _] & _).
    by apply Ha, list_elem_of_In.
Qed.

Lemma cols_NoDup t : forall c h, NoDup (cols t c h).
Proof.
  induction t as [|k c0 l IHl r IHr]; intros c h.
  - simpl. destruct (eqb c BLACK && (h =? 1)%Z);
      [apply NoDup_singleton|apply NoDup_nil_2].
  - cbn [cols].
    assert (Hch : forall t ch, (forall lc, NoDup (cols t lc ch)) ->
              NoDup (flat_map (fun lc => cols t lc ch) (child_colors c))).
    { intros t ch Ht. destruct c; cbn [child_colors eqb RED flat_map].
      - rewrite app_nil_r. apply Ht.
      - rewrite app_nil_r. apply NoDup_app. split_and!; [apply Ht| |apply Ht].
        intros x [_ H1]%cols_spec [_ H2]%cols_spec.
        apply col_ok_color in H1, H2. unfold RED, BLACK in *. congruence. }
    apply NoDup_prod; apply Hch; auto.
Qed.

(** An entry of a table counts the colourings of its key. *)
Lemma build_dp_exact t c h :
  exists L, NoDup L
    /\ (forall t', t' ∈ L <-> same_shape t t' /\ col_ok t' c h)
    /\ dp_get (c, h) (build_dp t) = length L.
Proof.
  exists (cols t c h). split_and!.
  - apply cols_NoDup.
  - apply cols_spec.
  - by rewrite cols_length.
Qed.

(** ** The total of the root's table *)

Lemma colorings_spec t : forall t', t' ∈ colorings t <-> same_shape t t'.
Proof.
  induction t as [|k c0 l IHl r IHr]; intros t'.
  - simpl. rewrite list_elem_of_singleton. split; [by intros ->|].
    by destruct t'.
  - cbn [colorings]. rewrite list_elem_of_In, in_flat_map. split.
    + intros (c & _ & H). apply in_flat_map in H as (l' & Hl & H).
      apply in_map_iff in H as (r' & <- & Hr). simpl.
      split_and!; [done|by apply IHl, list_elem_of_In|by apply IHr, list_elem_of_In].
    + destruct t' as [|k' c' l' r']; [done|]. intros (<- & Hl & Hr).
      exists c'. split; [destruct c'; simpl; auto|].
      apply in_flat_map. exists l'. split; [by apply list_elem_of_In, IHl|].
      apply in_map_iff. exists r'. split; [done|by apply list_elem_of_In, IHr].
Qed.

Lemma colorings_NoDup t : NoDup (colorings t).
Proof.
  induction t as [|k c0 l IHl r IHr]; [apply NoDup_singleton|].
  cbn [colorings flat_map]. rewrite app_nil_r.
  apply NoDup_app. split_and!; [by apply NoDup_prod| |by apply NoDup_prod].
  intros x Hx Hx'.
  apply list_elem_of_In, in_flat_map in Hx as (a & _ & Hx).
  apply in_map_iff in Hx as (b & <- & _).
  apply list_elem_of_In, in_flat_map in Hx' as (a' & _ & Hx').
  by apply in_map_iff in Hx' as (b' & [=] & _).
Qed.

Lemma NoDup_flat_map {A B} (f : A -> list B) (xs : list A) :
  NoDup xs -> (forall x, NoDup (f x)) ->
  (forall x y b, x ∈ xs -> y ∈ xs -> b ∈ f x -> b ∈ f y -> x = y) ->
  NoDup (flat_map f xs).
Proof.
  intros Hxs Hf. induction Hxs as [|x xs Hx Hxs IH]; intros Hd; simpl.
  { apply NoDup_nil_2. }
  apply NoDup_app. split_and!; [apply Hf| |].
  - intros b Hb Hb'. apply list_elem_of_In, in_flat_map in Hb' as (y & Hy & Hb').
    apply list_elem_of_In in Hy, Hb'.
    assert (x = y); [|by subst].
    apply (Hd x y b); [left|by right|done|done].
  - apply IH. intros y z b Hy Hz. apply Hd; by right.
Qed.

Lemma col_ok_bh_unique t c h c' h' : col_ok t c h -> col_ok t c' h' -> h = h'.
Proof.
  intros H1 H2. apply (validate_bh t None) in H1. apply (validate_bh t None) in H2.
  congruence.
Qed.

Lemma dp_NoDup (d : dp_table) : NoDup (dp_keys d) -> NoDup d.
Proof.
  induction d as [|[k v] d IH]; simpl; intros H; [apply NoDup_nil_2|].
  apply NoDup_cons in H as [Hk Hd]. fold (dp_keys d) in *.
  apply NoDup_cons. split; [|by apply IH].
  intros Hin. apply Hk. apply list_elem_of_In, in_map_iff.
  exists (k, v). split; [done|by apply list_elem_of_In].
Qed.

Lemma NoDup_lfilter {A} (f : A -> bool) (l : list A) :
  NoDup l -> NoDup (List.filter f l).
Proof. rewrite !NoDup_ListNoDup. apply List.NoDup_filter. Qed.

(** The sum of the counts of the root's BLACK entries is the number of the
    colourings of the shape that [validate_rb_tree] accepts with a BLACK
    root. *)
Lemma valid_entries_total root :
  sum_by snd (valid_entries root)
  = length (List.filter valid_coloring (colorings root)).
Proof.
  set (L := flat_map (fun e : dp_key * nat => cols root BLACK (snd (fst e)))
              (valid_entries root)).
  assert (Hlen : length L = sum_by snd (valid_entries root)).
  { unfold L. rewrite length_flat_map_sum. apply sum_by_ext.
    intros [[c h] v] [-> Hin]%valid_entries_elem. simpl.
    rewrite cols_length. apply dp_get_elem; [apply build_dp_NoDup|done]. }
  rewrite <- Hlen. apply Permutation_length.
  apply list.NoDup_Permutation.
  - apply NoDup_flat_map.
    + unfold valid_entries. apply NoDup_lfilter, dp_NoDup, build_dp_NoDup.
    + intros x. apply cols_NoDup.
    + intros [[c h] v] [[c' h'] v'] b [-> Hx]%valid_entries_elem
        [-> Hy]%valid_entries_elem [_ Hb]%cols_spec [_ Hb']%cols_spec.
      simpl in *. pose proof (col_ok_bh_unique _ _ _ _ _ Hb Hb') as <-.
      f_equal.
      rewrite <- (dp_get_elem _ _ _ (build_dp_NoDup root) Hx).
      by rewrite <- (dp_get_elem _ _ _ (build_dp_NoDup root) Hy).
  - apply NoDup_lfilter, colorings_NoDup.
  - intros b. unfold L.
    rewrite !list_elem_of_In, in_flat_map, filter_In, <- list_elem_of_In.
    rewrite colorings_spec, valid_coloring_spec. split.
    + intros ([[c h] v] & [-> Hin]%list_elem_of_In%valid_entries_elem
              & [Hs Hc]%list_elem_of_In%cols_spec).
      split; [done|]. by exists h.
    + intros [Hs [h Hc]].
      assert (Hk : (BLACK, h) ∈ dp_keys (build_dp root)).
      { apply build_dp_keys. by exists b. }
      apply dp_keys_elem in Hk as [v Hv].
      exists (BLACK, h, v). split.
      * by apply list_elem_of_In, valid_entries_elem.
      * by apply list_elem_of_In, cols_spec.
Qed.

(** * Every valid colouring can be drawn *)

(** Some draw picks a given item of positive weight. *)
Lemma pick_any {A} (w : A -> nat) (x : A) (items : list A) :
  1 <= w x -> x ∈ items ->
  forall cum, exists r,
    cum < r /\ r <= cum + sum_by w items /\ pick w r cum items = Some x.
Proof.
  intros Hw. induction items as [|y items IH]; intros Hin cum.
  { by apply elem_of_nil in Hin. }
  apply elem_of_cons in Hin as [<-|Hin].
  - exists (cum + 1). simpl. split_and!; [lia|lia|].
    destruct (cum + 1 <=? cum + w x) eqn:E; [done|].
    apply Nat.leb_gt in E. lia.
  - destruct (IH Hin (cum + w y)) as (r & H1 & H2 & H3).
    exists r. simpl. split_and!; [lia|lia|].
    destruct (r <=? cum + w y) eqn:E; [|done].
    apply Nat.leb_le in E. lia.
Qed.

Lemma assign_complete n : forall pc h t' c,
  same_shape n t' -> col_ok t' c h -> (pc = Some RED -> c = BLACK) ->
  t' ∈ outcomes (assign n pc h).
Proof.
  induction n as [|k c0 l IHl r IHr]; intros pc h t' c Hs Hc Hpc.
  { destruct t'; [|done]. simpl. by apply outcomes_dret. }
  destruct t' as [|k' c' l' r']; [done|]. destruct Hs as (<- & Hsl & Hsr).
  destruct Hc as (-> & lc & rc & ch & Hl & Hr & Hcol & ->).
  cbn [assign].
  set (cands := candidates_of pc (ch + (if eqb c BLACK then 1 else 0))%Z
                  (build_dp l) (build_dp r)).
  set (pairs := pairs_of c ch (build_dp l) (build_dp r)).
  assert (Hv : exists v, (lc, rc, v) ∈ pairs).
  { apply pairs_of_spec. split_and!; auto; apply build_dp_keys; eauto. }
  assert (Hpne : pairs <> []).
  { destruct Hv as [v Hv]. intros E. rewrite E in Hv. by apply elem_of_nil in Hv. }
  assert (Hin : (c, ch, sum_by snd pairs, pairs) ∈ cands).
  { apply candidates_of_spec. split_and!; auto.
    - unfold bh_add. lia.
    - by apply col_ok_bh_pos in Hl. }
  assert (Hw : 1 <= sum_by snd pairs).
  { apply sum_by_pos; [done|]. intros p Hp. by apply (pairs_of_pos c ch l r). }
  destruct (pick_any (fun cd : candidate => snd (fst cd))
              (c, ch, sum_by snd pairs, pairs) cands Hw Hin 0)
    as (r1 & H1 & H2 & Hpick).
  assert (Hgoal : TN k c l' r' ∈ outcomes
            (dbind (randint1 (sum_by (fun cd : candidate => snd (fst cd)) cands))
               (fun r1 =>
                  match pick (fun cd : candidate => snd (fst cd)) r1 0 cands with
                  | None => dret (TN k c0 l r)
                  | Some (color, child_bh, _, pairs) =>
                      dbind (randint1 (sum_by snd pairs)) (fun r2 =>
                        dbind (assign l (Some color) child_bh) (fun l' =>
                          dbind (assign r (Some color) child_bh) (fun r' =>
                            dret (TN k color l' r'))))
                  end))).
  { apply outcomes_dbind. exists r1. split; [apply outcomes_randint1; lia|].
    rewrite Hpick.
    apply outcomes_dbind. exists 1. split; [apply outcomes_randint1; lia|].
    apply outcomes_dbind. exists l'. split.
    { apply (IHl _ _ _ lc); auto. intros [= ->]. by destruct (Hcol eq_refl). }
    apply outcomes_dbind. exists r'. split.
    { apply (IHr _ _ _ rc); auto. intros [= ->]. by destruct (Hcol eq_refl). }
    by apply outcomes_dret. }
  destruct cands; [by apply elem_of_nil in Hin|exact Hgoal].
Qed.

(** Every colouring of the shape that [validate_rb_tree] accepts with a BLACK
    root is a possible result of the sampler. *)
Lemma sampler_complete root t0 :
  same_shape root t0 -> valid_coloring t0 = true ->
  Some t0 ∈ outcomes (random_valid_rb_coloring root).
Proof.
  intros Hs Hv. apply valid_coloring_spec in Hv as [h Hc].
  destruct root as [|k c l r].
  { destruct t0; [|done]. simpl. by apply outcomes_dret. }
  set (root := TN k c l r) in *.
  assert (Hk : (BLACK, h) ∈ dp_keys (build_dp root)).
  { apply build_dp_keys. by exists t0. }
  apply dp_keys_elem in Hk as [v Hv].
  assert (Hin : (BLACK, h, v) ∈ valid_entries root).
  { by apply valid_entries_elem. }
  assert (Hw : 1 <= snd (BLACK, h, v)).
  { by apply (build_dp_counts_pos root). }
  destruct (pick_any (A := dp_key * nat) snd (BLACK, h, v) (valid_entries root) Hw Hin 0) as (r0 & H1 & H2 & Hpick).
  assert (Hgoal : Some t0 ∈ outcomes
            (dbind (randint1 (sum_by snd (valid_entries root))) (fun r =>
               match pick snd r 0 (valid_entries root) with
               | None => dret None
               | Some (_, root_bh, _) =>
                   dbind (assign root None root_bh) (fun t =>
                     dret (Some (force_black t)))
               end))).
  { apply outcomes_dbind. exists r0. split; [apply outcomes_randint1; split; [lia|exact H2]|].
    rewrite Hpick.
    apply outcomes_dbind. exists t0. split.
    { by apply (assign_complete root None h t0 BLACK). }
    apply outcomes_dret. destruct t0 as [|k' c' l' r']; [done|].
    simpl in Hc. destruct Hc as [-> _]. done. }
  unfold random_valid_rb_coloring. fold root. cbv zeta.
  destruct (valid_entries root); [by apply elem_of_nil in Hin|exact Hgoal].
Qed.

(** * The animated engine of build.py *)

(** The methods that the two engines share word for word. *)
Lemma build_left_rotate : Build._left_rotate = Analyze._left_rotate.
Proof. reflexivity. Qed.
Lemma build_right_rotate : Build._right_rotate = Analyze._right_rotate.
Proof. reflexivity. Qed.
Lemma build_insert_fixup_cond : Build._insert_fixup_cond = Analyze._insert_fix_cond.
Proof. reflexivity. Qed.
Lemma build_insert_fixup_body : Build._insert_fixup_body = Analyze._insert_fix_body.
Proof. reflexivity. Qed.
Lemma build_transplant : Build._transplant = Analyze._transplant.
Proof. reflexivity. Qed.
Lemma build_minimum : Build._minimum = Analyze._tree_minimum.
Proof. reflexivity. Qed.
Lemma build_delete_fixup_cond : Build._delete_fixup_cond = Analyze._delete_fix_cond.
Proof. reflexivity. Qed.

(** ** The two guarded operations of [_delete_fixup] *)

Section guarded.
Context (st : RBTree) (C : ctx) (t : tree) (np : option ptr).
Context (HInv : Inv st (plug C t) np).

Lemma rd_nil_or_black p :
  Build.nil_or_black (addr (sub_of t p)) st
  = Some (eqb (tcolor (sub_of t p)) BLACK, st).
Proof.
  pose proof (rd_color st C t np HInv p) as Hc.
  pose proof (Inv_focus_at _ _ _ p _ HInv) as H.
  unfold Build.nil_or_black.
  destruct (sub_of t p) as [|a c l k r] eqn:E; simpl in *; [done|].
  assert (Ha : a <> NIL).
  { destruct H as [_ _ _ _ _ _ Hn]. intros ->. apply Hn. simpl. left. }
  apply Nat.eqb_neq in Ha. rewrite Ha. unfold bind. by rewrite Hc.
Qed.

Lemma blacken_at p :
  wp (Build.blacken_unless_nil (addr (sub_of t p))) st (fun _ st' =>
    Inv st' (plug (ctx_of t p C) (recolor BLACK (sub_of t p))) np
    /\ next st' = next st).
Proof.
  pose proof (Inv_focus_at _ _ _ p _ HInv) as H.
  pose proof (set_color_at st C t np HInv p BLACK) as Hs.
  unfold Build.blacken_unless_nil.
  destruct (sub_of t p) as [|a c l k r] eqn:E; simpl in *.
  - apply wp_ret. split; [|done]. rewrite <- E. by rewrite plug_ctx_of.
  - assert (Ha : a <> NIL).
    { destruct H as [_ _ _ _ _ _ Hn]. intros ->. apply Hn. simpl. left. }
    apply Nat.eqb_neq in Ha. rewrite Ha. simpl. apply Hs. auto.
Qed.

End guarded.

Ltac bstep :=
  lazymatch goal with
  | |- wp (bind (Build.nil_or_black ?a) _) ?st _ =>
      with_inv st ltac:(fun H C t np => try_paths ltac:(fun p =>
        eapply wp_bind_eq; [exact (rd_nil_or_black st C t np H p)|])); nsimpl
  | |- wp (bind (Build.blacken_unless_nil ?a) _) ?st _ =>
      with_inv st ltac:(fun H C t np => try_paths ltac:(fun p =>
        step_write ltac:(apply (blacken_at st C t np H p)))); nsimpl
  | |- _ => step
  end.

Lemma build_delete_fixup_body_spec st P C t np :
  Inv st (plug (P :: C) t) np ->
  (is_node t = false -> np = Some (faddr P)) ->
  is_node (fsib P) = true ->
  (tcolor (fsib P) = RED ->
   is_node (tleft (fsib P)) = true /\ is_node (tright (fsib P)) = true) ->
  wp (Build._delete_fixup_body (addr t)) st (fun x' st' =>
    x' = addr (snd (del_body P C t)) /\
    Inv st' (plug (fst (del_body P C t)) (snd (del_body P C t))) np /\
    next st' = next st /\ is_node (snd (del_body P C t)) = true).
Proof.
  intros HInv Hnp Hw Hw'.
  inv_facts HInv.
  unfold Build._delete_fixup_body.
  change Build._left_rotate with Analyze._left_rotate.
  change Build._right_rotate with Analyze._right_rotate.
  destruct P as [p cp kp w|p cp w kp]; simpl in Hw, Hw', Hnp;
    destruct w as [|wa cw wl kw wr]; try done;
    nsimpl in HInv; simpl in *|-; facts.
  - destruct cw.
    + destruct Hw' as [Hwl Hwr]; [done|].
      destruct wl as [|wla wlc wll wlk wlr]; [done|]. simpl in *|-; facts.
      repeat bstep.
      destruct (tcolor wll) eqn:Ewl, (tcolor wlr) eqn:Ewr; nsimpl;
        rewrite ?Ewl, ?Ewr; nsimpl.
      * repeat bstep. finish_body.
      * red_node wll Ewl. repeat bstep. finish_body.
      * repeat bstep. finish_body.
      * repeat bstep. finish_body.
    + repeat bstep.
      destruct (tcolor wl) eqn:Ewl, (tcolor wr) eqn:Ewr; nsimpl;
        rewrite ?Ewl, ?Ewr; nsimpl.
      * repeat bstep. finish_body.
      * red_node wl Ewl. repeat bstep. finish_body.
      * repeat bstep. finish_body.
      * repeat bstep. finish_body.
  - destruct cw.
    + destruct Hw' as [Hwl Hwr]; [done|].
      destruct wr as [|wra wrc wrl wrk wrr]; [done|]. simpl in *|-; facts.
      repeat bstep.
      destruct (tcolor wrl) eqn:Ewl, (tcolor wrr) eqn:Ewr; nsimpl;
        rewrite ?Ewl, ?Ewr; nsimpl.
      * repeat bstep. finish_body.
      * repeat bstep. finish_body.
      * red_node wrr Ewr. repeat bstep. finish_body.
      * repeat bstep. finish_body.
    + repeat bstep.
      destruct (tcolor wl) eqn:Ewl, (tcolor wr) eqn:Ewr; nsimpl;
        rewrite ?Ewl, ?Ewr; nsimpl.
      * repeat bstep. finish_body.
      * repeat bstep. finish_body.
      * red_node wr Ewr. repeat bstep. finish_body.
      * repeat bstep. finish_body.
Qed.

Lemma build_delete_fixup_loop np fuel : forall n C t st,
  need C t < fuel -> need C t <= n ->
  deficit C t ->
  Inv st (plug C t) np ->
  (is_node t = false -> np = caddr C) ->
  wp (while fuel Build._delete_fixup_cond Build._delete_fixup_body (addr t)) st
    (fun x' st' => exists Cf tf,
       x' = addr tf /\ Inv st' (plug Cf tf) np /\ next st' = next st /\
       plug Cf (recolor BLACK tf) = del_fix n C t).
Proof.
  induction fuel as [|fuel IH]; intros n C t st Hf Hn HJ HInv Hnp; [lia|].
  simpl. eapply wp_bind. eapply wp_mono.
  { change Build._delete_fixup_cond with Analyze._delete_fix_cond.
    by eapply delete_fix_cond_spec. }
  intros b st' [-> ->].
  destruct C as [|P C].
  { apply wp_ret. exists [], t. split_and!; auto. by destruct n. }
  destruct (tcolor t) eqn:Ht; simpl.
  { apply wp_ret. exists (P :: C), t. split_and!; auto.
    destruct n; simpl; rewrite ?Ht; done. }
  unfold need in Hf, Hn. rewrite Ht in Hf, Hn. simpl in Hf, Hn.
  destruct n as [|n]; [lia|].
  pose proof (deficit_sibling _ _ _ HJ) as [Hw Hw'].
  pose proof (del_body_deficit P C t HJ Ht) as (HJ' & Hm & _).
  eapply wp_bind. eapply wp_mono.
  { eapply build_delete_fixup_body_spec; eauto. }
  intros x' st' (-> & HInv' & Hnext & Hnode).
  simpl del_fix. rewrite Ht.
  destruct (del_body P C t) as [C2 t2]. simpl in *.
  eapply wp_mono.
  { apply (IH n C2 t2); auto; try lia. intros E. congruence. }
  intros x'' st'' (Cf & tf & ? & ? & ? & ?). exists Cf, tf.
  split_and!; auto. congruence.
Qed.

Lemma build_delete_fixup_spec st C t np n :
  length C <= n ->
  deficit C t ->
  Inv st (plug C t) np ->
  (is_node t = false -> np = caddr C) ->
  wp (Build._delete_fixup (addr t)) st (fun _ st' =>
    Inv st' (del_fix n C t) np /\ next st' = next st).
Proof.
  intros Hn HJ HInv Hnp. unfold Build._delete_fixup.
  eapply wp_bind_eq; [reflexivity|].
  pose proof (need_le C t) as Hneed.
  eapply wp_bind. eapply wp_mono.
  { apply (build_delete_fixup_loop np _ n C t); auto; [|lia].
    apply Inv_depth in HInv. lia. }
  intros x' st' (Cf & tf & -> & HInv' & Hnext & <-).
  change (addr tf) with (addr (sub_of tf [])).
  eapply wp_mono; [apply (set_color_at _ Cf tf _ HInv' [] BLACK); auto|].
  intros _ st'' [? ?]. split; [done|congruence].
Qed.

(** ** [_insert_fixup] *)

Lemma build_insert_fixup_spec st C t np :
  Inv st (plug C t) np -> is_node t = true -> root_black C ->
  wp (Build._insert_fixup (addr t)) st (fun _ st' =>
    Inv st' (recolor BLACK (ins_fix C t)) np /\ next st' = next st).
Proof.
  intros HInv Ht Hrb. unfold Build._insert_fixup.
  eapply wp_bind_eq; [reflexivity|].
  eapply wp_bind. eapply wp_mono.
  { change Build._insert_fixup_cond with Analyze._insert_fix_cond.
    change Build._insert_fixup_body with Analyze._insert_fix_body.
    apply (insert_fix_loop np _ C t); [|done..]. apply Inv_depth in HInv. lia. }
  intros _ st' [HInv' Hn]. step.
  change (addr (ins_fix C t)) with (addr (sub_of (ins_fix C t) [])).
  change (Inv st' (plug [] (ins_fix C t)) np) in HInv'.
  eapply wp_bind_eq; [exact (rd_color st' [] _ np HInv' [])|].
  cbn [sub_of]. destruct (tcolor (ins_fix C t)) eqn:Ec; simpl.
  - change (ins_fix C t) with (sub_of (ins_fix C t) []) at 1.
    eapply wp_mono; [apply (set_color_at _ [] _ _ HInv' [] BLACK); auto|].
    intros _ st'' [? ?]. split; [done|congruence].
  - apply wp_ret. split; [|done].
    assert (E : recolor BLACK (ins_fix C t) = ins_fix C t).
    { destruct (ins_fix C t); [done|]. simpl in *. by subst. }
    by rewrite E.
Qed.

(** ** [insert] *)

Lemma find_ins_ctx k t : forall C,
  snd (find k t C) = Leaf -> fst (find k t C) = ins_ctx k t C.
Proof.
  induction t as [|a c l IHl x r IHr]; intros C; simpl; [done|].
  destruct (k =? x)%Z; [done|]. destruct (k <? x)%Z; [apply IHl|apply IHr].
Qed.

Lemma build_insert_descent k np fuel : forall t C st,
  height t < fuel ->
  Inv st (plug C t) np ->
  wp (while fuel Build.insert_cond (Build.insert_body k)
        (caddr C, addr t, false)) st
    (fun s st' =>
       st' = st /\
       s = match snd (find k t C) with
           | Leaf => (caddr (fst (find k t C)), NIL, false)
           | Node a _ _ _ _ => (Some a, a, true)
           end).
Proof.
  induction fuel as [|fuel IH]; intros t C st Hf HInv; [lia|].
  destruct t as [|a c l x r]; simpl.
  - unfold Build.insert_cond. simpl. eapply wp_bind_eq; [reflexivity|].
    simpl. by apply wp_ret.
  - pose proof (Inv_nonnil _ _ _ _ _ _ _ _ HInv) as Ha.
    unfold Build.insert_cond at 1, Build.insert_body at 1. simpl.
    eapply wp_bind_eq; [reflexivity|].
    apply Nat.eqb_neq in Ha. rewrite Ha. simpl.
    step. step. simpl in Hf.
    destruct (k =? x)%Z eqn:E0; nsimpl.
    + eapply wp_bind_eq; [reflexivity|].
      destruct fuel as [|fuel]; [lia|]. simpl.
      eapply wp_bind_eq; [reflexivity|]. simpl. by apply wp_ret.
    + destruct (k <? x)%Z; nsimpl.
      * repeat step. apply (IH l (FL a c x r :: C)); [lia|done].
      * repeat step. apply (IH r (FR a c l x :: C)); [lia|done].
Qed.

Theorem build_insert_spec st T np k :
  Inv st T np -> tcolor T = BLACK ->
  wp (Build.insert k) st (fun _ st' =>
    Inv st' (bins_tree (next st) k T) np /\ next st' = S (next st)).
Proof.
  intros HInv Hc. unfold Build.insert, bins_tree.
  eapply wp_bind. eapply wp_mono; [by apply new_node_spec|].
  intros z st1 (-> & HInv1 & Hn1 & Hz & Hfresh).
  eapply wp_bind_eq; [reflexivity|]. step.
  eapply wp_bind. eapply wp_mono.
  { apply (build_insert_descent k np _ T [] st1); [|done].
    pose proof (Inv_size _ _ _ HInv1) as Hs. simpl in Hs.
    pose proof (height_le_size T). lia. }
  intros s st2 [-> ->].
  pose proof (find_ins_ctx k T []) as Hfi.
  destruct (snd (find k T [])) as [|a ca la ka ra] eqn:Ef; simpl.
  2:{ apply wp_ret. done. }
  rewrite (Hfi eq_refl).
  set (C := ins_ctx k T []).
  rewrite <- (plug_ins_ctx k T []) in HInv1. fold C in HInv1.
  apply wp_assoc_rev. eapply wp_bind. eapply wp_mono.
  { apply (link_focus st1 C np (next st) k); [by apply Inv_focus|done| | |].
    - pose proof (addrs_plug (ins_ctx k T []) Leaf) as HP.
      rewrite plug_ins_ctx in HP. simpl in HP. by rewrite HP in Hfresh.
    - lia.
    - by apply dir_ok_ins_ctx. }
  intros _ st3 [HInv3%Inv_focus Hn3].
  eapply wp_mono.
  { apply (build_insert_fixup_spec st3 C (Node (next st) RED Leaf k Leaf) np);
      [done..|]. apply root_black_ins_ctx; done. }
  intros _ st4 [? ?]. split; [done|congruence].
Qed.

(** ** [delete] *)

Lemma build_search_loop k np fuel : forall t C st,
  height t < fuel ->
  Inv st (plug C t) np ->
  wp (while fuel
        (fun s : ptr * bool => ret (negb (snd s) && negb (fst s =? NIL)))
        (fun s : ptr * bool =>
           let node := fst s in
           let* nk := get_key node in
           if (k =? nk)%Z then ret (node, true)
           else if (k <? nk)%Z then
             let* l := get_left node in ret (l, false)
           else
             let* r := get_right node in ret (r, false))
        (addr t, false)) st
    (fun s st' =>
       st' = st /\ s = (addr (snd (find k t C)), is_node (snd (find k t C)))).
Proof.
  induction fuel as [|fuel IH]; intros t C st Hf HInv; [lia|].
  destruct t as [|a c l x r]; simpl.
  - eapply wp_bind_eq; [reflexivity|]. by apply wp_ret.
  - pose proof (Inv_nonnil _ _ _ _ _ _ _ _ HInv) as Ha.
    eapply wp_bind_eq; [reflexivity|].
    apply Nat.eqb_neq in Ha. rewrite Ha. simpl.
    step. step. simpl in Hf.
    destruct (k =? x)%Z eqn:E0; nsimpl.
    + eapply wp_bind_eq; [reflexivity|].
      destruct fuel as [|fuel]; [lia|]. simpl.
      eapply wp_bind_eq; [reflexivity|]. simpl. by apply wp_ret.
    + destruct (k <? x)%Z; nsimpl.
      * repeat step. apply (IH l (FL a c x r :: C)); [lia|done].
      * repeat step. apply (IH r (FR a c l x :: C)); [lia|done].
Qed.

Lemma build_search_recorded_spec st T np k :
  Inv st T np ->
  Build._search_recorded k st = Some (addr (snd (find k T [])), st).
Proof.
  intros HI. unfold Build._search_recorded.
  destruct (build_search_loop k np (next st) T [] st) as (s & st' & E & -> & ->).
  { pose proof (Inv_size _ _ _ HI). pose proof (height_le_size T). lia. }
  { exact HI. }
  unfold bind, budget, get_root. simpl. rewrite (inv_root _ _ _ HI).
  unfold bind in E. simpl in E. rewrite E. simpl.
  by destruct (snd (find k T [])).
Qed.

Lemma build_delete_unfold k :
  Build.delete k =
  (let* z := Build._search_recorded k in
   if z =? NIL then ret false
   else
     let* y_orig := get_color z in
     let* zl := get_left z in
     let* zr := get_right z in
     let* xy := delete_splice z zl zr y_orig in
     (if eqb (snd xy) BLACK then Build._delete_fixup (fst xy) else ret tt);;
     ret true).
Proof. reflexivity. Qed.

Theorem build_delete_spec st T np k :
  Inv st T np -> rb T ->
  wp (Build.delete k) st (fun b st' =>
    b = is_node (snd (find k T []))
    /\ (exists np', Inv st' (del_tree k T) np') /\ next st' = next st).
Proof.
  intros HInv HT. rewrite build_delete_unfold.
  eapply wp_bind_eq; [apply (build_search_recorded_spec st T np k HInv)|].
  unfold del_tree.
  pose proof (plug_find k T []) as Hp.
  destruct (find k T []) as [C t]. cbn [fst snd] in *. simpl in Hp.
  destruct t as [|z cz l kz r]; cbn [addr].
  { simpl. apply wp_ret. split_and!; [done|by exists np|done]. }
  rewrite <- Hp in HInv, HT.
  pose proof (Inv_nonnil _ _ _ _ _ _ _ _ HInv) as Hz.
  apply Nat.eqb_neq in Hz. rewrite Hz.
  pose proof (Inv_focus_at st C (Node z cz l kz r) [] np HInv) as HF.
  cbn [ctx_of sub_of] in HF.
  eapply wp_bind_eq.
  { unfold get_color, bind. by rewrite (load_node _ _ _ _ _ _ _ _ HF). }
  eapply wp_bind_eq.
  { unfold get_left, bind. by rewrite (load_node _ _ _ _ _ _ _ _ HF). }
  eapply wp_bind_eq.
  { unfold get_right, bind. by rewrite (load_node _ _ _ _ _ _ _ _ HF). }
  cbn [color left right].
  eapply wp_bind. eapply wp_mono; [by apply (delete_splice_spec st C z cz l kz r np)|].
  intros xy st1. cbv beta.
  pose proof (del_focus_ok C z cz l kz r HT) as Hok.
  destruct (del_focus C (Node z cz l kz r)) as [[Cx tx] yc].
  intros (-> & Hn & np' & HI & Hnp). cbn [fst snd]. destruct Hok as [Hok _].
  destruct yc; cbn [eqb BLACK] in *.
  - eapply wp_bind_eq; [reflexivity|]. apply wp_ret.
    split_and!; [done|by exists np'|done].
  - eapply wp_bind. eapply wp_mono.
    { apply (build_delete_fixup_spec st1 Cx tx np' (S (length Cx))); auto. }
    intros _ st2 [? ?]. apply wp_ret.
    split_and!; [done|by exists np'|congruence].
Qed.

(** ** Sequences of actions on the animated engine *)

Lemma bins_tree_rb z k T : rb T -> rb (bins_tree z k T).
Proof.
  intros HT. unfold bins_tree. destruct (is_node _); [done|].
  by apply ins_tree_rb.
Qed.

Lemma bstep_tree_rb z s T : rb T -> rb (bstep_tree z s T).
Proof.
  destruct s as [[[] k] h]; simpl; [apply bins_tree_rb|apply del_tree_rb].
Qed.

Lemma bstep_tree_strict z s T :
  rb T -> strictly_increasing (keys T) ->
  strictly_increasing (keys (bstep_tree z s T)).
Proof.
  intros HT Hs. pose proof (strictly_increasing_weaken _ Hs) as Hw.
  destruct s as [[[] k] h]; simpl.
  - unfold bins_tree. destruct (is_node (snd (find k T []))) eqn:Ef; [done|].
    assert (Hk : k ∉ keys T).
    { intros Hin. apply (find_hit k T Hw) in Hin. congruence. }
    destruct (ins_tree_keys z k T) as (l1 & l2 & E1 & E2 & Hb).
    destruct (Hb Hw) as [H1 H2]. rewrite E2. rewrite E1 in Hs, Hk.
    apply strictly_increasing_add; auto.
    intros Hin. apply Hk. apply elem_of_app. by left.
  - destruct (del_tree_keys k T HT) as [(l1 & l2 & E1 & E2)|[E _]].
    + rewrite E2. rewrite E1 in Hs. by apply sorted_remove in Hs.
    + by rewrite E.
Qed.

Lemma bsteps_tree_rb steps : forall z T,
  rb T -> strictly_increasing (keys T) ->
  rb (bsteps_tree z steps T)
  /\ strictly_increasing (keys (bsteps_tree z steps T)).
Proof.
  induction steps as [|s steps IH]; intros z T HT Hs; simpl; [done|].
  apply IH; [by apply bstep_tree_rb|by apply bstep_tree_strict].
Qed.

Lemma run_step_animated_spec s st T np :
  Inv st T np -> rb T ->
  wp (run_step_animated s) st (fun _ st' =>
    (exists np', Inv st' (bstep_tree (next st) s T) np')
    /\ next st' = step_next (next st) s).
Proof.
  intros HI HT. destruct s as [[[] k] h]; simpl.
  - eapply wp_mono; [apply (build_insert_spec st T np k HI); apply HT|].
    intros _ st' [? ?]. split; [by exists np|done].
  - eapply wp_bind. eapply wp_mono; [exact (build_delete_spec st T np k HI HT)|].
    intros b st' (_ & ? & ?). apply wp_ret. done.
Qed.

Lemma run_steps_animated_cons s steps :
  run_steps_animated (s :: steps)
  = bind (run_step_animated s) (fun _ => run_steps_animated steps).
Proof. by destruct s as [[[] k] h]. Qed.

Lemma run_steps_animated_spec steps : forall st T np,
  Inv st T np -> rb T -> strictly_increasing (keys T) ->
  wp (run_steps_animated steps) st (fun _ st' =>
    exists np', Inv st' (bsteps_tree (next st) steps T) np').
Proof.
  induction steps as [|s steps IH]; intros st T np HI HT Hs.
  - apply wp_ret. by exists np.
  - rewrite run_steps_animated_cons. apply wp_bind. eapply wp_mono.
    { by apply (run_step_animated_spec s st T np). }
    intros _ st' [[np' HI'] Hn]. cbn [bsteps_tree]. rewrite <- Hn.
    apply (IH st' _ np' HI').
    + by apply bstep_tree_rb.
    + by apply bstep_tree_strict.
Qed.

Lemma execute_steps_animated_spec steps :
  exists st np, execute_steps_animated steps = Some st
                /\ Inv st (bsteps_tree 1 steps Leaf) np.
Proof.
  destruct (run_steps_animated_spec steps RBTree_init Leaf None Inv_init rb_Leaf)
    as (u & st & E & np & HI); [constructor|].
  exists st, np. unfold execute_steps_animated. by rewrite E.
Qed.

Lemma reachable_animated_inv steps st :
  execute_steps_animated steps = Some st ->
  exists T np, Inv st T np /\ rb T /\ strictly_increasing (keys T).
Proof.
  intros E. destruct (execute_steps_animated_spec steps) as (st' & np & E' & HI).
  assert (st' = st) by congruence. subst st'.
  destruct (bsteps_tree_rb steps 1 Leaf rb_Leaf) as [H1 H2]; [constructor|].
  eauto.
Qed.

(** With no insert of a key that is present the two engines go through the
    same trees. *)
Lemma bsteps_tree_fresh steps : forall z T p,
  rb T -> strictly_increasing (keys T) -> (forall x, x ∈ p <-> x ∈ keys T) ->
  fresh_inserts p steps ->
  bsteps_tree z steps T = steps_tree z steps T.
Proof.
  induction steps as [|s steps IH]; intros z T p HT Hs Hp Hf; [done|].
  assert (Hf1 : fresh_inserts p [s]).
  { destruct s as [[[] k] h]; simpl in *; tauto. }
  destruct (step_tree_strict z s T p HT Hs Hp Hf1) as [H1 H2].
  assert (E : bstep_tree z s T = step_tree z s T).
  { destruct s as [[[] k] h]; [|done]. simpl. unfold bins_tree.
    destruct Hf1 as [Hk _]. rewrite Hp in Hk.
    by rewrite (find_miss k T Hk). }
  cbn [bsteps_tree steps_tree]. rewrite E.
  apply (IH _ _ (steps_keys [s] p)); auto.
  - by apply step_tree_rb.
  - destruct s as [[[] k] h]; simpl in *; tauto.
Qed.

(** * The snapshots of the animated engine and the functions that read them *)

Lemma collect_keys_erase T : collect_keys (erase T) = map Some (keys T).
Proof.
  induction T as [|a c l IHl k r IHr]; simpl; [done|].
  by rewrite IHl, IHr, map_app.
Qed.

Lemma tree_height_erase T : tree_height (erase T) = height T.
Proof. induction T as [|a c l IHl k r IHr]; simpl; [done|]. by rewrite IHl, IHr. Qed.

Lemma count_nodes_erase T : count_nodes (erase T) = size T.
Proof. induction T as [|a c l IHl k r IHr]; simpl; [done|]. rewrite IHl, IHr. lia. Qed.

Lemma black_height_fp_bh fp : black_height fp + 1 = fp_bh fp.
Proof. induction fp as [|k c l IHl r IHr]; simpl; [done|]. lia. Qed.

Lemma count_colors_sum fp :
  fst (count_colors fp) + snd (count_colors fp) = count_nodes fp.
Proof.
  induction fp as [|k c l IHl r IHr]; simpl; [done|].
  destruct (count_colors l) as [bl rl], (count_colors r) as [br rr].
  simpl in *. destruct c; simpl; lia.
Qed.

(** [validate_rb] answers [(False, 0)] or [(True, h)], where [h] counts the
    BLACK nodes of the leftmost path and the sentinel. *)
Lemma validate_rb_false fp : forall pc,
  fst (validate_rb fp pc) = false -> validate_rb fp pc = (false, 0).
Proof.
  destruct fp as [|k c l r]; intros pc; simpl; [done|].
  destruct (c && bool_decide (pc = Some RED)); [done|].
  destruct (validate_rb l (Some c)) as [okl bl].
  destruct (validate_rb r (Some c)) as [okr br].
  by destruct (negb okl || negb okr || negb (bl =? br)).
Qed.

Lemma validate_rb_true fp : forall pc n,
  validate_rb fp pc = (true, n) <->
  (pc = Some RED -> fp_color fp = BLACK)
  /\ no_red_red fp /\ equal_black_height fp /\ n = fp_bh fp.
Proof.
  induction fp as [|k c l IHl r IHr]; intros pc n; simpl.
  { split; [intros [= <-]; done|]. by intros (_ & _ & _ & ->). }
  specialize (IHl (Some c)). specialize (IHr (Some c)).
  destruct (c && bool_decide (pc = Some RED)) eqn:Ec.
  { apply andb_true_iff in Ec as [-> Hp]. apply bool_decide_eq_true in Hp.
    split; [done|]. intros (H & _). by specialize (H Hp). }
  assert (Hpc : pc = Some RED -> c = BLACK).
  { intros ->. destruct c; [|done]. cbn [andb] in Ec.
    by apply bool_decide_eq_false in Ec. }
  destruct (validate_rb l (Some c)) as [okl bl].
  destruct (validate_rb r (Some c)) as [okr br].
  split.
  - destruct okl, okr; simpl; try done.
    destruct (bl =? br) eqn:Eb; simpl; [|done].
    intros [= <-]. apply Nat.eqb_eq in Eb. subst br.
    destruct (proj1 (IHl bl) eq_refl) as (Hl1 & Hl2 & Hl3 & Hl4).
    destruct (proj1 (IHr bl) eq_refl) as (Hr1 & Hr2 & Hr3 & Hr4).
    split_and!; auto; try congruence.
    intros ->. split; auto.
  - intros (_ & (Hc & Hl2 & Hr2) & (Hb & Hl3 & Hr3) & ->).
    assert (El : (okl, bl) = (true, fp_bh l)).
    { apply IHl. split_and!; auto. intros [= ->]. by apply Hc. }
    assert (Er : (okr, br) = (true, fp_bh r)).
    { apply IHr. split_and!; auto. intros [= ->]. by apply Hc. }
    injection El as -> ->. injection Er as -> ->. simpl.
    by rewrite Hb, Nat.eqb_refl.
Qed.






(** ** [validate_rb] of build.py and [validate_rb_tree] of analyze.py *)

Lemma fp_color_tnode t : fp_color (tnode_to_tuple t) = tn_color t.
Proof. by destruct t. Qed.

Lemma col_ok_fp t : forall c h,
  col_ok t c h <->
  c = tn_color t
  /\ no_red_red (tnode_to_tuple t) /\ equal_black_height (tnode_to_tuple t)
  /\ h = Z.of_nat (fp_bh (tnode_to_tuple t)).
Proof.
  induction t as [|k c' l IHl r IHr]; intros c h.
  - simpl. split; [by intros [-> ->]|]. by intros (-> & _ & _ & ->).
  - cbn [col_ok tnode_to_tuple no_red_red equal_black_height fp_bh tn_color].
    rewrite !fp_color_tnode. split.
    + intros (-> & lc & rc & ch & Hl & Hr & Hc & ->).
      apply IHl in Hl as (-> & Hl1 & Hl2 & ->).
      apply IHr in Hr as (-> & Hr1 & Hr2 & Hr3).
      split_and!; auto; try lia. destruct c; simpl; lia.
    + intros (-> & (Hc & Hl1 & Hr1) & (Hb & Hl2 & Hr2) & ->).
      split; [done|].
      exists (tn_color l), (tn_color r), (Z.of_nat (fp_bh (tnode_to_tuple l))).
      split_and!;
        [by apply IHl
        |apply IHr; split_and!; auto; by rewrite Hb
        |done
        |destruct c'; simpl; lia].
Qed.

Lemma validators_agree t :
  fst (validate_rb (tnode_to_tuple t) None) = fst (fst (validate_rb_tree t None))
  /\ (fst (fst (validate_rb_tree t None)) = true ->
      Z.of_nat (snd (validate_rb (tnode_to_tuple t) None))
      = snd (fst (validate_rb_tree t None))).
Proof.
  assert (HB : fst (fst (validate_rb_tree t None)) = true <->
               no_red_red (tnode_to_tuple t)
               /\ equal_black_height (tnode_to_tuple t)).
  { rewrite validate_ok, validate_errors. split.
    - intros [[h Hc] _]. apply col_ok_fp in Hc. tauto.
    - intros [H1 H2]. split.
      + exists (Z.of_nat (fp_bh (tnode_to_tuple t))). by apply col_ok_fp.
      + by intros (_ & ? & _). }
  assert (HA : no_red_red (tnode_to_tuple t)
               /\ equal_black_height (tnode_to_tuple t) ->
               validate_rb (tnode_to_tuple t) None
               = (true, fp_bh (tnode_to_tuple t))).
  { intros [H1 H2]. apply validate_rb_true. split_and!; auto. done. }
  split.
  - destruct (fst (fst (validate_rb_tree t None))) eqn:E.
    + by rewrite (HA (proj1 HB eq_refl)).
    + destruct (validate_rb (tnode_to_tuple t) None) as [[] n] eqn:E'; [|done].
      apply validate_rb_true in E' as (_ & H1 & H2 & _).
      pose proof (proj2 HB (conj H1 H2)). congruence.
  - intros E. pose proof (proj1 HB E) as H. rewrite (HA H). simpl.
    symmetry. apply (validate_bh t None (tn_color t)).
    apply col_ok_fp. tauto.
Qed.

(** * The animated engine holds a set of keys *)

Lemma bstep_tree_keys z s T (present : gset Z) :
  rb T -> strictly_increasing (keys T) ->
  (forall x, x ∈ keys T <-> x ∈ present) ->
  forall x, x ∈ keys (bstep_tree z s T) <-> x ∈ keys_after [s] present.
Proof.
  intros HT Hs Hp x. pose proof (strictly_increasing_weaken _ Hs) as Hw.
  destruct s as [[[] k] h]; simpl.
  - rewrite elem_of_union, elem_of_singleton, <- Hp. unfold bins_tree.
    destruct (is_node (snd (find k T []))) eqn:Ef.
    + split; [auto|]. intros [->|H]; [|done].
      destruct (decide (k ∈ keys T)) as [|Hk]; [done|].
      by rewrite (find_miss k T Hk) in Ef.
    + destruct (ins_tree_keys z k T) as (l1 & l2 & E1 & E2 & _).
      rewrite E1, E2, !elem_of_app, elem_of_cons. tauto.
  - rewrite elem_of_difference, elem_of_singleton, <- Hp.
    destruct (decide (k ∈ keys T)) as [Hk|Hk].
    + destruct (del_tree_present k T HT Hw Hk) as (l1 & l2 & E1 & E2).
      rewrite E1, E2. rewrite E1 in Hs.
      pose proof (strictly_increasing_NoDup _ Hs) as Hnd.
      apply NoDup_app in Hnd as (_ & H12 & Hnd2).
      apply NoDup_cons in Hnd2 as [Hk2 _].
      rewrite !elem_of_app, elem_of_cons. split.
      * intros [H|H]; (split; [tauto|]); intros ->; [|done].
        apply (H12 _ H). by left.
      * intros [[H|[->|H]] Hne]; tauto.
    + rewrite (del_tree_absent k T Hk). split; [|tauto].
      intros Hx. split; [done|]. by intros ->.
Qed.

Lemma keys_after_cons s steps present :
  keys_after (s :: steps) present = keys_after steps (keys_after [s] present).
Proof. by destruct s as [[[] k] h]. Qed.

Lemma bsteps_tree_keys steps : forall z T (present : gset Z),
  rb T -> strictly_increasing (keys T) ->
  (forall x, x ∈ keys T <-> x ∈ present) ->
  forall x, x ∈ keys (bsteps_tree z steps T) <-> x ∈ keys_after steps present.
Proof.
  induction steps as [|s steps IH]; intros z T present HT Hs Hp; [done|].
  cbn [bsteps_tree]. rewrite keys_after_cons.
  apply IH.
  - by apply bstep_tree_rb.
  - by apply bstep_tree_strict.
  - by apply bstep_tree_keys.
Qed.

(** * The order of the keys of build.py *)

Lemma Qltb_lt p q : negb (Qle_bool q p) = true <-> (p < q)%Q.
Proof.
  rewrite negb_true_iff. split.
  - intros H. apply Qnot_le_lt. intros Hle. apply Qle_bool_iff in Hle. congruence.
  - intros H. destruct (Qle_bool q p) eqn:E; [|done].
    apply Qle_bool_iff in E. exfalso. by apply (Qlt_not_le p q).
Qed.

Lemma xltb_irrefl a : xltb a a = false.
Proof.
  destruct a as [|q|]; simpl; [done| |done].
  apply negb_false_iff, Qle_bool_iff, Qle_refl.
Qed.

Lemma xltb_trans a b c : xltb a b = true -> xltb b c = true -> xltb a c = true.
Proof.
  destruct a as [|p|], b as [|q|], c as [|r|]; simpl; try done.
  rewrite !Qltb_lt. apply Qlt_trans.
Qed.

Lemma xeqb_refl a : xeqb a a = true.
Proof. destruct a as [|q|]; simpl; [done| |done]. apply Qeq_bool_iff, Qeq_refl. Qed.

Lemma xeqb_ltb_l a b c : xeqb a b = true -> xltb a c = xltb b c.
Proof.
  destruct a as [|p|], b as [|q|], c as [|r|]; simpl; try done.
  intros E%Qeq_bool_iff.
  apply eq_true_iff_eq. rewrite !Qltb_lt. by rewrite E.
Qed.

Lemma xeqb_ltb_r a b c : xeqb a b = true -> xltb c a = xltb c b.
Proof.
  destruct a as [|p|], b as [|q|], c as [|r|]; simpl; try done.
  intros E%Qeq_bool_iff.
  apply eq_true_iff_eq. rewrite !Qltb_lt. by rewrite E.
Qed.

Lemma xval_trichotomy a b :
  xeqb a b = negb (xltb a b) && negb (xltb b a).
Proof.
  destruct a as [|p|], b as [|q|]; simpl; try done.
  rewrite !negb_involutive.
  destruct (Qeq_bool p q) eqn:E.
  - apply Qeq_bool_iff in E. symmetry. apply andb_true_iff. split.
    + apply Qle_bool_iff. rewrite E. apply Qle_refl.
    + apply Qle_bool_iff. rewrite E. apply Qle_refl.
  - symmetry. apply andb_false_iff.
    destruct (Qle_bool q p) eqn:E1; [|by left].
    destruct (Qle_bool p q) eqn:E2; [|by right].
    apply Qle_bool_iff in E1, E2.
    assert (p == q)%Q by (by apply Qle_antisym).
    apply Qeq_bool_iff in H. congruence.
Qed.

Lemma xltb_asym a b : xltb a b = true -> xltb b a = false.
Proof.
  intros H. destruct (xltb b a) eqn:E; [|done].
  pose proof (xltb_trans _ _ _ H E) as H1. by rewrite xltb_irrefl in H1.
Qed.

(** The same on keys. *)
Lemma is_nan_false k : is_nan k = false <-> exists x, kval k = Some x.
Proof.
  unfold is_nan. destruct (kval k); split; try done; eauto. by intros [? ?].
Qed.

Lemma key_lt_irrefl a : key_lt a a = false.
Proof. unfold key_lt. destruct (kval a); [apply xltb_irrefl|done]. Qed.

Lemma key_lt_trans a b c :
  key_lt a b = true -> key_lt b c = true -> key_lt a c = true.
Proof.
  unfold key_lt. destruct (kval a), (kval b), (kval c); try done.
  apply xltb_trans.
Qed.

Lemma key_lt_asym a b : key_lt a b = true -> key_lt b a = false.
Proof.
  unfold key_lt. destruct (kval a), (kval b); try done. apply xltb_asym.
Qed.

Lemma key_eq_lt_l a b c : key_eq a b = true -> key_lt a c = key_lt b c.
Proof.
  unfold key_eq, key_lt. destruct (kval a), (kval b), (kval c); try done.
  apply xeqb_ltb_l.
Qed.

Lemma key_eq_lt_r a b c : key_eq a b = true -> key_lt c a = key_lt c b.
Proof.
  unfold key_eq, key_lt. destruct (kval a), (kval b), (kval c); try done.
  apply xeqb_ltb_r.
Qed.

Lemma key_trichotomy a b :
  is_nan a = false -> is_nan b = false ->
  key_eq a b = negb (key_lt a b) && negb (key_lt b a).
Proof.
  intros [x Ha]%is_nan_false [y Hb]%is_nan_false.
  unfold key_eq, key_lt. rewrite Ha, Hb. apply xval_trichotomy.
Qed.

Lemma key_eq_refl a : is_nan a = false -> key_eq a a = true.
Proof.
  intros [x Ha]%is_nan_false. unfold key_eq. rewrite Ha. apply xeqb_refl.
Qed.

Lemma key_eq_sym a b : key_eq a b = key_eq b a.
Proof.
  unfold key_eq. destruct (kval a) as [x|] eqn:Ha, (kval b) as [y|] eqn:Hb; try done.
  rewrite !xval_trichotomy. apply andb_comm.
Qed.

Lemma key_eq_not_nan a b :
  key_eq a b = true -> is_nan a = false /\ is_nan b = false.
Proof.
  unfold key_eq, is_nan. by destruct (kval a), (kval b).
Qed.

Lemma key_eq_trans a b c :
  key_eq a b = true -> key_eq b c = true -> key_eq a c = true.
Proof.
  intros H1 H2. destruct (key_eq_not_nan _ _ H1) as [Ha Hb].
  destruct (key_eq_not_nan _ _ H2) as [_ Hc].
  rewrite key_trichotomy by done.
  rewrite (key_eq_lt_l a b c H1), (key_eq_lt_r a b c H1).
  rewrite <- key_trichotomy by done. exact H2.
Qed.

(** * The place of a key among finitely many keys *)

Lemma filter_length_le {A} (P Q : A -> bool) (l : list A) :
  (forall y, y ∈ l -> P y = true -> Q y = true) ->
  length (List.filter P l) <= length (List.filter Q l).
Proof.
  induction l as [|x l IH]; intros H; simpl; [done|].
  assert (IH' : length (List.filter P l) <= length (List.filter Q l)).
  { apply IH. intros y Hy. apply H. by right. }
  destruct (P x) eqn:E.
  - rewrite (H x); [simpl; lia|left|done].
  - destruct (Q x); simpl; lia.
Qed.

Lemma filter_length_lt {A} (P Q : A -> bool) (l : list A) a :
  (forall y, y ∈ l -> P y = true -> Q y = true) ->
  a ∈ l -> P a = false -> Q a = true ->
  length (List.filter P l) < length (List.filter Q l).
Proof.
  induction l as [|x l IH]; intros H Ha Pa Qa; simpl.
  { by apply elem_of_nil in Ha. }
  assert (Hle : length (List.filter P l) <= length (List.filter Q l)).
  { apply filter_length_le. intros y Hy. apply H. by right. }
  apply elem_of_cons in Ha as [<-|Ha].
  - rewrite Pa, Qa. simpl. lia.
  - assert (length (List.filter P l) < length (List.filter Q l)).
    { apply IH; auto. intros y Hy. apply H. by right. }
    destruct (P x) eqn:E.
    + rewrite (H x); [simpl; lia|left|done].
    + destruct (Q x); simpl; lia.
Qed.

Lemma rank_lt K a b :
  a ∈ K -> key_lt a b = true -> (rank K a < rank K b)%Z.
Proof.
  intros Ha Hab. unfold rank. apply inj_lt.
  apply (filter_length_lt _ _ K a); auto.
  - intros y _ Hy. by apply (key_lt_trans y a b).
  - apply key_lt_irrefl.
Qed.

Lemma rank_eq K a b : key_eq a b = true -> rank K a = rank K b.
Proof.
  intros Hab. unfold rank. f_equal. f_equal.
  induction K as [|y K IH]; simpl; [done|].
  by rewrite (key_eq_lt_r a b y Hab), IH.
Qed.

(** Among keys of the list that are not NaN, the places compare as the keys
    do. *)
Lemma rank_spec K a b :
  a ∈ K -> b ∈ K -> is_nan a = false -> is_nan b = false ->
  key_eq a b = (rank K a =? rank K b)%Z
  /\ key_lt a b = (rank K a <? rank K b)%Z.
Proof.
  intros Ha Hb Na Nb. pose proof (key_trichotomy a b Na Nb) as Ht.
  destruct (key_lt a b) eqn:E1.
  - pose proof (rank_lt K a b Ha E1). simpl in Ht. rewrite Ht. split; symmetry.
    + apply Z.eqb_neq. lia.
    + apply Z.ltb_lt. lia.
  - destruct (key_lt b a) eqn:E2.
    + pose proof (rank_lt K b a Hb E2). simpl in Ht. rewrite Ht. split; symmetry.
      * apply Z.eqb_neq. lia.
      * apply Z.ltb_ge. lia.
    + simpl in Ht. rewrite Ht. pose proof (rank_eq K a b Ht) as ->.
      split; symmetry; [apply Z.eqb_refl|apply Z.ltb_irrefl].
Qed.

(** * The engine on floats runs as the engine on integers

    With the keys replaced by integers that compare in the same way, the
    methods of [BuildF] are the methods of [Build]: they follow the same
    path, return the same values and leave the same links and colours. *)

Section simulation.
Variable emb : pykey -> Z.

Lemma sim_ret {A} (a : A) : sim emb (BuildF.ret a) (ret a).
Proof. intros st. done. Qed.

Lemma sim_raise {A} : sim emb (@BuildF.raise A) (@raise A).
Proof. intros st. done. Qed.

Lemma sim_bind {A B} (mf : BuildF.M A) (mz : M A)
    (ff : A -> BuildF.M B) (fz : A -> M B) :
  sim emb mf mz -> (forall a, sim emb (ff a) (fz a)) ->
  sim emb (BuildF.bind mf ff) (bind mz fz).
Proof.
  intros H1 H2 st. unfold BuildF.bind, bind. specialize (H1 st).
  destruct (mf st) as [[a st']|].
  - destruct H1 as [E Hk]. rewrite E. specialize (H2 a st').
    destruct (ff a st') as [[b st'']|]; [|done].
    destruct H2 as [E2 Hk2]. split; [done|congruence].
  - by rewrite H1.
Qed.

Lemma sim_while {S} (cf : S -> BuildF.M bool) (cz : S -> M bool)
    (bf : S -> BuildF.M S) (bz : S -> M S) fuel :
  (forall s, sim emb (cf s) (cz s)) -> (forall s, sim emb (bf s) (bz s)) ->
  forall s, sim emb (BuildF.while fuel cf bf s) (while fuel cz bz s).
Proof.
  intros Hc Hb. induction fuel as [|fuel IH]; intros s; simpl.
  - apply sim_raise.
  - apply sim_bind; [apply Hc|]. intros [].
    + apply sim_bind; [apply Hb|]. apply IH.
    + apply sim_ret.
Qed.

Lemma mp_lookup st a :
  heap (mp emb st) !! a = mpn emb <$> (BuildF.heap st !! a).
Proof. simpl. apply lookup_fmap. Qed.

Lemma sim_load {A} a (ff : BuildF.RBNode -> BuildF.M A) (fz : RBNode -> M A) :
  (forall n, sim emb (ff n) (fz (mpn emb n))) ->
  sim emb (BuildF.bind (BuildF.load a) ff) (bind (load a) fz).
Proof.
  intros H st. unfold BuildF.bind, bind, BuildF.load, load.
  rewrite mp_lookup. destruct (BuildF.heap st !! a) as [n|]; simpl; [|done].
  apply H.
Qed.

Lemma sim_store a n n' :
  n' = mpn emb n ->
  forall st nd, BuildF.heap st !! a = Some nd -> BuildF.key n = BuildF.key nd ->
  match BuildF.store a n st with
  | Some (u, st') => store a n' (mp emb st) = Some (u, mp emb st')
                     /\ ktab st' = ktab st
  | None => store a n' (mp emb st) = None
  end.
Proof.
  intros -> st nd Hnd Hk. unfold BuildF.store, store, mp, ktab. simpl.
  rewrite !fmap_insert. split; [done|].
  rewrite Hk. apply insert_id. by rewrite lookup_fmap, Hnd.
Qed.

Lemma sim_get_color a : sim emb (BuildF.get_color a) (get_color a).
Proof. apply sim_load. intros n. apply sim_ret. Qed.
Lemma sim_get_left a : sim emb (BuildF.get_left a) (get_left a).
Proof. apply sim_load. intros n. apply sim_ret. Qed.
Lemma sim_get_right a : sim emb (BuildF.get_right a) (get_right a).
Proof. apply sim_load. intros n. apply sim_ret. Qed.
Lemma sim_get_parent a : sim emb (BuildF.get_parent a) (get_parent a).
Proof. apply sim_load. intros n. apply sim_ret. Qed.

Ltac sim_setter :=
  let st := fresh "st" in let n := fresh "n" in let E := fresh "E" in
  intros st;
  unfold BuildF.set_color, BuildF.set_left, BuildF.set_right, BuildF.set_parent,
    set_color, set_left, set_right, set_parent, BuildF.bind, bind,
    BuildF.load, load;
  rewrite mp_lookup;
  destruct (BuildF.heap st !! _) as [n|] eqn:E; simpl; [|done];
  eapply sim_store; [reflexivity|exact E|reflexivity].

Lemma sim_set_color a c : sim emb (BuildF.set_color a c) (set_color a c).
Proof. sim_setter. Qed.
Lemma sim_set_left a l : sim emb (BuildF.set_left a l) (set_left a l).
Proof. sim_setter. Qed.
Lemma sim_set_right a r : sim emb (BuildF.set_right a r) (set_right a r).
Proof. sim_setter. Qed.
Lemma sim_set_parent a p : sim emb (BuildF.set_parent a p) (set_parent a p).
Proof. sim_setter. Qed.

Lemma sim_get_root : sim emb BuildF.get_root get_root.
Proof. intros st. done. Qed.
Lemma sim_set_root r : sim emb (BuildF.set_root r) (set_root r).
Proof. intros st. done. Qed.
Lemma sim_budget : sim emb BuildF.budget budget.
Proof. intros st. done. Qed.
Lemma sim_deref o : sim emb (BuildF.deref o) (deref o).
Proof. destruct o; [apply sim_ret|apply sim_raise]. Qed.

Ltac sim_step :=
  first
    [ apply sim_ret | apply sim_raise
    | apply sim_get_color | apply sim_get_left | apply sim_get_right
    | apply sim_get_parent | apply sim_set_color | apply sim_set_left
    | apply sim_set_right | apply sim_set_parent | apply sim_get_root
    | apply sim_set_root | apply sim_budget | apply sim_deref
    | assumption
    | apply sim_bind; [|intros ?]
    | apply sim_while; intros ?
    | match goal with
      | |- sim _ (if ?b then _ else _) (if ?b then _ else _) => destruct b
      | |- sim _ (match ?x with Some _ => _ | None => _ end) _ => destruct x
      | |- sim _ (let '(_, _) := ?x in _) _ => destruct x
      end ].
Ltac sim_auto := repeat sim_step.

Lemma sim_left_rotate x : sim emb (BuildF._left_rotate x) (Build._left_rotate x).
Proof. unfold BuildF._left_rotate, Build._left_rotate. sim_auto. Qed.

Lemma sim_right_rotate x :
  sim emb (BuildF._right_rotate x) (Build._right_rotate x).
Proof. unfold BuildF._right_rotate, Build._right_rotate. sim_auto. Qed.

Lemma sim_insert_fixup_cond z :
  sim emb (BuildF._insert_fixup_cond z) (Build._insert_fixup_cond z).
Proof. unfold BuildF._insert_fixup_cond, Build._insert_fixup_cond. sim_auto. Qed.

Lemma sim_insert_fixup_body z :
  sim emb (BuildF._insert_fixup_body z) (Build._insert_fixup_body z).
Proof.
  pose proof sim_left_rotate. pose proof sim_right_rotate.
  unfold BuildF._insert_fixup_body, Build._insert_fixup_body.
  repeat first [apply sim_left_rotate | apply sim_right_rotate | sim_step].
Qed.

Lemma sim_insert_fixup z :
  sim emb (BuildF._insert_fixup z) (Build._insert_fixup z).
Proof.
  unfold BuildF._insert_fixup, Build._insert_fixup.
  repeat first [apply sim_insert_fixup_cond | apply sim_insert_fixup_body
               | sim_step].
Qed.

Lemma sim_transplant u v :
  sim emb (BuildF._transplant u v) (Build._transplant u v).
Proof. unfold BuildF._transplant, Build._transplant. sim_auto. Qed.

Lemma sim_minimum x : sim emb (BuildF._minimum x) (Build._minimum x).
Proof. unfold BuildF._minimum, Build._minimum. sim_auto. Qed.

Lemma sim_nil_or_black a :
  sim emb (BuildF.nil_or_black a) (Build.nil_or_black a).
Proof. unfold BuildF.nil_or_black, Build.nil_or_black. sim_auto. Qed.

Lemma sim_blacken_unless_nil a :
  sim emb (BuildF.blacken_unless_nil a) (Build.blacken_unless_nil a).
Proof. unfold BuildF.blacken_unless_nil, Build.blacken_unless_nil. sim_auto. Qed.

Lemma sim_delete_fixup_cond x :
  sim emb (BuildF._delete_fixup_cond x) (Build._delete_fixup_cond x).
Proof. unfold BuildF._delete_fixup_cond, Build._delete_fixup_cond. sim_auto. Qed.

Lemma sim_delete_fixup_body x :
  sim emb (BuildF._delete_fixup_body x) (Build._delete_fixup_body x).
Proof.
  unfold BuildF._delete_fixup_body, Build._delete_fixup_body.
  repeat first [apply sim_left_rotate | apply sim_right_rotate
               | apply sim_nil_or_black | apply sim_blacken_unless_nil
               | sim_step].
Qed.

Lemma sim_delete_fixup x :
  sim emb (BuildF._delete_fixup x) (Build._delete_fixup x).
Proof.
  unfold BuildF._delete_fixup, Build._delete_fixup.
  repeat first [apply sim_delete_fixup_cond | apply sim_delete_fixup_body
               | sim_step].
Qed.

(** ** The methods that compare keys *)

(** [K] holds of the keys that are stored, [Q] of the keys that are asked
    for. *)
Variables K Q : pykey -> Prop.
Hypothesis Hemb : forall a b, Q a -> K b ->
  key_eq a b = (emb a =? emb b)%Z /\ key_lt a b = (emb a <? emb b)%Z.

Lemma sim_simP {A} (mf : BuildF.M A) (mz : M A) :
  sim emb mf mz -> simP emb K mf mz.
Proof. intros H st _. apply H. Qed.

Lemma keys_ok_ktab st st' : ktab st' = ktab st -> keys_ok K st -> keys_ok K st'.
Proof. intros E H p k. rewrite E. apply H. Qed.

Lemma simP_bind {A B} (mf : BuildF.M A) (mz : M A)
    (ff : A -> BuildF.M B) (fz : A -> M B) :
  simP emb K mf mz -> (forall a, simP emb K (ff a) (fz a)) ->
  simP emb K (BuildF.bind mf ff) (bind mz fz).
Proof.
  intros H1 H2 st Hok. unfold BuildF.bind, bind. specialize (H1 st Hok).
  destruct (mf st) as [[a st']|].
  - destruct H1 as [E Hk]. rewrite E.
    specialize (H2 a st' (keys_ok_ktab _ _ Hk Hok)).
    destruct (ff a st') as [[b st'']|]; [|done].
    destruct H2 as [E2 Hk2]. split; [done|congruence].
  - by rewrite H1.
Qed.

Lemma simP_while {S} (cf : S -> BuildF.M bool) (cz : S -> M bool)
    (bf : S -> BuildF.M S) (bz : S -> M S) fuel :
  (forall s, simP emb K (cf s) (cz s)) -> (forall s, simP emb K (bf s) (bz s)) ->
  forall s, simP emb K (BuildF.while fuel cf bf s) (while fuel cz bz s).
Proof.
  intros Hc Hb. induction fuel as [|fuel IH]; intros s; simpl.
  - apply sim_simP, sim_raise.
  - apply simP_bind; [apply Hc|]. intros [].
    + apply simP_bind; [apply Hb|]. apply IH.
    + apply sim_simP, sim_ret.
Qed.

(** Reading a key gives a key of [K] on the one side and its integer on the
    other. *)
Lemma simP_get_key {A} x (ff : pykey -> BuildF.M A) (fz : Z -> M A) :
  (forall xk, K xk -> simP emb K (ff xk) (fz (emb xk))) ->
  simP emb K (BuildF.bind (BuildF.get_key x) ff) (bind (get_key x) fz).
Proof.
  intros H st Hok.
  unfold BuildF.get_key, get_key, BuildF.bind, bind, BuildF.load, load.
  rewrite mp_lookup.
  destruct (BuildF.heap st !! x) as [n|] eqn:E; simpl; [|done].
  destruct (BuildF.key n) as [k|] eqn:Ek; simpl; [|done].
  apply H; [|done]. apply (Hok x k).
  unfold ktab. rewrite lookup_fmap, E. simpl. by rewrite Ek.
Qed.

Ltac simP_step :=
  first
    [ apply sim_simP; solve [sim_auto]
    | apply simP_bind; [|intros ?]
    | match goal with
      | |- simP _ _ (if ?b then _ else _) (if ?b then _ else _) => destruct b
      | |- simP _ _ (match ?x with Some _ => _ | None => _ end) _ => destruct x
      end ].

Lemma simP_insert_body k s :
  Q k -> simP emb K (BuildF.insert_body k s) (Build.insert_body (emb k) s).
Proof.
  intros Hk. destruct s as [[y x] r]. cbn [BuildF.insert_body Build.insert_body].
  apply simP_get_key. intros xk Hxk.
  destruct (Hemb k xk Hk Hxk) as [<- <-].
  repeat simP_step.
Qed.

Lemma simP_insert_cond s :
  simP emb K (BuildF.insert_cond s) (Build.insert_cond s).
Proof. destruct s as [[y x] r]. apply sim_simP, sim_ret. Qed.

Lemma simP_search_recorded k :
  Q k -> simP emb K (BuildF._search_recorded k) (Build._search_recorded (emb k)).
Proof.
  intros Hk. unfold BuildF._search_recorded, Build._search_recorded.
  apply simP_bind; [apply sim_simP, sim_budget|]. intros fuel.
  apply simP_bind; [apply sim_simP, sim_get_root|]. intros r.
  apply simP_bind.
  - apply simP_while; intros s.
    + apply sim_simP, sim_ret.
    + cbv zeta. apply simP_get_key. intros nk Hnk.
      destruct (Hemb k nk Hk Hnk) as [<- <-].
      repeat simP_step.
  - intros s. repeat simP_step.
Qed.

(** [insert]: the same run, and the new object holds the key. *)
Lemma sim_insert k st :
  Q k -> K k -> keys_ok K st ->
  match BuildF.insert k st with
  | Some (a, st') =>
      Build.insert (emb k) (mp emb st) = Some (a, mp emb st')
      /\ ktab st' = <[BuildF.next st := Some k]> (ktab st)
  | None => Build.insert (emb k) (mp emb st) = None
  end.
Proof.
  intros Hk Kk Hok. unfold BuildF.insert, Build.insert.
  match goal with
  | |- context [BuildF.bind (BuildF.new_node k RED) ?f] => set (rf := f)
  end.
  match goal with
  | |- context [bind (new_node (emb k) RED) ?f] => set (rz := f)
  end.
  assert (Hr : forall z, simP emb K (rf z) (rz z)).
  { intros z. unfold rf, rz.
    apply simP_bind; [apply sim_simP, sim_budget|]. intros fuel.
    apply simP_bind; [apply sim_simP, sim_get_root|]. intros r.
    apply simP_bind.
    { apply simP_while; intros s;
        [apply simP_insert_cond|by apply simP_insert_body]. }
    intros [[y x] returned]. destruct returned; [apply sim_simP, sim_ret|].
    apply simP_bind; [apply sim_simP, sim_set_parent|]. intros _.
    apply simP_bind; [|intros _; apply sim_simP, sim_insert_fixup].
    destruct y as [y|]; [|apply sim_simP, sim_set_root].
    apply simP_get_key. intros yk Hyk.
    destruct (Hemb k yk Hk Hyk) as [_ <-].
    repeat simP_step. }
  unfold BuildF.bind, bind, BuildF.new_node, new_node.
  set (st1 := BuildF.mkRBTreeAnimated _ _ _).
  assert (Hmp : mkRBTree
            (<[next (mp emb st) := mkRBNode (Some (emb k)) RED NIL NIL None]>
               (heap (mp emb st)))
            (root (mp emb st)) (S (next (mp emb st))) = mp emb st1).
  { unfold mp, st1. simpl. by rewrite fmap_insert. }
  rewrite Hmp.
  assert (Hk1 : ktab st1 = <[BuildF.next st := Some k]> (ktab st)).
  { unfold ktab, st1. simpl. by rewrite fmap_insert. }
  assert (Hok1 : keys_ok K st1).
  { intros p k'. rewrite Hk1. destruct (decide (p = BuildF.next st)) as [->|Hne].
    - rewrite lookup_insert_eq. by intros [= <-].
    - rewrite lookup_insert_ne by done. apply Hok. }
  specialize (Hr (BuildF.next st) st1 Hok1).
  change (next (mp emb st)) with (BuildF.next st).
  destruct (rf (BuildF.next st) st1) as [[a st']|]; [|done].
  destruct Hr as [E Hk2]. split; [done|]. by rewrite Hk2.
Qed.

(** [delete]: the same run and the same answer. *)
Lemma simP_delete k :
  Q k -> simP emb K (BuildF.delete k) (Build.delete (emb k)).
Proof.
  intros Hk. unfold BuildF.delete, Build.delete.
  apply simP_bind; [by apply simP_search_recorded|]. intros z.
  apply sim_simP.
  repeat first [apply sim_transplant | apply sim_minimum | apply sim_delete_fixup
               | sim_step].
Qed.

Lemma keys_ok_insert k st st' :
  K k -> keys_ok K st -> ktab st' = <[BuildF.next st := Some k]> (ktab st) ->
  keys_ok K st'.
Proof.
  intros Hk Hok E p k'. rewrite E.
  destruct (decide (p = BuildF.next st)) as [->|Hne].
  - rewrite lookup_insert_eq. by intros [= <-].
  - rewrite lookup_insert_ne by done. apply Hok.
Qed.

(** The replay of a queue. *)
Lemma sim_run_operations ops : forall st,
  (forall op, op ∈ ops -> Q (snd op) /\ (fst op = INSERT -> K (snd op))) ->
  keys_ok K st ->
  match BuildF.run_operations ops st with
  | Some (u, st') =>
      run_steps_animated (map (to_step emb) ops) (mp emb st)
        = Some (u, mp emb st')
      /\ keys_ok K st'
  | None => run_steps_animated (map (to_step emb) ops) (mp emb st) = None
  end.
Proof.
  induction ops as [|[a k] ops IH]; intros st HK Hok; [done|].
  destruct (HK (a, k)) as [Hk Kk]; [left|]. simpl in Hk, Kk.
  assert (HK' : forall op, op ∈ ops ->
                  Q (snd op) /\ (fst op = INSERT -> K (snd op))).
  { intros op Hop. apply HK. by right. }
  cbn [BuildF.run_operations map to_step run_steps_animated fst snd].
  destruct a.
  - pose proof (sim_insert k st Hk (Kk eq_refl) Hok) as H.
    unfold BuildF.bind, bind.
    destruct (BuildF.insert k st) as [[u st1]|]; [|by rewrite H].
    destruct H as [E Hk1]. rewrite E.
    apply IH; [done|]. by apply (keys_ok_insert k st); [apply Kk| |].
  - pose proof (simP_delete k Hk st Hok) as H.
    unfold BuildF.bind, bind.
    destruct (BuildF.delete k st) as [[b st1]|]; [|by rewrite H].
    destruct H as [E Hk1]. rewrite E. simpl.
    apply IH; [done|]. by apply (keys_ok_ktab st).
Qed.

End simulation.

(** * The animated engine on the keys of build.py *)

(** ** The replay of a queue without NaN *)

Lemma mp_init emb : mp emb BuildF.init = RBTree_init.
Proof. unfold mp, BuildF.init, RBTree_init. simpl. by rewrite map_fmap_singleton. Qed.

Lemma no_nan_elem ops k :
  no_nan_inserted ops = true -> (INSERT, k) ∈ ops -> is_nan k = false.
Proof.
  unfold no_nan_inserted. rewrite forallb_forall. intros H Hin.
  apply list_elem_of_In in Hin. apply H in Hin. by apply negb_true_iff.
Qed.

Lemma no_nan_tail a ops :
  no_nan_inserted (a :: ops) = true -> no_nan_inserted ops = true.
Proof. unfold no_nan_inserted. simpl. by intros [_ ?]%andb_true_iff. Qed.

Lemma rank_le K x : (rank K x <= Z.of_nat (length K))%Z.
Proof.
  unfold rank. apply inj_le.
  induction K as [|y K IH]; simpl; [done|]. destruct (key_lt y x); simpl; lia.
Qed.

Lemma key_eq_nan_l a b : is_nan a = true -> key_eq a b = false.
Proof. unfold is_nan, key_eq. by destruct (kval a). Qed.

Lemma key_eq_nan_r a b : is_nan b = true -> key_eq a b = false.
Proof. unfold is_nan, key_eq. by destruct (kval a), (kval b). Qed.

Lemma key_lt_nan_l a b : is_nan a = true -> key_lt a b = false.
Proof. unfold is_nan, key_lt. by destruct (kval a). Qed.

Section ranked.
Variable KL : list pykey.
Let emb := place KL.
Let K := fun x : pykey => x ∈ KL /\ is_nan x = false.
Let Q := fun x : pykey => x ∈ KL.

Lemma emb_K b : K b -> emb b = rank KL b.
Proof. intros [_ Nb]. unfold emb, place. by rewrite Nb. Qed.

Lemma emb_nan a : is_nan a = true -> emb a = (Z.of_nat (length KL) + 1)%Z.
Proof. intros Na. unfold emb, place. by rewrite Na. Qed.

Lemma Hemb_rank a b :
  Q a -> K b ->
  key_eq a b = (emb a =? emb b)%Z /\ key_lt a b = (emb a <? emb b)%Z.
Proof.
  intros Ha Kb. destruct (is_nan a) eqn:Na.
  - rewrite (key_eq_nan_l a b Na), (key_lt_nan_l a b Na).
    rewrite (emb_nan a Na), (emb_K b Kb). pose proof (rank_le KL b).
    split; symmetry; [apply Z.eqb_neq|apply Z.ltb_ge]; lia.
  - rewrite (emb_K a), (emb_K b) by done. destruct Kb. by apply rank_spec.
Qed.

Lemma Hemb_eq a b : K a -> Q b -> key_eq a b = (emb a =? emb b)%Z.
Proof.
  intros Ka Hb. destruct (is_nan b) eqn:Nb.
  - rewrite (key_eq_nan_r a b Nb), (emb_nan b Nb), (emb_K a Ka).
    pose proof (rank_le KL a). symmetry. apply Z.eqb_neq. lia.
  - destruct Ka as [Ha Na]. apply (Hemb_rank a b); done.
Qed.

Lemma queue_keys ops :
  no_nan_inserted ops = true -> (forall op, op ∈ ops -> snd op ∈ KL) ->
  forall op, op ∈ ops -> Q (snd op) /\ (fst op = INSERT -> K (snd op)).
Proof.
  intros Hn HK [a k] Hop. split; [by apply HK|]. simpl. intros ->.
  split; [by apply (HK _ Hop)|by apply (no_nan_elem ops)].
Qed.

Lemma frun_spec ops st0 T0 np0 :
  no_nan_inserted ops = true -> (forall op, op ∈ ops -> snd op ∈ KL) ->
  keys_ok K st0 -> Inv (mp emb st0) T0 np0 -> rb T0 ->
  strictly_increasing (keys T0) ->
  exists st np,
    BuildF.run_operations ops st0 = Some (tt, st)
    /\ keys_ok K st
    /\ Inv (mp emb st)
         (bsteps_tree (BuildF.next st0) (map (to_step emb) ops) T0) np.
Proof.
  intros Hn HK Hok HI HT Hs.
  pose proof (sim_run_operations emb K Q Hemb_rank ops st0
                (queue_keys ops Hn HK) Hok) as H.
  destruct (run_steps_animated_spec (map (to_step emb) ops) (mp emb st0) T0 np0
              HI HT Hs) as ([] & stz & E & np & HI').
  destruct (BuildF.run_operations ops st0) as [[[] st]|].
  - destruct H as [E' Hok']. rewrite E in E'. injection E' as ->.
    exists st, np. done.
  - by rewrite H in E.
Qed.

Lemma keys_ok_init : keys_ok K BuildF.init.
Proof.
  intros p k. unfold ktab, BuildF.init. simpl.
  rewrite map_fmap_singleton. intros [-> [=]]%lookup_singleton_Some.
Qed.

Lemma fexecute_spec ops :
  no_nan_inserted ops = true -> (forall op, op ∈ ops -> snd op ∈ KL) ->
  exists st np,
    BuildF.execute ops = Some st
    /\ keys_ok K st
    /\ Inv (mp emb st) (bsteps_tree 1 (map (to_step emb) ops) Leaf) np.
Proof.
  intros Hn HK.
  destruct (frun_spec ops BuildF.init Leaf None Hn HK keys_ok_init)
    as (st & np & E & Hok & HI).
  - rewrite mp_init. apply Inv_init.
  - apply rb_Leaf.
  - constructor.
  - exists st, np. unfold BuildF.execute. by rewrite E.
Qed.

(** ** The snapshot of a store that holds a tree *)

Lemma Rep_lookup (h : gmap ptr BuildF.RBNode) par a c l k r :
  Rep (mpn emb <$> h) par (Node a c l k r) ->
  exists n, h !! a = Some n /\ emb <$> BuildF.key n = Some k
            /\ BuildF.color n = c /\ BuildF.left n = addr l
            /\ BuildF.right n = addr r.
Proof.
  intros (Ha & _ & _). rewrite lookup_fmap in Ha.
  destruct (h !! a) as [n|]; [|done]. simpl in Ha. injection Ha as ? ? ? ? ?.
  exists n. done.
Qed.

Lemma snap_Rep (h : gmap ptr BuildF.RBNode) : forall T par fuel,
  Rep (mpn emb <$> h) par T -> NIL ∉ addrs T -> height T < fuel ->
  BuildF._snap fuel h (addr T) = Some (snap_of h T)
  /\ BuildF._in fuel h (addr T) = Some (BuildF.collect_keys (snap_of h T)).
Proof.
  induction T as [|a c l IHl k r IHr]; intros par fuel HR Hn Hf.
  - destruct fuel; [lia|]. done.
  - destruct fuel; [lia|].
    destruct (Rep_lookup h par a c l k r HR) as (n & Ha & Hk & Hc & Hl & Hr).
    simpl in HR, Hn, Hf. destruct HR as (_ & HRl & HRr).
    apply not_elem_of_cons in Hn as [Hne Hn].
    apply not_elem_of_app in Hn as [? ?].
    assert (a <> NIL) as Hne' by congruence.
    apply Nat.eqb_neq in Hne'.
    cbn [BuildF._snap BuildF._in addr snap_of BuildF.collect_keys].
    rewrite Hne', Ha, Hl, Hr. simpl.
    destruct (IHl (Some a) fuel) as [-> ->]; auto; [lia|].
    destruct (IHr (Some a) fuel) as [-> ->]; auto; [lia|].
    by rewrite Hc.
Qed.

Lemma snap_Inv st T np :
  Inv (mp emb st) T np ->
  BuildF._snapshot st = Some (snap_of (BuildF.heap st) T)
  /\ BuildF.get_all_keys st
     = Some (BuildF.collect_keys (snap_of (BuildF.heap st) T)).
Proof.
  intros H. unfold BuildF._snapshot, BuildF.get_all_keys.
  pose proof (inv_root _ _ _ H) as Hr. simpl in Hr. rewrite Hr.
  apply (snap_Rep _ T None).
  - apply (inv_rep _ _ _ H).
  - apply (inv_nil _ _ _ H).
  - pose proof (Inv_size _ _ _ H). pose proof (height_le_size T).
    simpl in *. lia.
Qed.

Lemma snap_of_color h T : snap_color (snap_of h T) = tcolor T.
Proof. by destruct T. Qed.

Lemma snap_of_bh h T : snap_bh (snap_of h T) = bh T.
Proof. induction T as [|a c l IHl k r IHr]; simpl; [done|]. by rewrite IHl. Qed.

Lemma snap_of_red_black h T : rb T -> snap_red_black (snap_of h T).
Proof.
  intros [Hc Hb]. split; [by rewrite snap_of_color|]. clear Hc.
  induction T as [|a c l IHl k r IHr]; simpl; [done|].
  destruct Hb as (H1 & H2 & H3 & H4). rewrite !snap_of_bh, !snap_of_color.
  destruct (IHl H2), (IHr H3). done.
Qed.

Lemma snap_of_count h T : BuildF.count_nodes (snap_of h T) = size T.
Proof. induction T as [|a c l IHl k r IHr]; simpl; [done|]. rewrite IHl, IHr. lia. Qed.

(** The keys of the snapshot are keys of [K], and their integers are the
    keys of the tree. *)
Lemma snap_of_keys (h : gmap ptr BuildF.RBNode) : forall T par,
  Rep (mpn emb <$> h) par T ->
  (forall p n k, h !! p = Some n -> BuildF.key n = Some k -> K k) ->
  exists ks,
    BuildF.collect_keys (snap_of h T) = map Some ks
    /\ map emb ks = keys T /\ Forall K ks.
Proof.
  intros T par HR HK. revert par HR.
  induction T as [|a c l IHl k r IHr]; intros par HR.
  - by exists [].
  - destruct (Rep_lookup h par a c l k r HR) as (n & Ha & Hk & _).
    simpl in HR. destruct HR as (_ & HRl & HRr).
    destruct (IHl _ HRl) as (kl & E1 & E2 & E3).
    destruct (IHr _ HRr) as (kr & F1 & F2 & F3).
    destruct (BuildF.key n) as [k'|] eqn:Ek; [|done]. simpl in Hk.
    injection Hk as Hk.
    exists (kl ++ k' :: kr). simpl. rewrite Ha. simpl. rewrite Ek, E1, F1.
    split_and!.
    + by rewrite map_app.
    + rewrite map_app. simpl. by rewrite E2, F2, Hk.
    + apply Forall_app. split; [done|]. constructor; [|done].
      by apply (HK a n).
Qed.

Lemma keys_ok_heap st :
  keys_ok K st ->
  forall p n k, BuildF.heap st !! p = Some n -> BuildF.key n = Some k -> K k.
Proof.
  intros Hok p n k Hp Hk. apply (Hok p). unfold ktab.
  rewrite lookup_fmap, Hp. simpl. by rewrite Hk.
Qed.

Lemma increasing_of_rank ks :
  Forall K ks -> strictly_increasing (map emb ks) -> keys_increasing ks.
Proof.
  unfold strictly_increasing, keys_increasing.
  induction ks as [|x ks IH]; intros HK Hs; [constructor|].
  apply Forall_cons in HK as [Hx HK]. simpl in Hs.
  apply StronglySorted_inv in Hs as [Hs1 Hs2].
  constructor; [by apply IH|].
  rewrite Forall_forall. intros y Hy.
  rewrite Forall_forall in HK. specialize (HK y Hy).
  rewrite List.Forall_forall in Hs2.
  assert (emb x < emb y)%Z.
  { apply Hs2. apply in_map. by apply list_elem_of_In. }
  destruct (Hemb_rank x y (proj1 Hx) HK) as [_ ->]. by apply Z.ltb_lt.
Qed.

(** A member by [==] is a member by its integer. *)
Lemma holds_rank ks x :
  Forall K ks -> Q x -> holds ks x = true <-> emb x ∈ map emb ks.
Proof.
  intros HK Hx. unfold holds. rewrite existsb_exists, list_elem_of_In, in_map_iff.
  rewrite Forall_forall in HK. split.
  - intros (y & Hy & E). exists y. split; [|done].
    apply list_elem_of_In in Hy.
    destruct (Hemb_rank x y Hx (HK y Hy)) as [H _]. rewrite E in H.
    symmetry in H. apply Z.eqb_eq in H. done.
  - intros (y & E & Hy). exists y. split; [done|].
    apply list_elem_of_In in Hy.
    destruct (Hemb_rank x y Hx (HK y Hy)) as [-> _]. apply Z.eqb_eq. done.
Qed.

Lemma snap_of_ext (h1 h2 : gmap ptr BuildF.RBNode) T :
  (forall a, a ∈ addrs T -> BuildF.key <$> h1 !! a = BuildF.key <$> h2 !! a) ->
  snap_of h1 T = snap_of h2 T.
Proof.
  induction T as [|a c l IHl k r IHr]; intros H; simpl; [done|].
  rewrite IHl, IHr.
  - f_equal. specialize (H a). simpl in H.
    assert (Ha : BuildF.key <$> h1 !! a = BuildF.key <$> h2 !! a)
      by (apply H; left).
    destruct (h1 !! a), (h2 !! a); simpl in *; congruence.
  - intros b Hb. apply H. simpl. right. apply elem_of_app. by right.
  - intros b Hb. apply H. simpl. right. apply elem_of_app. by left.
Qed.

Lemma snap_of_ktab st st' T :
  (forall a, a ∈ addrs T -> ktab st' !! a = ktab st !! a) ->
  snap_of (BuildF.heap st') T = snap_of (BuildF.heap st) T.
Proof.
  intros H. apply snap_of_ext. intros a Ha. specialize (H a Ha).
  unfold ktab in H. by rewrite !lookup_fmap in H.
Qed.

(** The keys that a queue leaves, by their integers. *)
Lemma keys_left_rank ops : forall (P : gset Z) (L : list pykey),
  no_nan_inserted ops = true -> (forall op, op ∈ ops -> snd op ∈ KL) ->
  Forall K L ->
  (forall x, Q x -> emb x ∈ P <-> holds L x = true) ->
  forall x, Q x ->
    emb x ∈ keys_after (map (to_step emb) ops) P
    <-> holds (keys_left ops L) x = true.
Proof.
  induction ops as [|[a k] ops IH]; intros P L Hn HK HL HP x Hx; [by apply HP|].
  assert (Hk : Q k) by (apply (HK (a, k)); left).
  pose proof (no_nan_tail _ _ Hn) as Hn'.
  assert (HK' : forall op, op ∈ ops -> snd op ∈ KL).
  { intros op Hop. apply HK. by right. }
  rewrite Forall_forall in HL.
  destruct a; cbn [map to_step keys_after keys_left fst snd].
  - assert (Kk : K k).
    { split; [done|]. apply (no_nan_elem _ k Hn). left. }
    apply IH; auto.
    + destruct (holds L k); [by apply Forall_forall|].
      apply Forall_cons. split; [done|by apply Forall_forall].
    + intros y Hy. rewrite elem_of_union, elem_of_singleton, (HP y Hy).
      destruct (Hemb_rank y k Hy Kk) as [Heq _].
      destruct (holds L k) eqn:Ehk.
      * split; [|auto]. intros [E|H]; [|done].
        apply Z.eqb_eq in E. rewrite <- Heq in E.
        unfold holds in *. apply existsb_exists in Ehk as (z & Hz & Ekz).
        apply existsb_exists. exists z. split; [done|].
        by apply (key_eq_trans y k z).
      * unfold holds. simpl. rewrite orb_true_iff, Heq, Z.eqb_eq. done.
  - apply IH; auto.
    + apply Forall_forall. intros y Hy.
      apply list_elem_of_In, filter_In in Hy as [Hy _].
      by apply HL, list_elem_of_In.
    + intros y Hy. rewrite elem_of_difference, elem_of_singleton, (HP y Hy).
      unfold holds. rewrite !existsb_exists. split.
      * intros [(z & Hz & Eyz) Hne]. exists z. split; [|done].
        apply filter_In. split; [done|]. apply negb_true_iff.
        destruct (key_eq k z) eqn:Ekz; [|done]. exfalso. apply Hne.
        assert (Kz : K z) by (by apply HL, list_elem_of_In).
        destruct (Hemb_rank k z Hk Kz) as [Hkz _].
        destruct (Hemb_rank y z Hy Kz) as [Hyz _].
        rewrite Ekz in Hkz. rewrite Eyz in Hyz.
        symmetry in Hkz, Hyz. apply Z.eqb_eq in Hkz, Hyz. congruence.
      * intros (z & Hz & Eyz). apply filter_In in Hz as [Hz Hkz].
        apply negb_true_iff in Hkz. split; [by exists z|].
        intros E.
        assert (Kz : K z) by (by apply HL, list_elem_of_In).
        destruct (Hemb_rank k z Hk Kz) as [Hkz' _].
        destruct (Hemb_rank y z Hy Kz) as [Hyz _].
        rewrite Hkz in Hkz'. rewrite Eyz in Hyz.
        symmetry in Hkz', Hyz. apply Z.eqb_neq in Hkz'. apply Z.eqb_eq in Hyz.
        congruence.
Qed.

(** ** The tree after a queue of operations *)

Lemma freplay_facts ops :
  no_nan_inserted ops = true -> (forall op, op ∈ ops -> snd op ∈ KL) ->
  exists st T np ks,
    BuildF.execute ops = Some st
    /\ keys_ok K st /\ Inv (mp emb st) T np /\ rb T
    /\ strictly_increasing (keys T)
    /\ BuildF._snapshot st = Some (snap_of (BuildF.heap st) T)
    /\ BuildF.get_all_keys st = Some (map Some ks)
    /\ BuildF.collect_keys (snap_of (BuildF.heap st) T) = map Some ks
    /\ map emb ks = keys T /\ Forall K ks
    /\ (forall x, Q x -> holds ks x = holds (keys_left ops []) x).
Proof.
  intros Hn HK.
  destruct (fexecute_spec ops Hn HK) as (st & np & E & Hok & HI).
  set (T := bsteps_tree 1 (map (to_step emb) ops) Leaf) in *.
  destruct (bsteps_tree_rb (map (to_step emb) ops) 1 Leaf rb_Leaf) as [HT Hs];
    [constructor|]. fold T in HT, Hs.
  destruct (snap_Inv st T np HI) as [Es Eg].
  destruct (snap_of_keys (BuildF.heap st) T None (inv_rep _ _ _ HI)
              (keys_ok_heap st Hok)) as (ks & Ec & Em & HKs).
  exists st, T, np, ks. split_and!; auto; [by rewrite Eg, Ec|].
  intros x Hx. apply eq_true_iff_eq.
  rewrite (holds_rank ks x HKs Hx), Em.
  rewrite <- (keys_left_rank ops ∅ [] Hn HK); auto.
  - apply (bsteps_tree_keys (map (to_step emb) ops) 1 Leaf ∅ rb_Leaf);
      [constructor|].
    intros y. simpl. split; [by intros ?%elem_of_nil|by intros ?%elem_of_empty].
  - intros y _. simpl. split; [by intros ?%elem_of_empty|done].
Qed.

(** [insert] after a queue. *)
Lemma finsert_facts ops k :
  no_nan_inserted ops = true -> (forall op, op ∈ ops -> snd op ∈ KL) ->
  is_nan k = false -> k ∈ KL ->
  exists st ks st',
    BuildF.execute ops = Some st
    /\ BuildF.get_all_keys st = Some (map Some ks)
    /\ BuildF.insert k st = Some (tt, st')
    /\ (holds ks k = true ->
        BuildF._snapshot st' = BuildF._snapshot st
        /\ BuildF.get_all_keys st' = BuildF.get_all_keys st).
Proof.
  intros Hn HK Nk Hk.
  destruct (freplay_facts ops Hn HK)
    as (st & T & np & ks & E & Hok & HI & HT & Hs & Es & Eg & Ec & Em & HKs & _).
  assert (Kk : K k) by done.
  destruct (build_insert_spec (mp emb st) T np (emb k) HI (proj1 HT))
    as ([] & stz & Ez & HI' & _).
  pose proof (sim_insert emb K Q Hemb_rank k st Hk Kk Hok) as Hsim.
  destruct (BuildF.insert k st) as [[[] st']|] eqn:Ef; [|congruence].
  destruct Hsim as [Ez' Hkt]. rewrite Ez in Ez'. injection Ez' as ->.
  exists st, ks, st'. split_and!; auto.
  intros Hh. apply (holds_rank ks k HKs Hk) in Hh. rewrite Em in Hh.
  unfold bins_tree in HI'.
  rewrite (find_hit (emb k) T (strictly_increasing_weaken _ Hs) Hh) in HI'.
  destruct (snap_Inv st' T np HI') as [Es' Eg'].
  assert (Hsn : snap_of (BuildF.heap st') T = snap_of (BuildF.heap st) T).
  { apply snap_of_ktab. intros a Ha. rewrite Hkt.
    apply lookup_insert_ne. pose proof (inv_next _ _ _ HI a) as Hlt.
    simpl in Hlt. intros Heq. subst a. specialize (Hlt ltac:(by right)). lia. }
  rewrite Es', Eg', Hsn, Es, Eg, Ec. done.
Qed.

(** [delete] after a queue. *)
Lemma fdelete_facts ops k :
  no_nan_inserted ops = true -> (forall op, op ∈ ops -> snd op ∈ KL) ->
  k ∈ KL ->
  exists st ks b st' fp ks',
    BuildF.execute ops = Some st
    /\ BuildF.get_all_keys st = Some (map Some ks)
    /\ BuildF.delete k st = Some (b, st')
    /\ b = holds ks k
    /\ BuildF._snapshot st' = Some fp /\ snap_red_black fp
    /\ BuildF.get_all_keys st' = Some (map Some ks')
    /\ keys_increasing ks'
    /\ (forall x, x ∈ KL -> holds ks' x = holds ks x && negb (key_eq x k))
    /\ (b = false -> BuildF._snapshot st' = BuildF._snapshot st).
Proof.
  intros Hn HK Hk.
  destruct (freplay_facts ops Hn HK)
    as (st & T & np & ks & E & Hok & HI & HT & Hs & Es & Eg & Ec & Em & HKs & _).
  pose proof (strictly_increasing_weaken _ Hs) as Hw.
  destruct (build_delete_spec (mp emb st) T np (emb k) HI HT)
    as (b & stz & Ez & Hb & [np' HI'] & _).
  pose proof (simP_delete emb K Q Hemb_rank k Hk st Hok) as Hsim.
  destruct (BuildF.delete k st) as [[b' st']|] eqn:Ef; [|congruence].
  destruct Hsim as [Ez' Hkt]. rewrite Ez in Ez'. injection Ez' as <- ->.
  set (T' := del_tree (emb k) T) in *.
  assert (HT' : rb T') by (by apply del_tree_rb).
  assert (Hs' : strictly_increasing (keys T')).
  { apply (bstep_tree_strict 0 (DELETE, emb k, false) T HT Hs). }
  assert (Hok' : keys_ok K st') by (by apply (keys_ok_ktab K st)).
  destruct (snap_Inv st' T' np' HI') as [Es' Eg'].
  destruct (snap_of_keys (BuildF.heap st') T' None (inv_rep _ _ _ HI')
              (keys_ok_heap st' Hok')) as (ks' & Ec' & Em' & HKs').
  assert (Hmem : forall z, z ∈ keys T' <-> z ∈ keys T /\ z <> emb k).
  { intros z. unfold T'.
    change (del_tree (emb k) T) with (bstep_tree 0 (DELETE, emb k, false) T).
    rewrite (bstep_tree_keys 0 (DELETE, emb k, false) T (list_to_set (keys T))
               HT Hs); [|intros y; by rewrite elem_of_list_to_set].
    simpl. rewrite elem_of_difference, elem_of_list_to_set, elem_of_singleton.
    done. }
  assert (Hbk : b = holds ks k).
  { rewrite Hb. apply eq_true_iff_eq.
    rewrite (holds_rank ks k HKs Hk), Em. split.
    - intros Hn'. destruct (decide (emb k ∈ keys T)) as [|Hni]; [done|].
      by rewrite (find_miss (emb k) T Hni) in Hn'.
    - apply (find_hit (emb k) T Hw). }
  exists st, ks, b, st', (snap_of (BuildF.heap st') T'), ks'.
  split_and!; auto.
  - by apply snap_of_red_black.
  - by rewrite Eg', Ec'.
  - apply increasing_of_rank; [done|]. by rewrite Em'.
  - intros x Hx. apply eq_true_iff_eq.
    rewrite andb_true_iff, negb_true_iff.
    rewrite (holds_rank ks' x HKs' Hx), (holds_rank ks x HKs Hx), Em', Em, Hmem.
    split.
    + intros [Hin Hne]. split; [done|].
      destruct (key_eq x k) eqn:Exk; [|done]. exfalso. apply Hne.
      destruct (key_eq_not_nan _ _ Exk) as [Nx _].
      rewrite (Hemb_eq x k) in Exk by done. by apply Z.eqb_eq.
    + intros [Hin Hne]. split; [done|]. intros Exk.
      rewrite <- Em in Hin.
      apply list_elem_of_In, in_map_iff in Hin as (y & Ey & Hy).
      apply list_elem_of_In in Hy.
      rewrite Forall_forall in HKs. specialize (HKs y Hy).
      destruct (Hemb_rank x y Hx HKs) as [Hxy _].
      rewrite Ey, Z.eqb_refl in Hxy.
      assert (Hyk : key_eq y k = true).
      { rewrite (Hemb_eq y k HKs Hk). apply Z.eqb_eq. congruence. }
      assert (key_eq x k = true); [|congruence].
      by apply (key_eq_trans x y k).
  - intros Hf. rewrite Es', Es. f_equal.
    assert (Hni : emb k ∉ keys T).
    { intros Hin. rewrite Hbk in Hf.
      assert (holds ks k = true); [|congruence].
      apply (holds_rank ks k HKs Hk). by rewrite Em. }
    unfold T'. rewrite (del_tree_absent (emb k) T Hni).
    apply snap_of_ktab. intros a _. by rewrite Hkt.
Qed.

Lemma freplay_result ops :
  no_nan_inserted ops = true -> (forall op, op ∈ ops -> snd op ∈ KL) ->
  exists st fp ks,
    BuildF.execute ops = Some st
    /\ BuildF._snapshot st = Some fp /\ snap_red_black fp
    /\ BuildF.get_all_keys st = Some (map Some ks)
    /\ BuildF.collect_keys fp = map Some ks
    /\ BuildF.count_nodes fp = length ks
    /\ keys_increasing ks
    /\ (forall x, x ∈ KL -> holds ks x = holds (keys_left ops []) x).
Proof.
  intros Hn HK.
  destruct (freplay_facts ops Hn HK)
    as (st & T & np & ks & E & Hok & HI & HT & Hs & Es & Eg & Ec & Em & HKs & Hh).
  exists st, (snap_of (BuildF.heap st) T), ks. split_and!; auto.
  - by apply snap_of_red_black.
  - rewrite snap_of_count, <- size_keys, <- Em. by rewrite length_map.
  - apply increasing_of_rank; [done|]. by rewrite Em.
Qed.

End ranked.

Lemma map_Some_inj {A} (l1 l2 : list A) : map Some l1 = map Some l2 -> l1 = l2.
Proof.
  revert l2. induction l1 as [|x l1 IH]; intros [|y l2] H; simpl in *;
    try done. injection H as -> H. f_equal. by apply IH.
Qed.

Lemma elem_of_queue_keys (ops : list (action * pykey)) xs op :
  op ∈ ops -> snd op ∈ map snd ops ++ xs.
Proof.
  intros H. apply elem_of_app. left.
  apply list_elem_of_In, in_map. by apply list_elem_of_In.
Qed.

(** With NaN inserted the engine does not hold a set: NaN equals no key,
    itself included, so that it is stored again at every insert and no
    delete finds it. *)
Lemma nan_is_kept_twice :
  BuildF.execute
    [(INSERT, KFloat FNan); (INSERT, KFloat FNan); (DELETE, KFloat FNan)]
    ≫= BuildF.get_all_keys
  = Some [Some (KFloat FNan); Some (KFloat FNan)].
Proof. by vm_compute. Qed.

(** ** On integer keys the two modules are the same engine *)

Lemma key_eq_int a b : key_eq (KInt a) (KInt b) = (a =? b)%Z.
Proof.
  unfold key_eq. simpl. apply eq_true_iff_eq.
  by rewrite Qeq_bool_iff, Z.eqb_eq, inject_Z_injective.
Qed.

Lemma key_lt_int a b : key_lt (KInt a) (KInt b) = (a <? b)%Z.
Proof.
  unfold key_lt. simpl. apply eq_true_iff_eq.
  by rewrite Qltb_lt, Z.ltb_lt, <- Zlt_Qlt.
Qed.

Lemma run_steps_animated_flag steps :
  run_steps_animated (map (to_step int_of) (map int_op steps))
  = run_steps_animated steps.
Proof.
  induction steps as [|[[a k] h] steps IH]; [done|].
  cbn [map to_step int_op int_of run_steps_animated fst snd]. by rewrite IH.
Qed.

(** The replay of [Build] on a sequence of steps is the replay of [BuildF]
    on the same operations with [int] keys. *)
Lemma build_on_integers (steps : list step) :
  execute_steps_animated steps
  = mp int_of <$> BuildF.execute (map int_op steps).
Proof.
  set (KI := fun k : pykey => exists z, k = KInt z).
  assert (Hemb : forall a b, KI a -> KI b ->
            key_eq a b = (int_of a =? int_of b)%Z
            /\ key_lt a b = (int_of a <? int_of b)%Z).
  { intros a b [x ->] [y ->]. simpl. by rewrite key_eq_int, key_lt_int. }
  pose proof (sim_run_operations int_of KI KI Hemb (map int_op steps)
                BuildF.init) as H.
  rewrite run_steps_animated_flag, mp_init in H.
  unfold execute_steps_animated, BuildF.execute.
  destruct (BuildF.run_operations (map int_op steps) BuildF.init)
    as [[[] st]|].
  - destruct H as [-> _]; [| |done].
    + intros op Hop. apply list_elem_of_In, in_map_iff in Hop as ([[a k] h] & <- & _).
      split; [by exists k|]. intros _. by exists k.
    + intros p k. unfold ktab, BuildF.init. simpl.
      rewrite map_fmap_singleton. intros [-> [=]]%lookup_singleton_Some.
  - rewrite H; [done| |].
    + intros op Hop. apply list_elem_of_In, in_map_iff in Hop as ([[a k] h] & <- & _).
      split; [by exists k|]. intros _. by exists k.
    + intros p k. unfold ktab, BuildF.init. simpl.
      rewrite map_fmap_singleton. intros [-> [=]]%lookup_singleton_Some.
Qed.

(** * Further properties of the code *)

(** X1. [delete] of a key that the tree does not hold changes nothing: on the
    tree object left by any sequence of actions it returns with the object
    as it was. *)
Theorem X1_delete_absent_noop (steps : list step) (st : RBTree) (k : Z) :
  execute_steps steps = Some st -> k ∉ tree_keys st ->
  Analyze.delete k st = Some (tt, st).
Proof.
  intros E Hk. destruct (reachable_inv steps st E) as (T & np & HI & HT & Hs).
  rewrite (tree_keys_Inv st T np HI) in Hk.
  rewrite delete_unfold. unfold bind at 1. unfold get_root.
  unfold bind at 1. rewrite (search_spec st T np k HI).
  by rewrite (find_miss k T Hk).
Qed.

Lemma X1_delete_absent_noop_witness :
  exists st, execute_steps (inserts [5; 3; 8]%Z) = Some st
             /\ (4%Z ∉ tree_keys st)
             /\ Analyze.delete 4 st = Some (tt, st).
Proof.
  destruct (execute_steps (inserts [5; 3; 8]%Z)) as [st|] eqn:E;
    [|by vm_compute in E].
  exists st. split; [done|].
  assert (Hk : 4%Z ∉ tree_keys st).
  { vm_compute in E. injection E as <-. compute_done. }
  split; [exact Hk|].
  exact (X1_delete_absent_noop (inserts [5; 3; 8]%Z) st 4%Z E Hk).
Defined.

(** X2. On the tree object left by any sequence of actions, [insert k]
    returns and adds one node with the key [k], also when the tree holds
    [k] already: the new key comes after the keys that are at most [k] and
    before the larger ones, the other keys stay, and the tree is red-black
    again. *)
Theorem X2_insert_adds_one_key (steps : list step) (k : Z) :
  exists st st' l1 l2 fp,
    execute_steps steps = Some st
    /\ Analyze.insert k st = Some (tt, st')
    /\ tree_keys st = l1 ++ l2 /\ tree_keys st' = l1 ++ k :: l2
    /\ Forall (fun x => (x <= k)%Z) l1 /\ Forall (fun x => (k < x)%Z) l2
    /\ to_tuple st' = Some fp /\ red_black fp.
Proof.
  destruct (execute_steps_spec steps) as (st & np0 & E & _).
  destruct (reachable_inv steps st E) as (T & np & HI & HT & Hs).
  destruct (insert_spec st T np k HI (proj1 HT)) as ([] & st' & Ei & HI' & _).
  destruct (ins_tree_keys (next st) k T) as (l1 & l2 & E1 & E2 & Hb).
  destruct (Hb Hs) as [H1 H2].
  exists st, st', l1, l2, (erase (ins_tree (next st) k T)).
  split_and!; auto.
  - by rewrite (tree_keys_Inv st T np HI).
  - by rewrite (tree_keys_Inv st' _ np HI').
  - by apply (to_tuple_Inv st' _ np).
  - by apply red_black_erase, ins_tree_rb.
Qed.

(** X3. On the tree object left by any sequence of actions, [_search] from
    the root returns without changing the object; it returns the sentinel
    when the tree does not hold the key and only then, and otherwise a node
    with that key. *)
Theorem X3_search_finds (steps : list step) (k : Z) :
  exists st z,
    execute_steps steps = Some st
    /\ Analyze._search (root st) k st = Some (z, st)
    /\ (z = NIL <-> k ∉ tree_keys st)
    /\ (z <> NIL -> get_key z st = Some (k, st)).
Proof.
  destruct (execute_steps_spec steps) as (st & np0 & E & _).
  destruct (reachable_inv steps st E) as (T & np & HI & HT & Hs).
  exists st, (addr (snd (find k T []))).
  rewrite (tree_keys_Inv st T np HI).
  split; [done|]. split; [by apply (search_spec st T np)|].
  destruct (find k T []) as [C [|z cz l kz r]] eqn:Ef; simpl.
  - split; [|done]. split; [|done]. intros _ Hin.
    pose proof (find_hit k T Hs Hin) as H. by rewrite Ef in H.
  - destruct (find_node_facts st T np k C z cz l kz r HI Ef) as (H1 & H2 & H3 & H4).
    split; [|done]. split; [done|]. intros H. done.
Qed.

(** X4. On a tree object that is not empty, [_tree_minimum] from the root
    returns, without changing the object, the node with the first key of
    the in-order sequence, which is a least key. *)
Theorem X4_tree_minimum_least (steps : list step) (st : RBTree) :
  execute_steps steps = Some st -> root st <> NIL ->
  exists y k rest,
    Analyze._tree_minimum (root st) st = Some (y, st)
    /\ get_key y st = Some (k, st)
    /\ tree_keys st = k :: rest /\ Forall (fun x => (k <= x)%Z) rest.
Proof.
  intros E Hroot. destruct (reachable_inv steps st E) as (T & np & HI & HT & Hs).
  rewrite (tree_keys_Inv st T np HI).
  assert (HT' : is_node T = true).
  { destruct T; [|done]. by rewrite (inv_root _ _ _ HI) in Hroot. }
  destruct (minimum_loop np (next st) T [] st) as (y & st' & Em & -> & ->).
  { pose proof (Inv_size _ _ _ HI). pose proof (height_le_size T). lia. }
  { exact HI. }
  destruct (min_ctx_shape T [] HT') as (y & cy & ky & ry & Hy).
  pose proof (plug_min_ctx T []) as Hp. pose proof (min_ctx_lkeys T []) as Hl.
  destruct (min_ctx T []) as [Cm ty]. simpl in Hy, Hp, Hl. subst ty.
  exists y, ky, (keys ry ++ rkeys Cm). split_and!.
  - unfold Analyze._tree_minimum, bind, budget. simpl.
    rewrite (inv_root _ _ _ HI). exact Em.
  - rewrite <- Hp in HI.
    pose proof (Inv_focus_at st Cm _ [] np HI) as HF. cbn [ctx_of sub_of] in HF.
    unfold get_key, bind. by rewrite (load_node _ _ _ _ _ _ _ _ HF).
  - rewrite <- Hp, keys_plug, Hl. done.
  - rewrite <- Hp, keys_plug, Hl in Hs. simpl in Hs.
    by apply StronglySorted_cons in Hs as [? _].
Qed.

Lemma X4_tree_minimum_least_witness :
  exists st, execute_steps (inserts [5; 3; 8]%Z) = Some st
    /\ root st <> NIL
    /\ exists y k rest,
         Analyze._tree_minimum (root st) st = Some (y, st)
         /\ get_key y st = Some (k, st)
         /\ tree_keys st = k :: rest /\ Forall (fun x => (k <= x)%Z) rest.
Proof.
  destruct (execute_steps (inserts [5; 3; 8]%Z)) as [st|] eqn:E;
    [|by vm_compute in E].
  exists st. split; [done|].
  assert (Hr : root st <> NIL).
  { vm_compute in E. injection E as <-. simpl. unfold NIL. lia. }
  split; [exact Hr|].
  exact (X4_tree_minimum_least (inserts [5; 3; 8]%Z) st E Hr).
Defined.

(** X5. On the tree object left by any sequence of actions, at a node [x] of
    the tree with a right child [y], [_left_rotate x] returns and keeps the
    in-order key sequence, and [_right_rotate y] after it gives the tree
    back as it was. *)
Theorem X5_rotate_round_trip (steps : list step) (st : RBTree)
    (p : list bool) (x y : ptr) :
  execute_steps steps = Some st ->
  node_at (heap st) (root st) p = Some x -> x <> NIL ->
  get_right x st = Some (y, st) -> y <> NIL ->
  exists st1 st2,
    Analyze._left_rotate x st = Some (tt, st1)
    /\ tree_keys st1 = tree_keys st
    /\ Analyze._right_rotate y st1 = Some (tt, st2)
    /\ to_tuple st2 = to_tuple st.
Proof.
  intros E Hx Hxn Hy Hyn.
  destruct (reachable_inv steps st E) as (T & np & HI & HT & Hs).
  rewrite (node_at_Inv st T np p HI) in Hx. injection Hx as <-.
  change (Inv st (plug [] T) np) in HI.
  rewrite (rd_right st [] T np HI p) in Hy. injection Hy as <-.
  destruct (sub_of T p) as [|xa cx a kx [|ya cy b ky c]] eqn:Es; try done.
  cbn [addr tright] in *.
  destruct (left_rotate_at st [] T np HI p) as ([] & st1 & E1 & HI1 & _);
    [by rewrite Es..|].
  rewrite Es in E1, HI1. cbn [addr rotl] in E1, HI1.
  set (C := ctx_of T p []) in *.
  pose proof (right_rotate_at st1 C _ np HI1 []) as H2. cbn [sub_of ctx_of] in H2.
  destruct H2 as ([] & st2 & E2 & HI2 & _); [done..|].
  cbn [addr rotr] in E2, HI2.
  assert (HT2 : plug C (Node xa cx a kx (Node ya cy b ky c)) = T).
  { unfold C. rewrite <- Es. apply (plug_ctx_of T p []). }
  rewrite HT2 in HI2.
  exists st1, st2. split_and!; auto.
  - rewrite (tree_keys_Inv st1 _ np HI1), (tree_keys_Inv st T np HI).
    rewrite <- HT2. rewrite !keys_plug. simpl.
    do 2 f_equal. by rewrite <- app_assoc.
  - by rewrite (to_tuple_Inv st2 T np HI2), (to_tuple_Inv st T np HI).
Qed.

Lemma X5_rotate_round_trip_witness :
  exists st x y,
    execute_steps (inserts [5; 3; 8]%Z) = Some st
    /\ node_at (heap st) (root st) [] = Some x /\ x <> NIL
    /\ get_right x st = Some (y, st) /\ y <> NIL
    /\ exists st1 st2,
         Analyze._left_rotate x st = Some (tt, st1)
         /\ tree_keys st1 = tree_keys st
         /\ Analyze._right_rotate y st1 = Some (tt, st2)
         /\ to_tuple st2 = to_tuple st.
Proof.
  destruct (execute_steps (inserts [5; 3; 8]%Z)) as [st|] eqn:E;
    [|by vm_compute in E].
  exists st, 1, 3. split; [done|].
  assert (H : node_at (heap st) (root st) [] = Some 1 /\ 1 <> NIL
              /\ get_right 1 st = Some (3, st) /\ 3 <> NIL).
  { vm_compute in E. injection E as <-. split_and!; try done; by vm_compute. }
  destruct H as (H1 & H2 & H3 & H4). split_and!; auto.
  exact (X5_rotate_round_trip (inserts [5; 3; 8]%Z) st [] 1 3 E H1 H2 H3 H4).
Defined.

(** X6. After any sequence of actions the sentinel is BLACK, has no key and
    is its own left and right child; [delete] and its fix-up write to the
    sentinel, but only to its [parent] field and its colour, which stays
    BLACK. *)
Theorem X6_sentinel_kept (steps : list step) :
  exists st np,
    execute_steps steps = Some st
    /\ heap st !! NIL = Some (mkRBNode None BLACK NIL NIL np).
Proof.
  destruct (execute_steps_spec steps) as (st & np & E & HI).
  exists st, np. split; [done|]. apply (inv_sentinel _ _ _ HI).
Qed.

(** X7. [_rbt_to_tn] of the tree object left by any sequence of actions
    returns a [TNode] tree with the fingerprint of the object
    ([tnode_to_tuple] of it is [to_tuple] of the object), and [_inorder] of
    it lists the keys of the object. *)
Theorem X7_rbt_to_tn_round_trip (steps : list step) :
  exists st t,
    execute_steps steps = Some st /\ _rbt_to_tn st = Some t
    /\ to_tuple st = Some (tnode_to_tuple t)
    /\ _inorder t [] = tree_keys st.
Proof.
  destruct (execute_steps_spec steps) as (st & np & E & HI).
  exists st, (to_tnode (steps_tree 1 steps Leaf)). split_and!; auto.
  - by apply (rbt_to_tn_Inv st _ np).
  - rewrite to_tnode_erase. by apply (to_tuple_Inv st _ np).
  - rewrite to_tnode_inorder. by rewrite (tree_keys_Inv st _ np HI).
Qed.

(** X8. The height of the tree left by any sequence of actions is
    logarithmic in the number of its keys: with [h] the height that
    [_tree_h] computes and [n] the number of keys, 2^(h/2) <= n + 1. *)
Theorem X8_height_logarithmic (steps : list step) :
  exists st t,
    execute_steps steps = Some st /\ _rbt_to_tn st = Some t
    /\ 2 ^ (_tree_h t / 2) <= length (tree_keys st) + 1.
Proof.
  destruct (execute_steps_spec steps) as (st & np0 & E & _).
  destruct (reachable_inv steps st E) as (T & np & HI & HT & Hs).
  exists st, (to_tnode T). split_and!; auto.
  - by apply (rbt_to_tn_Inv st _ np).
  - rewrite to_tnode_height, (tree_keys_Inv st T np HI). by apply rb_height.
Qed.

(** X9. The sequence that the helper search builds for a pair of positions
    that it tries is the permutation with the helper's insert put in after
    [ins_pos] keys and the helper's delete at step [del_pos]: no key of the
    permutation is lost, repeated or moved. *)
Theorem X9_helper_steps_interleave (m : helper_pos_mode) (pl : list Z) (h : Z)
    (ins_pos del_pos : nat) :
  (ins_pos, del_pos) ∈ positions m (length pl) ->
  helper_steps pl h ins_pos del_pos
  = inserts (take ins_pos pl) ++ helper_insert h
      :: inserts (take (del_pos - ins_pos - 1) (drop ins_pos pl))
      ++ helper_delete h :: inserts (drop (del_pos - 1) pl).
Proof.
  intros (H1 & H2 & H3)%positions_spec. by apply helper_steps_spec.
Qed.

Lemma X9_helper_steps_interleave_witness :
  ((1, 3) ∈ positions PosAnywhere (length [7; 8; 9]%Z))
  /\ helper_steps [7; 8; 9]%Z 5 1 3
     = inserts [7]%Z ++ helper_insert 5 :: inserts [8]%Z
         ++ helper_delete 5 :: inserts [9]%Z.
Proof.
  assert (H : (1, 3) ∈ positions PosAnywhere (length [7; 8; 9]%Z)).
  { apply positions_anywhere. simpl. lia. }
  split; [exact H|].
  exact (X9_helper_steps_interleave PosAnywhere [7; 8; 9]%Z 5%Z 1 3 H).
Defined.

(** X10. Whatever the mode, the helper, the prefix filter and the moments at
    which the stop flag is set, every result of the worker is a sequence
    whose execution gives the target fingerprint. *)
Theorem X10_results_reach_target (stop : nat -> bool) (s : search_setup)
    (r : search_result) :
  r ∈ worker stop s -> fingerprint_of (snd r) = Some (target_tuple s).
Proof.
  unfold worker. intros Hr.
  refine (sound_worker_loop stop s _ 0 [] _ r Hr).
  intros ? ?%elem_of_nil. done.
Qed.

Lemma X10_results_reach_target_witness :
  let s := mkSetup [1; 2; 3]%Z (Some 4%Z) ModeBoth PosAnywhere 0 []
             (FTuple (Some 2%Z) BLACK (FTuple (Some 1%Z) BLACK FNone FNone)
                (FTuple (Some 3%Z) BLACK FNone FNone)) in
  let r := (HELPER, inserts [2; 1; 3]%Z
                      ++ [helper_insert 4; helper_delete 4]) in
  r ∈ worker (fun _ => false) s
  /\ fingerprint_of (snd r) = Some (target_tuple s).
Proof.
  intros s r.
  assert (H : r ∈ worker (fun _ => false) s).
  { apply list_elem_of_In. vm_compute. tauto. }
  split; [exact H|].
  exact (X10_results_reach_target (fun _ => false) s r H).
Defined.

(** X11. When the stop flag, once set, stays set, the results of a cancelled
    search are the first results of the search that runs to the end, in the
    same order. *)
Theorem X11_cancelled_results_prefix (stop : nat -> bool) (s : search_setup) :
  stays_set stop ->
  worker stop s `prefix_of` worker (fun _ => false) s.
Proof.
  intros Hstop. unfold worker.
  set (src := if use_prefix s then _ else _).
  destruct (worker_loop_results stop s Hstop src 0 []) as (e & E & Hp & _).
  assert (Hno : stays_set (fun _ : nat => false)) by (intros ? ? ?; done).
  destruct (worker_loop_results (fun _ => false) s Hno src 0 [])
    as (e' & E' & _ & Hf).
  rewrite E, E', (Hf (fun _ => eq_refl)). done.
Qed.

Lemma X11_cancelled_results_prefix_witness :
  let s := mkSetup [1; 2; 3]%Z None ModeDirect PosAnywhere 0 []
             (FTuple (Some 2%Z) BLACK (FTuple (Some 1%Z) RED FNone FNone)
                (FTuple (Some 3%Z) RED FNone FNone)) in
  let stop := fun i => 3 <=? i in
  stays_set stop
  /\ worker stop s `prefix_of` worker (fun _ => false) s.
Proof.
  intros s stop.
  assert (H : stays_set stop).
  { intros i j Hij Hi. unfold stop in *. apply Nat.leb_le in Hi.
    apply Nat.leb_le. lia. }
  split; [exact H|].
  exact (X11_cancelled_results_prefix stop s H).
Defined.

(** X12. In Direct mode with a prefix filter, for distinct elements and a
    prefix of distinct elements, the search that runs to the end reports the
    permutations of the elements that start with the prefix and whose
    inserts give the target fingerprint, and nothing else. *)
Theorem X12_direct_search_with_prefix (s : search_setup) :
  mode s = ModeDirect -> use_prefix s = true ->
  NoDup (elems s) -> NoDup (prefix_vals s) ->
  (forall x, x ∈ prefix_vals s -> x ∈ elems s) ->
  forall r, r ∈ worker (fun _ => false) s <->
    exists p, r = (DIRECT, inserts p) /\ p ≡ₚ elems s
              /\ prefix_vals s `prefix_of` p
              /\ fingerprint_of (inserts p) = Some (target_tuple s).
Proof.
  intros Hm Hu He Hp Hsub r.
  pose proof (elems_split (elems s) (prefix_vals s) He Hp Hsub) as Hsplit.
  assert (Hno : stays_set (fun _ : nat => false)) by (intros ? ? ?; done).
  unfold worker. rewrite Hu.
  set (rem := filter _ (elems s)) in *.
  destruct (worker_loop_results (fun _ => false) s Hno (permutations rem) 0 [])
    as (e & E & _ & Hf).
  rewrite E, (Hf (fun _ => eq_refl)). simpl.
  rewrite list_elem_of_In, in_flat_map.
  assert (Hpr : forall raw, perm_results s raw
            = if direct_match (target_tuple s) (prefix_vals s ++ raw)
              then [(DIRECT, inserts (prefix_vals s ++ raw))] else []).
  { intros raw. unfold perm_results, direct_results, helper_part_results.
    rewrite Hu, Hm. destruct (helper_val s); by rewrite app_nil_r. }
  split.
  - intros (raw & Hraw & Hr). rewrite Hpr in Hr.
    apply list_elem_of_In, permutations_spec in Hraw.
    destruct (direct_match _ _) eqn:Ed; [|done].
    destruct Hr as [<-|[]]. exists (prefix_vals s ++ raw). split_and!; auto.
    + by rewrite Hsplit, Hraw.
    + by apply prefix_app_r.
    + by apply direct_match_spec.
  - intros (p & -> & Hperm & [raw ->] & Hfp). exists raw. split.
    + apply list_elem_of_In, permutations_spec.
      apply (Permutation_app_inv_l (prefix_vals s)). by rewrite Hperm.
    + rewrite Hpr. apply direct_match_spec in Hfp. rewrite Hfp. by left.
Qed.

Lemma X12_direct_search_with_prefix_witness :
  let s := mkSetup [1; 2; 3]%Z None ModeDirect PosAnywhere 1 [2]%Z
             (FTuple (Some 2%Z) BLACK (FTuple (Some 1%Z) RED FNone FNone)
                (FTuple (Some 3%Z) RED FNone FNone)) in
  mode s = ModeDirect /\ use_prefix s = true
  /\ NoDup (elems s) /\ NoDup (prefix_vals s)
  /\ (forall x, x ∈ prefix_vals s -> x ∈ elems s)
  /\ (DIRECT, inserts [2; 3; 1]%Z) ∈ worker (fun _ => false) s.
Proof.
  intros s.
  assert (H1 : NoDup (elems s)) by compute_done.
  assert (H2 : NoDup (prefix_vals s)) by compute_done.
  assert (H3 : forall x, x ∈ prefix_vals s -> x ∈ elems s).
  { intros x Hx. apply list_elem_of_singleton in Hx. subst x. compute_done. }
  split_and!; auto.
  apply (X12_direct_search_with_prefix s eq_refl eq_refl H1 H2 H3).
  exists [2; 3; 1]%Z. split_and!; [done| |by exists [3; 1]%Z|by vm_compute].
  simpl. change [2; 3; 1]%Z with ([2; 3]%Z ++ [1]%Z).
  rewrite Permutation_app_comm. done.
Defined.

(** X13. [_validate_target_tree] accepts a target exactly when it is not
    empty, its root is BLACK, no RED node has a RED child, the black heights
    agree everywhere, and its in-order keys increase strictly; the separate
    check for duplicate keys never decides. *)
Theorem X13_validate_target_tree (t : TNode) :
  fst (_validate_target_tree t) = true <->
  t <> TNull /\ (exists h, col_ok t BLACK h)
  /\ strictly_increasing (_inorder t []).
Proof. rewrite validate_target_spec, valid_coloring_spec. done. Qed.

(** X14. A tree that the executor builds by a sequence which never inserts
    a key that is present, shown as a [TNode] tree by [_rbt_to_tn], passes
    [_validate_target_tree] unless it is empty: such a tree can be searched
    for. *)
Theorem X14_engine_trees_are_valid_targets (steps : list step) :
  fresh_inserts [] steps ->
  exists st t,
    execute_steps steps = Some st /\ _rbt_to_tn st = Some t
    /\ (t = TNull \/ fst (_validate_target_tree t) = true).
Proof.
  intros Hf.
  destruct (execute_steps_strict steps Hf) as (st & T & np & E & HI & HT & Hs & _).
  exists st, (to_tnode T). split; [done|].
  split; [by apply (rbt_to_tn_Inv st T np)|].
  destruct T as [|a c l k r]; [by left|right].
  apply validate_target_spec. split_and!; [done| |].
  - by apply valid_coloring_to_tnode.
  - by rewrite to_tnode_inorder.
Qed.

Lemma X14_engine_trees_are_valid_targets_witness :
  fresh_inserts [] (inserts [5; 3; 8]%Z ++ [(DELETE, 3%Z, false)]) /\
  exists st t,
    execute_steps (inserts [5; 3; 8]%Z ++ [(DELETE, 3%Z, false)]) = Some st
    /\ _rbt_to_tn st = Some t
    /\ (t = TNull \/ fst (_validate_target_tree t) = true).
Proof.
  assert (H : fresh_inserts [] (inserts [5; 3; 8]%Z ++ [(DELETE, 3%Z, false)])).
  { simpl. split_and!; try done; compute_done. }
  split; [exact H|].
  exact (X14_engine_trees_are_valid_targets _ H).
Defined.

(** X15. [_gen_full_tree] with a height of at least 1 builds a tree that
    passes [_validate_target_tree]; its in-order keys are 1, ..., 2^height - 1
    and its height is the height asked for. *)
Theorem X15_gen_full_tree_valid (h : nat) :
  exists t,
    _gen_full_tree (S h) = Some t
    /\ fst (_validate_target_tree t) = true
    /\ _inorder t [] = map Z.of_nat (seq 1 (2 ^ S h - 1))
    /\ _tree_h t = S h.
Proof.
  set (keys := map Z.of_nat (seq 1 (2 ^ S h - 1))).
  exists (_auto_color (perfect keys 0 (S h)) 0).
  assert (Hl : length keys = 2 ^ S h - 1).
  { unfold keys. by rewrite length_map, length_seq. }
  assert (Hin : _inorder (_auto_color (perfect keys 0 (S h)) 0) [] = keys).
  { rewrite auto_color_inorder, perfect_inorder by lia.
    rewrite drop_0, take_ge by lia. done. }
  split_and!.
  - apply gen_full_tree_spec.
  - apply validate_target_spec. split_and!; [done| |].
    + apply valid_coloring_spec. apply auto_color_perfect_root.
    + rewrite Hin. apply seq_increasing.
  - exact Hin.
  - by rewrite auto_color_height, perfect_height.
Qed.

(** X16. [random_valid_rb_coloring] never ends in an exception: whatever the
    random draws are, it returns a tree with the keys and the shape of its
    argument and a BLACK root, and when the shape has a valid colouring at
    all the tree it returns is validly coloured. *)
Theorem X16_sampler_returns_valid (root : TNode) (o : option TNode) :
  o ∈ outcomes (random_valid_rb_coloring root) ->
  exists t', o = Some t' /\ same_shape root t' /\ tn_color t' = BLACK
    /\ ((exists t0, same_shape root t0 /\ valid_coloring t0 = true) ->
        valid_coloring t' = true).
Proof. apply sampler_ok. Qed.

Lemma X16_sampler_returns_valid_witness :
  Some (TN 2 BLACK (TN 1 RED TNull TNull) TNull)
    ∈ outcomes (random_valid_rb_coloring (TN 2 RED (TN 1 RED TNull TNull) TNull))
  /\ exists t', Some (TN 2 BLACK (TN 1 RED TNull TNull) TNull) = Some t'
    /\ same_shape (TN 2 RED (TN 1 RED TNull TNull) TNull) t'
    /\ tn_color t' = BLACK
    /\ ((exists t0, same_shape (TN 2 RED (TN 1 RED TNull TNull) TNull) t0
                    /\ valid_coloring t0 = true) ->
        valid_coloring t' = true).
Proof.
  assert (H : Some (TN 2 BLACK (TN 1 RED TNull TNull) TNull)
    ∈ outcomes (random_valid_rb_coloring (TN 2 RED (TN 1 RED TNull TNull) TNull))).
  { vm_compute. apply list_elem_of_In. simpl. auto. }
  split; [exact H|].
  exact (X16_sampler_returns_valid _ _ H).
Defined.

(** X17. The draws of [random_valid_rb_coloring] are always possible: no
    [randint] gets an empty range and no choice is made among no
    candidates, so that the probabilities of its outcomes add up to 1. *)
Theorem X17_sampler_total_probability (root : TNode) :
  (mass (random_valid_rb_coloring root) == 1)%Q.
Proof. apply sampler_mass. Qed.

(** X18. The animated engine of build.py keeps every invariant on every
    queue of operations that inserts numbers, integers or floats, with
    repeated keys too: the replay returns, and the snapshot of the tree has
    a BLACK root, no RED node with a RED child and equal black heights, and
    its keys increase strictly by [<].  The hypothesis excludes the insert
    of NaN, which [_parse_values] lets through: NaN equals no key, so that
    the engine stores it again at every insert.  A delete of NaN is
    allowed. *)
Theorem X18_animated_engine_invariants (ops : list (action * pykey)) :
  no_nan_inserted ops = true ->
  exists st fp ks,
    BuildF.execute ops = Some st
    /\ BuildF._snapshot st = Some fp
    /\ snap_red_black fp
    /\ BuildF.collect_keys fp = map Some ks /\ keys_increasing ks.
Proof.
  intros Hn.
  destruct (freplay_result (map snd ops ++ []) ops Hn)
    as (st & fp & ks & E & Es & Hrb & _ & Ec & _ & Hinc & _).
  { intros op. apply elem_of_queue_keys. }
  exists st, fp, ks. done.
Qed.

Lemma X18_animated_engine_invariants_witness :
  let ops :=
    [(INSERT, KInt 5); (INSERT, KFloat (FFinite false 3 (-1)));
     (INSERT, KFloat (FFinite false 5 0)); (DELETE, KFloat FNan);
     (INSERT, KFloat (FInf true)); (DELETE, KFloat (FFinite false 3 (-1)))] in
  no_nan_inserted ops = true
  /\ exists st fp ks,
       BuildF.execute ops = Some st
       /\ BuildF._snapshot st = Some fp
       /\ snap_red_black fp
       /\ BuildF.collect_keys fp = map Some ks /\ keys_increasing ks.
Proof.
  intros ops. split; [reflexivity|].
  exact (X18_animated_engine_invariants ops eq_refl).
Defined.

(** X19. On the animated engine, after a queue of operations that inserts no
    NaN, [insert] of a key that equals a key of the tree (by [==]: the float
    5.0 equals the integer 5) returns and leaves the tree as it was: the
    snapshot and the list of keys are the same before and after. *)
Theorem X19_animated_insert_present (ops : list (action * pykey))
    (st : BuildF.RBTreeAnimated) (ks : list pykey) (k : pykey) :
  no_nan_inserted ops = true ->
  BuildF.execute ops = Some st ->
  BuildF.get_all_keys st = Some (map Some ks) ->
  holds ks k = true ->
  exists st',
    BuildF.insert k st = Some (tt, st')
    /\ BuildF._snapshot st' = BuildF._snapshot st
    /\ BuildF.get_all_keys st' = BuildF.get_all_keys st.
Proof.
  intros Hn E Eg Hh.
  assert (Nk : is_nan k = false).
  { unfold holds in Hh. apply existsb_exists in Hh as (y & _ & Hy).
    by apply key_eq_not_nan in Hy as [? _]. }
  destruct (finsert_facts (map snd ops ++ [k]) ops k Hn)
    as (st0 & ks0 & st' & E0 & Eg0 & Ei & H); [|done| |].
  { intros op. apply elem_of_queue_keys. }
  { apply elem_of_app. right. left. }
  rewrite E in E0. injection E0 as <-.
  rewrite Eg in Eg0. injection Eg0 as Eg0. apply map_Some_inj in Eg0 as <-.
  exists st'. split; [done|]. by apply H.
Qed.

Lemma X19_animated_insert_present_witness :
  let ops := [(INSERT, KInt 5); (INSERT, KInt 3)] in
  let k := KFloat (FFinite false 5 0) in
  exists st,
    no_nan_inserted ops = true
    /\ BuildF.execute ops = Some st
    /\ BuildF.get_all_keys st = Some (map Some [KInt 3; KInt 5])
    /\ holds [KInt 3; KInt 5] k = true
    /\ exists st',
         BuildF.insert k st = Some (tt, st')
         /\ BuildF._snapshot st' = BuildF._snapshot st
         /\ BuildF.get_all_keys st' = BuildF.get_all_keys st.
Proof.
  intros ops k.
  destruct (BuildF.execute ops) as [st|] eqn:E; [|by vm_compute in E].
  exists st.
  assert (Hg : BuildF.get_all_keys st = Some (map Some [KInt 3; KInt 5])).
  { vm_compute in E. injection E as <-. by vm_compute. }
  split; [reflexivity|]. split; [reflexivity|]. split; [exact Hg|].
  split; [reflexivity|].
  exact (X19_animated_insert_present ops st [KInt 3; KInt 5] k
           eq_refl E Hg eq_refl).
Defined.

(** X20. On the animated engine, after a queue of operations that inserts no
    NaN, [delete] returns [True] when a key of the tree equals its argument
    (by [==]) and [False] when none does, as for NaN.  Afterwards the keys
    still increase strictly, a key equals a key of the tree exactly when it
    did before and does not equal the deleted key, and the snapshot is
    red-black; when the answer is [False] the snapshot is the one from
    before. *)
Theorem X20_animated_delete_reports (ops : list (action * pykey)) (k : pykey) :
  no_nan_inserted ops = true ->
  exists st ks b st' fp ks',
    BuildF.execute ops = Some st
    /\ BuildF.get_all_keys st = Some (map Some ks)
    /\ BuildF.delete k st = Some (b, st')
    /\ b = holds ks k
    /\ BuildF.get_all_keys st' = Some (map Some ks')
    /\ keys_increasing ks'
    /\ (forall x, holds ks' x = holds ks x && negb (key_eq x k))
    /\ BuildF._snapshot st' = Some fp /\ snap_red_black fp
    /\ (b = false -> BuildF._snapshot st' = BuildF._snapshot st).
Proof.
  intros Hn.
  destruct (fdelete_facts (map snd ops ++ [k]) ops k Hn)
    as (st & ks & b & st' & fp & ks' & E & Eg & Ed & Hb & Es & Hrb & Eg' & Hinc
        & _ & Hf); [| |].
  { intros op. apply elem_of_queue_keys. }
  { apply elem_of_app. right. left. }
  exists st, ks, b, st', fp, ks'. split_and!; auto.
  intros x.
  destruct (fdelete_facts (map snd ops ++ [k; x]) ops k Hn)
    as (st1 & ks1 & b1 & st1' & fp1 & ks1' & E1 & Eg1 & Ed1 & _ & _ & _ & Eg1'
        & _ & Hx & _); [| |].
  { intros op. apply elem_of_queue_keys. }
  { apply elem_of_app. right. left. }
  rewrite E in E1. injection E1 as <-.
  rewrite Eg in Eg1. injection Eg1 as Eg1. apply map_Some_inj in Eg1 as <-.
  rewrite Ed in Ed1. injection Ed1 as _ <-.
  rewrite Eg' in Eg1'. injection Eg1' as Eg1'. apply map_Some_inj in Eg1' as <-.
  apply Hx. apply elem_of_app. right. right. left.
Qed.

Lemma X20_animated_delete_reports_witness :
  let ops := [(INSERT, KInt 5); (INSERT, KFloat (FFinite false 3 (-1)))] in
  let k := KFloat (FFinite false 5 0) in
  no_nan_inserted ops = true
  /\ exists st ks b st' fp ks',
       BuildF.execute ops = Some st
       /\ BuildF.get_all_keys st = Some (map Some ks)
       /\ BuildF.delete k st = Some (b, st')
       /\ b = holds ks k
       /\ BuildF.get_all_keys st' = Some (map Some ks')
       /\ keys_increasing ks'
       /\ (forall x, holds ks' x = holds ks x && negb (key_eq x k))
       /\ BuildF._snapshot st' = Some fp /\ snap_red_black fp
       /\ (b = false -> BuildF._snapshot st' = BuildF._snapshot st).
Proof.
  intros ops k. split; [reflexivity|].
  exact (X20_animated_delete_reports ops k eq_refl).
Defined.

(** X21. On a sequence of actions that never inserts a key which is present,
    the animated engine of build.py and the engine of analyze.py build the
    same tree: the snapshot equals the fingerprint. *)
Theorem X21_engines_agree_without_duplicates (steps : list step) :
  fresh_inserts [] steps ->
  exists fp, fingerprint_of_animated steps = Some fp
             /\ fingerprint_of steps = Some fp.
Proof.
  intros Hf.
  destruct (execute_steps_animated_spec steps) as (st & np & E & HI).
  destruct (execute_steps_spec steps) as (st2 & np2 & E2 & HI2).
  rewrite (bsteps_tree_fresh steps 1 Leaf [] rb_Leaf) in HI; auto.
  2:{ constructor. }
  exists (erase (steps_tree 1 steps Leaf)).
  unfold fingerprint_of_animated, fingerprint_of, snapshot. rewrite E, E2.
  by rewrite (to_tuple_Inv _ _ _ HI), (to_tuple_Inv _ _ _ HI2).
Qed.

Lemma X21_engines_agree_without_duplicates_witness :
  fresh_inserts [] (inserts [5; 3; 8]%Z ++ [(DELETE, 3%Z, false)]) /\
  exists fp,
    fingerprint_of_animated (inserts [5; 3; 8]%Z ++ [(DELETE, 3%Z, false)])
      = Some fp
    /\ fingerprint_of (inserts [5; 3; 8]%Z ++ [(DELETE, 3%Z, false)]) = Some fp.
Proof.
  assert (H : fresh_inserts [] (inserts [5; 3; 8]%Z ++ [(DELETE, 3%Z, false)])).
  { simpl. split_and!; try done; compute_done. }
  split; [exact H|].
  exact (X21_engines_agree_without_duplicates _ H).
Defined.

(** X22. On the animated engine, after every queue of operations that
    inserts no NaN, [get_all_keys] returns the keys of the tree in strictly
    increasing order, [collect_keys] of the snapshot returns the same list,
    and [count_nodes] of the snapshot is its length. *)
Theorem X22_get_all_keys_sorted (ops : list (action * pykey)) :
  no_nan_inserted ops = true ->
  exists st ks fp,
    BuildF.execute ops = Some st
    /\ BuildF.get_all_keys st = Some (map Some ks)
    /\ keys_increasing ks
    /\ BuildF._snapshot st = Some fp
    /\ BuildF.collect_keys fp = map Some ks
    /\ BuildF.count_nodes fp = length ks.
Proof.
  intros Hn.
  destruct (freplay_result (map snd ops ++ []) ops Hn)
    as (st & fp & ks & E & Es & _ & Eg & Ec & En & Hinc & _).
  { intros op. apply elem_of_queue_keys. }
  exists st, ks, fp. done.
Qed.

Lemma X22_get_all_keys_sorted_witness :
  let ops :=
    [(INSERT, KFloat (FFinite false 7 (-2))); (INSERT, KInt 1);
     (INSERT, KInt 2); (INSERT, KFloat (FFinite false 1 0))] in
  no_nan_inserted ops = true
  /\ exists st ks fp,
       BuildF.execute ops = Some st
       /\ BuildF.get_all_keys st = Some (map Some ks)
       /\ keys_increasing ks
       /\ BuildF._snapshot st = Some fp
       /\ BuildF.collect_keys fp = map Some ks
       /\ BuildF.count_nodes fp = length ks.
Proof.
  intros ops. split; [reflexivity|].
  exact (X22_get_all_keys_sorted ops eq_refl).
Defined.

(** X23. [validate_rb] of a snapshot, called without a parent colour,
    answers [(True, n)] exactly when no RED node of the snapshot has a RED
    child and all paths have the same number of BLACK nodes, and then [n] is
    [black_height] of the snapshot plus 1; every other answer is
    [(False, 0)].  The colour of the root is not looked at. *)
Theorem X23_validate_rb_characterised (fp : fingerprint) (n : nat) :
  (validate_rb fp None = (true, n)
   <-> no_red_red fp /\ equal_black_height fp /\ n = black_height fp + 1)
  /\ (fst (validate_rb fp None) = false -> validate_rb fp None = (false, 0)).
Proof.
  split; [|apply validate_rb_false].
  rewrite validate_rb_true, black_height_fp_bh. split.
  - by intros (_ & ? & ? & ?).
  - intros (? & ? & ?). split_and!; auto. done.
Qed.


(** X25. For every snapshot the two numbers of [count_colors] add up to
    [count_nodes], which is also the number of keys that [collect_keys]
    lists. *)
Theorem X25_count_colors_total (fp : fingerprint) :
  fst (count_colors fp) + snd (count_colors fp) = count_nodes fp
  /\ length (collect_keys fp) = count_nodes fp.
Proof.
  split; [apply count_colors_sum|].
  induction fp as [|k c l IHl r IHr]; simpl; [done|].
  rewrite length_app. simpl. lia.
Qed.

(** X26. Every count that [build_dp] stores is exact.  The keys of a table
    are distinct, and the count under the key [(color, bh)] is the number of
    the colourings of the subtree with that root colour and that black
    height in which no RED node has a RED child and the two children of
    every node have the same black height; a key that is missing stands for
    no such colouring. *)
Theorem X26_build_dp_counts_exact (t : TNode) (c : bool) (h : Z) :
  exists L,
    NoDup L
    /\ (forall t', t' ∈ L <-> same_shape t t' /\ col_ok t' c h)
    /\ dp_get (c, h) (build_dp t) = length L
    /\ (forall v, (c, h, v) ∈ build_dp t -> v = length L)
    /\ NoDup (dp_keys (build_dp t)).
Proof.
  destruct (build_dp_exact t c h) as (L & H1 & H2 & H3).
  exists L. split_and!; auto; [|apply build_dp_NoDup].
  intros v Hv. rewrite <- H3. symmetry.
  apply dp_get_elem; [apply build_dp_NoDup|done].
Qed.

(** X27. The number [total] from which the sampler draws the black height
    of the root, the sum of the counts of the root's BLACK entries, is the
    number of the colourings of the shape that [validate_rb_tree] accepts
    with a BLACK root. *)
Theorem X27_total_counts_valid_colorings (root : TNode) :
  sum_by snd (valid_entries root)
  = length (List.filter valid_coloring (colorings root)).
Proof. apply valid_entries_total. Qed.

(** X28. The sampler can return every valid colouring: a colouring of the
    shape that [validate_rb_tree] accepts with a BLACK root is the result of
    [random_valid_rb_coloring] for some random draws. *)
Theorem X28_sampler_reaches_every_valid_coloring (root t0 : TNode) :
  same_shape root t0 -> valid_coloring t0 = true ->
  Some t0 ∈ outcomes (random_valid_rb_coloring root).
Proof. apply sampler_complete. Qed.

Lemma X28_sampler_reaches_every_valid_coloring_witness :
  same_shape (TN 2 RED (TN 1 BLACK TNull TNull) (TN 3 BLACK TNull TNull))
             (TN 2 BLACK (TN 1 RED TNull TNull) (TN 3 RED TNull TNull))
  /\ valid_coloring (TN 2 BLACK (TN 1 RED TNull TNull) (TN 3 RED TNull TNull))
     = true
  /\ Some (TN 2 BLACK (TN 1 RED TNull TNull) (TN 3 RED TNull TNull))
     ∈ outcomes (random_valid_rb_coloring
                   (TN 2 RED (TN 1 BLACK TNull TNull) (TN 3 BLACK TNull TNull))).
Proof.
  assert (H1 : same_shape
            (TN 2 RED (TN 1 BLACK TNull TNull) (TN 3 BLACK TNull TNull))
            (TN 2 BLACK (TN 1 RED TNull TNull) (TN 3 RED TNull TNull))).
  { simpl. done. }
  assert (H2 : valid_coloring
                 (TN 2 BLACK (TN 1 RED TNull TNull) (TN 3 RED TNull TNull))
               = true).
  { vm_compute. reflexivity. }
  split; [exact H1|]. split; [exact H2|].
  exact (X28_sampler_reaches_every_valid_coloring _ _ H1 H2).
Defined.

(** X29. The animated engine holds a set of numbers.  After every queue of
    operations that inserts no NaN, [get_all_keys] lists keys in strictly
    increasing order, and a key equals one of them (by [==]) exactly when it
    equals a key of the set that the queue leaves when every insert adds its
    key unless an equal key is there and every delete takes the equal key
    out. *)
Theorem X29_animated_engine_is_a_set (ops : list (action * pykey)) :
  no_nan_inserted ops = true ->
  exists st ks,
    BuildF.execute ops = Some st
    /\ BuildF.get_all_keys st = Some (map Some ks)
    /\ keys_increasing ks
    /\ (forall x, holds ks x = holds (keys_left ops []) x).
Proof.
  intros Hn.
  destruct (freplay_result (map snd ops ++ []) ops Hn)
    as (st & fp & ks & E & _ & _ & Eg & _ & _ & Hinc & _).
  { intros op. apply elem_of_queue_keys. }
  exists st, ks. split_and!; auto.
  intros x.
  destruct (freplay_result (map snd ops ++ [x]) ops Hn)
    as (st1 & fp1 & ks1 & E1 & _ & _ & Eg1 & _ & _ & _ & Hx).
  { intros op. apply elem_of_queue_keys. }
  rewrite E in E1. injection E1 as <-.
  rewrite Eg in Eg1. injection Eg1 as Eg1. apply map_Some_inj in Eg1 as <-.
  apply Hx. apply elem_of_app. right. left.
Qed.

Lemma X29_animated_engine_is_a_set_witness :
  let ops :=
    [(INSERT, KInt 2); (INSERT, KFloat (FFinite false 1 1));
     (DELETE, KFloat FNan); (DELETE, KFloat (FFinite false 4 (-1)));
     (INSERT, KInt 3)] in
  no_nan_inserted ops = true
  /\ exists st ks,
       BuildF.execute ops = Some st
       /\ BuildF.get_all_keys st = Some (map Some ks)
       /\ keys_increasing ks
       /\ (forall x, holds ks x = holds (keys_left ops []) x).
Proof.
  intros ops. split; [reflexivity|].
  exact (X29_animated_engine_is_a_set ops eq_refl).
Defined.

(** X30. The validator of build.py and the validator of analyze.py agree:
    [validate_rb] accepts the snapshot of a tree exactly when
    [validate_rb_tree] finds no violation in the tree, and then the two
    report the same black height. *)
Theorem X30_validators_agree (t : TNode) :
  fst (validate_rb (tnode_to_tuple t) None) = fst (fst (validate_rb_tree t None))
  /\ (fst (fst (validate_rb_tree t None)) = true ->
      Z.of_nat (snd (validate_rb (tnode_to_tuple t) None))
      = snd (fst (validate_rb_tree t None))).
Proof. apply validators_agree. Qed.
